(** * dingo-store: region storage and query core

    A shallow embedding of the split checker ([split/split_checker.cc]),
    the timestamp provider ([mvcc/ts_provider.cc]), the raw RocksDB writer
    ([engine/raw_rocks_engine.cc]) and the vector reader
    ([vector/vector_reader.cc]), with the properties the specification
    states about them.

    Conventions.  C++ [std::string] keys are [string]s compared byte-wise
    ([String.compare], which is the order of [std::string::compare] and of
    RocksDB's bytewise comparator).  [int64_t] accumulators are integers of
    [Z]; signed overflow is undefined behaviour in C++ and is outside the
    model (a region would need more than 2^31 entries to reach it).
    Unsigned counters wrap and the wrap is written out.  [butil::Status]
    is the inductive [Status]; a failed [CHECK] or [LOG(FATAL)] aborts the
    process and is the outcome [Abort]. *)

From Stdlib Require Import ZArith List String Ascii Lia Bool QArith_base.
From Stdlib Require Import Sorting.Sorted Sorting.Permutation.
From stdpp Require Import base list strings gmap.

Open Scope Z_scope.

(** * Part I: the embedding *)

(** ** Byte-wise order on keys *)

Module KeyOrder.

Definition key_lt (a b : string) : bool := String.ltb a b.
Definition key_le (a b : string) : bool := negb (String.ltb b a).

End KeyOrder.

(** ** Outcomes of a call *)

(** The error codes of [pb::error::Errno] that the modelled functions
    produce. *)
Inductive Errno :=
| OK
| EINTERNAL
| EKEY_EMPTY
| EKEY_NOTFOUND
| EKEY_NOT_FOUND
| EVECTOR_NOT_SUPPORT
| EOTHER (code : Z).

(** [butil::Status]: [Status()] and [Status::OK()] both carry [OK]. *)
Record Status := mkStatus { error_code : Errno }.

Definition StatusOK : Status := mkStatus OK.

Definition ok (s : Status) : bool :=
  match error_code s with OK => true | _ => false end.

(** ** The raw engine iterator

    [engine/iterator.h] and the [RawRocksEngine::Iterator] class are not
    among the sources; the iterator is taken from the specification
    (section 4.3). *)

Module Iterator.

Import KeyOrder.

Record KeyValue := mkKeyValue { kv_key : string; kv_value : string }.

(** A column family at a snapshot: its entries in iteration order. *)
Definition ColumnFamily := list KeyValue.

(** Modelled from the spec: [Iterator(options{lower, upper, snapshot})]
    with [seek], [next], [valid], [key], [value], "bounds are honored".
    The class itself ([RawRocksEngine::Iterator]) is missing from the
    sources.  [pos] is the suffix of the snapshot that starts at the current
    position; a fresh iterator is not positioned. *)
Record t := mk {
  upper_bound : string;
  snapshot : ColumnFamily;
  pos : list KeyValue
}.

Definition NewIterator (cf : ColumnFamily) (upper : string) : t :=
  mk upper cf [].

Fixpoint seek_from (target : string) (l : list KeyValue) : list KeyValue :=
  match l with
  | [] => []
  | kv :: l' => if key_lt (kv_key kv) target then seek_from target l' else l
  end.

Definition Seek (target : string) (it : t) : t :=
  mk (upper_bound it) (snapshot it) (seek_from target (snapshot it)).

Definition Valid (it : t) : bool :=
  match pos it with
  | [] => false
  | kv :: _ => key_lt (kv_key kv) (upper_bound it)
  end.

Definition Next (it : t) : t :=
  mk (upper_bound it) (snapshot it) (tl (pos it)).

Definition Key (it : t) : string :=
  match pos it with [] => EmptyString | kv :: _ => kv_key kv end.

Definition Value (it : t) : string :=
  match pos it with [] => EmptyString | kv :: _ => kv_value kv end.

End Iterator.

(** ** split/split_checker.cc *)

Definition uint32_max : Z := 2 ^ 32.

Definition to_uint32 (z : Z) : Z := z mod uint32_max.

Definition size_of (s : string) : Z := Z.of_nat (String.length s).

Module MergedIterator.

Import KeyOrder.

Record Entry := mkEntry {
  iter_pos : nat;
  key : string;
  value_size : Z
}.

(** [min_heap_] is a [std::priority_queue] of entries.  Its contents are
    kept as a list in ascending key order, so that [top] is the head and
    [pop] the tail.

    Modelled from the spec: "a min-heap of per-CF iterators keyed by the
    encoded key"; the comparison of [Entry] lives in
    [split/split_checker.h], which is missing.  Among entries with the same
    key the one pushed first is served first. *)
Fixpoint heap_push (e : Entry) (h : list Entry) : list Entry :=
  match h with
  | [] => [e]
  | x :: h' => if key_lt (key e) (key x) then e :: h else x :: heap_push e h'
  end.

Record t := mk {
  iters_ : list Iterator.t;
  min_heap_ : list Entry
}.

(** [MergedIterator::MergedIterator]: one iterator per column family, each
    with [options.upper_bound = end_key], all on one snapshot. *)
Definition New (raw_engine : string -> Iterator.ColumnFamily)
    (cf_names : list string) (end_key : string) : t :=
  mk (map (fun cf_name => Iterator.NewIterator (raw_engine cf_name) end_key)
          cf_names)
     [].

(** The private [MergedIterator::Next(IteratorPtr iter, int iter_pos)]:
    push the entry under [iter] and advance [iter]. *)
Definition NextIter (iter_pos : nat) (m : t) : t :=
  match iters_ m !! iter_pos with
  | Some iter =>
      if Iterator.Valid iter then
        mk (<[iter_pos := Iterator.Next iter]> (iters_ m))
           (heap_push (mkEntry iter_pos (Iterator.Key iter)
                                (size_of (Iterator.Value iter)))
                      (min_heap_ m))
      else m
  | None => m
  end.

Definition seek_one (target : string) (m : t) (i : nat) : t :=
  match iters_ m !! i with
  | Some iter =>
      NextIter i (mk (<[i := Iterator.Seek target iter]> (iters_ m))
                     (min_heap_ m))
  | None => m
  end.

(** [MergedIterator::Seek]: [for (i = 0; i < iters_.size(); ++i)]. *)
Definition Seek (target : string) (m : t) : t :=
  fold_left (seek_one target) (seq 0 (length (iters_ m))) m.

Definition Valid (m : t) : bool :=
  match min_heap_ m with [] => false | _ :: _ => true end.

Definition Next (m : t) : t :=
  match min_heap_ m with
  | [] => m
  | entry :: rest => NextIter (iter_pos entry) (mk (iters_ m) rest)
  end.

Definition Key (m : t) : string :=
  match min_heap_ m with [] => EmptyString | entry :: _ => key entry end.

(** [uint32_t MergedIterator::KeyValueSize()]: the sum is narrowed to 32
    bits on return. *)
Definition KeyValueSize (m : t) : Z :=
  match min_heap_ m with
  | [] => 0
  | entry :: _ => to_uint32 (size_of (key entry) + value_size entry)
  end.

(** Entries that are still to be served: a bound on the number of [Next]
    calls until [Valid] is false. *)
Definition remaining (m : t) : nat :=
  (length (min_heap_ m)
   + list_sum (map (fun it => length (Iterator.pos it)) (iters_ m)))%nat.

(** [for (; iter.Valid(); iter.Next()) body], the loop of the three
    [SplitKey] functions; the body reads [iter.Key()] and
    [iter.KeyValueSize()]. *)
Fixpoint for_each {S : Type} (fuel : nat) (body : S -> string * Z -> S)
    (iter : t) (s : S) : S :=
  match fuel with
  | O => s
  | Datatypes.S fuel' =>
      if Valid iter then
        for_each fuel' body (Next iter) (body s (Key iter, KeyValueSize iter))
      else s
  end.

(** The sequence of [(Key(), KeyValueSize())] the loop visits. *)
Fixpoint walk (fuel : nat) (iter : t) : list (string * Z) :=
  match fuel with
  | O => []
  | Datatypes.S fuel' =>
      if Valid iter then (Key iter, KeyValueSize iter) :: walk fuel' (Next iter)
      else []
  end.

(** The merged stream of a range: [MergedIterator iter(raw_engine, cf_names,
    range.end_key()); iter.Seek(range.start_key())], walked to the end. *)
Definition stream (raw_engine : string -> Iterator.ColumnFamily)
    (cf_names : list string) (start_key end_key : string)
    : list (string * Z) :=
  let iter := Seek start_key (New raw_engine cf_names end_key) in
  walk (remaining iter) iter.

End MergedIterator.

(** A [float] ratio from the configuration is kept as the rational it
    denotes, and the conversion of the product to an integer truncates
    toward zero, as the C++ conversion does; the rounding of the [float]
    product itself is not modelled. *)
Definition scale (n : Z) (ratio : Q) : Z :=
  Z.quot (n * Qnum ratio) (Zpos (Qden ratio)).

Definition neq_string (a b : string) : bool := negb (String.eqb a b).

Definition empty (s : string) : bool := String.eqb s EmptyString.

(** What [SplitKey] hands back: the returned key and the two reference
    parameters [count] and [size]. *)
Record SplitKeyResult := mkSplitKeyResult {
  split_key_of : string;
  count_of : Z;
  size_of_region : Z
}.

Module HalfSplitChecker.

Record t := mk {
  split_threshold_size_ : Z;
  split_chunk_size_ : Z
}.

(** The local variables of [HalfSplitChecker::SplitKey] together with its
    reference parameters. *)
Record Loop := mkLoop {
  size : Z;
  count : Z;
  chunk_size : Z;
  prev_key : string;
  keys : list string;
  is_split : bool
}.

Definition body (c : t) (s : Loop) (e : string * Z) : Loop :=
  let '(iter_key, key_value_size) := e in
  let size1 := size s + key_value_size in
  let chunk1 := chunk_size s + key_value_size in
  let '(chunk2, keys2) :=
    if chunk1 >=? split_chunk_size_ c then (0, keys s ++ [iter_key])
    else (chunk1, keys s) in
  let is_split2 :=
    if size1 >=? split_threshold_size_ c then true else is_split s in
  let '(prev2, count2) :=
    if neq_string (prev_key s) iter_key then (iter_key, to_uint32 (count s + 1))
    else (prev_key s, count s) in
  mkLoop size1 count2 chunk2 prev2 keys2 is_split2.

Definition init (count size : Z) : Loop :=
  mkLoop size count 0 EmptyString [] false.

Definition finish (s : Loop) : SplitKeyResult :=
  let mid := (length (keys s) / 2)%nat in
  let split_key :=
    match keys s with
    | [] => EmptyString
    | _ :: _ => nth mid (keys s) EmptyString
    end in
  mkSplitKeyResult (if is_split s then split_key else EmptyString)
                   (count s) (size s).

(** The state in which the loop of [SplitKey] ends. *)
Definition loop (c : t) (raw_engine : string -> Iterator.ColumnFamily)
    (start_key end_key : string) (cf_names : list string) (count size : Z)
    : Loop :=
  let iter :=
    MergedIterator.Seek start_key
      (MergedIterator.New raw_engine cf_names end_key) in
  MergedIterator.for_each (MergedIterator.remaining iter) (body c)
    iter (init count size).

Definition SplitKey (c : t) (raw_engine : string -> Iterator.ColumnFamily)
    (start_key end_key : string) (cf_names : list string) (count size : Z)
    : SplitKeyResult :=
  finish (loop c raw_engine start_key end_key cf_names count size).

End HalfSplitChecker.

Module SizeSplitChecker.

Record t := mk {
  split_size_ : Z;
  split_ratio_ : Q
}.

Record Loop := mkLoop {
  size : Z;
  count : Z;
  prev_key : string;
  split_key : string;
  is_split : bool
}.

Definition split_pos (c : t) : Z := scale (split_size_ c) (split_ratio_ c).

Definition body (c : t) (s : Loop) (e : string * Z) : Loop :=
  let '(iter_key, key_value_size) := e in
  let size1 := size s + key_value_size in
  let '(split_key2, is_split2) :=
    if empty (split_key s) && (size1 >=? split_pos c) then
      (iter_key, is_split s)
    else if size1 >=? split_size_ c then (split_key s, true)
    else (split_key s, is_split s) in
  let '(prev2, count2) :=
    if neq_string (prev_key s) iter_key then (iter_key, to_uint32 (count s + 1))
    else (prev_key s, count s) in
  mkLoop size1 count2 prev2 split_key2 is_split2.

Definition init (count size : Z) : Loop :=
  mkLoop size count EmptyString EmptyString false.

Definition finish (s : Loop) : SplitKeyResult :=
  mkSplitKeyResult (if is_split s then split_key s else EmptyString)
                   (count s) (size s).

(** The state in which the loop of [SplitKey] ends. *)
Definition loop (c : t) (raw_engine : string -> Iterator.ColumnFamily)
    (start_key end_key : string) (cf_names : list string) (count size : Z)
    : Loop :=
  let iter :=
    MergedIterator.Seek start_key
      (MergedIterator.New raw_engine cf_names end_key) in
  MergedIterator.for_each (MergedIterator.remaining iter) (body c)
    iter (init count size).

Definition SplitKey (c : t) (raw_engine : string -> Iterator.ColumnFamily)
    (start_key end_key : string) (cf_names : list string) (count size : Z)
    : SplitKeyResult :=
  finish (loop c raw_engine start_key end_key cf_names count size).

End SizeSplitChecker.

Module KeysSplitChecker.

Record t := mk {
  split_keys_number_ : Z;
  split_keys_ratio_ : Q
}.

Record Loop := mkLoop {
  size : Z;
  count : Z;
  split_key_count : Z;
  prev_key : string;
  split_key : string;
  is_split : bool
}.

(** [uint32_t split_key_number = split_keys_number_ * split_keys_ratio_]. *)
Definition split_key_number (c : t) : Z :=
  to_uint32 (scale (split_keys_number_ c) (split_keys_ratio_ c)).

Definition body (c : t) (s : Loop) (e : string * Z) : Loop :=
  let '(iter_key, key_value_size) := e in
  let '(prev1, kcount1, count1) :=
    if neq_string (prev_key s) iter_key then
      (iter_key, split_key_count s + 1, to_uint32 (count s + 1))
    else (prev_key s, split_key_count s, count s) in
  let size1 := size s + key_value_size in
  let '(split_key2, is_split2) :=
    if empty (split_key s) && (kcount1 >=? split_key_number c) then
      (iter_key, is_split s)
    else if kcount1 =? split_keys_number_ c then (split_key s, true)
    else (split_key s, is_split s) in
  mkLoop size1 count1 kcount1 prev1 split_key2 is_split2.

Definition init (count size : Z) : Loop :=
  mkLoop size count 0 EmptyString EmptyString false.

Definition finish (s : Loop) : SplitKeyResult :=
  mkSplitKeyResult (if is_split s then split_key s else EmptyString)
                   (count s) (size s).

(** The state in which the loop of [SplitKey] ends. *)
Definition loop (c : t) (raw_engine : string -> Iterator.ColumnFamily)
    (start_key end_key : string) (cf_names : list string) (count size : Z)
    : Loop :=
  let iter :=
    MergedIterator.Seek start_key
      (MergedIterator.New raw_engine cf_names end_key) in
  MergedIterator.for_each (MergedIterator.remaining iter) (body c)
    iter (init count size).

Definition SplitKey (c : t) (raw_engine : string -> Iterator.ColumnFamily)
    (start_key end_key : string) (cf_names : list string) (count size : Z)
    : SplitKeyResult :=
  finish (loop c raw_engine start_key end_key cf_names count size).

End KeysSplitChecker.

(** *** Invariants of the merged iterator *)

Module MergedIteratorInv.

Import KeyOrder.

Definition pos_sum (its : list Iterator.t) : nat :=
  list_sum (map (fun it => length (Iterator.pos it)) its).

(** A column family is in key order. *)
Definition sorted_cf (cf : Iterator.ColumnFamily) : Prop :=
  StronglySorted
    (fun a b => key_le (Iterator.kv_key a) (Iterator.kv_key b) = true) cf.

Section Range.

Variables start_key end_key : string.

Definition in_range (k : string) : Prop :=
  key_le start_key k = true /\ key_lt k end_key = true.

Definition iter_ok (it : Iterator.t) : Prop :=
  Iterator.upper_bound it = end_key
  /\ sorted_cf (Iterator.snapshot it)
  /\ Forall (fun kv => key_le start_key (Iterator.kv_key kv) = true)
            (Iterator.pos it).

Definition merged_ok (m : MergedIterator.t) : Prop :=
  Forall (fun e => in_range (MergedIterator.key e)) (MergedIterator.min_heap_ m)
  /\ Forall iter_ok (MergedIterator.iters_ m).

End Range.

End MergedIteratorInv.

(** *** The split policies in the words of the specification

    Section 4.9: "HALF: accumulate total size; every chunk_size bytes,
    remember the current key as a candidate.  If size >= threshold_size,
    split key = candidate at index len(candidates)/2.  SIZE: split key =
    first key where accumulated size >= threshold x split_ratio; commit
    split if size >= threshold."  These definitions follow that text, not
    the code, and are what the code is compared with. *)

Module SplitPolicy.

(** The accumulated key+value size of a stream. *)
Definition total (entries : list (string * Z)) : Z :=
  fold_right (fun e acc => snd e + acc) 0 entries.

(** The keys at which another [chunk_size] bytes have been accumulated;
    [acc] is what has been accumulated since the last candidate. *)
Fixpoint candidates (chunk_size acc : Z) (entries : list (string * Z))
    : list string :=
  match entries with
  | [] => []
  | (k, sz) :: rest =>
      if acc + sz >=? chunk_size then k :: candidates chunk_size 0 rest
      else candidates chunk_size (acc + sz) rest
  end.

Definition half_split_key (threshold_size chunk_size : Z)
    (entries : list (string * Z)) : string :=
  let cs := candidates chunk_size 0 entries in
  if total entries >=? threshold_size then
    nth (length cs / 2)%nat cs EmptyString
  else EmptyString.

(** The first key at which the accumulated size reaches [pos]. *)
Fixpoint first_reaching (pos acc : Z) (entries : list (string * Z)) : string :=
  match entries with
  | [] => EmptyString
  | (k, sz) :: rest =>
      if acc + sz >=? pos then k else first_reaching pos (acc + sz) rest
  end.

Definition size_split_key (threshold split_pos : Z)
    (entries : list (string * Z)) : string :=
  if total entries >=? threshold then first_reaching split_pos 0 entries
  else EmptyString.

End SplitPolicy.

Module SplitCheckTask.

Import KeyOrder.

Inductive StoreRegionState := NORMAL | NOT_NORMAL (state : Z).

Inductive StorageEngine :=
| STORE_ENG_RAFT_STORE
| STORE_ENG_MONO_STORE
| STORE_ENG_MEMORY.

(** What [CheckLeaderAndFollowerStatus] reads from the server. *)
Record RaftNode := mkRaftNode {
  IsLeader : bool;
  ValidateRaftStatusForSplitMerge : Status
}.

(** What [SplitCheck] reads from [region_] and from the server.  The epoch
    version is read twice, before the walk and when the result is
    validated; other threads may change it in between. *)
Record Region := mkRegion {
  Id : Z;
  range_start_key : string;
  range_end_key : string;
  epoch_version_before : Z;
  epoch_version_after : Z;
  DisableChange : bool;
  TemporaryDisableChange : bool;
  State : StoreRegionState;
  GetStoreEngineType : StorageEngine;
  server_has_region : bool;
  raft_store_engine : bool;
  raft_node : option RaftNode;
  enable_region_split_and_merge_for_lite : bool;
  VectorIndexTaskRunningNum : Z
}.

Inductive SplitChecker :=
| HALF (c : HalfSplitChecker.t)
| SIZE (c : SizeSplitChecker.t)
| KEYS (c : KeysSplitChecker.t).

(** The virtual call [split_checker_->SplitKey(...)]. *)
Definition SplitKey (checker : SplitChecker)
    (raw_engine : string -> Iterator.ColumnFamily)
    (start_key end_key : string) (cf_names : list string) (count size : Z)
    : SplitKeyResult :=
  match checker with
  | HALF c => HalfSplitChecker.SplitKey c raw_engine start_key end_key cf_names count size
  | SIZE c => SizeSplitChecker.SplitKey c raw_engine start_key end_key cf_names count size
  | KEYS c => KeysSplitChecker.SplitKey c raw_engine start_key end_key cf_names count size
  end.

(** Modelled from the spec: [Region::CheckKeyInRange] is defined in
    [meta/store_meta_manager.cc], which is missing; the specification has a
    region own the key range [[start, end)] and validate "key in range"
    against it. *)
Definition CheckKeyInRange (region : Region) (key : string) : bool :=
  key_le (range_start_key region) key && key_lt key (range_end_key region).

Definition CheckLeaderAndFollowerStatus (region : Region) : bool :=
  if negb (server_has_region region) then false
  else
    match GetStoreEngineType region with
    | STORE_ENG_MONO_STORE => true
    | STORE_ENG_MEMORY => false
    | STORE_ENG_RAFT_STORE =>
        if negb (raft_store_engine region) then false
        else
          match raft_node region with
          | None => false
          | Some node =>
              if negb (IsLeader node) then false
              else ok (ValidateRaftStatusForSplitMerge node)
          end
    end.

Record SplitRegionRequest := mkSplitRegionRequest {
  split_from_region_id : Z;
  split_watershed_key : string
}.

Record Metrics := mkMetrics {
  SetKeyCount : option Z;
  SetRegionSize : option Z
}.

Inductive Outcome :=
| Abort
| Skipped
| NoSplit (metrics : Metrics) (reason : string)
| SendSplitRegion (metrics : Metrics) (request : SplitRegionRequest).

Section SplitCheck.

(** [mvcc::Codec] and [Helper::GetColumnFamilyNames] are missing from the
    sources and stay parameters of the task. *)
Variable EncodeRange : string * string -> string * string.
Variable DecodeKey : string -> option (string * Z).
Variable GetColumnFamilyNames : string -> list string * list string.
Variable kVectorIndexTaskRunningNumExpectValue : Z.

(** The validation block [do { ... } while (false)]: the reason of the
    first failed check, if any. *)
Definition validate (region : Region) (plain_split_key : string)
    : option string :=
  if empty plain_split_key then Some "split key is empty"%string
  else if negb (epoch_version_after region =? epoch_version_before region) then
    Some "region version change"%string
  else if negb (CheckKeyInRange region plain_split_key) then
    Some "invalid split key, not in region range"%string
  else if DisableChange region then Some "region disable split"%string
  else if TemporaryDisableChange region then
    Some "region temporary disable split"%string
  else if match State region with NORMAL => false | _ => true end then
    Some "region state is not normal"%string
  else if negb (CheckLeaderAndFollowerStatus region) then
    Some "not leader or follower abnormal"%string
  else if match GetStoreEngineType region with
          | STORE_ENG_MONO_STORE =>
              negb (enable_region_split_and_merge_for_lite region)
          | _ => false
          end then
    Some "mono_store region disable split"%string
  else if VectorIndexTaskRunningNum region
          >? kVectorIndexTaskRunningNumExpectValue then
    Some "runing vector index task num too many"%string
  else None.

Definition SplitCheck (region_ : option Region)
    (split_checker_ : option SplitChecker) (region_metrics_ : bool)
    (raw_engine : string -> Iterator.ColumnFamily) : Outcome :=
  match region_, split_checker_ with
  | None, _ => Skipped
  | _, None => Skipped
  | Some region, Some checker =>
      let plain_range := (range_start_key region, range_end_key region) in
      let encode_range := EncodeRange plain_range in
      let '(raw_cf_names, txn_cf_names) :=
        GetColumnFamilyNames (fst encode_range) in
      let cf_names :=
        match txn_cf_names with [] => raw_cf_names | _ :: _ => txn_cf_names end in
      let r := SplitKey checker raw_engine (fst encode_range)
                 (snd encode_range) cf_names 0 0 in
      let encode_split_key := split_key_of r in
      let decoded :=
        if empty encode_split_key then Some EmptyString
        else match DecodeKey encode_split_key with
             | Some (plain_key, ts) => Some plain_key
             | None => None
             end in
      match decoded with
      | None => Abort
      | Some plain_split_key =>
          let metrics :=
            if region_metrics_ then
              mkMetrics (if count_of r >? 0 then Some (count_of r) else None)
                        (if size_of_region r >? 0 then Some (size_of_region r)
                         else None)
            else mkMetrics None None in
          match validate region plain_split_key with
          | Some reason => NoSplit metrics reason
          | None =>
              SendSplitRegion metrics
                (mkSplitRegionRequest (Id region) plain_split_key)
          end
      end
  end.

End SplitCheck.

End SplitCheckTask.

(** *** Example regions *)

Module SplitExamples.

Import SplitCheckTask.

(** A region of one column family whose last entry takes the accumulated
    size past both the split position and the threshold. *)
Definition last_entry_engine (cf_name : string) : Iterator.ColumnFamily :=
  [ Iterator.mkKeyValue "a" "12"; Iterator.mkKeyValue "b" "123456789" ].

Definition last_entry_checker : SizeSplitChecker.t :=
  SizeSplitChecker.mk 10 (Qmake 1 2).

(** The same two keys under the HALF policy, which splits at "b". *)
Definition example_engine (cf_name : string) : Iterator.ColumnFamily :=
  [ Iterator.mkKeyValue "a" "12"; Iterator.mkKeyValue "b" "123456789" ].

Definition example_region : Region :=
  mkRegion 7 "a" "z" 1 1 false false NORMAL STORE_ENG_RAFT_STORE true true
    (Some (mkRaftNode true StatusOK)) false 0.

Definition example_checker : SplitChecker :=
  HALF (HalfSplitChecker.mk 10 5).

End SplitExamples.

(** ** vector/vector_reader.cc *)

Definition uint64_max : Z := 2 ^ 64.

(** The conversion of an [int64_t] flag to [size_t] in a comparison with
    [std::vector::size()]. *)
Definition to_uint64 (z : Z) : Z := z mod uint64_max.

(** A call that returns a status together with the final value of its
    output parameters, or that does not return because a [CHECK] failed. *)
Inductive Ret (A : Type) :=
| Return (status : Status) (out : A)
| Abort.

Arguments Return {A} status out.
Arguments Abort {A}.

Module Pb.

(** [pb::common::Vector]: the payload of a vector.  The [float] and binary
    components are kept as uninterpreted numbers; only their count is
    looked at by the reader. *)
Record Vector := mkVector {
  float_values : list Z;
  binary_values : list Z
}.

(** [pb::common::ScalarValue], compared by
    [Helper::IsEqualVectorScalarValue]. *)
Definition ScalarValue := string.

(** [pb::common::VectorScalardata]: the map [scalar_data]. *)
Definition VectorScalardata := gmap string ScalarValue.

(** [pb::common::VectorTableData]. *)
Record VectorTableData := mkVectorTableData {
  table_key : string;
  table_value : string
}.

(** [pb::common::VectorWithId].  A message field is [None] while it is not
    present in the message. *)
Record VectorWithId := mkVectorWithId {
  id : Z;
  vector : option Vector;
  scalar_data : option VectorScalardata;
  table_data : option VectorTableData
}.

(** A default-constructed message. *)
Definition VectorWithId_default : VectorWithId :=
  mkVectorWithId 0 None None None.

(** [ByteSizeLong() == 0]: in proto3 a message serializes to zero bytes
    exactly when its scalar fields have their default value and no message
    field is present. *)
Definition ByteSizeLong_is_zero (v : VectorWithId) : bool :=
  (id v =? 0)
  && match vector v with None => true | Some _ => false end
  && match scalar_data v with None => true | Some _ => false end
  && match table_data v with None => true | Some _ => false end.

(** [pb::common::VectorWithDistance]; [distance] is a [float], kept as an
    integer of an order-preserving scale (NaN is not modelled). *)
Record VectorWithDistance := mkVectorWithDistance {
  vector_with_id : VectorWithId;
  distance : Z
}.

(** [pb::index::VectorWithDistanceResult]: the repeated field
    [vector_with_distances]. *)
Definition VectorWithDistanceResult := list VectorWithDistance.

Inductive VectorFilter := SCALAR_FILTER | TABLE_FILTER | VECTOR_ID_FILTER.

Inductive VectorFilterType := QUERY_POST | QUERY_PRE.

(** [pb::common::VectorSearchParameter], the fields the reader looks at. *)
Record VectorSearchParameter := mkVectorSearchParameter {
  top_n : Z;
  without_vector_data : bool;
  without_scalar_data : bool;
  without_table_data : bool;
  enable_range_search : bool;
  radius : Z;
  vector_filter : VectorFilter;
  vector_filter_type : VectorFilterType;
  vector_coprocessor : option string;
  use_brute_force : bool;
  selected_keys : list string
}.

Definition has_vector_coprocessor (p : VectorSearchParameter) : bool :=
  match vector_coprocessor p with Some _ => true | None => false end.

End Pb.

Module VectorReader.

Import Pb.

(** [VectorIndex::FilterFunctor]: a predicate on vector ids. *)
Definition FilterFunctor := Z -> bool.

(** The flags of [vector_reader.cc]. *)
Record Flags := mkFlags {
  vector_index_max_range_search_result_count : Z;
  vector_index_bruteforce_batch_count : Z
}.

Definition default_flags : Flags := mkFlags 1024 2048.

(** What the reader calls and is not part of [vector_reader.cc]: the MVCC
    reader [reader_], the codecs, the protobuf parsers, the region's index
    (a [VectorIndexWrapper]), the transient Flat index of the brute-force
    path, and the scalar coprocessor.  A search takes the queries, the
    limit, the filters, the reconstruct flag and the request parameter. *)
Record Env := mkEnv {
  KvGet : string -> Z -> string -> Status * string;
  reader_entries : string -> Z -> Iterator.ColumnFamily;
  GetKeyPrefix : string * string -> ascii;
  PackageVectorKey : ascii -> Z -> Z -> string;
  EncodeRange : string * string -> string * string;
  DecodeVectorIdFromEncodeKeyWithTs : string -> Z;
  UnPackageValue : string -> string;
  ParseVector : string -> option Vector;
  ParseScalar : string -> option VectorScalardata;
  ParseTable : string -> option VectorTableData;
  IsEqualVectorScalarValue : ScalarValue -> ScalarValue -> bool;
  index_Search :
    list VectorWithId -> Z -> list FilterFunctor -> bool ->
    VectorSearchParameter -> Status * list VectorWithDistanceResult;
  index_RangeSearch :
    list VectorWithId -> Z -> list FilterFunctor -> bool ->
    VectorSearchParameter -> Status * list VectorWithDistanceResult;
  flat_Add : list VectorWithId -> Status;
  flat_Search :
    list VectorWithId -> list VectorWithId -> Z -> list FilterFunctor ->
    bool -> VectorSearchParameter -> Status * list VectorWithDistanceResult;
  flat_RangeSearch :
    list VectorWithId -> list VectorWithId -> Z -> list FilterFunctor ->
    bool -> VectorSearchParameter -> Status * list VectorWithDistanceResult;
  coprocessor_Open : string -> Status;
  coprocessor_Filter : string -> VectorScalardata -> Status * bool
}.

(** [region_range.start_key()[0]]. *)
Definition first_char (s : string) : ascii :=
  match s with
  | String c _ => c
  | EmptyString => Ascii.zero
  end.

Definition kVectorDataCF : string := "vector_data".
Definition kVectorScalarCF : string := "vector_scalar".
Definition kVectorTableCF : string := "vector_table".

(** [Engine::VectorReader::Context], the fields of a batch query. *)
Record Context := mkContext {
  ts : Z;
  partition_id : Z;
  region_range : string * string;
  vector_ids : list Z;
  with_vector_data : bool;
  with_scalar_data : bool;
  with_table_data : bool;
  selected_scalar_keys : list string
}.

Section Reader.

Variable env : Env.
Variable flags : Flags.

Definition QueryVectorWithId (ts : Z) (region_range : string * string)
    (partition_id vector_id : Z) (with_vector_data : bool)
    (vector_with_id : VectorWithId) : Ret VectorWithId :=
  let plain_key :=
    PackageVectorKey env (GetKeyPrefix env region_range) partition_id
      vector_id in
  let '(status, plain_value) := KvGet env kVectorDataCF ts plain_key in
  if negb (ok status) then Return status vector_with_id
  else
    let finish v :=
      Return StatusOK
        (mkVectorWithId vector_id (vector v) (scalar_data v) (table_data v)) in
    if with_vector_data then
      match ParseVector env plain_value with
      | None => Abort
      | Some vector =>
          finish (mkVectorWithId (id vector_with_id) (Some vector)
                    (scalar_data vector_with_id) (table_data vector_with_id))
      end
    else finish vector_with_id.

Definition QueryVectorTableData (ts : Z) (region_range : string * string)
    (partition_id : Z) (vector_with_id : VectorWithId) : Ret VectorWithId :=
  let plain_key :=
    PackageVectorKey env (first_char (fst region_range)) partition_id
      (id vector_with_id) in
  let '(status, plain_value) := KvGet env kVectorTableCF ts plain_key in
  if negb (ok status) then Return status vector_with_id
  else
    match ParseTable env plain_value with
    | None => Abort
    | Some vector_table =>
        Return StatusOK
          (mkVectorWithId (id vector_with_id) (vector vector_with_id)
             (scalar_data vector_with_id) (Some vector_table))
    end.

(** [scalar->insert({key, value})] for the selected keys of the stored
    record; [insert] of a protobuf map keeps an entry that is already
    there. *)
Definition select_scalar (selected_scalar_keys : list string)
    (stored present : VectorScalardata) : VectorScalardata :=
  let selected :=
    match selected_scalar_keys with
    | [] => stored
    | _ :: _ =>
        filter (fun kv => fst kv ∈ selected_scalar_keys) stored
    end in
  present ∪ selected.

Definition QueryVectorScalarData (ts : Z) (region_range : string * string)
    (partition_id : Z) (selected_scalar_keys : list string)
    (vector_with_id : VectorWithId) : Ret VectorWithId :=
  let plain_key :=
    PackageVectorKey env (GetKeyPrefix env region_range) partition_id
      (id vector_with_id) in
  let '(status, plain_value) := KvGet env kVectorScalarCF ts plain_key in
  if negb (ok status) then Return status vector_with_id
  else
    match ParseScalar env plain_value with
    | None => Abort
    | Some vector_scalar =>
        Return StatusOK
          (mkVectorWithId (id vector_with_id) (vector vector_with_id)
             (Some (select_scalar selected_scalar_keys vector_scalar
                      (default ∅ (scalar_data vector_with_id))))
             (table_data vector_with_id))
    end.

(** The first loop of [VectorBatchQuery]: one [push_back] per requested
    id, whatever [QueryVectorWithId] returns. *)
Fixpoint query_each (ctx : Context) (vector_ids : list Z)
    (vector_with_ids : list VectorWithId) : Ret (list VectorWithId) :=
  match vector_ids with
  | [] => Return StatusOK vector_with_ids
  | vector_id :: rest =>
      match QueryVectorWithId (ts ctx) (region_range ctx) (partition_id ctx)
              vector_id (with_vector_data ctx) VectorWithId_default with
      | Abort => Abort
      | Return _ vector_with_id =>
          query_each ctx rest (vector_with_ids ++ [vector_with_id])
      end
  end.

(** The loops [for (auto& vector_with_id : vector_with_ids)] that attach
    scalar and table data in place; entries of size zero are skipped and a
    failed query is only logged. *)
Fixpoint attach_each (query : VectorWithId -> Ret VectorWithId)
    (vector_with_ids : list VectorWithId) : Ret (list VectorWithId) :=
  match vector_with_ids with
  | [] => Return StatusOK []
  | vector_with_id :: rest =>
      let continue v :=
        match attach_each query rest with
        | Abort => Abort
        | Return s rest' => Return s (v :: rest')
        end in
      if ByteSizeLong_is_zero vector_with_id then continue vector_with_id
      else
        match query vector_with_id with
        | Abort => Abort
        | Return _ v => continue v
        end
  end.

Definition VectorBatchQuery (ctx : Context)
    (vector_with_ids : list VectorWithId) : Ret (list VectorWithId) :=
  match query_each ctx (vector_ids ctx) vector_with_ids with
  | Abort => Abort
  | Return _ out1 =>
      let scalar_step :=
        if with_scalar_data ctx then
          attach_each
            (QueryVectorScalarData (ts ctx) (region_range ctx)
               (partition_id ctx) (selected_scalar_keys ctx)) out1
        else Return StatusOK out1 in
      match scalar_step with
      | Abort => Abort
      | Return _ out2 =>
          let table_step :=
            if with_table_data ctx then
              attach_each
                (QueryVectorTableData (ts ctx) (region_range ctx)
                   (partition_id ctx)) out2
            else Return StatusOK out2 in
          match table_step with
          | Abort => Abort
          | Return _ out3 => Return StatusOK out3
          end
      end
  end.

(** *** Scalar post filter *)

Definition CompareVectorScalarData (ts : Z) (region_range : string * string)
    (partition_id vector_id : Z) (source_scalar_data : VectorScalardata)
    : Ret bool :=
  let plain_key :=
    PackageVectorKey env (GetKeyPrefix env region_range) partition_id
      vector_id in
  let '(status, plain_value) := KvGet env kVectorScalarCF ts plain_key in
  if negb (ok status) then Return status false
  else
    match ParseScalar env plain_value with
    | None => Abort
    | Some vector_scalar =>
        Return StatusOK
          (forallb
             (fun kv =>
                match vector_scalar !! fst kv with
                | None => false
                | Some value => IsEqualVectorScalarValue env (snd kv) value
                end)
             (map_to_list source_scalar_data))
    end.

Definition CompareVectorScalarDataWithCoprocessor (ts : Z)
    (region_range : string * string) (partition_id vector_id : Z)
    (scalar_coprocessor : string) : Ret bool :=
  let plain_key :=
    PackageVectorKey env (GetKeyPrefix env region_range) partition_id
      vector_id in
  let '(status, plain_value) := KvGet env kVectorScalarCF ts plain_key in
  if negb (ok status) then Return status false
  else
    match ParseScalar env plain_value with
    | None => Abort
    | Some vector_scalar =>
        let '(fstatus, is_reverse) :=
          coprocessor_Filter env scalar_coprocessor vector_scalar in
        Return StatusOK (if negb (ok fstatus) then false else is_reverse)
    end.

(** The inner loop of the post filter over the candidates of one query:
    [compare] is one of the two comparisons above, [kept] is
    [new_vector_with_distance_result]. *)
Fixpoint post_filter_one (compare : Z -> Ret bool)
    (enable_range_search : bool) (top_n : Z)
    (candidates kept : VectorWithDistanceResult)
    : Ret VectorWithDistanceResult :=
  match candidates with
  | [] => Return StatusOK kept
  | temp :: rest =>
      match compare (id (vector_with_id temp)) with
      | Abort => Abort
      | Return status compare_result =>
          if negb (ok status) then Return status kept
          else if negb compare_result then
            post_filter_one compare enable_range_search top_n rest kept
          else
            let kept1 := kept ++ [temp] in
            if negb enable_range_search
               && (Z.of_nat (length kept1) >=? top_n) then
              Return StatusOK kept1
            else
              post_filter_one compare enable_range_search top_n rest kept1
      end
  end.

(** The outer loop [for (auto& vector_with_distance_result : tmp_results)]
    with its [emplace_back]. *)
Fixpoint post_filter (compare : Z -> Ret bool) (enable_range_search : bool)
    (top_n : Z) (tmp_results results : list VectorWithDistanceResult)
    : Ret (list VectorWithDistanceResult) :=
  match tmp_results with
  | [] => Return StatusOK results
  | candidates :: rest =>
      match post_filter_one compare enable_range_search top_n candidates []
      with
      | Abort => Abort
      | Return status kept =>
          if negb (ok status) then Return status results
          else
            post_filter compare enable_range_search top_n rest
              (results ++ [kept])
      end
  end.

(** *** Brute force *)

(** [DistanceResult] with its [operator<]. *)
Record DistanceResult := mkDistanceResult {
  dr_distance : Z;
  dr_vector_with_distance : VectorWithDistance
}.

Definition DistanceResult_lt (result1 result2 : DistanceResult) : bool :=
  if negb (dr_distance result1 =? dr_distance result2) then
    dr_distance result1 <? dr_distance result2
  else
    id (vector_with_id (dr_vector_with_distance result1))
    <? id (vector_with_id (dr_vector_with_distance result2)).

(** [std::priority_queue<DistanceResult>], a max-heap under [operator<]:
    its contents as a list in descending order, [top] the head, [pop] the
    tail. *)
Fixpoint pq_emplace (x : DistanceResult) (q : list DistanceResult)
    : list DistanceResult :=
  match q with
  | [] => [x]
  | y :: q' => if DistanceResult_lt x y then y :: pq_emplace x q' else x :: q
  end.

(** The body of [for (const auto& vector_with_distance : ...)] in
    [BruteForceSearch].  [top()] of an empty queue is undefined in C++; it
    is reached only with [topk = 0], and the queue is then left as it is. *)
Definition merge_candidate (topk : Z) (top_result : list DistanceResult)
    (vector_with_distance : VectorWithDistance) : list DistanceResult :=
  let fresh :=
    mkDistanceResult (distance vector_with_distance) vector_with_distance in
  if Z.of_nat (length top_result) <? topk then pq_emplace fresh top_result
  else
    match top_result with
    | top :: rest =>
        if dr_distance top >? distance vector_with_distance then
          pq_emplace fresh rest
        else top_result
    | [] => top_result
    end.

(** [for (i = 0; i < results_batch.size(); i++)], after
    [CHECK(results_batch.size() == vector_with_ids.size())]. *)
Fixpoint merge_batch {A : Type} (step : A -> VectorWithDistanceResult -> A)
    (results_batch : list VectorWithDistanceResult) (tops : list A) : list A :=
  match results_batch, tops with
  | result :: results_batch', top :: tops' =>
      step top result :: merge_batch step results_batch' tops'
  | _, _ => tops
  end.

(** One transient Flat index: [NewFlat], [AddByParallel], a search, and the
    merge into the per-query accumulators. *)
Definition search_batch {A : Type}
    (search : list VectorWithId -> Status * list VectorWithDistanceResult)
    (step : A -> VectorWithDistanceResult -> A)
    (vector_with_ids vector_with_id_batch : list VectorWithId)
    (tops : list A) : Ret (list A) :=
  let ret := flat_Add env vector_with_id_batch in
  if negb (ok ret) then Return ret tops
  else
    let '(ret, results_batch) := search vector_with_id_batch in
    if negb (ok ret) then Return ret tops
    else if negb (length results_batch =? length vector_with_ids)%nat then Abort
    else Return StatusOK (merge_batch step results_batch tops).

(** The scan [while (iter->Valid()) { ...; iter->Next(); }] over the
    entries the iterator serves. *)
Fixpoint scan_loop {A : Type}
    (search : list VectorWithId -> Status * list VectorWithDistanceResult)
    (step : A -> VectorWithDistanceResult -> A)
    (vector_with_ids : list VectorWithId)
    (entries : list Iterator.KeyValue)
    (vector_with_id_batch : list VectorWithId) (tops : list A)
    : Ret (list VectorWithId * list A) :=
  match entries with
  | [] => Return StatusOK (vector_with_id_batch, tops)
  | kv :: rest =>
      let vector_id :=
        DecodeVectorIdFromEncodeKeyWithTs env (Iterator.kv_key kv) in
      if negb (vector_id >? 0) then Abort
      else
        match ParseVector env (UnPackageValue env (Iterator.kv_value kv)) with
        | None => Abort
        | Some vector =>
            let batch1 :=
              vector_with_id_batch
              ++ [mkVectorWithId vector_id (Some vector) None None] in
            if Z.of_nat (length batch1)
               =? to_uint64 (vector_index_bruteforce_batch_count flags) then
              match search_batch search step vector_with_ids batch1 tops with
              | Abort => Abort
              | Return ret tops1 =>
                  if negb (ok ret) then Return ret (batch1, tops)
                  else scan_loop search step vector_with_ids rest [] tops1
              end
            else scan_loop search step vector_with_ids rest batch1 tops
        end
  end.

(** The entries an iterator serves from its position on. *)
Fixpoint served (upper_bound : string) (pos : list Iterator.KeyValue)
    : list Iterator.KeyValue :=
  match pos with
  | [] => []
  | kv :: rest =>
      if KeyOrder.key_lt (Iterator.kv_key kv) upper_bound then
        kv :: served upper_bound rest
      else []
  end.

(** [results.resize(n)]. *)
Definition resize {A : Type} (n : nat) (d : A) (l : list A) : list A :=
  firstn n l ++ repeat d (n - length l).

(** The scan with the last, partial batch; common to the two brute-force
    searches. *)
Definition brute_force_scan {A : Type}
    (search : list VectorWithId -> Status * list VectorWithDistanceResult)
    (step : A -> VectorWithDistanceResult -> A) (empty_top : A)
    (vector_with_ids : list VectorWithId) (region_range : string * string)
    : Ret (option (list A)) :=
  let encode_range := EncodeRange env region_range in
  let iter :=
    Iterator.Seek (fst encode_range)
      (Iterator.NewIterator (reader_entries env kVectorDataCF 0)
         (snd encode_range)) in
  if negb (Iterator.Valid iter) then Return StatusOK None
  else
    let tops0 := repeat empty_top (length vector_with_ids) in
    match scan_loop search step vector_with_ids
            (served (Iterator.upper_bound iter) (Iterator.pos iter)) []
            tops0 with
    | Abort => Abort
    | Return ret (batch, tops) =>
        if negb (ok ret) then Return ret None
        else
          match batch with
          | [] => Return StatusOK (Some tops)
          | _ :: _ =>
              match search_batch search step vector_with_ids batch tops with
              | Abort => Abort
              | Return ret tops1 =>
                  if negb (ok ret) then Return ret None
                  else Return StatusOK (Some tops1)
              end
          end
    end.

(** The copy of the accumulators into [results]: [results.resize] and one
    [add_vector_with_distances] per accumulated entry. *)
Definition copy_results (lists : list VectorWithDistanceResult)
    (results : list VectorWithDistanceResult)
    : list VectorWithDistanceResult :=
  merge_batch (fun result l => result ++ l) lists
    (resize (length lists) [] results).

Definition BruteForceSearch (vector_with_ids : list VectorWithId) (topk : Z)
    (region_range : string * string) (filters : list FilterFunctor)
    (reconstruct : bool) (parameter : VectorSearchParameter)
    (results : list VectorWithDistanceResult)
    : Ret (list VectorWithDistanceResult) :=
  match brute_force_scan
          (fun batch =>
             flat_Search env batch vector_with_ids topk filters reconstruct
               parameter)
          (fun top_result result =>
             fold_left (merge_candidate topk) result top_result)
          [] vector_with_ids region_range with
  | Abort => Abort
  | Return ret None => Return ret results
  | Return ret (Some top_results) =>
      Return StatusOK
        (copy_results
           (map (fun top_result =>
                   rev (map dr_vector_with_distance top_result))
                top_results)
           results)
  end.

(** The body of the merge loop of [BruteForceRangeSearch]: append while the
    list is shorter than the flag, [break] otherwise. *)
Fixpoint range_append (limit : Z) (top_result : list VectorWithDistance)
    (result : VectorWithDistanceResult) : list VectorWithDistance :=
  match result with
  | [] => top_result
  | vector_with_distance :: rest =>
      if Z.of_nat (length top_result) <? limit then
        range_append limit (top_result ++ [vector_with_distance]) rest
      else top_result
  end.

Definition BruteForceRangeSearch (vector_with_ids : list VectorWithId)
    (radius : Z) (region_range : string * string)
    (filters : list FilterFunctor) (reconstruct : bool)
    (parameter : VectorSearchParameter)
    (results : list VectorWithDistanceResult)
    : Ret (list VectorWithDistanceResult) :=
  match brute_force_scan
          (fun batch =>
             flat_RangeSearch env batch vector_with_ids radius filters
               reconstruct parameter)
          (range_append
             (to_uint64 (vector_index_max_range_search_result_count flags)))
          [] vector_with_ids region_range with
  | Abort => Abort
  | Return ret None => Return ret results
  | Return ret (Some range_rsults) =>
      Return StatusOK (copy_results range_rsults results)
  end.

Definition is_not_support (s : Status) : bool :=
  match error_code s with EVECTOR_NOT_SUPPORT => true | _ => false end.

Definition SearchAndRangeSearchWrapper (region_range : string * string)
    (vector_with_ids : list VectorWithId) (parameter : VectorSearchParameter)
    (vector_with_distance_results : list VectorWithDistanceResult)
    (topk : Z) (filters : list FilterFunctor)
    : Ret (list VectorWithDistanceResult) :=
  let with_vector_data := negb (without_vector_data parameter) in
  if use_brute_force parameter then
    if enable_range_search parameter then
      BruteForceRangeSearch vector_with_ids (radius parameter) region_range
        filters with_vector_data parameter vector_with_distance_results
    else
      BruteForceSearch vector_with_ids topk region_range filters
        with_vector_data parameter vector_with_distance_results
  else if enable_range_search parameter then
    let '(status, results) :=
      index_RangeSearch env vector_with_ids (radius parameter) filters
        with_vector_data parameter in
    if is_not_support status then
      BruteForceRangeSearch vector_with_ids (radius parameter) region_range
        filters with_vector_data parameter vector_with_distance_results
    else if negb (ok status) then Return status vector_with_distance_results
    else Return StatusOK results
  else
    let '(status, results) :=
      index_Search env vector_with_ids topk filters with_vector_data
        parameter in
    if is_not_support status then
      BruteForceSearch vector_with_ids topk region_range filters
        with_vector_data parameter vector_with_distance_results
    else if negb (ok status) then Return status vector_with_distance_results
    else Return StatusOK results.

(** *** SearchVector *)

(** The three pre-filter searches are defined further down in
    [vector_reader.cc]; no property below looks into them and they stay
    parameters: each takes the queries, the request parameter and the
    output list, and returns its status and the output list. *)
Record PreFilterSearch := mkPreFilterSearch {
  DoVectorSearchForVectorIdPreFilter :
    list VectorWithId -> VectorSearchParameter ->
    list VectorWithDistanceResult -> Ret (list VectorWithDistanceResult);
  DoVectorSearchForScalarPreFilter :
    list VectorWithId -> VectorSearchParameter ->
    list VectorWithDistanceResult -> Ret (list VectorWithDistanceResult);
  DoVectorSearchForTableCoprocessor :
    list VectorWithId -> VectorSearchParameter ->
    list VectorWithDistanceResult -> Ret (list VectorWithDistanceResult)
}.

Variable pre : PreFilterSearch.

Definition has_values (v : VectorWithId) : bool :=
  match vector v with
  | None => false
  | Some vec =>
      (0 <? Z.of_nat (length (float_values vec)))
      || (0 <? Z.of_nat (length (binary_values vec)))
  end.

Definition is_key_not_found (s : Status) : bool :=
  match error_code s with EKEY_NOT_FOUND => true | _ => false end.

(** "if vector index does not support restruct vector, we restruct it
    using RocksDB": the inner loop over the entries of one result. *)
Fixpoint reconstruct_one (ts : Z) (region_range : string * string)
    (partition_id : Z) (result : VectorWithDistanceResult)
    : Ret VectorWithDistanceResult :=
  match result with
  | [] => Return StatusOK []
  | vector_with_distance :: rest =>
      let continue v :=
        match reconstruct_one ts region_range partition_id rest with
        | Abort => Abort
        | Return s rest' => Return s (v :: rest')
        end in
      if has_values (vector_with_id vector_with_distance) then
        continue vector_with_distance
      else
        match QueryVectorWithId ts region_range partition_id
                (id (vector_with_id vector_with_distance)) true
                VectorWithId_default with
        | Abort => Abort
        | Return status vector_with_id =>
            if negb (ok status) then
              if is_key_not_found status then continue vector_with_distance
              else Return status (vector_with_distance :: rest)
            else
              continue
                (mkVectorWithDistance vector_with_id
                   (distance vector_with_distance))
        end
  end.

Fixpoint reconstruct_all (ts : Z) (region_range : string * string)
    (partition_id : Z) (results : list VectorWithDistanceResult)
    : Ret (list VectorWithDistanceResult) :=
  match results with
  | [] => Return StatusOK []
  | result :: rest =>
      match reconstruct_one ts region_range partition_id result with
      | Abort => Abort
      | Return status result' =>
          if negb (ok status) then Return status (result' :: rest)
          else
            match reconstruct_all ts region_range partition_id rest with
            | Abort => Abort
            | Return s rest' => Return s (result' :: rest')
            end
      end
  end.

(** [vector_with_ids[0].scalar_data().scalar_data_size()]. *)
Definition scalar_data_size (v : VectorWithId) : Z :=
  Z.of_nat (size (default (∅ : VectorScalardata) (scalar_data v))).

(** The search branches of [SearchVector], up to the reconstruction of the
    vectors; [first] is [vector_with_ids[0]]. *)
Definition search_branches (ts partition_id : Z)
    (region_range : string * string) (first : VectorWithId)
    (vector_with_ids : list VectorWithId) (parameter : VectorSearchParameter)
    (vector_with_distance_results : list VectorWithDistanceResult)
    : Ret (list VectorWithDistanceResult) :=
  match vector_filter parameter, vector_filter_type parameter with
  | SCALAR_FILTER, QUERY_POST =>
      let top_n := top_n parameter in
      let enable_range_search := enable_range_search parameter in
      if (scalar_data_size first =? 0)
         && negb (has_vector_coprocessor parameter) then
        SearchAndRangeSearchWrapper region_range vector_with_ids parameter
          vector_with_distance_results top_n []
      else
        match vector_coprocessor parameter with
        | Some coprocessor =>
            let top_n := to_uint32 (top_n * 10) in
            match SearchAndRangeSearchWrapper region_range vector_with_ids
                    parameter [] top_n [] with
            | Abort => Abort
            | Return status tmp_results =>
                if negb (ok status) then
                  Return status vector_with_distance_results
                else
                  let status := coprocessor_Open env coprocessor in
                  if negb (ok status) then
                    Return status vector_with_distance_results
                  else
                    post_filter
                      (fun temp_id =>
                         CompareVectorScalarDataWithCoprocessor ts region_range
                           partition_id temp_id coprocessor)
                      enable_range_search (Pb.top_n parameter) tmp_results
                      vector_with_distance_results
            end
        | None =>
            let top_n := to_uint32 (top_n * 10) in
            match SearchAndRangeSearchWrapper region_range vector_with_ids
                    parameter [] top_n [] with
            | Abort => Abort
            | Return status tmp_results =>
                if negb (ok status) then
                  Return status vector_with_distance_results
                else
                  post_filter
                    (fun temp_id =>
                       CompareVectorScalarData ts region_range partition_id
                         temp_id
                         (default (∅ : VectorScalardata) (scalar_data first)))
                    enable_range_search (Pb.top_n parameter) tmp_results
                    vector_with_distance_results
            end
        end
  | VECTOR_ID_FILTER, _ =>
      DoVectorSearchForVectorIdPreFilter pre vector_with_ids parameter
        vector_with_distance_results
  | SCALAR_FILTER, QUERY_PRE =>
      DoVectorSearchForScalarPreFilter pre vector_with_ids parameter
        vector_with_distance_results
  | TABLE_FILTER, _ =>
      DoVectorSearchForTableCoprocessor pre vector_with_ids parameter
        vector_with_distance_results
  end.

Definition SearchVector (ts partition_id : Z)
    (region_range : string * string) (vector_with_ids : list VectorWithId)
    (parameter : VectorSearchParameter)
    (vector_with_distance_results : list VectorWithDistanceResult)
    : Ret (list VectorWithDistanceResult) :=
  match vector_with_ids with
  | [] => Return StatusOK vector_with_distance_results
  | first :: _ =>
      let with_vector_data := negb (without_vector_data parameter) in
      match search_branches ts partition_id region_range first
              vector_with_ids parameter vector_with_distance_results with
      | Abort => Abort
      | Return status results =>
          if negb (ok status) then Return status results
          else if with_vector_data then
            reconstruct_all ts region_range partition_id results
          else Return StatusOK results
      end
  end.

(** *** VectorBatchSearch *)

(** [Engine::VectorReader::Context], the fields of a batch search. *)
Record SearchContext := mkSearchContext {
  search_ts : Z;
  search_partition_id : Z;
  search_region_range : string * string;
  vector_with_ids : list VectorWithId;
  parameter : VectorSearchParameter
}.

(** The overloads of [QueryVectorScalarData] and [QueryVectorTableData]
    over a list of results: the status of each single query is dropped. *)
Fixpoint attach_result (query : VectorWithId -> Ret VectorWithId)
    (result : VectorWithDistanceResult) : Ret VectorWithDistanceResult :=
  match result with
  | [] => Return StatusOK []
  | vector_with_distance :: rest =>
      match query (vector_with_id vector_with_distance) with
      | Abort => Abort
      | Return _ v =>
          match attach_result query rest with
          | Abort => Abort
          | Return s rest' =>
              Return s
                (mkVectorWithDistance v (distance vector_with_distance)
                 :: rest')
          end
      end
  end.

Fixpoint attach_results (query : VectorWithId -> Ret VectorWithId)
    (results : list VectorWithDistanceResult)
    : Ret (list VectorWithDistanceResult) :=
  match results with
  | [] => Return StatusOK []
  | result :: rest =>
      match attach_result query result with
      | Abort => Abort
      | Return _ result' =>
          match attach_results query rest with
          | Abort => Abort
          | Return s rest' => Return s (result' :: rest')
          end
      end
  end.

Definition VectorBatchSearch (ctx : SearchContext)
    (results : list VectorWithDistanceResult)
    : Ret (list VectorWithDistanceResult) :=
  match SearchVector (search_ts ctx) (search_partition_id ctx)
          (search_region_range ctx) (vector_with_ids ctx) (parameter ctx)
          results with
  | Abort => Abort
  | Return status results1 =>
      if negb (ok status) then Return status results1
      else
        let scalar_step :=
          if negb (without_scalar_data (parameter ctx)) then
            attach_results
              (QueryVectorScalarData (search_ts ctx) (search_region_range ctx)
                 (search_partition_id ctx) (selected_keys (parameter ctx)))
              results1
          else Return StatusOK results1 in
        match scalar_step with
        | Abort => Abort
        | Return status results2 =>
            if negb (ok status) then Return status results2
            else
              let table_step :=
                if negb (without_table_data (parameter ctx)) then
                  attach_results
                    (QueryVectorTableData (search_ts ctx)
                       (search_region_range ctx) (search_partition_id ctx))
                    results2
                else Return StatusOK results2 in
              match table_step with
              | Abort => Abort
              | Return status results3 =>
                  if negb (ok status) then Return status results3
                  else Return StatusOK results3
              end
        end
  end.

End Reader.

End VectorReader.

(** *** The search pipeline in the words of the specification *)

Module SearchSpec.

Import Pb.

(** Section 4.7, row SCALAR_POST: "for each candidate, load its scalar
    record, evaluate expression or equality map; keep first top_n survivors
    (unless range-search, in which case keep all passing)".  [passes] is
    the outcome of the evaluation for a vector id. *)
Definition keep_survivors (passes : Z -> bool) (enable_range_search : bool)
    (top_n : Z) (candidates : VectorWithDistanceResult)
    : VectorWithDistanceResult :=
  let survivors :=
    List.filter (fun c => passes (id (vector_with_id c))) candidates in
  if enable_range_search then survivors
  else firstn (Z.to_nat top_n) survivors.

Definition scalar_post (passes : Z -> bool) (enable_range_search : bool)
    (top_n : Z) (candidates : list VectorWithDistanceResult)
    : list VectorWithDistanceResult :=
  map (keep_survivors passes enable_range_search top_n) candidates.

(** Section 4.6 and 4.7: a search "returns at most topk per query, sorted
    ascending by distance", the smaller distance being the better one for
    every metric, with "tie-breaks in distance: secondary sort by id
    ascending"; filters are honoured. *)
Definition closer (a b : VectorWithDistance) : bool :=
  (distance a <? distance b)
  || ((distance a =? distance b)
      && (id (vector_with_id a) <? id (vector_with_id b))).

Fixpoint insert_sorted (x : VectorWithDistance)
    (l : list VectorWithDistance) : list VectorWithDistance :=
  match l with
  | [] => [x]
  | y :: l' => if closer x y then x :: l else y :: insert_sorted x l'
  end.

Definition sort_by_distance (l : list VectorWithDistance)
    : list VectorWithDistance :=
  fold_right insert_sorted [] l.

Definition accepted (filters : list (Z -> bool)) (v : VectorWithId) : bool :=
  forallb (fun f => f (id v)) filters.

Definition candidate (distance_to : VectorWithId -> Z) (reconstruct : bool)
    (v : VectorWithId) : VectorWithDistance :=
  mkVectorWithDistance
    (mkVectorWithId (id v) (if reconstruct then vector v else None) None None)
    (distance_to v).

(** Modelled from the spec: the exact search of a Flat index over the
    vectors it holds.  [VectorIndexWrapper], [VectorIndexFactory::NewFlat]
    and the Flat index are missing from the sources.  [metric query v] is
    the distance of [v] from [query] under the metric of the index. *)
Definition exact_search (metric : VectorWithId -> VectorWithId -> Z)
    (vectors queries : list VectorWithId) (topk : Z)
    (filters : list (Z -> bool)) (reconstruct : bool)
    : list VectorWithDistanceResult :=
  map (fun query =>
         firstn (Z.to_nat topk)
           (sort_by_distance
              (map (candidate (metric query) reconstruct)
                   (List.filter (accepted filters) vectors))))
      queries.

End SearchSpec.

(** *** Conditions on the stored records *)

Module VectorReaderInv.

Import Pb VectorReader.

Section BatchQuery.

Variable env : Env.
Variable ctx : Context.

(** The stored values are serialized messages: whatever a column family
    returns with an OK status parses. *)
Definition parses {A : Type} (cf : string) (parse : string -> option A)
    : Prop :=
  forall (key : string) (status : Status) (value : string),
    KvGet env cf (ts ctx) key = (status, value) ->
    ok status = true -> parse value <> None.

Definition data_key (vector_id : Z) : string :=
  PackageVectorKey env (GetKeyPrefix env (region_range ctx))
    (partition_id ctx) vector_id.

(** The vector id has a record in the data column family at [ts]. *)
Definition exists_in_data_cf (vector_id : Z) : bool :=
  ok (fst (KvGet env kVectorDataCF (ts ctx) (data_key vector_id))).

(** The entry the first loop pushes for an id. *)
Definition entry_ok (vector_id : Z) (v : VectorWithId) : Prop :=
  if exists_in_data_cf vector_id then id v = vector_id
  else v = VectorWithId_default.

End BatchQuery.

(** The attaching loops keep the id of every entry and leave an empty
    entry empty. *)
Definition keeps_entry (v v' : VectorWithId) : Prop :=
  id v' = id v /\ (v = VectorWithId_default -> v' = VectorWithId_default).

(** The comparison the post filter of [SearchVector] applies to a
    candidate id: the coprocessor when the request has one, the equality
    map of the first query otherwise. *)
Definition post_compare (env : Env) (ts partition_id : Z)
    (region_range : string * string) (first : VectorWithId)
    (parameter : VectorSearchParameter) (temp_id : Z) : Ret bool :=
  match vector_coprocessor parameter with
  | Some coprocessor =>
      CompareVectorScalarDataWithCoprocessor env ts region_range partition_id
        temp_id coprocessor
  | None =>
      CompareVectorScalarData env ts region_range partition_id temp_id
        (default (∅ : VectorScalardata) (scalar_data first))
  end.

(** The scalar record of the id loads and the comparison has an outcome. *)
Definition compares (compare : Z -> Ret bool) (temp_id : Z) : Prop :=
  exists (status : Status) (compare_result : bool),
    compare temp_id = Return status compare_result /\ ok status = true.

Definition passes (compare : Z -> Ret bool) (temp_id : Z) : bool :=
  match compare temp_id with
  | Return _ compare_result => compare_result
  | Abort => false
  end.

(** The entries the brute-force scan visits: the data column family at
    the latest timestamp, from the start of the encoded range and below its
    end. *)
Definition scanned (env : Env) (region_range : string * string)
    : list Iterator.KeyValue :=
  let encode_range := EncodeRange env region_range in
  served (snd encode_range)
    (Iterator.seek_from (fst encode_range)
       (reader_entries env kVectorDataCF 0)).

(** The record of a data entry decodes: its key carries a positive vector
    id and its value parses. *)
Definition decodes (env : Env) (kv : Iterator.KeyValue) : Prop :=
  DecodeVectorIdFromEncodeKeyWithTs env (Iterator.kv_key kv) > 0
  /\ ParseVector env (UnPackageValue env (Iterator.kv_value kv)) <> None.

(** The transient Flat index accepts every batch and answers every range
    search with one list per query. *)
Definition flat_range_search_answers (env : Env) : Prop :=
  (forall batch, ok (flat_Add env batch) = true)
  /\ (forall batch queries radius filters reconstruct parameter,
        ok (fst (flat_RangeSearch env batch queries radius filters
                   reconstruct parameter)) = true
        /\ length (snd (flat_RangeSearch env batch queries radius filters
                          reconstruct parameter)) = length queries).

(** The search pipeline of the SCALAR_POST row of section 4.7:
    "Index.search(queries, top_n x 10, {}); for each candidate, load its
    scalar record, evaluate expression or equality map; keep first top_n
    survivors (unless range-search, in which case keep all passing)". *)
Definition scalar_post_pipeline (env : Env) (flags : Flags)
    (ts partition_id : Z) (region_range : string * string)
    (first : VectorWithId) (vector_with_ids : list VectorWithId)
    (parameter : VectorSearchParameter)
    : Ret (list VectorWithDistanceResult) :=
  match SearchAndRangeSearchWrapper env flags region_range vector_with_ids
          parameter [] (top_n parameter * 10) [] with
  | Abort => Abort
  | Return status candidates =>
      if negb (ok status) then Return status []
      else
        Return StatusOK
          (SearchSpec.scalar_post
             (passes (post_compare env ts partition_id region_range first
                        parameter))
             (enable_range_search parameter) (top_n parameter) candidates)
  end.

(** *** The brute-force merge *)

Definition vid (c : VectorWithDistance) : Z := id (vector_with_id c).

(** The entry [top_result.emplace(distance, vector_with_distance)] puts in
    the queue. *)
Definition wrap (c : VectorWithDistance) : DistanceResult :=
  mkDistanceResult (distance c) c.

(** The contents of a queue in the order in which [BruteForceSearch]
    writes them to the result: the deque filled by [emplace_front] while
    the queue is popped. *)
Definition drained (top_result : list DistanceResult)
    : list VectorWithDistance :=
  rev (map dr_vector_with_distance top_result).

(** Every entry of the queue was put there by [emplace]. *)
Definition emplaced (top_result : list DistanceResult) : Prop :=
  Forall (fun r => r = wrap (dr_vector_with_distance r)) top_result.

(** Results in strictly ascending order of distance and id. *)
Definition ascending (l : list VectorWithDistance) : Prop :=
  StronglySorted (fun a b => SearchSpec.closer a b = true) l.

(** One of the two is closer than the other. *)
Definition comparable (x z : VectorWithDistance) : Prop :=
  SearchSpec.closer x z = true \/ SearchSpec.closer z x = true.

(** A candidate [c] that arrives while [y] is in the queue does not tie
    with [y] on the distance unless [y] has the smaller id. *)
Definition settled (y c : VectorWithDistance) : Prop :=
  SearchSpec.closer y c = true \/ distance c < distance y.

(** The candidates of a query among some vectors, before sorting. *)
Definition candidates_of (metric : VectorWithId -> VectorWithId -> Z)
    (filters : list FilterFunctor) (reconstruct : bool) (query : VectorWithId)
    (vectors : list VectorWithId) : list VectorWithDistance :=
  map (SearchSpec.candidate (metric query) reconstruct)
      (List.filter (SearchSpec.accepted filters) vectors).

(** The exact top-k of a query among some vectors. *)
Definition top_of (metric : VectorWithId -> VectorWithId -> Z)
    (filters : list FilterFunctor) (reconstruct : bool) (topk : Z)
    (query : VectorWithId) (vectors : list VectorWithId)
    : list VectorWithDistance :=
  firstn (Z.to_nat topk)
    (SearchSpec.sort_by_distance
       (candidates_of metric filters reconstruct query vectors)).

(** The queue of a query holds the exact top-k among the vectors [done]
    searched so far. *)
Definition holds_top (metric : VectorWithId -> VectorWithId -> Z)
    (filters : list FilterFunctor) (reconstruct : bool) (topk : Z)
    (done : list VectorWithId) (query : VectorWithId)
    (top_result : list DistanceResult) : Prop :=
  emplaced top_result
  /\ drained top_result = top_of metric filters reconstruct topk query done.

(** A data entry holds the vector [v]. *)
Definition stored_as (env : Env) (kv : Iterator.KeyValue) (v : VectorWithId)
    : Prop :=
  DecodeVectorIdFromEncodeKeyWithTs env (Iterator.kv_key kv) = id v
  /\ id v > 0
  /\ exists vec : Vector,
       ParseVector env (UnPackageValue env (Iterator.kv_value kv)) = Some vec
       /\ v = mkVectorWithId (id v) (Some vec) None None.

(** The region's index and the transient Flat index are exact searches
    under one metric, the region's index holding [vectors]. *)
Definition exact_indexes (env : Env)
    (metric : VectorWithId -> VectorWithId -> Z)
    (vectors : list VectorWithId) : Prop :=
  (forall queries topk filters reconstruct parameter,
      index_Search env queries topk filters reconstruct parameter
      = (StatusOK,
         SearchSpec.exact_search metric vectors queries topk filters
           reconstruct))
  /\ (forall batch queries topk filters reconstruct parameter,
        flat_Search env batch queries topk filters reconstruct parameter
        = (StatusOK,
           SearchSpec.exact_search metric batch queries topk filters
             reconstruct))
  /\ (forall batch, flat_Add env batch = StatusOK).

(** The request with [use_brute_force] set to [b]. *)
Definition with_use_brute_force (b : bool) (p : VectorSearchParameter)
    : VectorSearchParameter :=
  mkVectorSearchParameter (top_n p) (without_vector_data p)
    (without_scalar_data p) (without_table_data p) (enable_range_search p)
    (radius p) (vector_filter p) (vector_filter_type p) (vector_coprocessor p)
    b (selected_keys p).

End VectorReaderInv.

(** ** mvcc/ts_provider.cc

    The batch list is a lock-free queue.  The embedding runs one call at a
    time: a load reads the current value and a compare-and-exchange on the
    value just loaded succeeds.  What the calls share is the [World]: the
    queue, the answers of the coordinator that are still to come, and the
    number of clock readings and of renewals so far. *)

Module TsProvider.

Record Flags := mkFlags {
  ts_provider_batch_size : Z;
  ts_provider_max_retry_num : Z;
  ts_provider_renew_max_retry_num : Z;
  ts_provider_clean_dead_interval_ms : Z;
  ts_provider_batch_ts_stale_interval_ms : Z
}.

Definition default_flags : Flags := mkFlags 100 16 16 3000 3000.

Definition ComposeTs (physical logical : Z) : Z :=
  Z.shiftl physical 18 + logical.

(** A node of the list.  [start_ts_] is the atomic cursor from which the
    timestamps of the batch are handed out. *)
Record BatchTs := mkBatchTs {
  physical_ : Z;
  start_ts_ : Z;
  end_ts_ : Z;
  create_time_ : Z;
  dead_time_ : Z
}.

(** [pb::meta::TsoResponse]: [start_timestamp] and [count]. *)
Record TsoResponse := mkTsoResponse {
  physical : Z;
  logical : Z;
  count : Z
}.

(** The two queues of [BatchTsList], each as the list of its nodes from
    the head on, with the position of the tail pointer in that list. *)
Record BatchTsList := mkBatchTsList {
  nodes : list BatchTs;
  tail_pos : nat;
  dead_nodes : list BatchTs;
  dead_tail_pos : nat;
  last_physical_ : Z;
  active_count_ : Z;
  dead_count_ : Z
}.

Record World := mkWorld {
  batch_ts_list_ : BatchTsList;
  tso_responses : list (option TsoResponse);
  ticks : nat;
  launches : nat;
  get_ts_count_ : Z;
  get_ts_fail_count_ : Z;
  renew_epoch_ : Z
}.

(** A computation on the world. *)
Definition M (A : Type) : Type := World -> A * World.

Definition ret {A : Type} (a : A) : M A := fun w => (a, w).

Definition bind {A B : Type} (c : M A) (k : A -> M B) : M B :=
  fun w => let '(a, w') := c w in k a w'.

Notation "'let*' x ':=' c 'in' k" := (bind c (fun x => k))
  (at level 10, x name, c at level 100, k at level 200, only parsing).
Notation "c ;;; k" := (bind c (fun _ => k))
  (at level 99, k at level 200, right associativity, only parsing).

Definition get_list : M BatchTsList := fun w => (batch_ts_list_ w, w).

Definition put_list (l : BatchTsList) : M unit :=
  fun w =>
    (tt, mkWorld l (tso_responses w) (ticks w) (launches w) (get_ts_count_ w)
           (get_ts_fail_count_ w) (renew_epoch_ w)).

Section Provider.

Variable flags : Flags.

(** [Helper::TimestampMs()]: the [n]-th reading of the clock. *)
Variable clock : nat -> Z.

(** Whether the worker takes the [n]-th renewal task. *)
Variable worker_executes : nat -> bool.

(** [BatchTsList::IsValid], declared in [mvcc/ts_provider.h], which is
    missing. *)
Variable IsValid : Z -> bool.

Definition TimestampMs : M Z :=
  fun w =>
    (clock (ticks w),
     mkWorld (batch_ts_list_ w) (tso_responses w) (Datatypes.S (ticks w))
       (launches w) (get_ts_count_ w) (get_ts_fail_count_ w) (renew_epoch_ w)).

(** [BatchTs::BatchTs(physical, logical, count)]. *)
Definition BatchTs_New (physical logical count : Z) : M BatchTs :=
  let* now := TimestampMs in
  ret (mkBatchTs physical (ComposeTs physical logical)
         (ComposeTs physical (logical + to_uint32 count)) now 0).

(** Modelled from the spec: [BatchTs::GetTs] lives in [mvcc/ts_provider.h],
    which is missing.  Section 3: "a monotonically increasing cursor yields
    timestamps", "cursor never decreases within a BatchTs"; an exhausted
    batch yields 0.  The result is the timestamp and the batch with its
    cursor advanced. *)
Definition BatchTs_GetTs (batch_ts : BatchTs) : Z * BatchTs :=
  let ts := start_ts_ batch_ts in
  (if ts <? end_ts_ batch_ts then ts else 0,
   mkBatchTs (physical_ batch_ts) (ts + 1) (end_ts_ batch_ts)
     (create_time_ batch_ts) (dead_time_ batch_ts)).

Definition IsStale (batch_ts : BatchTs) : M bool :=
  let* local_physical_time := TimestampMs in
  let* l := get_list in
  if create_time_ batch_ts
     + to_uint32 (ts_provider_batch_ts_stale_interval_ms flags)
     <? local_physical_time then ret true
  else
    ret (physical_ batch_ts
         + to_uint32 (ts_provider_batch_ts_stale_interval_ms flags)
         <? last_physical_ l).

(** The loop of [Push] and of [PushDead] on a queue: help the tail
    forward until it is the last node, then link the new node behind it.
    The tail pointer is not moved onto the new node. *)
Fixpoint push_loop (fuel : nat) (queue : list BatchTs) (tail : nat)
    (batch_ts : BatchTs) : list BatchTs * nat :=
  match fuel with
  | O => (queue, tail)
  | Datatypes.S fuel' =>
      match queue !! Datatypes.S tail with
      | Some tail_next => push_loop fuel' queue (Datatypes.S tail) batch_ts
      | None => (queue ++ [batch_ts], tail)
      end
  end.

Definition Push (batch_ts : BatchTs) : M unit :=
  let* l := get_list in
  let '(queue, tail) :=
    push_loop (length (nodes l)) (nodes l) (tail_pos l) batch_ts in
  put_list (mkBatchTsList queue tail (dead_nodes l) (dead_tail_pos l)
              (physical_ batch_ts) (active_count_ l + 1) (dead_count_ l)).

Definition PushDead (batch_ts : BatchTs) : M unit :=
  let* now := TimestampMs in
  let* l := get_list in
  let dead :=
    mkBatchTs (physical_ batch_ts) (start_ts_ batch_ts) (end_ts_ batch_ts)
      (create_time_ batch_ts) now in
  let '(queue, tail) :=
    push_loop (length (dead_nodes l)) (dead_nodes l) (dead_tail_pos l) dead in
  put_list (mkBatchTsList (nodes l) (tail_pos l) queue tail
              (last_physical_ l) (active_count_ l) (dead_count_ l + 1)).

(** One turn of the [for (;;)] of [BatchTsList::GetTs]: [Some ts] when the
    call returns [ts], [None] when the loop goes round again. *)
Definition GetTs_turn (after_ts : Z) : M (option Z) :=
  let* l := get_list in
  match nodes l with
  | [] => ret (Some 0)
  | head :: rest =>
      let* stale := IsStale head in
      let* l1 := get_list in
      let '(ts, head1) :=
        if stale then (0, head) else BatchTs_GetTs head in
      put_list (mkBatchTsList (head1 :: rest) (tail_pos l1) (dead_nodes l1)
                  (dead_tail_pos l1) (last_physical_ l1) (active_count_ l1)
                  (dead_count_ l1)) ;;;
      if negb stale && (ts >? after_ts) && (ts >? 0) && IsValid ts then
        ret (Some ts)
      else
        match rest with
        | [] => ret (Some 0)
        | head_next :: _ =>
            let* l2 := get_list in
            match tail_pos l2 with
            | O =>
                put_list (mkBatchTsList (nodes l2) 1 (dead_nodes l2)
                            (dead_tail_pos l2) (last_physical_ l2)
                            (active_count_ l2) (dead_count_ l2)) ;;;
                ret None
            | Datatypes.S tail' =>
                put_list (mkBatchTsList rest tail' (dead_nodes l2)
                            (dead_tail_pos l2) (last_physical_ l2)
                            (active_count_ l2 - 1) (dead_count_ l2)) ;;;
                PushDead head1 ;;;
                ret None
            end
        end
  end.

Fixpoint GetTs_loop (fuel : nat) (after_ts : Z) : M Z :=
  match fuel with
  | O => ret 0
  | Datatypes.S fuel' =>
      let* r := GetTs_turn after_ts in
      match r with
      | Some ts => ret ts
      | None => GetTs_loop fuel' after_ts
      end
  end.

(** [BatchTsList::GetTs].  Every turn that does not return moves the tail
    or drops the head, so twice the length of the queue bounds the number
    of turns. *)
Definition BatchTsList_GetTs (after_ts : Z) : M Z :=
  let* l := get_list in
  GetTs_loop (2 * length (nodes l)) after_ts.

(** One turn of the [for (;;)] of [CleanDead]: [true] when it returns. *)
Definition CleanDead_turn : M bool :=
  let* l := get_list in
  match dead_nodes l with
  | [] => ret true
  | head :: rest =>
      let* now := TimestampMs in
      let clean_ms :=
        now - to_uint32 (ts_provider_clean_dead_interval_ms flags) in
      if dead_time_ head >=? clean_ms then ret true
      else
        match rest with
        | [] => ret true
        | _ :: _ =>
            let* l1 := get_list in
            match dead_tail_pos l1 with
            | O =>
                put_list (mkBatchTsList (nodes l1) (tail_pos l1)
                            (dead_nodes l1) 1 (last_physical_ l1)
                            (active_count_ l1) (dead_count_ l1)) ;;;
                ret false
            | Datatypes.S tail' =>
                put_list (mkBatchTsList (nodes l1) (tail_pos l1) rest tail'
                            (last_physical_ l1) (active_count_ l1)
                            (dead_count_ l1 - 1)) ;;;
                ret false
            end
        end
  end.

Fixpoint CleanDead_loop (fuel : nat) : M unit :=
  match fuel with
  | O => ret tt
  | Datatypes.S fuel' =>
      let* finished := CleanDead_turn in
      if finished then ret tt else CleanDead_loop fuel'
  end.

Definition CleanDead : M unit :=
  let* l := get_list in
  CleanDead_loop (2 * length (dead_nodes l)).

(** [SendTsoRequest]: the next answer of the coordinator, [None] when the
    request fails. *)
Definition SendTsoRequest : M (option BatchTs) :=
  fun w =>
    match tso_responses w with
    | [] => (None, w)
    | response :: later =>
        let w' :=
          mkWorld (batch_ts_list_ w) later (ticks w) (launches w)
            (get_ts_count_ w) (get_ts_fail_count_ w) (renew_epoch_ w) in
        match response with
        | None => (None, w')
        | Some r =>
            let '(batch_ts, w'') :=
              BatchTs_New (physical r) (logical r) (count r) w' in
            (Some batch_ts, w'')
        end
    end.

Definition add_renew_epoch : M unit :=
  fun w =>
    (tt, mkWorld (batch_ts_list_ w) (tso_responses w) (ticks w) (launches w)
           (get_ts_count_ w) (get_ts_fail_count_ w) (renew_epoch_ w + 1)).

Fixpoint RenewBatchTs_loop (retries : nat) : M unit :=
  match retries with
  | O => ret tt
  | Datatypes.S retries' =>
      let* batch_ts := SendTsoRequest in
      match batch_ts with
      | None => RenewBatchTs_loop retries'
      | Some b => Push b ;;; add_renew_epoch ;;; CleanDead
      end
  end.

Definition RenewBatchTs : M unit :=
  RenewBatchTs_loop
    (Z.to_nat (to_uint32 (ts_provider_renew_max_retry_num flags))).

(** [LaunchRenewBatchTs]: the task runs [RenewBatchTs] on the worker, when
    the worker takes it.

    Modelled from the spec: [TakeBatchTsTask] is declared in
    [mvcc/ts_provider.h], which is missing; section 4.2 has [renew] run on
    a single worker and the other threads trigger it through
    [launch_renew(sync)]. *)
Definition LaunchRenewBatchTs (is_sync : bool) : M unit :=
  fun w =>
    let w' :=
      mkWorld (batch_ts_list_ w) (tso_responses w) (ticks w)
        (Datatypes.S (launches w)) (get_ts_count_ w) (get_ts_fail_count_ w)
        (renew_epoch_ w) in
    if worker_executes (launches w) then RenewBatchTs w' else (tt, w').

Definition add_get_ts_count : M unit :=
  fun w =>
    (tt, mkWorld (batch_ts_list_ w) (tso_responses w) (ticks w) (launches w)
           (get_ts_count_ w + 1) (get_ts_fail_count_ w) (renew_epoch_ w)).

Definition add_get_ts_fail_count : M unit :=
  fun w =>
    (tt, mkWorld (batch_ts_list_ w) (tso_responses w) (ticks w) (launches w)
           (get_ts_count_ w) (get_ts_fail_count_ w + 1) (renew_epoch_ w)).

(** The loop [for (; retry_count < FLAGS_ts_provider_max_retry_num;
    ++retry_count)] of [TsProvider::GetTs]. *)
Fixpoint GetTs_retry (retries : nat) (after_ts : Z) : M Z :=
  match retries with
  | O => add_get_ts_fail_count ;;; ret 0
  | Datatypes.S retries' =>
      let* ts := BatchTsList_GetTs after_ts in
      if ts >? 0 then add_get_ts_count ;;; ret ts
      else LaunchRenewBatchTs true ;;; GetTs_retry retries' after_ts
  end.

Definition max_retry : nat :=
  Z.to_nat (to_uint32 (ts_provider_max_retry_num flags)).

Definition GetTs (after_ts : Z) : M Z := GetTs_retry max_retry after_ts.

(** A sequence of calls of [GetTs], one after the other, with the values
    they return. *)
Fixpoint GetTs_calls (after_tss : list Z) : M (list Z) :=
  match after_tss with
  | [] => ret []
  | after_ts :: later =>
      let* ts := GetTs after_ts in
      let* tss := GetTs_calls later in
      ret (ts :: tss)
  end.

End Provider.

(** *** Timestamps that are still to be handed out *)

(** The timestamps a batch can still yield: from its cursor up to its
    end. *)
Definition range_of_batch (b : BatchTs) : Z * Z := (start_ts_ b, end_ts_ b).

Definition range_of_response (r : TsoResponse) : Z * Z :=
  (ComposeTs (physical r) (logical r),
   ComposeTs (physical r) (logical r + to_uint32 (count r))).

Fixpoint answered (responses : list (option TsoResponse))
    : list TsoResponse :=
  match responses with
  | [] => []
  | Some r :: later => r :: answered later
  | None :: later => answered later
  end.

Definition ranges (w : World) : list (Z * Z) :=
  map range_of_batch (nodes (batch_ts_list_ w))
  ++ map range_of_response (answered (tso_responses w)).

Definition within (t : Z) (r : Z * Z) : Prop := fst r <= t < snd r.

Definition available (w : World) (t : Z) : Prop := Exists (within t) (ranges w).

(** The coordinator hands out every timestamp once: the batches in the
    queue and those still to come do not overlap. *)
Definition disjoint_batches (w : World) : Prop :=
  ForallOrdPairs (fun r1 r2 => forall t, ~ (within t r1 /\ within t r2))
                 (ranges w).

(** The queue has its head, and the tail pointer is on one of its nodes. *)
Definition well_formed (w : World) : Prop :=
  (tail_pos (batch_ts_list_ w) < length (nodes (batch_ts_list_ w)))%nat.

(** The turns [BatchTsList::GetTs] can still take before it returns. *)
Definition turns_left (w : World) : nat :=
  (2 * length (nodes (batch_ts_list_ w))
   - match tail_pos (batch_ts_list_ w) with O => 0 | Datatypes.S _ => 1 end)%nat.

(** The pieces that only read the clock or work on the dead queue leave
    the queue of batches, the answers to come and the launches alone. *)
Definition untouched (w w' : World) : Prop :=
  nodes (batch_ts_list_ w') = nodes (batch_ts_list_ w)
  /\ tail_pos (batch_ts_list_ w') = tail_pos (batch_ts_list_ w)
  /\ tso_responses w' = tso_responses w
  /\ launches w' = launches w.

(** A batch after one [GetTs]. *)
Definition advanced (head : BatchTs) : BatchTs := snd (BatchTs_GetTs head).

Definition consistent (w : World) : Prop :=
  well_formed w /\ disjoint_batches w.

(** The timestamp a call hands out, if any. *)
Definition issued_of (ts : Z) : list Z := if ts =? 0 then [] else [ts].

(** What a piece of the provider does to the world: it launches [n]
    renewals and hands out the timestamps [issued]; these were available,
    are so no longer, and nothing becomes available that was not. *)
Definition Steps (n : nat) (w : World) (issued : list Z) (w' : World)
    : Prop :=
  launches w' = (launches w + n)%nat
  /\ (consistent w ->
      consistent w'
      /\ (forall t, available w' t -> available w t)
      /\ Forall (fun t => available w t /\ ~ available w' t) issued
      /\ NoDup issued).

(** A world with one batch of three timestamps in the queue and one more
    batch to come. *)
Definition example_world : World :=
  mkWorld
    (mkBatchTsList [mkBatchTs 1 (ComposeTs 1 0) (ComposeTs 1 3) 0 0] 0
       [mkBatchTs 0 0 0 0 0] 0 1 1 0)
    [Some (mkTsoResponse 2 0 2)] 0 0 0 0 0.

End TsProvider.

(** ** engine/raw_rocks_engine.cc *)

Module RawRocksEngine.

(** The contents of one column family of the RocksDB [TransactionDB]. *)
Abbreviation DB := (gmap string string).

(** [rocksdb::Status] as the writer tells its values apart. *)
Inductive RocksStatus :=
| rocks_ok
| rocks_NotFound
| rocks_other.

(** What RocksDB may report besides the contents of the store: a
    transaction that cannot begin, a read that fails (a lock that cannot
    be taken, an I/O error), a write or a commit that fails. *)
Record Faults := mkFaults {
  BeginTransaction_null : bool;
  GetForUpdate_fails : bool;
  Put_fails : bool;
  Commit_fails : bool
}.

Definition no_faults : Faults := mkFaults false false false false.

(** [pb::common::KeyValue]. *)
Record KeyValue := mkKeyValue { key : string; value : string }.

(** What a writer call hands back: the status, the reference parameter
    [key_state] and the store. *)
Record Outcome := mkOutcome {
  status : Status;
  key_state : bool;
  db : DB
}.

(** [txn->GetForUpdate(read_options, cf, key, &old_value)]. *)
Definition GetForUpdate (faults : Faults) (store : DB) (k : string)
    : RocksStatus * string :=
  if GetForUpdate_fails faults then (rocks_other, EmptyString)
  else
    match store !! k with
    | Some old_value => (rocks_ok, old_value)
    | None => (rocks_NotFound, EmptyString)
    end.

(** [new_value] is the parameter [value] of the source. *)
Definition KvCompareAndSetInternal (faults : Faults) (store : DB)
    (kv : KeyValue) (new_value : string) (is_key_exist : bool)
    (key_state : bool) : Outcome :=
  if empty (key kv) then mkOutcome (mkStatus EKEY_EMPTY) key_state store
  else
    let key_state := false in
    if BeginTransaction_null faults then
      mkOutcome (mkStatus EINTERNAL) key_state store
    else
      let '(s, old_value) := GetForUpdate faults store (key kv) in
      let write_key :=
        if neq_string (value kv) old_value then
          (* txn->Rollback() *)
          mkOutcome (mkStatus EINTERNAL) key_state store
        else if Put_fails faults then
          mkOutcome (mkStatus EINTERNAL) key_state store
        else if Commit_fails faults then
          mkOutcome (mkStatus EINTERNAL) key_state store
        else mkOutcome StatusOK true (<[key kv := new_value]> store) in
      match s with
      | rocks_ok =>
          if negb is_key_exist then
            (* txn->Rollback(); "The key already exists, the client requests
               not to return an error code and key_state set false" *)
            mkOutcome StatusOK false store
          else write_key
      | rocks_NotFound =>
          if is_key_exist
             || (negb is_key_exist && negb (empty (value kv))) then
            mkOutcome (mkStatus EKEY_NOTFOUND) key_state store
          else write_key
      | rocks_other => mkOutcome (mkStatus EINTERNAL) key_state store
      end.

Definition KvPutIfAbsent (faults : Faults) (store : DB) (kv : KeyValue)
    (key_state : bool) : Outcome :=
  let internal_kv := mkKeyValue (key kv) EmptyString in
  KvCompareAndSetInternal faults store internal_kv (value kv) false key_state.

(** [KvPut]: a single [Put] through the transaction database. *)
Definition KvPut (faults : Faults) (store : DB) (kv : KeyValue)
    : Status * DB :=
  if empty (key kv) then (mkStatus EKEY_EMPTY, store)
  else if Put_fails faults then (mkStatus EINTERNAL, store)
  else (StatusOK, <[key kv := value kv]> store).

(** Every write path of the writer rejects the empty key, so a store that
    is written through it holds none. *)
Definition no_empty_key (store : DB) : Prop := store !! EmptyString = None.

(** A store with one key. *)
Definition example_store : DB := {[ "k"%string := "old"%string ]}.

End RawRocksEngine.

(** *** An example vector region *)

Module VectorExamples.

Import Pb VectorReader.

(** Keys of one byte that carry the vector id. *)
Definition key_of_id (vector_id : Z) : string :=
  String (ascii_of_N (Z.to_N vector_id)) EmptyString.

Definition id_of_key (key : string) : Z :=
  match key with
  | String c _ => Z.of_N (N_of_ascii c)
  | EmptyString => 0
  end.

(** The region stores the vectors 1, 2 and 3. *)
Definition stored (vector_id : Z) : bool :=
  (1 <=? vector_id) && (vector_id <=? 3).

Definition example_KvGet (cf : string) (ts : Z) (key : string)
    : Status * string :=
  if stored (id_of_key key) then (StatusOK, key)
  else (mkStatus EKEY_NOT_FOUND, EmptyString).

Definition example_entries : Iterator.ColumnFamily :=
  map (fun i => Iterator.mkKeyValue (key_of_id i) (key_of_id i)) [1; 2; 3].

(** Vector [i] is the point [10 * i] on a line. *)
Definition example_vector (value : string) : Vector :=
  mkVector [10 * id_of_key value] [].

(** Odd vectors are red, even ones blue. *)
Definition example_scalar (value : string) : VectorScalardata :=
  {[ "color"%string :=
       if Z.odd (id_of_key value) then "red"%string else "blue"%string ]}.

Definition coordinate (v : VectorWithId) : Z :=
  match vector v with
  | Some vec => hd 0 (float_values vec)
  | None => 0
  end.

Definition example_metric (query v : VectorWithId) : Z :=
  Z.abs (coordinate query - coordinate v).

Definition example_vectors : list VectorWithId :=
  map (fun i => mkVectorWithId i (Some (mkVector [10 * i] [])) None None)
      [1; 2; 3].

Definition example_range_search (vectors queries : list VectorWithId)
    (radius : Z) (filters : list FilterFunctor) (reconstruct : bool)
    : list VectorWithDistanceResult :=
  map (fun query =>
         List.filter (fun c => distance c <=? radius)
           (map (SearchSpec.candidate (example_metric query) reconstruct)
                (List.filter (SearchSpec.accepted filters) vectors)))
      queries.

Definition example_env : Env :=
  {| KvGet := example_KvGet;
     reader_entries := fun _ _ => example_entries;
     GetKeyPrefix := fun _ => "r"%char;
     PackageVectorKey := fun _ _ vector_id => key_of_id vector_id;
     EncodeRange := fun r => r;
     DecodeVectorIdFromEncodeKeyWithTs := id_of_key;
     UnPackageValue := fun v => v;
     ParseVector := fun v => Some (example_vector v);
     ParseScalar := fun v => Some (example_scalar v);
     ParseTable := fun v => Some (mkVectorTableData v v);
     IsEqualVectorScalarValue := String.eqb;
     index_Search := fun queries topk filters reconstruct _ =>
       (StatusOK,
        SearchSpec.exact_search example_metric example_vectors queries topk
          filters reconstruct);
     index_RangeSearch := fun queries radius filters reconstruct _ =>
       (StatusOK,
        example_range_search example_vectors queries radius filters
          reconstruct);
     flat_Add := fun _ => StatusOK;
     flat_Search := fun batch queries topk filters reconstruct _ =>
       (StatusOK,
        SearchSpec.exact_search example_metric batch queries topk filters
          reconstruct);
     flat_RangeSearch := fun batch queries radius filters reconstruct _ =>
       (StatusOK,
        example_range_search batch queries radius filters reconstruct);
     coprocessor_Open := fun _ => StatusOK;
     coprocessor_Filter := fun color scalar =>
       (StatusOK,
        match scalar !! "color"%string with
        | Some c => String.eqb c color
        | None => false
        end) |}.

(** An index whose answer shows the limit it was asked for: one candidate
    per query, with the limit as its id; every id has a scalar record. *)
Definition limit_showing_env : Env :=
  {| KvGet := fun _ _ key => (StatusOK, key);
     reader_entries := fun _ _ => example_entries;
     GetKeyPrefix := fun _ => "r"%char;
     PackageVectorKey := fun _ _ vector_id => key_of_id vector_id;
     EncodeRange := fun r => r;
     DecodeVectorIdFromEncodeKeyWithTs := id_of_key;
     UnPackageValue := fun v => v;
     ParseVector := fun v => Some (example_vector v);
     ParseScalar := fun v => Some (example_scalar v);
     ParseTable := fun v => Some (mkVectorTableData v v);
     IsEqualVectorScalarValue := String.eqb;
     index_Search := fun queries topk _ _ _ =>
       (StatusOK,
        map (fun _ =>
               [mkVectorWithDistance (mkVectorWithId topk None None None) 0])
            queries);
     index_RangeSearch := fun queries _ _ _ _ =>
       (StatusOK, map (fun _ => []) queries);
     flat_Add := fun _ => StatusOK;
     flat_Search := fun _ queries _ _ _ _ =>
       (StatusOK, map (fun _ => []) queries);
     flat_RangeSearch := fun _ queries _ _ _ _ =>
       (StatusOK, map (fun _ => []) queries);
     coprocessor_Open := fun _ => StatusOK;
     coprocessor_Filter := fun _ _ => (StatusOK, true) |}.

Definition no_pre_filter : PreFilterSearch :=
  mkPreFilterSearch (fun _ _ results => Return StatusOK results)
    (fun _ _ results => Return StatusOK results)
    (fun _ _ results => Return StatusOK results).

Definition example_range : string * string := (key_of_id 1, key_of_id 9).

Definition example_query : VectorWithId :=
  mkVectorWithId 0 (Some (mkVector [12] [])) None None.

(** A batch query for a stored, a missing and another stored vector. *)
Definition example_context : Context :=
  mkContext 0 0 example_range [2; 7; 3] true true true [].

(** A post-filter request with a coprocessor that keeps the red vectors. *)
Definition red_parameter : VectorSearchParameter :=
  mkVectorSearchParameter 1 true true true false 0 SCALAR_FILTER QUERY_POST
    (Some "red"%string) false [].

(** The request a client sends when it sets no filter: the two enums have
    their zero value, and there is neither scalar data nor coprocessor. *)
Definition plain_parameter : VectorSearchParameter :=
  mkVectorSearchParameter 2 true true true false 0 SCALAR_FILTER QUERY_POST
    None false [].

End VectorExamples.

(** ** engine/raw_rocks_engine.cc: the reader *)

Module RocksReader.

Import KeyOrder.

(** [for (it->Seek(start_key); it->Valid() && it->key() < end_key_view;
    it->Next())]: the entries the loop visits from the position of the
    iterator on.  The iterator has no upper bound of its own and is valid
    until the end of the column family. *)
Fixpoint scan_until (end_key : string) (pos : list Iterator.KeyValue)
    : list Iterator.KeyValue :=
  match pos with
  | [] => []
  | kv :: rest =>
      if key_lt (Iterator.kv_key kv) end_key then
        kv :: scan_until end_key rest
      else []
  end.

(** [Reader::KvGet(snapshot, key, value)]: the status and the reference
    parameter [value].  [Get_fails] is a read that fails with a status
    other than NotFound. *)
Definition KvGet (Get_fails : bool) (snapshot : RawRocksEngine.DB)
    (key value : string) : Status * string :=
  if empty key then (mkStatus EKEY_EMPTY, value)
  else if Get_fails then (mkStatus EINTERNAL, value)
  else
    match snapshot !! key with
    | None => (mkStatus EKEY_NOTFOUND, value)
    | Some pinnable_slice => (StatusOK, pinnable_slice)
    end.

(** [Reader::KvScan(snapshot, start_key, end_key, kvs)] over the entries
    of the column family in iteration order. *)
Definition KvScan (snapshot : Iterator.ColumnFamily)
    (start_key end_key : string) (kvs : list RawRocksEngine.KeyValue)
    : Status * list RawRocksEngine.KeyValue :=
  if empty start_key then (mkStatus EKEY_EMPTY, kvs)
  else if empty end_key then (mkStatus EKEY_EMPTY, kvs)
  else
    (StatusOK,
     kvs
     ++ map (fun it =>
               RawRocksEngine.mkKeyValue (Iterator.kv_key it)
                 (Iterator.kv_value it))
            (scan_until end_key (Iterator.seek_from start_key snapshot))).

(** [Reader::KvCount(snapshot, start_key, end_key, count)]; [count] is set
    to zero by the loop header and counted up once per entry. *)
Definition KvCount (snapshot : Iterator.ColumnFamily)
    (start_key end_key : string) (count : Z) : Status * Z :=
  if empty start_key then (mkStatus EKEY_EMPTY, count)
  else if empty end_key then (mkStatus EKEY_EMPTY, count)
  else
    (StatusOK,
     fold_left (fun count _ => count + 1)
       (scan_until end_key (Iterator.seek_from start_key snapshot)) 0).

(** The keys of the half-open range. *)
Definition in_scan_range (start_key end_key : string)
    (kv : Iterator.KeyValue) : bool :=
  key_le start_key (Iterator.kv_key kv) && key_lt (Iterator.kv_key kv) end_key.

End RocksReader.

(** ** engine/raw_rocks_engine.cc: the writer *)

Module RocksWriter.

Import RawRocksEngine.

(** What RocksDB may report on the calls of the writer that go through a
    [WriteBatch] or straight to the database. *)
Record BatchFaults := mkBatchFaults {
  batch_Put_fails : string -> bool;
  batch_Delete_fails : string -> bool;
  Write_fails : bool;
  Delete_fails : bool
}.

Definition no_batch_faults : BatchFaults :=
  mkBatchFaults (fun _ => false) (fun _ => false) false false.

(** An entry of a [rocksdb::WriteBatch]. *)
Inductive BatchOp :=
| BatchPut (k v : string)
| BatchDelete (k : string).

(** [txn_db_->Write(write_options, &batch)]: the entries take effect in
    the order in which they were added. *)
Definition apply_op (store : DB) (op : BatchOp) : DB :=
  match op with
  | BatchPut k v => <[k := v]> store
  | BatchDelete k => delete k store
  end.

Definition Write (batch : list BatchOp) (store : DB) : DB :=
  fold_left apply_op batch store.

(** [for (const auto& kv : kv_puts)] of [KvBatchPutAndDelete]: the batch,
    or the status with which the function returns. *)
Fixpoint batch_puts (faults : BatchFaults) (kv_puts : list KeyValue)
    (batch : list BatchOp) : Status + list BatchOp :=
  match kv_puts with
  | [] => inr batch
  | kv :: rest =>
      if empty (key kv) then inl (mkStatus EKEY_EMPTY)
      else if batch_Put_fails faults (key kv) then inl (mkStatus EINTERNAL)
      else batch_puts faults rest (batch ++ [BatchPut (key kv) (value kv)])
  end.

(** [for (const auto& kv : kv_deletes)]. *)
Fixpoint batch_deletes (faults : BatchFaults) (kv_deletes : list KeyValue)
    (batch : list BatchOp) : Status + list BatchOp :=
  match kv_deletes with
  | [] => inr batch
  | kv :: rest =>
      if empty (key kv) then inl (mkStatus EKEY_EMPTY)
      else if batch_Delete_fails faults (key kv) then
        inl (mkStatus EINTERNAL)
      else batch_deletes faults rest (batch ++ [BatchDelete (key kv)])
  end.

Definition KvBatchPutAndDelete (faults : BatchFaults) (store : DB)
    (kv_puts kv_deletes : list KeyValue) : Status * DB :=
  match kv_puts, kv_deletes with
  | [], [] => (mkStatus EKEY_EMPTY, store)
  | _, _ =>
      match batch_puts faults kv_puts [] with
      | inl status => (status, store)
      | inr batch =>
          match batch_deletes faults kv_deletes batch with
          | inl status => (status, store)
          | inr batch =>
              if Write_fails faults then (mkStatus EINTERNAL, store)
              else (StatusOK, Write batch store)
          end
      end
  end.

Definition KvBatchPut (faults : BatchFaults) (store : DB)
    (kvs : list KeyValue) : Status * DB :=
  KvBatchPutAndDelete faults store kvs [].

Definition KvBatchDelete (faults : BatchFaults) (store : DB)
    (keys : list string) : Status * DB :=
  let kvs := map (fun key => mkKeyValue key EmptyString) keys in
  KvBatchPutAndDelete faults store [] kvs.

Definition KvDelete (faults : BatchFaults) (store : DB) (key : string)
    : Status * DB :=
  if empty key then (mkStatus EKEY_EMPTY, store)
  else if Delete_fails faults then (mkStatus EINTERNAL, store)
  else (StatusOK, delete key store).

Definition KvCompareAndSet (faults : Faults) (store : DB) (kv : KeyValue)
    (new_value : string) (key_state : bool) : Outcome :=
  KvCompareAndSetInternal faults store kv new_value true key_state.

(** [KvDeleteIfEqual]; [txn_Delete_fails] is a failing [txn->Delete]. *)
Definition KvDeleteIfEqual (faults : Faults) (txn_Delete_fails : bool)
    (store : DB) (kv : KeyValue) : Status * DB :=
  if empty (key kv) then (mkStatus EKEY_EMPTY, store)
  else if BeginTransaction_null faults then (mkStatus EINTERNAL, store)
  else
    let '(s, old_value) := GetForUpdate faults store (key kv) in
    match s with
    | rocks_NotFound => (mkStatus EKEY_NOTFOUND, store)
    | rocks_other => (mkStatus EINTERNAL, store)
    | rocks_ok =>
        if neq_string (value kv) old_value then (mkStatus EINTERNAL, store)
        else if txn_Delete_fails then (mkStatus EINTERNAL, store)
        else if Commit_fails faults then (mkStatus EINTERNAL, store)
        else (StatusOK, delete (key kv) store)
    end.

(** The state of the loop of [KvBatchPutIfAbsent]: the index [i], the
    reference parameter [key_states] ([states]) and the transaction, as the store with
    the writes of the transaction so far.  [GetForUpdate] on a transaction
    sees these writes. *)
Record PutIfAbsentLoop := mkPutIfAbsentLoop {
  index : nat;
  states : list bool;
  txn : DB
}.

(** [for (const auto& kv : kvs)]: the final state, or the status and the
    [key_states] with which the function returns after a rollback.
    [key_states.resize(kvs.size(), false)] on a vector of that size changes
    nothing. *)
Fixpoint put_if_absent_loop (faults : Faults) (is_atomic : bool) (n : nat)
    (kvs : list KeyValue) (s : PutIfAbsentLoop)
    : Status * list bool + PutIfAbsentLoop :=
  match kvs with
  | [] => inr s
  | kv :: rest =>
      let '(status, value_old) := GetForUpdate faults (txn s) (key kv) in
      let IsNotFound :=
        match status with rocks_NotFound => true | _ => false end in
      let put_key :=
        if Put_fails faults then
          inl (mkStatus EINTERNAL,
               if is_atomic then VectorReader.resize n false (states s)
               else states s)
        else
          put_if_absent_loop faults is_atomic n rest
            (mkPutIfAbsentLoop (Datatypes.S (index s))
               (<[index s := true]> (states s))
               (<[key kv := value kv]> (txn s))) in
      if is_atomic then
        if negb IsNotFound then
          inl (mkStatus EINTERNAL,
               VectorReader.resize n false (states s))
        else put_key
      else if negb IsNotFound then
        put_if_absent_loop faults is_atomic n rest
          (mkPutIfAbsentLoop (Datatypes.S (index s)) (states s) (txn s))
      else put_key
  end.

(** [KvBatchPutIfAbsent]: the status, the reference parameter
    [key_states] and the store. *)
Definition KvBatchPutIfAbsent (faults : Faults) (store : DB)
    (kvs : list KeyValue) (key_states : list bool) (is_atomic : bool)
    : Status * list bool * DB :=
  match kvs with
  | [] => (mkStatus EKEY_EMPTY, key_states, store)
  | _ :: _ =>
      if existsb (fun kv => empty (key kv)) kvs then
        (mkStatus EKEY_EMPTY, key_states, store)
      else
        let key_states := VectorReader.resize (length kvs) false key_states in
        if BeginTransaction_null faults then
          (mkStatus EINTERNAL, key_states, store)
        else
          match put_if_absent_loop faults is_atomic (length kvs) kvs
                  (mkPutIfAbsentLoop 0 key_states store) with
          | inl (status, key_states) => (status, key_states, store)
          | inr s =>
              if Commit_fails faults then
                (mkStatus EINTERNAL,
                 VectorReader.resize (length kvs) false (states s),
                 store)
              else (StatusOK, states s, txn s)
          end
  end.

(** The first value a batch holds for a key. *)
Fixpoint first_value (k : string) (kvs : list KeyValue) : option string :=
  match kvs with
  | [] => None
  | kv :: rest =>
      if String.eqb (key kv) k then Some (value kv) else first_value k rest
  end.

(** The last value a batch holds for a key. *)
Definition last_value (k : string) (kvs : list KeyValue) : option string :=
  first_value k (rev kvs).

Definition has_key (k : string) (kvs : list KeyValue) : bool :=
  existsb (fun kv => String.eqb (key kv) k) kvs.

(** The entry at index [i] of a batch is the one that creates its key:
    the key is not in the store and no earlier entry has it. *)
Definition written (store : DB) (kvs : list KeyValue) (i : nat)
    (kv : KeyValue) : bool :=
  match store !! key kv with
  | None => negb (has_key (key kv) (take i kvs))
  | Some _ => false
  end.

(** No key of the batch is in the store and no two entries share a key. *)
Definition fresh_keys (store : DB) (kvs : list KeyValue) : Prop :=
  List.NoDup (map key kvs) /\ Forall (fun kv => store !! key kv = None) kvs.

End RocksWriter.

(** ** mvcc/ts_provider.cc: the counters of the batch list *)

Module TsProviderCounts.

Import TsProvider.

(** [BatchTsList::ActualCount]: [while (node) { ++count; node =
    node->next.load(); }] from [head_], with a [uint32_t] counter. *)
Definition ActualCount (l : BatchTsList) : Z :=
  fold_left (fun count _ => to_uint32 (count + 1)) (nodes l) 0.

(** [BatchTsList::ActualDeadCount]: the same walk from [dead_head_]. *)
Definition ActualDeadCount (l : BatchTsList) : Z :=
  fold_left (fun count _ => to_uint32 (count + 1)) (dead_nodes l) 0.

(** The two queues have their first node, the tail pointers are on nodes
    of their queues, and the counters count the nodes behind the first
    one: what [BatchTsList::BatchTsList] sets up. *)
Definition counts_ok (w : World) : Prop :=
  let l := batch_ts_list_ w in
  (tail_pos l < length (nodes l))%nat
  /\ (dead_tail_pos l < length (dead_nodes l))%nat
  /\ active_count_ l + 1 = Z.of_nat (length (nodes l))
  /\ dead_count_ l + 1 = Z.of_nat (length (dead_nodes l)).

(** A piece of the provider that keeps [counts_ok] and does not touch the
    two counters of [TsProvider::GetTs]. *)
Definition keeps (w w' : World) : Prop :=
  (counts_ok w -> counts_ok w')
  /\ get_ts_count_ w' = get_ts_count_ w
  /\ get_ts_fail_count_ w' = get_ts_fail_count_ w.

(** The list as the constructor leaves it, with one batch pushed. *)
Definition example_counts_world : World :=
  mkWorld
    (mkBatchTsList
       [mkBatchTs 0 0 0 0 0; mkBatchTs 1 (ComposeTs 1 0) (ComposeTs 1 3) 0 0]
       0 [mkBatchTs 0 0 0 0 0] 0 1 1 0)
    [Some (mkTsoResponse 2 0 2)] 0 0 0 0 0.

(** The batch had been dead for more than the cleaning interval at one of
    the clock readings number [t0] to [t1 - 1]. *)
Definition expired_between (flags : Flags) (clock : nat -> Z) (t0 t1 : nat)
    (b : BatchTs) : Prop :=
  exists t : nat,
    (t0 <= t < t1)%nat
    /\ dead_time_ b
       < clock t - to_uint32 (ts_provider_clean_dead_interval_ms flags).

(** What a call frees from the dead queue: the nodes [freed] at its
    front, each expired at a clock reading of the call, and never the last
    node. *)
Definition frees (flags : Flags) (clock : nat -> Z) (w w' : World) : Prop :=
  (ticks w <= ticks w')%nat
  /\ (dead_nodes (batch_ts_list_ w) <> [] ->
      dead_nodes (batch_ts_list_ w') <> [])
  /\ exists freed : list BatchTs,
       dead_nodes (batch_ts_list_ w)
       = freed ++ dead_nodes (batch_ts_list_ w')
       /\ Forall (expired_between flags clock (ticks w) (ticks w')) freed.

End TsProviderCounts.

(** ** split/split_checker.cc: what the merged iterator serves *)

Module MergedIteratorContents.

Import KeyOrder.

(** The entries an iterator with an upper bound serves from its position
    on: [Valid] turns false at the first key that is not below the
    bound. *)
Fixpoint serves (upper_bound : string) (pos : list Iterator.KeyValue)
    : list Iterator.KeyValue :=
  match pos with
  | [] => []
  | kv :: rest =>
      if key_lt (Iterator.kv_key kv) upper_bound then
        kv :: serves upper_bound rest
      else []
  end.

(** What the loop of a split checker reads at an entry: [Key()] and
    [KeyValueSize()]. *)
Definition entry_of (kv : Iterator.KeyValue) : string * Z :=
  (Iterator.kv_key kv,
   to_uint32 (size_of (Iterator.kv_key kv) + size_of (Iterator.kv_value kv))).

Definition heap_entry (e : MergedIterator.Entry) : string * Z :=
  (MergedIterator.key e,
   to_uint32 (size_of (MergedIterator.key e) + MergedIterator.value_size e)).

Definition still_serves (it : Iterator.t) : list (string * Z) :=
  map entry_of (serves (Iterator.upper_bound it) (Iterator.pos it)).

(** The entries a merged iterator has still to serve: those in its heap
    and those under its iterators. *)
Definition pending (m : MergedIterator.t) : list (string * Z) :=
  map heap_entry (MergedIterator.min_heap_ m)
  ++ concat (map still_serves (MergedIterator.iters_ m)).

(** Every iterator that has an entry to serve has one in the heap. *)
Definition fed (m : MergedIterator.t) : Prop :=
  forall (i : nat) (it : Iterator.t),
    MergedIterator.iters_ m !! i = Some it ->
    still_serves it <> [] ->
    Exists (fun e => MergedIterator.iter_pos e = i)
           (MergedIterator.min_heap_ m).

(** What an iterator serves once it is sought to a target. *)
Definition seeks (target : string) (it : Iterator.t) : list (string * Z) :=
  map entry_of
    (serves (Iterator.upper_bound it)
       (Iterator.seek_from target (Iterator.snapshot it))).

(** What the iterators at a list of positions add when each is sought. *)
Definition sought (target : string) (its : list Iterator.t)
    (idx : list nat) : list (string * Z) :=
  concat
    (map (fun i =>
            match its !! i with
            | Some it => seeks target it
            | None => []
            end)
         idx).

(** The entries of the column families of a region that lie in a range,
    one column family after the other. *)
Definition region_entries (raw_engine : string -> Iterator.ColumnFamily)
    (cf_names : list string) (start_key end_key : string)
    : list (string * Z) :=
  concat
    (map (fun cf_name =>
            map entry_of
              (serves end_key
                 (Iterator.seek_from start_key (raw_engine cf_name))))
         cf_names).

(** The order the merged iterator keeps: its heap is in key order, the
    entries under each iterator are in key order, and the entry an
    iterator has in the heap is not above the entries still under it. *)
Definition ordered (m : MergedIterator.t) : Prop :=
  StronglySorted
    (fun a b => key_le (MergedIterator.key a) (MergedIterator.key b) = true)
    (MergedIterator.min_heap_ m)
  /\ Forall (fun it => MergedIteratorInv.sorted_cf (Iterator.snapshot it)
                       /\ MergedIteratorInv.sorted_cf (Iterator.pos it))
            (MergedIterator.iters_ m)
  /\ forall (e : MergedIterator.Entry) (it : Iterator.t),
       In e (MergedIterator.min_heap_ m) ->
       MergedIterator.iters_ m !! MergedIterator.iter_pos e = Some it ->
       Forall (fun kv =>
                 key_le (MergedIterator.key e) (Iterator.kv_key kv) = true)
              (Iterator.pos it).

(** A stream in ascending key order; equal keys may follow each other. *)
Definition ascending_keys (entries : list (string * Z)) : Prop :=
  StronglySorted (fun a b => key_le (fst a) (fst b) = true) entries.

(** The keys of a list of entries, each once. *)
Definition distinct_keys (entries : list (string * Z)) : list string :=
  nodup string_dec (map fst entries).

End MergedIteratorContents.

(** ** split/split_checker.cc: what the policies return *)

Module SplitAsCoded.

(** The keys at which [prev_key != iter.Key()] holds in a stream: the
    entries at which the loops count a key. *)
Fixpoint changes (prev_key : string) (entries : list (string * Z))
    : list string :=
  match entries with
  | [] => []
  | (iter_key, _) :: rest =>
      if neq_string prev_key iter_key then iter_key :: changes iter_key rest
      else changes prev_key rest
  end.

(** No column family holds the empty key. *)
Definition no_empty_keys (raw_engine : string -> Iterator.ColumnFamily)
    : Prop :=
  forall cf_name : string,
    Forall (fun kv => Iterator.kv_key kv <> EmptyString) (raw_engine cf_name).

(** The key of the SIZE policy over a stream: the first key at which the
    size reaches the split position, when an entry before the last one
    reaches it and the whole stream reaches the split size. *)
Definition coded_size_split_key (c : SizeSplitChecker.t) (size : Z)
    (entries : list (string * Z)) : string :=
  if (size + SplitPolicy.total entries >=? SizeSplitChecker.split_size_ c)
     && (size + SplitPolicy.total (removelast entries)
         >=? SizeSplitChecker.split_pos c)
  then SplitPolicy.first_reaching (SizeSplitChecker.split_pos c) size entries
  else EmptyString.

(** The key of the KEYS policy over a stream: the key counted as number
    [split_key_number], when the stream counts [split_keys_number_]
    keys. *)
Definition coded_keys_split_key (c : KeysSplitChecker.t)
    (entries : list (string * Z)) : string :=
  let counted := changes EmptyString entries in
  if Z.of_nat (length counted) >=? KeysSplitChecker.split_keys_number_ c then
    nth (Z.to_nat (KeysSplitChecker.split_key_number c) - 1) counted
      EmptyString
  else EmptyString.

(** Two column families that share the key "b". *)
Definition two_cfs_engine (cf_name : string) : Iterator.ColumnFamily :=
  if String.eqb cf_name "data" then
    [ Iterator.mkKeyValue "a" "1"; Iterator.mkKeyValue "b" "22";
      Iterator.mkKeyValue "d" "55555" ]
  else
    [ Iterator.mkKeyValue "b" "333"; Iterator.mkKeyValue "c" "4" ].

Definition example_size_checker : SizeSplitChecker.t :=
  SizeSplitChecker.mk 8 (Qmake 1 2).

Definition example_keys_checker : KeysSplitChecker.t :=
  KeysSplitChecker.mk 4 (Qmake 1 2).

End SplitAsCoded.

(** ** vector/vector_reader.cc: the bounded queues of the brute-force search *)

Module BruteForceBounds.

Import Pb VectorReader VectorReaderInv.

(** A queue whose distances do not grow from the top on. *)
Definition descending (top_result : list DistanceResult) : Prop :=
  StronglySorted (fun a b => dr_distance b <= dr_distance a) top_result.

(** What the merge loop keeps of the queue of a query: it holds at most
    [topk] entries, each put there by [emplace], the largest distance on
    top. *)
Definition bounded_queue (topk : Z) (top_result : list DistanceResult)
    : Prop :=
  Z.of_nat (length top_result) <= topk
  /\ emplaced top_result
  /\ descending top_result.

(** A result list in ascending order of distance; equal distances may
    follow each other. *)
Definition ascending_distance (result : VectorWithDistanceResult) : Prop :=
  StronglySorted (fun a b => distance a <= distance b) result.

Definition within_topk (topk : Z) (result : VectorWithDistanceResult)
    : Prop :=
  Z.of_nat (length result) <= topk /\ ascending_distance result.

End BruteForceBounds.

(** ** vector/vector_reader.cc: the hits of a search *)

Module SearchHits.

Import Pb VectorReader.

(** Two results are the same hit: the same vector at the same distance. *)
Definition same_hit (a b : VectorWithDistance) : Prop :=
  id (vector_with_id a) = id (vector_with_id b) /\ distance a = distance b.

(** Two result sets hold the same hits: as many lists, and the same hits
    in the same order in each. *)
Definition same_hits (results results' : list VectorWithDistanceResult)
    : Prop :=
  Forall2 (Forall2 same_hit) results results'.

(** A request for the nearest two vectors with their vector and table
    data. *)
Definition data_parameter : VectorSearchParameter :=
  mkVectorSearchParameter 2 false true false false 0 SCALAR_FILTER QUERY_POST
    None false [].

Definition example_search : SearchContext :=
  mkSearchContext 0 0 VectorExamples.example_range
    [VectorExamples.example_query] data_parameter.

Definition example_hit (vector_id distance : Z) : VectorWithDistance :=
  let value := VectorExamples.key_of_id vector_id in
  mkVectorWithDistance
    (mkVectorWithId vector_id (Some (VectorExamples.example_vector value))
       None (Some (mkVectorTableData value value)))
    distance.

End SearchHits.

(** ** engine/raw_rocks_engine.cc: the engine iterator *)

Module RocksIterator.

Import KeyOrder.

(** [memcmp(a, b, n)]: the order of the first [n] bytes, compared as
    [unsigned char].  Where it is called both strings hold at least [n]
    bytes. *)
Fixpoint memcmp (a b : string) (n : nat) : comparison :=
  match n, a, b with
  | Datatypes.S n', String x a', String y b' =>
      match Ascii.compare x y with
      | Eq => memcmp a' b' n'
      | c => c
      end
  | _, _, _ => Eq
  end.

(** [class RocksIterator].  [column_family_] is the column family at the
    snapshot, in the order of the RocksDB comparator; [iter_] is the
    [rocksdb::Iterator], as the entries from its position on, and is not
    valid when there is none. *)
Record t := mk {
  column_family_ : Iterator.ColumnFamily;
  iter_ : list Iterator.KeyValue;
  start_key_ : string;
  end_key_ : string;
  with_start_ : bool;
  with_end_ : bool;
  has_valid_kv_ : bool
}.

Definition New (column_family : Iterator.ColumnFamily)
    (start_key end_key : string) (with_start with_end : bool) : t :=
  mk column_family [] start_key end_key with_start with_end false.

Definition set_iter_ (it : t) (iter : list Iterator.KeyValue) : t :=
  mk (column_family_ it) iter (start_key_ it) (end_key_ it) (with_start_ it)
     (with_end_ it) (has_valid_kv_ it).

Definition set_has_valid_kv_ (it : t) (b : bool) : t :=
  mk (column_family_ it) (iter_ it) (start_key_ it) (end_key_ it)
     (with_start_ it) (with_end_ it) b.

(** "key >= start_key_ || key > start_key_" *)
Definition FilterStartKey (it : t) (key : string) : bool :=
  let min := Nat.min (String.length key) (String.length (start_key_ it)) in
  match memcmp key (start_key_ it) min with
  | Gt => true
  | Lt => false
  | Eq =>
      if (String.length (start_key_ it) <? String.length key)%nat then
        with_start_ it
      else if (String.length key <? String.length (start_key_ it))%nat then
        false
      else with_start_ it
  end.

(** "key <= end_key_ || key < end_key_" *)
Definition FilterEndKey (it : t) (key : string) : bool :=
  let min := Nat.min (String.length key) (String.length (end_key_ it)) in
  match memcmp key (end_key_ it) min with
  | Gt => false
  | Lt => true
  | Eq =>
      if (String.length (end_key_ it) <? String.length key)%nat then
        with_end_ it
      else if (String.length key <? String.length (end_key_ it))%nat then
        true
      else with_end_ it
  end.

Definition FilterKey (it : t) (key : string) : bool :=
  FilterStartKey it key && FilterEndKey it key.

(** [while (iter_->Valid())] of [Start]. *)
Fixpoint start_loop (it : t) (iter : list Iterator.KeyValue) : t :=
  match iter with
  | [] => set_has_valid_kv_ (set_iter_ it []) false
  | kv :: rest =>
      if FilterStartKey it (Iterator.kv_key kv) then
        set_has_valid_kv_ (set_iter_ it iter) true
      else start_loop it rest
  end.

Definition Start (it : t) : t :=
  start_loop it (Iterator.seek_from (start_key_ it) (column_family_ it)).

Definition HasNext (it : t) : bool * t :=
  match iter_ it with
  | kv :: _ =>
      if FilterEndKey it (Iterator.kv_key kv) then
        (true, set_has_valid_kv_ it true)
      else (false, set_has_valid_kv_ it false)
  | [] => (false, set_has_valid_kv_ it false)
  end.

Definition Next (it : t) : t := set_iter_ it (tl (iter_ it)).

(** [GetKV(key, value)]: the result and the two reference parameters. *)
Definition GetKV (it : t) (key value : string) : bool * string * string :=
  if has_valid_kv_ it then
    match iter_ it with
    | kv :: _ => (true, Iterator.kv_key kv, Iterator.kv_value kv)
    | [] => (true, key, value)
    end
  else (false, key, value).

(** [for (iter->Start(); iter->HasNext(); iter->Next()) body], after
    [Start]. *)
Fixpoint for_each {S : Type} (fuel : nat) (body : S -> t -> S) (it : t)
    (s : S) : S :=
  match fuel with
  | O => s
  | Datatypes.S fuel' =>
      let '(has_next, it) := HasNext it in
      if has_next then for_each fuel' body (Next it) (body s it) else s
  end.

(** A loop body that keeps what [GetKV] hands out. *)
Definition collect (kvs : list Iterator.KeyValue) (it : t)
    : list Iterator.KeyValue :=
  let '(has, key, value) := GetKV it EmptyString EmptyString in
  if has then kvs ++ [Iterator.mkKeyValue key value] else kvs.

(** The entries [GetKV] hands out in that loop. *)
Definition visited (it : t) : list Iterator.KeyValue :=
  let it := Start it in
  for_each (length (iter_ it)) collect it [].

(** [pb::common::RangeWithOptions]. *)
Record RangeWithOptions := mkRangeWithOptions {
  start_key : string;
  end_key : string;
  with_start : bool;
  with_end : bool
}.

Section Reader.

(** The value of the error code [pb::error::EILLEGAL_PARAMTETERS] and
    [Helper::KeyIsEndOfAllTable], which are defined elsewhere. *)
Variable EILLEGAL_PARAMTETERS : Z.
Variable KeyIsEndOfAllTable : string -> bool.

(** [Reader::KvCount(snapshot, range, count)] with a
    [RangeWithOptions]; [count] is a pointer and may be null. *)
Definition KvCount (snapshot : Iterator.ColumnFamily)
    (range : RangeWithOptions) (count : option Z) : Status * option Z :=
  if empty (start_key range) || empty (end_key range) then
    (mkStatus (EOTHER EILLEGAL_PARAMTETERS), count)
  else if key_lt (end_key range) (start_key range) then
    (mkStatus (EOTHER EILLEGAL_PARAMTETERS), count)
  else if String.eqb (start_key range) (end_key range)
          && (negb (with_start range) || negb (with_end range)) then
    (mkStatus (EOTHER EILLEGAL_PARAMTETERS), count)
  else if KeyIsEndOfAllTable (start_key range)
          || KeyIsEndOfAllTable (end_key range) then
    (mkStatus (EOTHER EILLEGAL_PARAMTETERS), count)
  else
    match count with
    | None => (StatusOK, None)
    | Some _ =>
        let iter :=
          Start (New snapshot (start_key range) (end_key range)
                   (with_start range) (with_end range)) in
        (StatusOK,
         Some (for_each (length (iter_ iter))
                 (fun count _ => to_uint64 (count + 1)) iter 0))
    end.

End Reader.

(** A key begins with a bound. *)
Definition begins_with (bound key : string) : bool := String.prefix bound key.

(** The keys between two bounds, where a bound that is included takes
    every key that begins with it and a bound that is excluded leaves out
    every key that begins with it. *)
Definition in_prefix_range (start_key end_key : string)
    (with_start with_end : bool) (key : string) : bool :=
  (if begins_with start_key key then with_start else key_lt start_key key)
  && (if begins_with end_key key then with_end else key_lt key end_key).

(** A column family with keys around the bound "b". *)
Definition example_cf : Iterator.ColumnFamily :=
  [ Iterator.mkKeyValue "a" "1"; Iterator.mkKeyValue "b" "2";
    Iterator.mkKeyValue "ba" "3"; Iterator.mkKeyValue "c" "4";
    Iterator.mkKeyValue "ca" "5"; Iterator.mkKeyValue "d" "6" ].

End RocksIterator.

(** ** engine/raw_rocks_engine.cc: deleting a range *)

Module RocksRangeWriter.

Import KeyOrder RawRocksEngine.

(** What RocksDB may report on the calls of [KvBatchDeleteRangeCore]. *)
Record RangeFaults := mkRangeFaults {
  batch_DeleteRange_fails : string -> string -> bool;
  Write_fails : bool
}.

(** The keys [rocksdb::WriteBatch::DeleteRange(begin, end)] removes:
    "[begin_key, end_key)", in the order of the comparator. *)
Definition in_delete_range (begin_key end_key key : string) : bool :=
  key_le begin_key key && key_lt key end_key.

Definition DeleteRange (store : DB) (key_pair : string * string) : DB :=
  filter
    (fun kv => in_delete_range (fst key_pair) (snd key_pair) (fst kv) = false)
    store.

(** [for (const auto& [real_start_key, real_end_key] : key_pairs)]: the
    status with which the function returns, if a [DeleteRange] fails. *)
Fixpoint batch_ranges (faults : RangeFaults)
    (key_pairs : list (string * string)) : option Status :=
  match key_pairs with
  | [] => None
  | (real_start_key, real_end_key) :: rest =>
      if batch_DeleteRange_fails faults real_start_key real_end_key then
        Some (mkStatus EINTERNAL)
      else batch_ranges faults rest
  end.

Definition KvBatchDeleteRangeCore (faults : RangeFaults) (store : DB)
    (key_pairs : list (string * string)) : Status * DB :=
  match batch_ranges faults key_pairs with
  | Some status => (status, store)
  | None =>
      if Write_fails faults then (mkStatus EINTERNAL, store)
      else (StatusOK, fold_left DeleteRange key_pairs store)
  end.

Section Writer.

(** The value of the error code [pb::error::EILLEGAL_PARAMTETERS], which
    is defined elsewhere. *)
Variable EILLEGAL_PARAMTETERS : Z.

(** [Writer::KvDeleteRange(const pb::common::Range&)]. *)
Definition KvDeleteRange (faults : RangeFaults) (store : DB)
    (range : string * string) : Status * DB :=
  if empty (fst range) || empty (snd range) then
    (mkStatus (EOTHER EILLEGAL_PARAMTETERS), store)
  else if key_le (snd range) (fst range) then
    (mkStatus (EOTHER EILLEGAL_PARAMTETERS), store)
  else
    let '(status, store') :=
      KvBatchDeleteRangeCore faults store [(fst range, snd range)] in
    if negb (ok status) then (mkStatus EINTERNAL, store')
    else (StatusOK, store').

End Writer.

End RocksRangeWriter.

(** ** split/split_checker.cc: what a split check reports *)

Module SplitMetrics.

Import SplitCheckTask.

(** The metrics a finished split check has written. *)
Definition metrics_of (outcome : Outcome) : option Metrics :=
  match outcome with
  | Abort => None
  | Skipped => None
  | NoSplit metrics _ => Some metrics
  | SendSplitRegion metrics _ => Some metrics
  end.

(** [SetKeyCount] and [SetRegionSize] are called with positive values
    only. *)
Definition positive (z : Z) : option Z := if z >? 0 then Some z else None.

(** The column families a split check walks: those of the transaction
    engine if there are any. *)
Definition walked_cf_names (names : list string * list string)
    : list string :=
  match snd names with
  | [] => fst names
  | _ :: _ => snd names
  end.

End SplitMetrics.

(** ** split/split_checker.cc: the workers of the split check *)

Module SplitCheckWorkers.

(** [SplitCheckWorkers]: the queue of every worker and the offset of the
    worker that gets the next task. *)
Record t := mk {
  workers_ : list (list Z);
  offset_ : nat
}.

(** [SplitCheckWorkers::Init(num)] when every [Worker::Init] succeeds. *)
Definition Init (num : nat) : t :=
  mk (repeat [] num) 0.

(** [SplitCheckWorkers::Execute(task)]; [worker_executes] is what
    [workers_[offset_]->Execute(task)] returns, and a task is the id of its
    region.  With no worker, [workers_[offset_]] is undefined. *)
Definition Execute (w : t) (task : Z) (worker_executes : bool)
    : option (bool * t) :=
  match workers_ w !! offset_ w with
  | None => None
  | Some queue =>
      if negb worker_executes then Some (false, w)
      else
        Some (true,
              mk
                (<[offset_ w := queue ++ [task]]> (workers_ w))
                ((offset_ w + 1) mod length (workers_ w)))
  end.

(** A run of [Execute] calls, each with what its worker answers. *)
Fixpoint Execute_all (w : t) (tasks : list (Z * bool))
    : option t :=
  match tasks with
  | [] => Some w
  | (task, worker_executes) :: rest =>
      match Execute w task worker_executes with
      | None => None
      | Some (_, w') => Execute_all w' rest
      end
  end.

(** The tasks of a run that a worker took. *)
Definition taken (tasks : list (Z * bool)) : list Z :=
  map fst (List.filter snd tasks).

(** No worker holds more than one task more than another, and the workers
    before the offset are the ones that hold more. *)
Definition balanced (w : t) : Prop :=
  exists n : nat,
    forall (i : nat) (queue : list Z),
      workers_ w !! i = Some queue ->
      length queue = if (i <? offset_ w)%nat then Datatypes.S n else n.

End SplitCheckWorkers.

(** ** vector/vector_reader.cc: scanning vector ids *)

(** An iterator that walks backwards.

    Modelled from the spec: "Iterator(options{lower, upper, snapshot}) ->
    it.  it.seek(k), it.seek_for_prev(k), it.next(), it.prev(),
    it.valid(), it.key(), it.value().  Bounds are honored."  The class
    itself is missing from the sources.  [pos] holds the entry under the
    iterator and the entries before it, the nearest first. *)
Module ReverseIterator.

Import KeyOrder.

Record t := mk {
  lower_bound : string;
  snapshot : Iterator.ColumnFamily;
  pos : list Iterator.KeyValue
}.

Definition NewIterator (cf : Iterator.ColumnFamily) (lower : string) : t :=
  mk lower cf [].

(** The last entry at or below the target and the entries before it. *)
Fixpoint seek_back (target : string) (reversed : list Iterator.KeyValue)
    : list Iterator.KeyValue :=
  match reversed with
  | [] => []
  | kv :: rest =>
      if key_lt target (Iterator.kv_key kv) then seek_back target rest
      else reversed
  end.

Definition SeekForPrev (target : string) (it : t) : t :=
  mk (lower_bound it) (snapshot it) (seek_back target (rev (snapshot it))).

Definition Valid (it : t) : bool :=
  match pos it with
  | [] => false
  | kv :: _ => key_le (lower_bound it) (Iterator.kv_key kv)
  end.

Definition Prev (it : t) : t :=
  mk (lower_bound it) (snapshot it) (tl (pos it)).

(** The entries the iterator serves from its position on, walking
    back. *)
Fixpoint served (lower_bound : string) (pos : list Iterator.KeyValue)
    : list Iterator.KeyValue :=
  match pos with
  | [] => []
  | kv :: rest =>
      if key_le lower_bound (Iterator.kv_key kv) then
        kv :: served lower_bound rest
      else []
  end.

End ReverseIterator.

Module VectorScan.

Import KeyOrder Pb VectorReader.

(** [Engine::VectorReader::Context], the fields of a scan.  [limit] is
    taken as the number it holds when it is not negative. *)
Record ScanContext := mkScanContext {
  scan_ts : Z;
  scan_partition_id : Z;
  scan_region_range : string * string;
  start_id : Z;
  end_id : Z;
  is_reverse : bool;
  limit : Z;
  use_scalar_filter : bool;
  scalar_data_for_filter : VectorScalardata;
  scan_with_vector_data : bool;
  scan_with_scalar_data : bool;
  scan_with_table_data : bool;
  scan_selected_scalar_keys : list string
}.

Section Reader.

Variable env : Env.

(** [VectorCodec::EncodeVectorKey] and [Helper::PrefixNext], which are
    defined elsewhere, and whether [reader_->NewIterator] hands back a null
    pointer. *)
Variable EncodeVectorKey : ascii -> Z -> Z -> string.
Variable PrefixNext : string -> string.
Variable NewIterator_null : bool.

(** The body of the two loops of [ScanVectorId] over the entries the
    iterator serves; [past_end] is the comparison with [ctx->end_id] of
    the direction. *)
Fixpoint scan_ids (ctx : ScanContext) (past_end : Z -> bool)
    (entries : list Iterator.KeyValue) (vector_ids : list Z)
    : Ret (list Z) :=
  match entries with
  | [] => Return StatusOK vector_ids
  | kv :: rest =>
      let vector_id :=
        DecodeVectorIdFromEncodeKeyWithTs env (Iterator.kv_key kv) in
      if negb (vector_id >? 0) then Abort
      else if negb (end_id ctx =? 0) && past_end vector_id then
        Return StatusOK vector_ids
      else
        let push :=
          let vector_ids := vector_ids ++ [vector_id] in
          if Z.of_nat (length vector_ids) >=? limit ctx then
            Return StatusOK vector_ids
          else scan_ids ctx past_end rest vector_ids in
        if use_scalar_filter ctx then
          match CompareVectorScalarData env (scan_ts ctx)
                  (scan_region_range ctx) (scan_partition_id ctx) vector_id
                  (scalar_data_for_filter ctx) with
          | Abort => Abort
          | Return status compare_result =>
              if negb (ok status) then Return status vector_ids
              else if negb compare_result then
                scan_ids ctx past_end rest vector_ids
              else push
          end
        else push
  end.

Definition ScanVectorId (ctx : ScanContext) (vector_ids : list Z)
    : Ret (list Z) :=
  let range := scan_region_range ctx in
  let encode_seek_key :=
    EncodeVectorKey (GetKeyPrefix env range) (scan_partition_id ctx)
      (start_id ctx) in
  let encode_range := EncodeRange env range in
  if negb (is_reverse ctx) then
    let encode_seek_key :=
      if key_lt encode_seek_key (fst encode_range) then fst encode_range
      else encode_seek_key in
    if key_le (snd encode_range) encode_seek_key then
      Return StatusOK vector_ids
    else if NewIterator_null then Return (mkStatus EINTERNAL) vector_ids
    else
      let iter :=
        Iterator.Seek encode_seek_key
          (Iterator.NewIterator
             (reader_entries env kVectorDataCF (scan_ts ctx))
             (snd encode_range)) in
      scan_ids ctx (fun vector_id => vector_id >? end_id ctx)
        (served (Iterator.upper_bound iter) (Iterator.pos iter)) vector_ids
  else
    let encode_seek_key := PrefixNext encode_seek_key in
    let encode_seek_key :=
      if key_lt (snd encode_range) encode_seek_key then snd encode_range
      else encode_seek_key in
    if key_lt encode_seek_key (fst encode_range) then
      Return StatusOK vector_ids
    else if NewIterator_null then Return (mkStatus EINTERNAL) vector_ids
    else
      let iter :=
        ReverseIterator.SeekForPrev encode_seek_key
          (ReverseIterator.NewIterator
             (reader_entries env kVectorDataCF (scan_ts ctx))
             (fst encode_range)) in
      scan_ids ctx (fun vector_id => vector_id <? end_id ctx)
        (ReverseIterator.served (ReverseIterator.lower_bound iter)
           (ReverseIterator.pos iter))
        vector_ids.

(** The fields of the scan that the queries of [VectorScanQuery] read. *)
Definition query_context (ctx : ScanContext) (vector_ids : list Z)
    : Context :=
  mkContext (scan_ts ctx) (scan_partition_id ctx) (scan_region_range ctx)
    vector_ids (scan_with_vector_data ctx) (scan_with_scalar_data ctx)
    (scan_with_table_data ctx) (scan_selected_scalar_keys ctx).

Definition VectorScanQuery (ctx : ScanContext)
    (vector_with_ids : list VectorWithId) : Ret (list VectorWithId) :=
  match ScanVectorId ctx [] with
  | Abort => Abort
  | Return status vector_ids =>
      if negb (ok status) then Return status vector_with_ids
      else
        match vector_ids with
        | [] => Return StatusOK vector_with_ids
        | _ :: _ =>
            let qctx := query_context ctx vector_ids in
            match query_each env qctx vector_ids vector_with_ids with
            | Abort => Abort
            | Return _ out1 =>
                let scalar_step :=
                  if scan_with_scalar_data ctx then
                    attach_each
                      (QueryVectorScalarData env (scan_ts ctx)
                         (scan_region_range ctx) (scan_partition_id ctx)
                         (scan_selected_scalar_keys ctx)) out1
                  else Return StatusOK out1 in
                match scalar_step with
                | Abort => Abort
                | Return _ out2 =>
                    let table_step :=
                      if scan_with_table_data ctx then
                        attach_each
                          (QueryVectorTableData env (scan_ts ctx)
                             (scan_region_range ctx) (scan_partition_id ctx))
                          out2
                      else Return StatusOK out2 in
                    match table_step with
                    | Abort => Abort
                    | Return _ out3 => Return StatusOK out3
                    end
                end
            end
        end
  end.

End Reader.

(** What a scan lets through: the id is within the end of the scan and
    its scalar record compares equal to the filter. *)
Definition scanned_id (env : Env) (ctx : ScanContext) (vector_id : Z)
    : Prop :=
  vector_id > 0
  /\ (end_id ctx <> 0 ->
      if is_reverse ctx then end_id ctx <= vector_id
      else vector_id <= end_id ctx)
  /\ (use_scalar_filter ctx = true ->
      CompareVectorScalarData env (scan_ts ctx) (scan_region_range ctx)
        (scan_partition_id ctx) vector_id (scalar_data_for_filter ctx)
      = Return StatusOK true).

(** A scan of the example region from id 2 on, for at most two ids. *)
Definition example_scan : ScanContext :=
  mkScanContext 0 0 VectorExamples.example_range 2 0 false 2 false ∅ true
    false false [].

End VectorScan.

(** * Part II: properties *)

(** ** The key order is a strict total order *)

Module KeyOrderFacts.

Import KeyOrder.

Lemma ascii_compare_refl (c : ascii) : Ascii.compare c c = Eq.
Proof. unfold Ascii.compare. apply N.compare_refl. Qed.

Lemma ascii_compare_lt_trans (a b c : ascii) :
  Ascii.compare a b = Lt -> Ascii.compare b c = Lt -> Ascii.compare a c = Lt.
Proof.
  unfold Ascii.compare. rewrite !N.compare_lt_iff. lia.
Qed.

Lemma compare_refl (s : string) : String.compare s s = Eq.
Proof.
  induction s as [|c s IH]; simpl; [reflexivity|].
  rewrite ascii_compare_refl. exact IH.
Qed.

Lemma compare_lt_trans (a b c : string) :
  String.compare a b = Lt -> String.compare b c = Lt -> String.compare a c = Lt.
Proof.
  revert b c.
  induction a as [|x a IH]; intros [|y b] [|z c]; simpl; try congruence.
  destruct (Ascii.compare x y) eqn:Exy; try congruence.
  - apply Ascii.compare_eq_iff in Exy. subst y.
    destruct (Ascii.compare x z) eqn:Exz; try congruence. apply IH.
  - intros _. destruct (Ascii.compare y z) eqn:Eyz; try congruence.
    + apply Ascii.compare_eq_iff in Eyz. subst z. rewrite Exy. reflexivity.
    + intros _. rewrite (ascii_compare_lt_trans x y z Exy Eyz). reflexivity.
Qed.

Lemma key_lt_irrefl (a : string) : key_lt a a = false.
Proof. unfold key_lt, String.ltb. rewrite compare_refl. reflexivity. Qed.

Lemma key_lt_trans (a b c : string) :
  key_lt a b = true -> key_lt b c = true -> key_lt a c = true.
Proof.
  unfold key_lt, String.ltb. intros Hab Hbc.
  destruct (String.compare a b) eqn:E1; try discriminate.
  destruct (String.compare b c) eqn:E2; try discriminate.
  rewrite (compare_lt_trans a b c E1 E2). reflexivity.
Qed.

Lemma key_lt_asym (a b : string) : key_lt a b = true -> key_lt b a = false.
Proof.
  unfold key_lt, String.ltb. rewrite (String.compare_antisym b a).
  destruct (String.compare a b); simpl; congruence.
Qed.

Lemma key_le_refl (a : string) : key_le a a = true.
Proof. unfold key_le. fold (key_lt a a). rewrite key_lt_irrefl. reflexivity. Qed.

Lemma key_lt_le (a b : string) : key_lt a b = true -> key_le a b = true.
Proof.
  intros H. unfold key_le. fold (key_lt b a).
  rewrite (key_lt_asym a b H). reflexivity.
Qed.

Lemma key_total (a b : string) :
  key_lt a b = true \/ a = b \/ key_lt b a = true.
Proof.
  unfold key_lt, String.ltb. rewrite (String.compare_antisym b a).
  destruct (String.compare a b) eqn:E; simpl; auto.
  right; left. apply String.compare_eq_iff. exact E.
Qed.

Lemma key_le_lt_trans (a b c : string) :
  key_le a b = true -> key_lt b c = true -> key_lt a c = true.
Proof.
  intros Hab Hbc. unfold key_le in Hab. fold (key_lt b a) in Hab.
  destruct (key_total a b) as [H|[H|H]].
  - eapply key_lt_trans; eauto.
  - subst. exact Hbc.
  - rewrite H in Hab. discriminate.
Qed.

Lemma key_le_trans (a b c : string) :
  key_le a b = true -> key_le b c = true -> key_le a c = true.
Proof.
  intros Hab Hbc. unfold key_le. fold (key_lt c a).
  destruct (key_lt c a) eqn:E; [|reflexivity].
  pose proof (key_le_lt_trans _ _ _ Hbc E) as H.
  unfold key_le in Hab. fold (key_lt b a) in Hab. rewrite H in Hab. discriminate.
Qed.

Lemma not_key_lt_le (a b : string) : key_lt a b = false -> key_le b a = true.
Proof. intros H. unfold key_le. fold (key_lt a b). rewrite H. reflexivity. Qed.

End KeyOrderFacts.

(** ** The merged iterator *)

Module MergedIteratorFacts.

Import KeyOrder KeyOrderFacts MergedIteratorInv.

(** The loop [for (; iter.Valid(); iter.Next())] folds its body over the
    stream it walks. *)
Lemma for_each_walk {S : Type} (body : S -> string * Z -> S) :
  forall (fuel : nat) (iter : MergedIterator.t) (s : S),
    MergedIterator.for_each fuel body iter s
    = fold_left body (MergedIterator.walk fuel iter) s.
Proof.
  induction fuel as [|fuel IH]; intros iter s; simpl; [reflexivity|].
  destruct (MergedIterator.Valid iter); simpl; [apply IH|reflexivity].
Qed.

Lemma heap_push_length (e : MergedIterator.Entry) (h : list MergedIterator.Entry) :
  length (MergedIterator.heap_push e h) = Datatypes.S (length h).
Proof.
  induction h as [|x h IH]; simpl; [reflexivity|].
  destruct (key_lt _ _); simpl; congruence.
Qed.

Lemma heap_push_Forall (P : MergedIterator.Entry -> Prop) e h :
  P e -> Forall P h -> Forall P (MergedIterator.heap_push e h).
Proof.
  intros He Hh. induction Hh as [|x h Hx Hh IH]; simpl.
  - constructor; [exact He|constructor].
  - destruct (key_lt _ _); repeat constructor; auto.
Qed.

Lemma pos_sum_insert (its : list Iterator.t) (i : nat) (it it' : Iterator.t) :
  its !! i = Some it ->
  (pos_sum (<[i := it']> its) + length (Iterator.pos it)
   = pos_sum its + length (Iterator.pos it'))%nat.
Proof.
  unfold pos_sum. revert i.
  induction its as [|x its IH]; intros [|i] H; simpl in *; try discriminate.
  - injection H as ->. lia.
  - specialize (IH i H). lia.
Qed.

(** Every [Next] serves one entry: the walk cannot be longer than the
    number of entries that remain. *)
Lemma NextIter_remaining (i : nat) (m : MergedIterator.t) :
  MergedIterator.remaining (MergedIterator.NextIter i m)
  = MergedIterator.remaining m.
Proof.
  unfold MergedIterator.NextIter, MergedIterator.remaining.
  destruct (MergedIterator.iters_ m !! i) as [it|] eqn:E; [|reflexivity].
  unfold Iterator.Valid.
  destruct (Iterator.pos it) as [|kv rest] eqn:Ep; [reflexivity|].
  destruct (key_lt _ _); [|reflexivity].
  simpl. rewrite heap_push_length.
  pose proof (pos_sum_insert _ _ _ (Iterator.Next it) E) as H.
  unfold pos_sum in H. simpl in H. rewrite Ep in H. simpl in H. lia.
Qed.

Lemma Next_remaining (m : MergedIterator.t) :
  MergedIterator.Valid m = true ->
  Datatypes.S (MergedIterator.remaining (MergedIterator.Next m))
  = MergedIterator.remaining m.
Proof.
  unfold MergedIterator.Valid, MergedIterator.Next.
  destruct m as [its heap]. simpl.
  destruct heap as [|e rest]; [discriminate|]. intros _.
  rewrite NextIter_remaining. reflexivity.
Qed.

(** With [remaining] as fuel the walk stops because the heap is empty, not
    because the fuel ran out: more fuel gives the same stream. *)
Lemma walk_enough_fuel :
  forall (fuel : nat) (m : MergedIterator.t),
    (MergedIterator.remaining m <= fuel)%nat ->
    MergedIterator.walk fuel m
    = MergedIterator.walk (MergedIterator.remaining m) m.
Proof.
  induction fuel as [|fuel IH]; intros m Hle.
  - assert (MergedIterator.remaining m = 0%nat) as -> by lia. reflexivity.
  - simpl. destruct (MergedIterator.Valid m) eqn:Ev.
    + pose proof (Next_remaining m Ev) as Hr.
      rewrite <- Hr. simpl. rewrite Ev. f_equal.
      apply IH. lia.
    + destruct (MergedIterator.remaining m); simpl; [reflexivity|].
      rewrite Ev. reflexivity.
Qed.

Lemma walk_size_bounds :
  forall (fuel : nat) (m : MergedIterator.t),
    Forall (fun e => 0 <= snd e < uint32_max) (MergedIterator.walk fuel m).
Proof.
  induction fuel as [|fuel IH]; intros m; simpl; [constructor|].
  destruct (MergedIterator.Valid m); [|constructor].
  constructor; [|apply IH]. simpl.
  unfold MergedIterator.KeyValueSize.
  destruct (MergedIterator.min_heap_ m); [unfold uint32_max; lia|].
  unfold to_uint32. apply Z.mod_pos_bound. unfold uint32_max. lia.
Qed.

(** *** Keys of the stream lie in the range of the walk *)

Section Range.

Variables start_key end_key : string.

Local Abbreviation in_range := (MergedIteratorInv.in_range start_key end_key).
Local Abbreviation iter_ok := (MergedIteratorInv.iter_ok start_key end_key).
Local Abbreviation merged_ok := (MergedIteratorInv.merged_ok start_key end_key).

Lemma seek_from_ge (l : list Iterator.KeyValue) :
  sorted_cf l ->
  Forall (fun kv => key_le start_key (Iterator.kv_key kv) = true)
         (Iterator.seek_from start_key l).
Proof.
  unfold sorted_cf. induction 1 as [|kv l Hs IH Hall]; simpl; [constructor|].
  destruct (key_lt (Iterator.kv_key kv) start_key) eqn:E; [exact IH|].
  pose proof (not_key_lt_le _ _ E) as Hle.
  constructor; [exact Hle|].
  eapply Forall_impl; [exact Hall|].
  simpl. intros x Hx. eapply key_le_trans; eauto.
Qed.

Lemma iter_ok_Next (it : Iterator.t) : iter_ok it -> iter_ok (Iterator.Next it).
Proof.
  intros (Hu & Hs & Hp). repeat split; simpl; auto.
  destruct (Iterator.pos it); simpl; [constructor|].
  inversion Hp; assumption.
Qed.

Lemma iter_ok_Seek (it : Iterator.t) :
  Iterator.upper_bound it = end_key -> sorted_cf (Iterator.snapshot it) ->
  iter_ok (Iterator.Seek start_key it).
Proof.
  intros Hu Hs. repeat split; simpl; auto. apply seek_from_ge. exact Hs.
Qed.

Lemma iter_ok_Key (it : Iterator.t) :
  iter_ok it -> Iterator.Valid it = true -> in_range (Iterator.Key it).
Proof.
  intros (Hu & Hs & Hp). unfold Iterator.Valid, Iterator.Key.
  destruct (Iterator.pos it) as [|kv rest]; [discriminate|].
  intros Hv. inversion Hp; subst. split; [assumption|]. congruence.
Qed.

Lemma merged_ok_NextIter (i : nat) (m : MergedIterator.t) :
  merged_ok m -> merged_ok (MergedIterator.NextIter i m).
Proof.
  intros [Hh Hi]. unfold MergedIterator.NextIter.
  destruct (MergedIterator.iters_ m !! i) as [it|] eqn:E; [|split; assumption].
  destruct (Iterator.Valid it) eqn:Ev; [|split; assumption].
  assert (iter_ok it) as Hit by (eapply Forall_lookup_1; eauto).
  split; simpl.
  - apply heap_push_Forall; [|exact Hh]. simpl. apply iter_ok_Key; assumption.
  - apply Forall_insert; [exact Hi|]. apply iter_ok_Next. exact Hit.
Qed.

Lemma merged_ok_Next (m : MergedIterator.t) :
  merged_ok m -> merged_ok (MergedIterator.Next m).
Proof.
  intros [Hh Hi]. unfold MergedIterator.Next.
  destruct (MergedIterator.min_heap_ m) as [|e rest] eqn:E; [split; congruence|].
  apply merged_ok_NextIter. split; simpl; [|exact Hi].
  inversion Hh; assumption.
Qed.

Lemma merged_ok_seek_one (m : MergedIterator.t) (i : nat) :
  merged_ok m -> merged_ok (MergedIterator.seek_one start_key m i).
Proof.
  intros [Hh Hi]. unfold MergedIterator.seek_one.
  destruct (MergedIterator.iters_ m !! i) as [it|] eqn:E; [|split; assumption].
  apply merged_ok_NextIter. split; simpl; [exact Hh|].
  apply Forall_insert; [exact Hi|].
  destruct (Forall_lookup_1 _ _ _ _ Hi E) as (Hu & Hs & _).
  apply iter_ok_Seek; assumption.
Qed.

Lemma merged_ok_Seek (m : MergedIterator.t) :
  merged_ok m -> merged_ok (MergedIterator.Seek start_key m).
Proof.
  unfold MergedIterator.Seek.
  generalize (seq 0 (length (MergedIterator.iters_ m))) as idx.
  intros idx. revert m.
  induction idx as [|i idx IH]; intros m Hm; simpl; [exact Hm|].
  apply IH. apply merged_ok_seek_one. exact Hm.
Qed.

Lemma merged_ok_New (raw_engine : string -> Iterator.ColumnFamily)
    (cf_names : list string) :
  (forall cf_name, sorted_cf (raw_engine cf_name)) ->
  merged_ok (MergedIterator.New raw_engine cf_names end_key).
Proof.
  intros Hs. split; simpl; [constructor|].
  induction cf_names as [|cf cfs IH]; simpl; constructor; [|exact IH].
  repeat split; simpl; [apply Hs|constructor].
Qed.

Lemma walk_in_range :
  forall (fuel : nat) (m : MergedIterator.t),
    merged_ok m ->
    Forall (fun e => in_range (fst e)) (MergedIterator.walk fuel m).
Proof.
  induction fuel as [|fuel IH]; intros m Hm; simpl; [constructor|].
  destruct (MergedIterator.Valid m) eqn:Ev; [|constructor].
  constructor; [|apply IH, merged_ok_Next, Hm].
  simpl. unfold MergedIterator.Valid in Ev. unfold MergedIterator.Key.
  destruct Hm as [Hh _].
  destruct (MergedIterator.min_heap_ m); [discriminate|].
  inversion Hh; assumption.
Qed.

End Range.

(** The keys of the merged stream of a range lie in that range, when the
    column families are in key order. *)
Lemma stream_in_range (raw_engine : string -> Iterator.ColumnFamily)
    (cf_names : list string) (start_key end_key : string) :
  (forall cf_name, sorted_cf (raw_engine cf_name)) ->
  Forall (fun e => MergedIteratorInv.in_range start_key end_key (fst e))
         (MergedIterator.stream raw_engine cf_names start_key end_key).
Proof.
  intros Hs. unfold MergedIterator.stream.
  apply walk_in_range, merged_ok_Seek, merged_ok_New, Hs.
Qed.

Lemma stream_size_bounds (raw_engine : string -> Iterator.ColumnFamily)
    (cf_names : list string) (start_key end_key : string) :
  Forall (fun e => 0 <= snd e < uint32_max)
         (MergedIterator.stream raw_engine cf_names start_key end_key).
Proof. apply walk_size_bounds. Qed.

End MergedIteratorFacts.

(** ** The split policies *)

Module HalfSplitCheckerFacts.

Import HalfSplitChecker.

Lemma Half_fold_size (c : t) (entries : list (string * Z)) :
  forall st, size (fold_left (body c) entries st)
             = size st + SplitPolicy.total entries.
Proof.
  induction entries as [|[k sz] rest IH]; intros st; simpl; [lia|].
  rewrite IH. unfold body.
  destruct (chunk_size st + sz >=? split_chunk_size_ c);
    destruct (neq_string (prev_key st) k); simpl; lia.
Qed.

Lemma Half_fold_keys (c : t) (entries : list (string * Z)) :
  forall st, keys (fold_left (body c) entries st)
             = keys st
               ++ SplitPolicy.candidates (split_chunk_size_ c) (chunk_size st)
                    entries.
Proof.
  induction entries as [|[k sz] rest IH]; intros st; simpl.
  - rewrite app_nil_r. reflexivity.
  - rewrite IH. unfold body.
    destruct (chunk_size st + sz >=? split_chunk_size_ c);
      destruct (neq_string (prev_key st) k); simpl;
      rewrite <- ?app_assoc; reflexivity.
Qed.

Lemma total_nonneg (entries : list (string * Z)) :
  Forall (fun e => 0 <= snd e < uint32_max) entries ->
  0 <= SplitPolicy.total entries.
Proof.
  induction 1 as [|e rest He _ IH]; simpl; lia.
Qed.

Lemma Half_fold_is_split (c : t) (entries : list (string * Z)) :
  Forall (fun e => 0 <= snd e < uint32_max) entries ->
  forall st,
    is_split (fold_left (body c) entries st)
    = is_split st
      || (match entries with [] => false | _ :: _ => true end
          && (size st + SplitPolicy.total entries >=? split_threshold_size_ c)).
Proof.
  induction 1 as [|[k sz] rest He Hrest IH]; intros st.
  - simpl. rewrite orb_false_r. reflexivity.
  - change (fold_left (body c) ((k, sz) :: rest) st)
      with (fold_left (body c) rest (body c st (k, sz))).
    change (SplitPolicy.total ((k, sz) :: rest))
      with (sz + SplitPolicy.total rest).
    rewrite IH. pose proof (total_nonneg rest Hrest) as Hnn. simpl in He.
    rewrite andb_true_l.
    assert (size (body c st (k, sz)) = size st + sz) as ->.
    { unfold body.
      destruct (chunk_size st + sz >=? split_chunk_size_ c);
        destruct (neq_string (prev_key st) k); reflexivity. }
    assert (is_split (body c st (k, sz))
            = if size st + sz >=? split_threshold_size_ c then true
              else is_split st) as ->.
    { unfold body.
      destruct (chunk_size st + sz >=? split_chunk_size_ c);
        destruct (neq_string (prev_key st) k); reflexivity. }
    destruct (size st + sz >=? split_threshold_size_ c) eqn:E1.
    + assert ((size st + (sz + SplitPolicy.total rest)
               >=? split_threshold_size_ c) = true) as ->
        by (apply Z.geb_le; apply Z.geb_le in E1; lia).
      simpl. rewrite orb_true_r. reflexivity.
    + destruct rest as [|e rest'].
      * simpl. rewrite Z.add_0_r, E1. reflexivity.
      * rewrite andb_true_l, Z.add_assoc. reflexivity.
Qed.

Lemma candidates_nil_total (chunk acc : Z) :
  SplitPolicy.candidates chunk acc [] = [].
Proof. reflexivity. Qed.

Lemma candidates_incl (chunk : Z) (entries : list (string * Z)) :
  forall acc k, In k (SplitPolicy.candidates chunk acc entries) ->
                In k (map fst entries).
Proof.
  induction entries as [|[k0 sz] rest IH]; intros acc k; simpl; [tauto|].
  destruct (acc + sz >=? chunk); simpl; intros H.
  - destruct H as [H|H]; [left; exact H|right; eapply IH; eauto].
  - right; eapply IH; eauto.
Qed.

(** C4.  Under the HALF policy the checker records the current key as a
    candidate each time another [split_chunk_size_] bytes of key+value data
    have been accumulated over the merged stream, and returns the candidate
    at index [len(candidates)/2] when the accumulated size reaches
    [split_threshold_size_], the empty string otherwise; the half-way
    candidate exists whenever there is a candidate at all. *)
Theorem HalfSplitChecker_SplitKey_half_candidate :
  forall (c : t) (raw_engine : string -> Iterator.ColumnFamily)
         (start_key end_key : string) (cf_names : list string),
    let entries := MergedIterator.stream raw_engine cf_names start_key end_key in
    let candidates := SplitPolicy.candidates (split_chunk_size_ c) 0 entries in
    let r := SplitKey c raw_engine start_key end_key cf_names 0 0 in
    keys (loop c raw_engine start_key end_key cf_names 0 0) = candidates
    /\ size_of_region r = SplitPolicy.total entries
    /\ split_key_of r
       = SplitPolicy.half_split_key (split_threshold_size_ c)
           (split_chunk_size_ c) entries
    /\ (candidates <> [] ->
        SplitPolicy.total entries >= split_threshold_size_ c ->
        candidates !! (length candidates / 2)%nat = Some (split_key_of r)).
Proof.
  intros c raw_engine start_key end_key cf_names entries candidates r.
  pose proof (MergedIteratorFacts.stream_size_bounds raw_engine cf_names
                start_key end_key) as Hb.
  fold entries in Hb.
  assert (loop c raw_engine start_key end_key cf_names 0 0
          = fold_left (body c) entries (init 0 0)) as Hloop.
  { unfold loop. rewrite MergedIteratorFacts.for_each_walk. reflexivity. }
  assert (keys (loop c raw_engine start_key end_key cf_names 0 0) = candidates)
    as Hkeys.
  { rewrite Hloop, Half_fold_keys. reflexivity. }
  assert (split_key_of r
          = SplitPolicy.half_split_key (split_threshold_size_ c)
              (split_chunk_size_ c) entries) as Hkey.
  { unfold r, SplitKey, finish. simpl. rewrite Hkeys.
    rewrite Hloop, (Half_fold_is_split c entries Hb). simpl.
    unfold SplitPolicy.half_split_key. fold candidates.
    destruct entries as [|e rest] eqn:Ee.
    - simpl. destruct (0 >=? split_threshold_size_ c); reflexivity.
    - cbv zeta.
      change (match e :: rest with [] => false | _ :: _ => true end) with true.
      rewrite andb_true_l.
      destruct (0 + SplitPolicy.total (e :: rest) >=? split_threshold_size_ c)
        eqn:E; rewrite Z.add_0_l in E; rewrite E; [|reflexivity].
      destruct candidates; reflexivity. }
  repeat split.
  - exact Hkeys.
  - unfold r, SplitKey, finish. simpl. rewrite Hloop, Half_fold_size. reflexivity.
  - exact Hkey.
  - intros Hne Hge. rewrite Hkey. unfold SplitPolicy.half_split_key.
    fold candidates.
    assert ((SplitPolicy.total entries >=? split_threshold_size_ c) = true)
      as -> by (apply Z.geb_le; lia).
    assert (length candidates / 2 < length candidates)%nat as Hlt.
    { destruct candidates as [|x cs]; [congruence|].
      apply Nat.div_lt; simpl; lia. }
    apply lookup_lt_is_Some_2 in Hlt as [x Hx].
    rewrite Hx. f_equal. symmetry. apply nth_lookup_Some. exact Hx.
Qed.

Lemma Half_SplitKey_empty_or_seen (c : t) (P : string -> Prop)
    (raw_engine : string -> Iterator.ColumnFamily)
    (start_key end_key : string) (cf_names : list string) (count size : Z) :
  Forall (fun e => P (fst e))
         (MergedIterator.stream raw_engine cf_names start_key end_key) ->
  let r := SplitKey c raw_engine start_key end_key cf_names count size in
  split_key_of r = EmptyString \/ P (split_key_of r).
Proof.
  intros Hall. unfold SplitKey, loop, finish. cbn [split_key_of].
  rewrite MergedIteratorFacts.for_each_walk.
  match goal with |- context [is_split ?s] => destruct (is_split s) end;
    [|left; reflexivity].
  rewrite Half_fold_keys. cbn [init keys app].
  fold (MergedIterator.stream raw_engine cf_names start_key end_key).
  set (cs := SplitPolicy.candidates _ _ _).
  assert (forall k, In k cs -> P k) as Hsub.
  { intros k Hin. unfold cs in Hin.
    apply candidates_incl in Hin. apply in_map_iff in Hin as [e [He Hin]].
    rewrite Forall_forall in Hall. rewrite <- He. apply Hall.
    apply list_elem_of_In. exact Hin. }
  clearbody cs.
  destruct cs as [|x cs']; [left; reflexivity|right].
  apply Hsub, nth_In, Nat.div_lt; cbn [length]; lia.
Qed.

End HalfSplitCheckerFacts.

Module SizeSplitCheckerFacts.

Import SizeSplitChecker SplitExamples.

(** C3, at a concrete region.  The stream is [("a", 3); ("b", 10)], the
    threshold is 10 and the split position 5.  The accumulated size reaches
    the split position first at key "b" and the total, 13, reaches the
    threshold, so the policy of the specification splits at "b"; the code
    returns the empty string, because the entry that sets the split key
    does not take the [else if (size >= split_size_)] branch and no entry
    follows it. *)
Theorem SizeSplitChecker_SplitKey_last_entry :
  let entries := MergedIterator.stream last_entry_engine ["default"%string]
                   "a" "z" in
  let r := SplitKey last_entry_checker last_entry_engine "a" "z"
             ["default"%string] 0 0 in
  entries = [("a"%string, 3); ("b"%string, 10)]
  /\ split_pos last_entry_checker = 5
  /\ SplitPolicy.total entries = 13
  /\ SplitPolicy.first_reaching 5 0 entries = "b"%string
  /\ SplitPolicy.size_split_key 10 5 entries = "b"%string
  /\ size_of_region r = 13
  /\ split_key_of r = EmptyString.
Proof. vm_compute. repeat split; reflexivity. Qed.

(** The key the loop holds is empty or one of the keys it has seen. *)
Lemma Size_fold_split_key (c : t) (P : string -> Prop) (entries : list (string * Z)) :
  Forall (fun e => P (fst e)) entries ->
  forall st, (split_key st = EmptyString \/ P (split_key st)) ->
    let st' := fold_left (body c) entries st in
    split_key st' = EmptyString \/ P (split_key st').
Proof.
  induction 1 as [|[k sz] rest He _ IH]; intros st Hst; simpl; [exact Hst|].
  apply IH. unfold body. simpl in He.
  destruct (empty (split_key st) && (size st + sz >=? split_pos c));
    [|destruct (size st + sz >=? split_size_ c)];
    destruct (neq_string (prev_key st) k); simpl; auto.
Qed.

Lemma Size_SplitKey_empty_or_seen (c : t) (P : string -> Prop)
    (raw_engine : string -> Iterator.ColumnFamily)
    (start_key end_key : string) (cf_names : list string) (count size : Z) :
  Forall (fun e => P (fst e))
         (MergedIterator.stream raw_engine cf_names start_key end_key) ->
  let r := SplitKey c raw_engine start_key end_key cf_names count size in
  split_key_of r = EmptyString \/ P (split_key_of r).
Proof.
  intros Hall. unfold SplitKey, loop, finish. simpl.
  rewrite MergedIteratorFacts.for_each_walk.
  match goal with |- context [is_split ?s] => destruct (is_split s) end;
    [|left; reflexivity].
  apply (Size_fold_split_key c P _ Hall). left. reflexivity.
Qed.

End SizeSplitCheckerFacts.

Module KeysSplitCheckerFacts.

Import KeysSplitChecker.

Lemma Keys_fold_split_key (c : t) (P : string -> Prop) (entries : list (string * Z)) :
  Forall (fun e => P (fst e)) entries ->
  forall st, (split_key st = EmptyString \/ P (split_key st)) ->
    let st' := fold_left (body c) entries st in
    split_key st' = EmptyString \/ P (split_key st').
Proof.
  induction 1 as [|[k sz] rest He _ IH]; intros st Hst; simpl; [exact Hst|].
  apply IH. unfold body. simpl in He.
  destruct (neq_string (prev_key st) k); simpl;
    match goal with
    | |- context [empty ?a && ?b] => destruct (empty a && b)
    end; simpl; auto;
    match goal with
    | |- context [?a =? ?b] => destruct (a =? b)
    end; simpl; auto.
Qed.

Lemma Keys_SplitKey_empty_or_seen (c : t) (P : string -> Prop)
    (raw_engine : string -> Iterator.ColumnFamily)
    (start_key end_key : string) (cf_names : list string) (count size : Z) :
  Forall (fun e => P (fst e))
         (MergedIterator.stream raw_engine cf_names start_key end_key) ->
  let r := SplitKey c raw_engine start_key end_key cf_names count size in
  split_key_of r = EmptyString \/ P (split_key_of r).
Proof.
  intros Hall. unfold SplitKey, loop, finish. simpl.
  rewrite MergedIteratorFacts.for_each_walk.
  match goal with |- context [is_split ?s] => destruct (is_split s) end;
    [|left; reflexivity].
  apply (Keys_fold_split_key c P _ Hall). left. reflexivity.
Qed.

End KeysSplitCheckerFacts.

(** ** The split check task *)

Module SplitCheckTaskFacts.

Import KeyOrder SplitCheckTask SplitExamples.

Lemma empty_false (s : string) : empty s = false -> s <> EmptyString.
Proof. unfold empty. intros H. apply String.eqb_neq. exact H. Qed.

Lemma validate_None (kExpect : Z) (region : Region) (plain_split_key : string) :
  validate kExpect region plain_split_key = None ->
  plain_split_key <> EmptyString
  /\ CheckKeyInRange region plain_split_key = true.
Proof.
  unfold validate.
  destruct (empty plain_split_key) eqn:E1; [discriminate|].
  destruct (negb (epoch_version_after region =? epoch_version_before region));
    [discriminate|].
  destruct (CheckKeyInRange region plain_split_key) eqn:E2;
    [|discriminate].
  intros _. split; [apply empty_false; exact E1|reflexivity].
Qed.

Lemma SplitKey_in_range (checker : SplitChecker)
    (raw_engine : string -> Iterator.ColumnFamily)
    (start_key end_key : string) (cf_names : list string) (count size : Z) :
  (forall cf_name, MergedIteratorInv.sorted_cf (raw_engine cf_name)) ->
  let k := split_key_of (SplitKey checker raw_engine start_key end_key
                           cf_names count size) in
  k = EmptyString
  \/ (key_le start_key k = true /\ key_lt k end_key = true).
Proof.
  intros Hs.
  pose proof (MergedIteratorFacts.stream_in_range raw_engine cf_names
                start_key end_key Hs) as Hall.
  destruct checker as [c|c|c]; simpl.
  - apply (HalfSplitCheckerFacts.Half_SplitKey_empty_or_seen c _ _ _ _ _ _ _ Hall).
  - apply (SizeSplitCheckerFacts.Size_SplitKey_empty_or_seen c _ _ _ _ _ _ _ Hall).
  - apply (KeysSplitCheckerFacts.Keys_SplitKey_empty_or_seen c _ _ _ _ _ _ _ Hall).
Qed.

(** C5.  For every region whose column families are in key order, the key
    a split policy returns is empty or lies in the encoded range that was
    walked, because the merged iterator starts at the start key and is
    bounded above by the end key; and a [SplitRegion] request is sent only
    with a non-empty decoded key that passed [CheckKeyInRange], that is,
    one in [[start_key, end_key)] of the region. *)
Theorem SplitCheck_split_key_in_range :
  forall (EncodeRange : string * string -> string * string)
         (DecodeKey : string -> option (string * Z))
         (GetColumnFamilyNames : string -> list string * list string)
         (kVectorIndexTaskRunningNumExpectValue : Z)
         (region : Region) (checker : SplitChecker) (region_metrics_ : bool)
         (raw_engine : string -> Iterator.ColumnFamily),
    (forall cf_name, MergedIteratorInv.sorted_cf (raw_engine cf_name)) ->
    (forall (start_key end_key : string) (cf_names : list string)
            (count size : Z),
        let k := split_key_of (SplitKey checker raw_engine start_key end_key
                                 cf_names count size) in
        k = EmptyString
        \/ (key_le start_key k = true /\ key_lt k end_key = true))
    /\ (forall (metrics : Metrics) (request : SplitRegionRequest),
          SplitCheck EncodeRange DecodeKey GetColumnFamilyNames
            kVectorIndexTaskRunningNumExpectValue (Some region) (Some checker)
            region_metrics_ raw_engine
          = SendSplitRegion metrics request ->
          split_watershed_key request <> EmptyString
          /\ key_le (range_start_key region) (split_watershed_key request)
             = true
          /\ key_lt (split_watershed_key request) (range_end_key region)
             = true).
Proof.
  intros EncodeRange DecodeKey GetCF kExpect region checker rm raw_engine Hs.
  split.
  - intros. apply SplitKey_in_range. exact Hs.
  - intros metrics request. unfold SplitCheck.
    destruct (GetCF _) as [raw_cf_names txn_cf_names].
    match goal with
    | |- context [match ?d with Some _ => _ | None => Abort end] =>
        destruct d as [plain_split_key|]
    end; [|discriminate].
    destruct (validate kExpect region plain_split_key) eqn:Ev; [discriminate|].
    intros H. injection H as _ <-. simpl.
    apply validate_None in Ev as [Hne Hin].
    unfold CheckKeyInRange in Hin. apply andb_true_iff in Hin as [H1 H2].
    auto.
Qed.

Lemma example_engine_sorted :
  forall cf_name, MergedIteratorInv.sorted_cf (example_engine cf_name).
Proof.
  intros cf_name. unfold MergedIteratorInv.sorted_cf, example_engine.
  repeat constructor.
Defined.

Lemma SplitCheck_split_key_in_range_witness :
  SplitCheck (fun r => r) (fun k => Some (k, 0))
    (fun _ => (["default"%string], [])) 5 (Some example_region)
    (Some example_checker) true example_engine
  = SendSplitRegion (mkMetrics (Some 2) (Some 13))
      (mkSplitRegionRequest 7 "b")
  /\ key_le "a" "b" = true /\ key_lt "b" "z" = true.
Proof.
  split; [vm_compute; reflexivity|].
  pose proof (SplitCheck_split_key_in_range (fun r => r) (fun k => Some (k, 0))
                (fun _ => (["default"%string], [])) 5 example_region
                example_checker true example_engine example_engine_sorted)
    as [_ H].
  specialize (H (mkMetrics (Some 2) (Some 13)) (mkSplitRegionRequest 7 "b")
                ltac:(vm_compute; reflexivity)).
  exact (proj2 H).
Defined.

End SplitCheckTaskFacts.

(** ** The timestamp provider *)

Module TsProviderFacts.

Import TsProvider.

(** *** Ranges *)

Lemma within_shrink (t c e : Z) : within t (c + 1, e) -> within t (c, e).
Proof. unfold within. simpl. lia. Qed.

Lemma disjoint_tail (r : Z * Z) (rs : list (Z * Z)) :
  ForallOrdPairs (fun r1 r2 => forall t, ~ (within t r1 /\ within t r2))
                 (r :: rs) ->
  ForallOrdPairs (fun r1 r2 => forall t, ~ (within t r1 /\ within t r2)) rs.
Proof. intros H. inversion H; assumption. Qed.

Lemma disjoint_shrink (c e : Z) (rs : list (Z * Z)) :
  ForallOrdPairs (fun r1 r2 => forall t, ~ (within t r1 /\ within t r2))
                 ((c, e) :: rs) ->
  ForallOrdPairs (fun r1 r2 => forall t, ~ (within t r1 /\ within t r2))
                 ((c + 1, e) :: rs).
Proof.
  intros H. inversion H as [|a l Hall Hrest]; subst. constructor; [|exact Hrest].
  eapply Forall_impl; [exact Hall|].
  intros r Hr t [H1 H2]. apply (Hr t). split; [|exact H2].
  apply within_shrink. exact H1.
Qed.

Lemma not_within_rest (c e : Z) (rs : list (Z * Z)) :
  ForallOrdPairs (fun r1 r2 => forall t, ~ (within t r1 /\ within t r2))
                 ((c, e) :: rs) ->
  c < e -> ~ Exists (within c) rs.
Proof.
  intros H Hlt Hex. inversion H as [|a l Hall Hrest]; subst.
  apply Exists_exists in Hex as (r & Hin & Hw).
  rewrite Forall_forall in Hall. apply (Hall r Hin c).
  split; [unfold within; simpl; lia|exact Hw].
Qed.

(** *** Composition of steps *)

Lemma Steps_refl (w : World) : Steps 0 w [] w.
Proof.
  split; [lia|]. intros H. repeat split; try apply H; auto; constructor.
Qed.

Lemma Steps_trans (n1 n2 : nat) (w w' w'' : World) (i1 i2 : list Z) :
  Steps n1 w i1 w' -> Steps n2 w' i2 w'' -> Steps (n1 + n2) w (i1 ++ i2) w''.
Proof.
  intros [Hl1 H1] [Hl2 H2]. split; [lia|]. intros Hc.
  destruct (H1 Hc) as (Hc1 & Hsub1 & Hi1 & Hnd1).
  destruct (H2 Hc1) as (Hc2 & Hsub2 & Hi2 & Hnd2).
  split; [exact Hc2|]. split; [auto|]. split.
  - apply Forall_app. split.
    + eapply Forall_impl; [exact Hi1|]. intros t [Ha Hn]. split; auto.
    + eapply Forall_impl; [exact Hi2|]. intros t [Ha Hn]. split; auto.
  - apply NoDup_app. split; [exact Hnd1|]. split; [|exact Hnd2].
    intros t Ht1 Ht2.
    rewrite Forall_forall in Hi1, Hi2.
    destruct (Hi1 t Ht1) as [_ Hn]. destruct (Hi2 t Ht2) as [Ha _]. auto.
Qed.

(** A piece that keeps the ranges, the well-formedness of the queue and
    the number of launches is a step that hands out nothing. *)
Lemma Steps_same_ranges (w w' : World) :
  ranges w' = ranges w ->
  (well_formed w -> well_formed w') ->
  launches w' = launches w ->
  Steps 0 w [] w'.
Proof.
  intros Hr Hwf Hl. split; [lia|]. intros [Hw Hd].
  unfold consistent, disjoint_batches, available. rewrite Hr.
  repeat split; auto; constructor.
Qed.

Section Provider.

Variable flags : Flags.
Variable clock : nat -> Z.
Variable worker_executes : nat -> bool.
Variable IsValid : Z -> bool.

Lemma untouched_refl (w : World) : untouched w w.
Proof. repeat split. Qed.

Lemma untouched_trans (w w' w'' : World) :
  untouched w w' -> untouched w' w'' -> untouched w w''.
Proof.
  intros (H1 & H2 & H3 & H4) (H1' & H2' & H3' & H4').
  repeat split; congruence.
Qed.

Lemma untouched_Steps (w w' : World) : untouched w w' -> Steps 0 w [] w'.
Proof.
  intros (Hn & Ht & Hs & Hl). apply Steps_same_ranges.
  - unfold ranges. rewrite Hn, Hs. reflexivity.
  - unfold well_formed. rewrite Hn, Ht. auto.
  - exact Hl.
Qed.

Lemma PushDead_untouched (b : BatchTs) (w : World) :
  untouched w (snd (PushDead clock b w)).
Proof.
  unfold PushDead, bind, TimestampMs, get_list, put_list. simpl.
  destruct (push_loop _ _ _ _) as [queue tail]. simpl. repeat split.
Qed.

Lemma CleanDead_turn_untouched (w : World) :
  untouched w (snd (CleanDead_turn flags clock w)).
Proof.
  unfold CleanDead_turn, bind, TimestampMs, get_list, put_list, ret. simpl.
  repeat match goal with
         | |- context [match ?x with _ => _ end] => destruct x; simpl
         end;
    repeat split.
Qed.

Lemma CleanDead_loop_untouched (fuel : nat) :
  forall w, untouched w (snd (CleanDead_loop flags clock fuel w)).
Proof.
  induction fuel as [|fuel IH]; intros w; simpl; [apply untouched_refl|].
  unfold bind.
  pose proof (CleanDead_turn_untouched w) as H.
  destruct (CleanDead_turn flags clock w) as [[|] w1]; simpl in *;
    [exact H|].
  eapply untouched_trans; [exact H|apply IH].
Qed.

Lemma CleanDead_untouched (w : World) :
  untouched w (snd (CleanDead flags clock w)).
Proof.
  unfold CleanDead, bind, get_list. apply CleanDead_loop_untouched.
Qed.

(** *** Renewal *)

Lemma push_loop_appends (b : BatchTs) :
  forall (fuel : nat) (queue : list BatchTs) (tail : nat),
    (tail < length queue)%nat -> (length queue <= tail + fuel)%nat ->
    push_loop fuel queue tail b = (queue ++ [b], (length queue - 1)%nat).
Proof.
  induction fuel as [|fuel IH]; intros queue tail Hlt Hle; [lia|]. simpl.
  destruct (queue !! Datatypes.S tail) as [next|] eqn:E.
  - apply lookup_lt_Some in E. apply IH; lia.
  - apply lookup_ge_None in E. f_equal. lia.
Qed.

Lemma Push_appends (b : BatchTs) (w : World) :
  well_formed w ->
  let w' := snd (Push b w) in
  nodes (batch_ts_list_ w') = nodes (batch_ts_list_ w) ++ [b]
  /\ well_formed w'
  /\ tso_responses w' = tso_responses w
  /\ launches w' = launches w.
Proof.
  unfold well_formed, Push, bind, get_list, put_list. intros Hwf. simpl.
  rewrite push_loop_appends by lia. simpl.
  repeat split. rewrite length_app. simpl. lia.
Qed.

Lemma Push_launches (b : BatchTs) (w : World) :
  launches (snd (Push b w)) = launches w.
Proof.
  unfold Push, bind, get_list, put_list. simpl.
  destruct (push_loop _ _ _ _). reflexivity.
Qed.

Lemma RenewBatchTs_loop_launches (retries : nat) :
  forall w, launches (snd (RenewBatchTs_loop flags clock retries w))
            = launches w.
Proof.
  induction retries as [|retries IH]; intros w; simpl; [reflexivity|].
  unfold bind, SendTsoRequest.
  destruct (tso_responses w) as [|[r|] later] eqn:Et.
  - apply IH.
  - unfold BatchTs_New, bind, TimestampMs, ret. simpl.
    match goal with
    | |- context [Push ?b ?w0] =>
        pose proof (Push_launches b w0) as Hp; destruct (Push b w0) as [u w1]
    end.
    unfold add_renew_epoch. simpl.
    match goal with
    | |- context [CleanDead flags clock ?w0] =>
        pose proof (CleanDead_untouched w0) as Hc;
        destruct (CleanDead flags clock w0) as [u' w2]
    end.
    simpl in *. destruct Hc as (_ & _ & _ & Hl2). simpl in *. congruence.
  - rewrite IH. reflexivity.
Qed.

Lemma RenewBatchTs_loop_ranges (retries : nat) :
  forall w,
    well_formed w ->
    let w' := snd (RenewBatchTs_loop flags clock retries w) in
    ranges w' = ranges w /\ well_formed w'.
Proof.
  induction retries as [|retries IH]; intros w Hwf; simpl; [auto|].
  unfold bind, SendTsoRequest.
  destruct (tso_responses w) as [|[r|] later] eqn:Et.
  - apply (IH w Hwf).
  - unfold BatchTs_New, bind, TimestampMs, ret. simpl.
    match goal with
    | |- context [Push ?b ?w0] =>
        pose proof (Push_appends b w0) as Hp; destruct (Push b w0) as [u w1]
    end.
    simpl in Hp. specialize (Hp Hwf). destruct Hp as (Hn & Hw1 & Hs & Hl).
    unfold add_renew_epoch. simpl.
    match goal with
    | |- context [CleanDead flags clock ?w0] =>
        pose proof (CleanDead_untouched w0) as Hc;
        destruct (CleanDead flags clock w0) as [u' w2]
    end.
    simpl in *. destruct Hc as (Hn2 & Ht2 & Hs2 & Hl2). simpl in *.
    split.
    + unfold ranges. rewrite Hn2, Hs2, Hn, Hs, Et. simpl.
      rewrite map_app, <- app_assoc. reflexivity.
    + unfold well_formed in *. rewrite Hn2, Ht2. exact Hw1.
  - set (w0 := mkWorld (batch_ts_list_ w) later (ticks w) (launches w)
                 (get_ts_count_ w) (get_ts_fail_count_ w) (renew_epoch_ w)).
    destruct (IH w0 Hwf) as (Hr & Hw).
    split; [|exact Hw].
    rewrite Hr. unfold ranges. simpl. rewrite Et. reflexivity.
Qed.

Lemma LaunchRenewBatchTs_Steps (is_sync : bool) (w : World) :
  Steps 1 w [] (snd (LaunchRenewBatchTs flags clock worker_executes is_sync w)).
Proof.
  unfold LaunchRenewBatchTs.
  set (w0 := mkWorld (batch_ts_list_ w) (tso_responses w) (ticks w)
               (Datatypes.S (launches w)) (get_ts_count_ w)
               (get_ts_fail_count_ w) (renew_epoch_ w)).
  assert (Steps 1 w [] w0) as H0.
  { split; [simpl; lia|]. intros Hc. repeat split; try apply Hc; auto;
      constructor. }
  destruct (worker_executes (launches w)); [|exact H0].
  change 1%nat with (1 + 0)%nat. change (@nil Z) with (@nil Z ++ []).
  eapply Steps_trans; [exact H0|].
  unfold RenewBatchTs.
  set (n := Z.to_nat (to_uint32 (ts_provider_renew_max_retry_num flags))).
  split.
  - rewrite RenewBatchTs_loop_launches. lia.
  - intros [Hw Hd].
    destruct (RenewBatchTs_loop_ranges n w0 Hw) as (Hr & Hw').
    unfold consistent, disjoint_batches, available. rewrite Hr.
    repeat split; auto; constructor.
Qed.

(** *** One turn of BatchTsList::GetTs *)

Lemma ranges_head (w : World) (head : BatchTs) (rest : list BatchTs) :
  nodes (batch_ts_list_ w) = head :: rest ->
  ranges w
  = (start_ts_ head, end_ts_ head)
    :: (map range_of_batch rest
        ++ map range_of_response (answered (tso_responses w))).
Proof. intros H. unfold ranges. rewrite H. reflexivity. Qed.

(** The head keeps its place, with its cursor where it was or one
    further, or the head is dropped: nothing is handed out. *)
Lemma Steps_head_quiet (w w' : World) (head : BatchTs) (rest : list BatchTs) :
  nodes (batch_ts_list_ w) = head :: rest ->
  tso_responses w' = tso_responses w ->
  launches w' = launches w ->
  (well_formed w -> well_formed w') ->
  nodes (batch_ts_list_ w') = head :: rest
  \/ nodes (batch_ts_list_ w') = advanced head :: rest
  \/ nodes (batch_ts_list_ w') = rest ->
  Steps 0 w [] w'.
Proof.
  intros Hn Ht Hl Hwf Hcase. split; [lia|]. intros [Hw Hd].
  unfold consistent, disjoint_batches, available in *.
  rewrite (ranges_head w head rest Hn) in *.
  assert (ranges w'
          = (start_ts_ head, end_ts_ head)
            :: (map range_of_batch rest
                ++ map range_of_response (answered (tso_responses w)))
          \/ ranges w'
             = (start_ts_ head + 1, end_ts_ head)
               :: (map range_of_batch rest
                   ++ map range_of_response (answered (tso_responses w)))
          \/ ranges w'
             = map range_of_batch rest
               ++ map range_of_response (answered (tso_responses w)))
    as Hr.
  { unfold ranges. rewrite Ht.
    destruct Hcase as [H|[H|H]]; rewrite H; simpl; auto. }
  destruct Hr as [Hr|[Hr|Hr]]; rewrite Hr;
    (split; [split; [auto|]|split; [|split; constructor]]).
  - exact Hd.
  - auto.
  - apply disjoint_shrink. exact Hd.
  - intros t Hex. inversion Hex; subst.
    + left. apply within_shrink. assumption.
    + right. assumption.
  - eapply disjoint_tail. exact Hd.
  - intros t Hex. right. exact Hex.
Qed.

(** The cursor of the head moves on by one and the timestamp under it is
    handed out. *)
Lemma Steps_head_issue (w w' : World) (head : BatchTs) (rest : list BatchTs) :
  nodes (batch_ts_list_ w) = head :: rest ->
  tso_responses w' = tso_responses w ->
  launches w' = launches w ->
  (well_formed w -> well_formed w') ->
  nodes (batch_ts_list_ w') = advanced head :: rest ->
  start_ts_ head < end_ts_ head ->
  Steps 0 w [start_ts_ head] w'.
Proof.
  intros Hn Ht Hl Hwf Hn' Hlt. split; [lia|]. intros [Hw Hd].
  unfold consistent, disjoint_batches, available in *.
  rewrite (ranges_head w head rest Hn) in *.
  assert (ranges w'
          = (start_ts_ head + 1, end_ts_ head)
            :: (map range_of_batch rest
                ++ map range_of_response (answered (tso_responses w))))
    as Hr.
  { unfold ranges. rewrite Ht, Hn'. reflexivity. }
  rewrite Hr. split; [|split; [|split]].
  - split; [auto|]. apply disjoint_shrink. exact Hd.
  - intros t Hex. inversion Hex; subst.
    + left. apply within_shrink. assumption.
    + right. assumption.
  - constructor; [|constructor]. split.
    + left. unfold within. simpl. lia.
    + intros Hex. inversion Hex as [? ? Hin|? ? Hin]; subst.
      * unfold within in Hin. simpl in Hin. lia.
      * eapply not_within_rest; eauto.
  - constructor; [|constructor]. intros Hin. inversion Hin.
Qed.

Lemma IsStale_world (b : BatchTs) (w w1 : World) (stale : bool) :
  IsStale flags clock b w = (stale, w1) ->
  w1 = mkWorld (batch_ts_list_ w) (tso_responses w) (Datatypes.S (ticks w))
         (launches w) (get_ts_count_ w) (get_ts_fail_count_ w)
         (renew_epoch_ w).
Proof.
  unfold IsStale, bind, TimestampMs, get_list, ret. simpl.
  destruct (_ <? clock (ticks w)); intros H; injection H as _ <-;
    reflexivity.
Qed.

Lemma GetTs_turn_spec (after_ts : Z) (w w' : World) (r : option Z) :
  GetTs_turn flags clock IsValid after_ts w = (r, w') ->
  Steps 0 w (match r with Some ts => issued_of ts | None => [] end) w'
  /\ match r with
     | Some ts => ts = 0 \/ (ts > after_ts /\ ts > 0)
     | None =>
         well_formed w ->
         well_formed w' /\ (turns_left w' < turns_left w)%nat
     end.
Proof.
  unfold GetTs_turn, bind, get_list. cbv beta iota zeta.
  destruct (nodes (batch_ts_list_ w)) as [|head rest] eqn:En.
  { unfold ret. intros H. injection H as <- <-.
    split; [apply Steps_refl|left; reflexivity]. }
  destruct (IsStale flags clock head w) as [stale w1] eqn:Es.
  apply IsStale_world in Es. subst w1.
  destruct stale.
  - (* the head is stale: nothing is taken from it *)
    unfold put_list, ret. simpl.
    destruct rest as [|head_next rest']; simpl.
    + intros H. injection H as <- <-. split; [|left; reflexivity].
      eapply Steps_head_quiet; eauto; simpl; auto.
      unfold well_formed. simpl. rewrite En. simpl. auto.
    + destruct (tail_pos (batch_ts_list_ w)) as [|tail'] eqn:Et; simpl.
      * intros H. injection H as <- <-. split.
        -- eapply Steps_head_quiet; eauto; simpl; auto.
           unfold well_formed. simpl. lia.
        -- unfold well_formed, turns_left. simpl. rewrite En, Et. simpl. lia.
      * match goal with
        | |- context [PushDead clock ?b ?w0] =>
            pose proof (PushDead_untouched b w0) as Hp;
            destruct (PushDead clock b w0) as [u w2]
        end.
        simpl in Hp. destruct Hp as (Hn2 & Ht2 & Hs2 & Hl2). simpl in *.
        intros H. injection H as <- <-. split.
        -- eapply Steps_head_quiet; eauto; try congruence.
           unfold well_formed. rewrite Hn2, Ht2, En, Et. simpl. lia.
        -- unfold well_formed, turns_left. rewrite Hn2, Ht2, En, Et. simpl.
           intros Hw. split; [lia|]. destruct tail'; lia.
  - (* the head is not stale: its cursor moves on *)
    unfold BatchTs_GetTs at 1. cbv beta iota zeta.
    set (ts := if start_ts_ head <? end_ts_ head then start_ts_ head else 0).
    fold (advanced head).
    unfold put_list, ret. simpl.
    destruct ((ts >? after_ts) && (ts >? 0) && IsValid ts) eqn:Ec.
    + intros H. injection H as <- <-.
      apply andb_true_iff in Ec as [Ec _].
      apply andb_true_iff in Ec as [E1 E2].
      apply Z.gtb_lt in E1. apply Z.gtb_lt in E2.
      assert (start_ts_ head < end_ts_ head /\ ts = start_ts_ head)
        as [Hlt Hts].
      { unfold ts in *. destruct (start_ts_ head <? end_ts_ head) eqn:E;
          [apply Z.ltb_lt in E; auto|lia]. }
      split; [|right; lia].
      unfold issued_of. destruct (ts =? 0) eqn:E0;
        [apply Z.eqb_eq in E0; lia|].
      rewrite Hts.
      eapply Steps_head_issue; eauto; simpl; auto.
      unfold well_formed. simpl. rewrite En. simpl. auto.
    + destruct rest as [|head_next rest']; simpl.
      * intros H. injection H as <- <-. split; [|left; reflexivity].
        eapply Steps_head_quiet; eauto; simpl; auto.
        unfold well_formed. simpl. rewrite En. simpl. auto.
      * destruct (tail_pos (batch_ts_list_ w)) as [|tail'] eqn:Et; simpl.
        -- intros H. injection H as <- <-. split.
           ++ eapply Steps_head_quiet; eauto; simpl; auto.
              unfold well_formed. simpl. lia.
           ++ unfold well_formed, turns_left. simpl. rewrite En, Et. simpl.
              lia.
        -- match goal with
           | |- context [PushDead clock ?b ?w0] =>
               pose proof (PushDead_untouched b w0) as Hp;
               destruct (PushDead clock b w0) as [u w2]
           end.
           simpl in Hp. destruct Hp as (Hn2 & Ht2 & Hs2 & Hl2). simpl in *.
           intros H. injection H as <- <-. split.
           ++ eapply Steps_head_quiet; eauto; try congruence.
              unfold well_formed. rewrite Hn2, Ht2, En, Et. simpl. lia.
           ++ unfold well_formed, turns_left. rewrite Hn2, Ht2, En, Et.
              simpl. intros Hw. split; [lia|]. destruct tail'; lia.
Qed.

(** *** BatchTsList::GetTs *)

Lemma GetTs_loop_spec (after_ts : Z) (fuel : nat) :
  forall (w w' : World) (ts : Z),
    GetTs_loop flags clock IsValid fuel after_ts w = (ts, w') ->
    Steps 0 w (issued_of ts) w' /\ (ts = 0 \/ (ts > after_ts /\ ts > 0)).
Proof.
  induction fuel as [|fuel IH]; intros w w' ts; simpl.
  - unfold ret. intros H. injection H as <- <-.
    split; [apply Steps_refl|left; reflexivity].
  - unfold bind.
    destruct (GetTs_turn flags clock IsValid after_ts w) as [r w1] eqn:Et.
    apply GetTs_turn_spec in Et as [Hs Hr].
    destruct r as [ts1|].
    + unfold ret. intros H. injection H as <- <-. auto.
    + intros H. apply IH in H as [Hs' Hr'].
      split; [|exact Hr'].
      change 0%nat with (0 + 0)%nat.
      change (issued_of ts) with ([] ++ issued_of ts).
      eapply Steps_trans; eauto.
Qed.

Lemma turns_left_positive (w : World) :
  well_formed w -> (0 < turns_left w)%nat.
Proof.
  unfold well_formed, turns_left.
  destruct (nodes (batch_ts_list_ w)); simpl; [lia|].
  destruct (tail_pos (batch_ts_list_ w)); lia.
Qed.

(** The fuel of the loop is enough: with [turns_left] turns, or any
    number above, the loop returns because a turn returns. *)
Lemma GetTs_loop_enough_fuel (after_ts : Z) (fuel : nat) :
  forall (w : World) (extra : nat),
    well_formed w -> (turns_left w <= fuel)%nat ->
    GetTs_loop flags clock IsValid (fuel + extra) after_ts w
    = GetTs_loop flags clock IsValid fuel after_ts w.
Proof.
  induction fuel as [|fuel IH]; intros w extra Hw Hle.
  - pose proof (turns_left_positive w Hw). lia.
  - simpl. unfold bind.
    destruct (GetTs_turn flags clock IsValid after_ts w) as [r w1] eqn:Et.
    apply GetTs_turn_spec in Et as [_ Hr].
    destruct r as [ts1|]; [reflexivity|].
    destruct (Hr Hw) as [Hw1 Hlt]. apply IH; [exact Hw1|lia].
Qed.

Lemma BatchTsList_GetTs_enough_fuel (after_ts : Z) (w : World) (extra : nat) :
  well_formed w ->
  GetTs_loop flags clock IsValid
    (2 * length (nodes (batch_ts_list_ w)) + extra) after_ts w
  = BatchTsList_GetTs flags clock IsValid after_ts w.
Proof.
  intros Hw. unfold BatchTsList_GetTs, bind, get_list.
  apply GetTs_loop_enough_fuel; [exact Hw|].
  unfold turns_left. lia.
Qed.

Lemma BatchTsList_GetTs_spec (after_ts : Z) (w w' : World) (ts : Z) :
  BatchTsList_GetTs flags clock IsValid after_ts w = (ts, w') ->
  Steps 0 w (issued_of ts) w' /\ (ts = 0 \/ (ts > after_ts /\ ts > 0)).
Proof.
  unfold BatchTsList_GetTs, bind, get_list. apply GetTs_loop_spec.
Qed.

(** *** TsProvider::GetTs *)

Lemma GetTs_retry_spec (after_ts : Z) (retries : nat) :
  forall (w w' : World) (ts : Z),
    GetTs_retry flags clock worker_executes IsValid retries after_ts w
    = (ts, w') ->
    exists n : nat,
      Steps n w (issued_of ts) w'
      /\ (ts = 0 \/ (ts > after_ts /\ ts > 0))
      /\ (ts = 0 -> n = retries)
      /\ (ts <> 0 -> (n < retries)%nat).
Proof.
  induction retries as [|retries IH]; intros w w' ts; simpl.
  - unfold bind, add_get_ts_fail_count, ret. simpl.
    intros H. injection H as <- <-. exists 0%nat.
    split; [|split; [left; reflexivity|split; [reflexivity|congruence]]].
    apply untouched_Steps. repeat split.
  - unfold bind.
    destruct (BatchTsList_GetTs flags clock IsValid after_ts w)
      as [ts1 w1] eqn:Eb.
    apply BatchTsList_GetTs_spec in Eb as [Hs Hr].
    destruct (ts1 >? 0) eqn:Egt.
    + unfold add_get_ts_count, ret. simpl.
      intros H. injection H as <- <-.
      apply Z.gtb_lt in Egt. exists 0%nat.
      split; [|split; [exact Hr|split; lia]].
      change 0%nat with (0 + 0)%nat.
      rewrite <- (app_nil_r (issued_of ts1)).
      eapply Steps_trans; [exact Hs|].
      apply untouched_Steps. repeat split.
    + assert (ts1 = 0) as ->.
      { destruct Hr as [?|[? ?]]; [auto|].
        rewrite Z.gtb_ltb in Egt. apply Z.ltb_ge in Egt. lia. }
      pose proof (LaunchRenewBatchTs_Steps true w1) as Hl.
      destruct (LaunchRenewBatchTs flags clock worker_executes true w1)
        as [u w2].
      simpl in Hl.
      intros H. apply IH in H as (n & Hn & Hr' & H0 & Hne).
      exists (Datatypes.S n).
      split; [|split; [exact Hr'|split; [intros; f_equal; auto|]]].
      * change (Datatypes.S n) with (0 + (1 + n))%nat.
        change (issued_of ts) with (issued_of 0 ++ ([] ++ issued_of ts)).
        eapply Steps_trans; [exact Hs|].
        eapply Steps_trans; [exact Hl|exact Hn].
      * intros Hts. specialize (Hne Hts). lia.
Qed.

Lemma GetTs_calls_spec (after_tss : list Z) :
  forall (w w' : World) (tss : list Z),
    GetTs_calls flags clock worker_executes IsValid after_tss w = (tss, w') ->
    Forall2 (fun after_ts ts => ts = 0 \/ (ts > after_ts /\ ts > 0))
            after_tss tss
    /\ exists n : nat, Steps n w (concat (map issued_of tss)) w'.
Proof.
  induction after_tss as [|after_ts later IH]; intros w w' tss; simpl.
  - unfold ret. intros H. injection H as <- <-.
    split; [constructor|]. exists 0%nat. apply Steps_refl.
  - unfold bind, GetTs.
    destruct (GetTs_retry flags clock worker_executes IsValid _ after_ts w)
      as [ts w1] eqn:Eg.
    apply GetTs_retry_spec in Eg as (n & Hn & Hr & _).
    destruct (GetTs_calls flags clock worker_executes IsValid later w1)
      as [tss1 w2] eqn:Ec.
    apply IH in Ec as (Hall & n' & Hn').
    unfold ret. intros H. injection H as <- <-.
    split; [constructor; assumption|].
    exists (n + n')%nat. simpl. eapply Steps_trans; eauto.
Qed.

Lemma concat_issued_filter (tss : list Z) :
  concat (map issued_of tss) = List.filter (fun ts => negb (ts =? 0)) tss.
Proof.
  induction tss as [|ts tss IH]; simpl; [reflexivity|].
  unfold issued_of at 1. destruct (ts =? 0); simpl; rewrite IH; reflexivity.
Qed.

End Provider.

(** C2.  In a world whose batches do not overlap, every call of
    [TsProvider::GetTs] returns 0 or a value above its [after_ts], no two
    calls of a sequence return the same non-zero value, and a call returns
    0 exactly when all of its [FLAGS_ts_provider_max_retry_num] attempts on
    the batch list have failed, each failed attempt having launched one
    renewal. *)
Theorem TsProvider_GetTs_fresh :
  forall (flags : Flags) (clock : nat -> Z) (worker_executes : nat -> bool)
         (IsValid : Z -> bool) (w : World) (after_tss : list Z),
    consistent w ->
    let tss :=
      fst (GetTs_calls flags clock worker_executes IsValid after_tss w) in
    Forall2 (fun after_ts ts => ts = 0 \/ ts > after_ts) after_tss tss
    /\ NoDup (List.filter (fun ts => negb (ts =? 0)) tss)
    /\ forall after_ts : Z,
         let r := GetTs flags clock worker_executes IsValid after_ts w in
         (fst r = 0 \/ fst r > after_ts)
         /\ (launches (snd r) <= launches w + max_retry flags)%nat
         /\ (fst r = 0 <->
             launches (snd r) = (launches w + max_retry flags)%nat).
Proof.
  intros flags clock worker_executes IsValid w after_tss Hc tss.
  split; [|split].
  - unfold tss.
    destruct (GetTs_calls flags clock worker_executes IsValid after_tss w)
      as [tss0 w'] eqn:E.
    apply GetTs_calls_spec in E as [Hall _]. simpl.
    eapply Forall2_impl; [exact Hall|].
    intros a t [H|[H _]]; auto.
  - unfold tss.
    destruct (GetTs_calls flags clock worker_executes IsValid after_tss w)
      as [tss0 w'] eqn:E.
    apply GetTs_calls_spec in E as [_ [n [_ Hs]]]. simpl.
    rewrite <- concat_issued_filter. apply (Hs Hc).
  - intros after_ts r. unfold r, GetTs.
    destruct (GetTs_retry flags clock worker_executes IsValid
                (max_retry flags) after_ts w) as [ts w'] eqn:E.
    apply GetTs_retry_spec in E as (n & [Hl _] & Hr & H0 & Hne). simpl.
    split; [destruct Hr as [?|[? ?]]; auto|].
    destruct (Z.eq_dec ts 0) as [Hz|Hz].
    + specialize (H0 Hz). subst n. split; [lia|]. split; auto.
    + specialize (Hne Hz). split; [lia|]. split; [congruence|lia].
Qed.

Lemma example_world_consistent : consistent example_world.
Proof.
  split.
  - unfold well_formed. simpl. lia.
  - unfold disjoint_batches.
    replace (ranges example_world)
      with [(262144, 262147); (524288, 524290)]
      by (vm_compute; reflexivity).
    constructor; [|constructor; constructor].
    constructor; [|constructor].
    intros t [H1 H2]. unfold within in *. cbn [fst snd] in *. lia.
Qed.

Lemma TsProvider_GetTs_fresh_witness :
  fst (GetTs_calls default_flags (fun _ => 5) (fun _ => true)
         (fun _ => true) [0; 0; 0; 0; 0; 0] example_world)
  = [262144; 262145; 262146; 524288; 524289; 0]
  /\ NoDup [262144; 262145; 262146; 524288; 524289].
Proof.
  split; [vm_compute; reflexivity|].
  pose proof (TsProvider_GetTs_fresh default_flags (fun _ => 5)
                (fun _ => true) (fun _ => true) example_world
                [0; 0; 0; 0; 0; 0] example_world_consistent) as H.
  destruct H as (_ & H & _).
  vm_compute in H. exact H.
Defined.

End TsProviderFacts.

(** ** The vector reader *)

Module VectorReaderFacts.

Import Pb VectorReader VectorReaderInv.

(** C8.  A search whose list of query vectors is empty returns the OK
    status and leaves the result list as it was, so a batch search with no
    queries returns OK and an empty result list. *)
Theorem SearchVector_empty_query_list :
  forall (env : Env) (flags : Flags) (pre : PreFilterSearch)
         (ts partition_id : Z) (region_range : string * string)
         (parameter : VectorSearchParameter)
         (results : list VectorWithDistanceResult),
    SearchVector env flags pre ts partition_id region_range [] parameter
      results
    = Return StatusOK results
    /\ ok StatusOK = true
    /\ VectorBatchSearch env flags pre
         (mkSearchContext ts partition_id region_range [] parameter) []
       = Return StatusOK [].
Proof.
  intros env flags pre t pid range param results.
  split; [reflexivity|]. split; [reflexivity|].
  unfold VectorBatchSearch. simpl.
  destruct (without_scalar_data param);
    destruct (without_table_data param); reflexivity.
Qed.

(** *** VectorBatchQuery *)

Section BatchQuery.

Variable env : Env.
Variable ctx : Context.

Local Abbreviation parses := (VectorReaderInv.parses env ctx).
Local Abbreviation exists_in_data_cf := (VectorReaderInv.exists_in_data_cf env ctx).
Local Abbreviation entry_ok := (VectorReaderInv.entry_ok env ctx).

Lemma QueryVectorWithId_entry (vector_id : Z) :
  parses kVectorDataCF (ParseVector env) ->
  exists (status : Status) (v : VectorWithId),
    QueryVectorWithId env (ts ctx) (region_range ctx) (partition_id ctx)
      vector_id (with_vector_data ctx) VectorWithId_default
    = Return status v
    /\ entry_ok vector_id v.
Proof.
  intros Hp. unfold QueryVectorWithId, VectorReaderInv.entry_ok,
    VectorReaderInv.exists_in_data_cf, VectorReaderInv.data_key.
  destruct (KvGet env kVectorDataCF (ts ctx) _) as [status value] eqn:E.
  simpl. destruct (ok status) eqn:Eok; simpl.
  - destruct (with_vector_data ctx).
    + destruct (ParseVector env value) as [vec|] eqn:Ev.
      * eexists _, _. split; reflexivity.
      * exfalso. eapply Hp; eauto.
    + eexists _, _. split; reflexivity.
  - eexists _, _. split; reflexivity.
Qed.

Lemma query_each_entries (vector_ids : list Z) :
  parses kVectorDataCF (ParseVector env) ->
  forall acc : list VectorWithId,
  exists (status : Status) (entries : list VectorWithId),
    query_each env ctx vector_ids acc = Return status (acc ++ entries)
    /\ Forall2 entry_ok vector_ids entries.
Proof.
  intros Hp. induction vector_ids as [|vector_id rest IH]; intros acc; simpl.
  - exists StatusOK, []. rewrite app_nil_r. split; [reflexivity|constructor].
  - destruct (QueryVectorWithId_entry vector_id Hp) as (s & v & -> & Hv).
    destruct (IH (acc ++ [v])) as (s' & entries & -> & Hall).
    exists s', (v :: entries). rewrite <- app_assoc. simpl.
    split; [reflexivity|constructor; assumption].
Qed.

Lemma attach_each_keeps (query : VectorWithId -> Ret VectorWithId) :
  (forall v, exists status v', query v = Return status v' /\ id v' = id v) ->
  forall entries : list VectorWithId,
  exists (status : Status) (entries' : list VectorWithId),
    attach_each query entries = Return status entries'
    /\ Forall2 keeps_entry entries entries'.
Proof.
  intros Hq. induction entries as [|v rest IH]; simpl.
  - exists StatusOK, []. split; [reflexivity|constructor].
  - destruct IH as (s & rest' & Hrest & Hall).
    destruct (ByteSizeLong_is_zero v) eqn:Ez.
    + rewrite Hrest. exists s, (v :: rest'). split; [reflexivity|].
      constructor; [|exact Hall]. split; auto.
    + destruct (Hq v) as (s1 & v' & -> & Hid). rewrite Hrest.
      exists s, (v' :: rest'). split; [reflexivity|].
      constructor; [|exact Hall]. split; [exact Hid|].
      intros ->. discriminate.
Qed.

Lemma QueryVectorScalarData_id (v : VectorWithId) :
  parses kVectorScalarCF (ParseScalar env) ->
  exists (status : Status) (v' : VectorWithId),
    QueryVectorScalarData env (ts ctx) (region_range ctx) (partition_id ctx)
      (selected_scalar_keys ctx) v
    = Return status v'
    /\ id v' = id v.
Proof.
  intros Hp. unfold QueryVectorScalarData.
  destruct (KvGet env kVectorScalarCF (ts ctx) _) as [status value] eqn:E.
  destruct (ok status) eqn:Eok; simpl.
  - destruct (ParseScalar env value) eqn:Ev.
    + eexists _, _. split; reflexivity.
    + exfalso. eapply Hp; eauto.
  - eexists _, _. split; reflexivity.
Qed.

Lemma QueryVectorTableData_id (v : VectorWithId) :
  parses kVectorTableCF (ParseTable env) ->
  exists (status : Status) (v' : VectorWithId),
    QueryVectorTableData env (ts ctx) (region_range ctx) (partition_id ctx) v
    = Return status v'
    /\ id v' = id v.
Proof.
  intros Hp. unfold QueryVectorTableData.
  destruct (KvGet env kVectorTableCF (ts ctx) _) as [status value] eqn:E.
  destruct (ok status) eqn:Eok; simpl.
  - destruct (ParseTable env value) eqn:Ev.
    + eexists _, _. split; reflexivity.
    + exfalso. eapply Hp; eauto.
  - eexists _, _. split; reflexivity.
Qed.

Lemma entry_ok_keeps (vector_id : Z) (v v' : VectorWithId) :
  entry_ok vector_id v -> keeps_entry v v' -> entry_ok vector_id v'.
Proof.
  unfold VectorReaderInv.entry_ok, keeps_entry. intros H [Hid Hd].
  destruct (exists_in_data_cf vector_id); [congruence|auto].
Qed.

Lemma Forall2_entry_ok_keeps (vector_ids : list Z) :
  forall entries entries' : list VectorWithId,
    Forall2 entry_ok vector_ids entries ->
    Forall2 keeps_entry entries entries' ->
    Forall2 entry_ok vector_ids entries'.
Proof.
  induction vector_ids as [|i rest IH]; intros entries entries' H1 H2.
  - inversion H1; subst. inversion H2; subst. constructor.
  - inversion H1; subst. inversion H2; subst. constructor.
    + eapply entry_ok_keeps; eauto.
    + eapply IH; eauto.
Qed.

End BatchQuery.

(** C10.  When the stored records parse, [VectorBatchQuery] returns the OK
    status with one entry per requested id, in request order: the entry of
    an id that has a record in the data column family carries that id, and
    the entry of an id that has none is an empty [VectorWithId]. *)
Theorem VectorBatchQuery_one_entry_per_id :
  forall (env : Env) (ctx : Context),
    parses env ctx kVectorDataCF (ParseVector env) ->
    parses env ctx kVectorScalarCF (ParseScalar env) ->
    parses env ctx kVectorTableCF (ParseTable env) ->
    exists entries : list VectorWithId,
      VectorBatchQuery env ctx [] = Return StatusOK entries
      /\ length entries = length (vector_ids ctx)
      /\ forall (i : nat) (vector_id : Z),
           vector_ids ctx !! i = Some vector_id ->
           exists v : VectorWithId,
             entries !! i = Some v
             /\ (exists_in_data_cf env ctx vector_id = true ->
                 id v = vector_id)
             /\ (exists_in_data_cf env ctx vector_id = false ->
                 v = VectorWithId_default).
Proof.
  intros env ctx Hd Hs Ht. unfold VectorBatchQuery.
  destruct (query_each_entries env ctx (vector_ids ctx) Hd [])
    as (s1 & e1 & -> & H1).
  simpl.
  assert (exists s2 e2,
             (if with_scalar_data ctx then
                attach_each
                  (QueryVectorScalarData env (ts ctx) (region_range ctx)
                     (partition_id ctx) (selected_scalar_keys ctx)) e1
              else Return StatusOK e1) = Return s2 e2
             /\ Forall2 (entry_ok env ctx) (vector_ids ctx) e2)
    as (s2 & e2 & -> & H2).
  { destruct (with_scalar_data ctx).
    - destruct (attach_each_keeps _
                  (fun v => QueryVectorScalarData_id env ctx v Hs) e1)
        as (s & e' & -> & Hk).
      exists s, e'. split; [reflexivity|].
      eapply Forall2_entry_ok_keeps; eauto.
    - exists StatusOK, e1. split; [reflexivity|exact H1]. }
  assert (exists s3 e3,
             (if with_table_data ctx then
                attach_each
                  (QueryVectorTableData env (ts ctx) (region_range ctx)
                     (partition_id ctx)) e2
              else Return StatusOK e2) = Return s3 e3
             /\ Forall2 (entry_ok env ctx) (vector_ids ctx) e3)
    as (s3 & e3 & -> & H3).
  { destruct (with_table_data ctx).
    - destruct (attach_each_keeps _
                  (fun v => QueryVectorTableData_id env ctx v Ht) e2)
        as (s & e' & -> & Hk).
      exists s, e'. split; [reflexivity|].
      eapply Forall2_entry_ok_keeps; eauto.
    - exists StatusOK, e2. split; [reflexivity|exact H2]. }
  exists e3. split; [reflexivity|]. split.
  - symmetry. eapply Forall2_length; eauto.
  - intros i vector_id Hi.
    destruct (Forall2_lookup_l _ _ _ _ _ H3 Hi) as (v & Hv & Hok).
    exists v. split; [exact Hv|]. unfold VectorReaderInv.entry_ok in Hok.
    destruct (exists_in_data_cf env ctx vector_id); split; intros; congruence.
Qed.

Lemma VectorBatchQuery_one_entry_per_id_witness :
  exists entries : list VectorWithId,
    VectorBatchQuery VectorExamples.example_env VectorExamples.example_context
      []
    = Return StatusOK entries
    /\ length entries = 3%nat
    /\ forall (i : nat) (vector_id : Z),
         [2; 7; 3] !! i = Some vector_id ->
         exists v : VectorWithId,
           entries !! i = Some v
           /\ (VectorReaderInv.exists_in_data_cf VectorExamples.example_env
                 VectorExamples.example_context vector_id = true ->
               id v = vector_id)
           /\ (VectorReaderInv.exists_in_data_cf VectorExamples.example_env
                 VectorExamples.example_context vector_id = false ->
               v = VectorWithId_default).
Proof.
  apply (VectorBatchQuery_one_entry_per_id VectorExamples.example_env
           VectorExamples.example_context).
  - intros key status value _ _. discriminate.
  - intros key status value _ _. discriminate.
  - intros key status value _ _. discriminate.
Defined.

(** *** The scalar post filter *)

Lemma post_filter_one_range (compare : Z -> Ret bool) (top_n : Z) :
  forall candidates kept : VectorWithDistanceResult,
    (forall c, In c candidates -> compares compare (id (vector_with_id c))) ->
    post_filter_one compare true top_n candidates kept
    = Return StatusOK
        (kept ++ List.filter (fun c => passes compare (id (vector_with_id c)))
                   candidates).
Proof.
  induction candidates as [|c rest IH]; intros kept Hc; simpl.
  - rewrite app_nil_r. reflexivity.
  - destruct (Hc c (or_introl eq_refl)) as (s & b & Hcmp & Hok).
    unfold passes at 1. rewrite Hcmp, Hok. simpl.
    destruct b; simpl.
    + rewrite IH by (intros; apply Hc; right; assumption).
      rewrite <- app_assoc. reflexivity.
    + apply IH. intros; apply Hc; right; assumption.
Qed.

Lemma post_filter_one_topk (compare : Z -> Ret bool) (top_n : Z) :
  forall candidates kept : VectorWithDistanceResult,
    Z.of_nat (length kept) < top_n ->
    (forall c, In c candidates -> compares compare (id (vector_with_id c))) ->
    post_filter_one compare false top_n candidates kept
    = Return StatusOK
        (kept
         ++ firstn (Z.to_nat top_n - length kept)
              (List.filter (fun c => passes compare (id (vector_with_id c)))
                 candidates)).
Proof.
  induction candidates as [|c rest IH]; intros kept Hlen Hc; simpl.
  - rewrite firstn_nil, app_nil_r. reflexivity.
  - destruct (Hc c (or_introl eq_refl)) as (s & b & Hcmp & Hok).
    unfold passes at 1. rewrite Hcmp, Hok. simpl.
    destruct b; simpl.
    + rewrite length_app. simpl.
      destruct (Z.of_nat (length kept + 1) >=? top_n) eqn:E.
      * apply Z.geb_le in E.
        assert (Z.to_nat top_n - length kept = 1)%nat as -> by lia.
        simpl. rewrite firstn_O. reflexivity.
      * rewrite Z.geb_leb in E. apply Z.leb_gt in E.
        rewrite IH; [|rewrite length_app; simpl; lia
                     |intros; apply Hc; right; assumption].
        rewrite length_app. simpl.
        assert (Z.to_nat top_n - length kept
                = Datatypes.S (Z.to_nat top_n - (length kept + 1)))%nat
          as -> by lia.
        simpl. rewrite <- app_assoc. reflexivity.
    + apply IH; [exact Hlen|intros; apply Hc; right; assumption].
Qed.

Lemma post_filter_one_keep (compare : Z -> Ret bool)
    (enable_range_search : bool) (top_n : Z)
    (candidates : VectorWithDistanceResult) :
  1 <= top_n ->
  (forall c, In c candidates -> compares compare (id (vector_with_id c))) ->
  post_filter_one compare enable_range_search top_n candidates []
  = Return StatusOK
      (SearchSpec.keep_survivors (passes compare) enable_range_search top_n
         candidates).
Proof.
  intros Htop Hc. unfold SearchSpec.keep_survivors.
  destruct enable_range_search.
  - rewrite post_filter_one_range by exact Hc. reflexivity.
  - rewrite post_filter_one_topk; [|simpl; lia|exact Hc].
    simpl. rewrite Nat.sub_0_r. reflexivity.
Qed.

Lemma post_filter_keep (compare : Z -> Ret bool) (enable_range_search : bool)
    (top_n : Z) :
  1 <= top_n ->
  forall tmp_results results : list VectorWithDistanceResult,
    (forall candidates c, In candidates tmp_results -> In c candidates ->
                          compares compare (id (vector_with_id c))) ->
    post_filter compare enable_range_search top_n tmp_results results
    = Return StatusOK
        (results
         ++ SearchSpec.scalar_post (passes compare) enable_range_search top_n
              tmp_results).
Proof.
  intros Htop. induction tmp_results as [|cands rest IH]; intros results Hc.
  - simpl. rewrite app_nil_r. reflexivity.
  - simpl. rewrite post_filter_one_keep;
      [|exact Htop|intros c Hin; eapply Hc; [left; reflexivity|exact Hin]].
    simpl. rewrite IH by (intros; eapply Hc; [right|]; eassumption).
    rewrite <- app_assoc. reflexivity.
Qed.




(** *** The brute-force scan *)

Lemma merge_batch_Forall {A : Type} (Q : A -> Prop)
    (step : A -> VectorWithDistanceResult -> A) :
  (forall top result, Q top -> Q (step top result)) ->
  forall (results_batch : list VectorWithDistanceResult) (tops : list A),
    Forall Q tops -> Forall Q (merge_batch step results_batch tops).
Proof.
  intros Hstep. induction results_batch as [|r rb IH]; intros tops Hq.
  - destruct tops; exact Hq.
  - destruct tops as [|t tops]; [exact Hq|]. simpl.
    inversion Hq; subst. constructor; auto.
Qed.

Lemma merge_batch_length {A : Type}
    (step : A -> VectorWithDistanceResult -> A) :
  forall (results_batch : list VectorWithDistanceResult) (tops : list A),
    length (merge_batch step results_batch tops) = length tops.
Proof.
  induction results_batch as [|r rb IH]; intros tops.
  - destruct tops; reflexivity.
  - destruct tops as [|t tops]; [reflexivity|]. simpl. rewrite IH. reflexivity.
Qed.

Section Scan.

Variable env : Env.
Variable flags : Flags.
Variable A : Type.
Variable Q : A -> Prop.
Variable search :
  list VectorWithId -> Status * list VectorWithDistanceResult.
Variable step : A -> VectorWithDistanceResult -> A.
Variable vector_with_ids : list VectorWithId.

Hypothesis add_ok : forall batch, ok (flat_Add env batch) = true.
Hypothesis search_ok :
  forall batch, ok (fst (search batch)) = true
                /\ length (snd (search batch)) = length vector_with_ids.
Hypothesis step_Q : forall top result, Q top -> Q (step top result).

Lemma search_batch_returns (batch : list VectorWithId) (tops : list A) :
  Forall Q tops ->
  exists tops',
    search_batch env search step vector_with_ids batch tops
    = Return StatusOK tops'
    /\ Forall Q tops' /\ length tops' = length tops.
Proof.
  intros Hq. unfold search_batch. rewrite add_ok. simpl.
  destruct (search_ok batch) as [Hok Hlen].
  destruct (search batch) as [ret results_batch]. simpl in Hok, Hlen.
  rewrite Hok. simpl.
  rewrite Hlen, Nat.eqb_refl. simpl.
  eexists. split; [reflexivity|]. split.
  - apply merge_batch_Forall; assumption.
  - apply merge_batch_length.
Qed.

Lemma scan_loop_returns (entries : list Iterator.KeyValue) :
  Forall (decodes env) entries ->
  forall (batch : list VectorWithId) (tops : list A),
    Forall Q tops ->
    exists batch' tops',
      scan_loop env flags search step vector_with_ids entries batch tops
      = Return StatusOK (batch', tops')
      /\ Forall Q tops' /\ length tops' = length tops.
Proof.
  induction 1 as [|kv rest [Hid Hparse] _ IH]; intros batch tops Hq; simpl.
  - eexists _, _. split; [reflexivity|]. split; [exact Hq|reflexivity].
  - assert ((DecodeVectorIdFromEncodeKeyWithTs env (Iterator.kv_key kv) >? 0)
            = true) as -> by (apply Z.gtb_lt; lia).
    simpl.
    destruct (ParseVector env _) as [vec|]; [|congruence].
    match goal with |- context [if ?c then _ else _] => destruct c end.
    + destruct (search_batch_returns
                  (batch ++ [mkVectorWithId
                               (DecodeVectorIdFromEncodeKeyWithTs env
                                  (Iterator.kv_key kv)) (Some vec) None None])
                  tops Hq)
        as (tops1 & -> & Hq1 & Hl1).
      simpl. destruct (IH [] tops1 Hq1) as (b' & t' & -> & Hq' & Hl').
      eexists _, _. split; [reflexivity|]. split; [exact Hq'|congruence].
    + apply IH. exact Hq.
Qed.

Lemma brute_force_scan_returns (empty_top : A)
    (region_range : string * string) :
  Q empty_top ->
  Forall (decodes env) (scanned env region_range) ->
  exists tops : option (list A),
    brute_force_scan env flags search step empty_top vector_with_ids
      region_range
    = Return StatusOK tops
    /\ match tops with
       | Some tops => Forall Q tops /\ length tops = length vector_with_ids
       | None => True
       end.
Proof.
  intros Hq0 Hdec. unfold brute_force_scan.
  match goal with |- context [negb ?v] => destruct v end; simpl.
  - unfold scanned in Hdec.
    assert (Forall Q (repeat empty_top (length vector_with_ids))) as Hq.
    { apply Forall_forall. intros x Hx.
      apply list_elem_of_In, repeat_spec in Hx. subst. exact Hq0. }
    destruct (scan_loop_returns _ Hdec [] _ Hq) as (b & t & -> & Hqt & Hlt).
    simpl. rewrite repeat_length in Hlt.
    destruct b as [|v b].
    + exists (Some t). auto.
    + destruct (search_batch_returns (v :: b) t Hqt) as (t1 & -> & Hq1 & Hl1).
      simpl. exists (Some t1). split; [reflexivity|]. split; [exact Hq1|lia].
  - exists None. auto.
Qed.

End Scan.

Lemma copy_results_fresh (lists : list VectorWithDistanceResult) :
  copy_results lists [] = lists.
Proof.
  unfold copy_results, resize. rewrite firstn_nil. simpl.
  rewrite Nat.sub_0_r.
  induction lists as [|l lists IH]; simpl; [reflexivity|]. f_equal. exact IH.
Qed.

(** *** The cap of a range search *)

Lemma range_append_firstn (limit : Z) :
  forall (result : VectorWithDistanceResult)
         (top_result : list VectorWithDistance),
    range_append limit top_result result
    = top_result ++ firstn (Z.to_nat limit - length top_result) result.
Proof.
  induction result as [|c rest IH]; intros top_result; simpl.
  - rewrite firstn_nil, app_nil_r. reflexivity.
  - destruct (Z.of_nat (length top_result) <? limit) eqn:E.
    + apply Z.ltb_lt in E. rewrite IH, length_app. simpl.
      assert (Z.to_nat limit - length top_result
              = Datatypes.S (Z.to_nat limit - (length top_result + 1)))%nat
        as -> by lia.
      simpl. rewrite <- app_assoc. reflexivity.
    + apply Z.ltb_ge in E.
      assert (Z.to_nat limit - length top_result = 0)%nat as -> by lia.
      simpl. rewrite app_nil_r. reflexivity.
Qed.

Lemma range_append_capped (limit : Z) (result : VectorWithDistanceResult)
    (top_result : list VectorWithDistance) :
  Z.of_nat (length top_result) <= limit ->
  Z.of_nat (length (range_append limit top_result result)) <= limit.
Proof.
  intros H. rewrite range_append_firstn, length_app, length_firstn. lia.
Qed.



End VectorReaderFacts.

(** ** The raw RocksDB writer *)

Module RawRocksEngineFacts.

Import RawRocksEngine.

Lemma empty_iff (s : string) : empty s = true <-> s = EmptyString.
Proof. unfold empty. apply String.eqb_eq. Qed.

(** The writer never stores the empty key. *)
Lemma KvPutIfAbsent_no_empty_key (faults : Faults) (store : DB) (kv : KeyValue)
    (key_state : bool) :
  no_empty_key store ->
  no_empty_key (db (KvPutIfAbsent faults store kv key_state)).
Proof.
  unfold no_empty_key, KvPutIfAbsent, KvCompareAndSetInternal, GetForUpdate.
  intros H. simpl.
  destruct (empty (key kv)) eqn:Ek; [exact H|].
  assert (key kv <> EmptyString) as Hne.
  { intros Heq. apply empty_iff in Heq. congruence. }
  destruct (BeginTransaction_null faults); [exact H|].
  destruct (GetForUpdate_fails faults); [exact H|].
  destruct (store !! key kv); simpl; [exact H|].
  destruct (Put_fails faults); [exact H|].
  destruct (Commit_fails faults); [exact H|].
  simpl. rewrite lookup_insert_ne by exact Hne. exact H.
Qed.

Lemma KvPut_no_empty_key (faults : Faults) (store : DB) (kv : KeyValue) :
  no_empty_key store -> no_empty_key (snd (KvPut faults store kv)).
Proof.
  unfold no_empty_key, KvPut. intros H.
  destruct (empty (key kv)) eqn:Ek; [exact H|].
  assert (key kv <> EmptyString) as Hne.
  { intros Heq. apply empty_iff in Heq. congruence. }
  destruct (Put_fails faults); [exact H|].
  simpl. rewrite lookup_insert_ne by exact Hne. exact H.
Qed.

(** C9.  When the key of the pair is already in the store, and RocksDB
    begins the transaction and reads the key, [KvPutIfAbsent] returns the
    OK status with [key_state] false and leaves the store, and so the value
    under the key, as it was: the transaction is rolled back and nothing
    is written. *)
Theorem KvPutIfAbsent_existing_key :
  forall (faults : Faults) (store : DB) (kv : KeyValue) (old_value : string)
         (key_state : bool),
    no_empty_key store ->
    store !! key kv = Some old_value ->
    BeginTransaction_null faults = false ->
    GetForUpdate_fails faults = false ->
    let r := KvPutIfAbsent faults store kv key_state in
    status r = StatusOK
    /\ ok (status r) = true
    /\ RawRocksEngine.key_state r = false
    /\ db r = store
    /\ db r !! key kv = Some old_value.
Proof.
  intros faults store kv old_value key_state0 Hwf Hin Hb Hg.
  assert (empty (key kv) = false) as Hk.
  { destruct (empty (key kv)) eqn:E; [|reflexivity].
    apply empty_iff in E. unfold no_empty_key in Hwf. congruence. }
  unfold KvPutIfAbsent, KvCompareAndSetInternal, GetForUpdate. simpl.
  rewrite Hk, Hb, Hg, Hin. simpl.
  repeat split; try reflexivity. exact Hin.
Qed.

Lemma KvPutIfAbsent_existing_key_witness :
  KvPutIfAbsent no_faults example_store (mkKeyValue "k" "new") true
  = mkOutcome StatusOK false example_store
  /\ example_store !! "k"%string = Some "old"%string.
Proof.
  pose proof (KvPutIfAbsent_existing_key no_faults example_store
                (mkKeyValue "k" "new") "old" true
                ltac:(vm_compute; reflexivity) ltac:(vm_compute; reflexivity)
                eq_refl eq_refl) as (Hs & _ & Hk & Hd & Hv).
  split; [|exact Hv].
  destruct (KvPutIfAbsent no_faults example_store (mkKeyValue "k" "new") true)
    as [s k d].
  simpl in *. subst. reflexivity.
Defined.

End RawRocksEngineFacts.

(** ** Brute force and the exact search *)

Module TopKFacts.

Import Pb VectorReader VectorReaderInv SearchSpec.

(** *** The order of the results *)

Ltac closer_props :=
  unfold closer, settled, vid in *;
  repeat match goal with
         | H : _ = true |- _ =>
             first [ rewrite orb_true_iff in H
                   | rewrite andb_true_iff in H
                   | rewrite Z.ltb_lt in H
                   | rewrite Z.eqb_eq in H ]
         | H : _ = false |- _ =>
             first [ rewrite orb_false_iff in H
                   | rewrite andb_false_iff in H
                   | rewrite Z.ltb_ge in H
                   | rewrite Z.eqb_neq in H ]
         end;
  rewrite ?orb_true_iff, ?andb_true_iff, ?orb_false_iff, ?andb_false_iff,
    ?Z.ltb_lt, ?Z.eqb_eq, ?Z.ltb_ge, ?Z.eqb_neq.

Lemma closer_asym (a b : VectorWithDistance) :
  closer a b = true -> closer b a = false.
Proof. intros H. closer_props. lia. Qed.

Lemma closer_trans (a b c : VectorWithDistance) :
  closer a b = true -> closer b c = true -> closer a c = true.
Proof. intros H1 H2. closer_props. lia. Qed.

Lemma closer_total (a b : VectorWithDistance) :
  vid a <> vid b -> closer a b = true \/ closer b a = true.
Proof. intros H. closer_props. lia. Qed.

Lemma closer_false (a b : VectorWithDistance) :
  vid a <> vid b -> closer a b = false -> closer b a = true.
Proof. intros H1 H2. closer_props. lia. Qed.

Lemma DistanceResult_lt_wrap (a b : VectorWithDistance) :
  DistanceResult_lt (wrap a) (wrap b) = closer a b.
Proof.
  unfold DistanceResult_lt, wrap, closer. simpl.
  destruct (distance a =? distance b) eqn:E; simpl.
  - apply Z.eqb_eq in E. rewrite E, Z.ltb_irrefl. reflexivity.
  - rewrite ?andb_false_r, ?orb_false_r. reflexivity.
Qed.

(** *** Sorted insertion *)

Lemma insert_sorted_In (x y : VectorWithDistance) :
  forall l, In y (insert_sorted x l) <-> y = x \/ In y l.
Proof.
  induction l as [|z l IH]; simpl.
  - intuition.
  - destruct (closer x z); simpl; [intuition|]. rewrite IH. intuition.
Qed.

Lemma insert_sorted_length (x : VectorWithDistance) :
  forall l, length (insert_sorted x l) = Datatypes.S (length l).
Proof.
  induction l as [|z l IH]; simpl; [reflexivity|].
  destruct (closer x z); simpl; [reflexivity|]. rewrite IH. reflexivity.
Qed.

(** A candidate that no element of the list is farther than goes to the
    end. *)
Lemma insert_sorted_last (x : VectorWithDistance) :
  forall l, Forall (fun z => closer x z = false) l ->
            insert_sorted x l = l ++ [x].
Proof.
  induction 1 as [|z l Hz _ IH]; simpl; [reflexivity|].
  rewrite Hz, IH. reflexivity.
Qed.

Lemma insert_sorted_before_last (x y : VectorWithDistance) :
  closer x y = true ->
  forall l, insert_sorted x (l ++ [y]) = insert_sorted x l ++ [y].
Proof.
  intros Hxy. induction l as [|z l IH]; simpl.
  - rewrite Hxy. reflexivity.
  - destruct (closer x z); simpl; [reflexivity|]. rewrite IH. reflexivity.
Qed.

(** The first [k] results after an insertion depend on the first [k]
    before it only. *)
Lemma firstn_insert_sorted (x : VectorWithDistance) :
  forall (k : nat) (l : list VectorWithDistance),
    firstn k (insert_sorted x (firstn k l)) = firstn k (insert_sorted x l).
Proof.
  induction k as [|k IH]; intros l; [reflexivity|].
  destruct l as [|z l]; [reflexivity|]. simpl.
  destruct (closer x z); simpl.
  - f_equal. destruct k; [reflexivity|]. simpl. f_equal.
    rewrite take_take. f_equal. lia.
  - f_equal. apply IH.
Qed.

Lemma firstn_fold_right_insert (k : nat) (P : list VectorWithDistance) :
  forall N : list VectorWithDistance,
    firstn k (fold_right insert_sorted (firstn k N) P)
    = firstn k (fold_right insert_sorted N P).
Proof.
  induction P as [|x P IH]; intros N; simpl.
  - apply take_idemp.
  - rewrite <- firstn_insert_sorted, IH, firstn_insert_sorted. reflexivity.
Qed.

Lemma fold_left_insert_rev (C M : list VectorWithDistance) :
  fold_left (fun L c => insert_sorted c L) C M
  = fold_right insert_sorted M (rev C).
Proof.
  revert M. induction C as [|c C IH]; intros M; simpl; [reflexivity|].
  rewrite IH, fold_right_app. reflexivity.
Qed.

Lemma firstn_fold_left_insert (k : nat) (C M : list VectorWithDistance) :
  firstn k (fold_left (fun L c => insert_sorted c L) C (firstn k M))
  = firstn k (fold_left (fun L c => insert_sorted c L) C M).
Proof.
  rewrite !fold_left_insert_rev. apply firstn_fold_right_insert.
Qed.

Lemma In_firstn_inv {A : Type} (x : A) :
  forall (k : nat) (l : list A), In x (firstn k l) -> In x l.
Proof.
  induction k as [|k IH]; intros l H; [contradiction|].
  destruct l as [|z l]; [contradiction|].
  destruct H as [->|H]; [left; reflexivity|right; apply IH, H].
Qed.

(** *** Ascending lists *)

Lemma ascending_app_last (l : list VectorWithDistance)
    (y : VectorWithDistance) :
  ascending (l ++ [y]) ->
  ascending l /\ Forall (fun z => closer z y = true) l.
Proof.
  unfold ascending. induction l as [|z l IH]; simpl; intros H.
  - split; constructor.
  - inversion H as [|? ? Hs Hall]; subst.
    destruct (IH Hs) as [Hl Hy]. split.
    + constructor; [exact Hl|].
      apply Forall_app in Hall as [Hall _]. exact Hall.
    + constructor; [|exact Hy].
      apply Forall_app in Hall as [_ Hall]. inversion Hall; assumption.
Qed.

Lemma ascending_firstn (k : nat) :
  forall l, ascending l -> ascending (firstn k l).
Proof.
  unfold ascending. induction k as [|k IH]; intros l H; [constructor|].
  destruct l as [|z l]; [constructor|]. simpl.
  inversion H as [|? ? Hs Hall]; subst. constructor; [apply IH, Hs|].
  apply Forall_take. exact Hall.
Qed.

Lemma insert_sorted_ascending (x : VectorWithDistance) :
  forall l, ascending l -> Forall (comparable x) l ->
            ascending (insert_sorted x l).
Proof.
  unfold ascending. induction l as [|z l IH]; intros Hs Hc; simpl.
  - constructor; constructor.
  - inversion Hs as [|? ? Hl Hall]; subst.
    inversion Hc as [|? ? Hz Hcl]; subst.
    destruct (closer x z) eqn:E.
    + constructor; [exact Hs|]. constructor; [exact E|].
      eapply Forall_impl; [exact Hall|].
      intros w Hw. eapply closer_trans; eauto.
    + constructor; [apply IH; assumption|].
      apply Forall_forall. intros w Hw.
      apply list_elem_of_In, insert_sorted_In in Hw as [->|Hw].
      * destruct Hz as [Hz|Hz]; [congruence|exact Hz].
      * rewrite Forall_forall in Hall. apply Hall, list_elem_of_In, Hw.
Qed.

Lemma NoDup_vid_comparable (x : VectorWithDistance)
    (l : list VectorWithDistance) :
  ~ In (vid x) (map vid l) -> Forall (comparable x) l.
Proof.
  intros Hn. apply Forall_forall. intros z Hz. apply list_elem_of_In in Hz.
  apply closer_total. intros Heq. apply Hn. rewrite Heq.
  apply in_map. exact Hz.
Qed.

Lemma sort_by_distance_In (y : VectorWithDistance) :
  forall l, In y (sort_by_distance l) <-> In y l.
Proof.
  unfold sort_by_distance. induction l as [|x l IH]; simpl; [tauto|].
  rewrite insert_sorted_In, IH. intuition.
Qed.

Lemma sort_by_distance_ascending :
  forall l, List.NoDup (map vid l) -> ascending (sort_by_distance l).
Proof.
  unfold sort_by_distance. induction l as [|x l IH]; simpl; intros Hnd.
  - constructor.
  - inversion Hnd as [|? ? Hx Hl]; subst.
    apply insert_sorted_ascending; [apply IH, Hl|].
    apply NoDup_vid_comparable. intros Hin. apply Hx.
    apply in_map_iff in Hin as (z & Hz & Hin). apply in_map_iff.
    exists z. split; [exact Hz|]. apply sort_by_distance_In. exact Hin.
Qed.

Lemma sort_by_distance_ascending_id :
  forall l, ascending l -> sort_by_distance l = l.
Proof.
  unfold ascending, sort_by_distance.
  induction 1 as [|x l Hs IH Hall]; simpl; [reflexivity|].
  rewrite IH. destruct l as [|z l]; [reflexivity|]. simpl.
  inversion Hall as [|? ? Hz _]; subst. rewrite Hz. reflexivity.
Qed.

(** *** The order of insertion does not matter *)

Lemma insert_sorted_comm (x y : VectorWithDistance) :
  comparable x y ->
  forall l, insert_sorted x (insert_sorted y l)
            = insert_sorted y (insert_sorted x l).
Proof.
  intros Hxy. induction l as [|z l IH]; simpl.
  - destruct Hxy as [H|H]; rewrite H, (closer_asym _ _ H); reflexivity.
  - destruct (closer y z) eqn:Eyz; destruct (closer x z) eqn:Exz; simpl.
    + destruct Hxy as [H|H]; rewrite H, (closer_asym _ _ H), ?Eyz, ?Exz;
        reflexivity.
    + rewrite Eyz.
      destruct (closer x y) eqn:Exy.
      * rewrite (closer_trans _ _ _ Exy Eyz) in Exz. discriminate.
      * rewrite Exz. reflexivity.
    + rewrite Exz.
      destruct (closer y x) eqn:Eyx.
      * rewrite (closer_trans _ _ _ Eyx Exz) in Eyz. discriminate.
      * rewrite Eyz. reflexivity.
    + rewrite Eyz, Exz, IH. reflexivity.
Qed.

Lemma sort_by_distance_Permutation (l1 l2 : list VectorWithDistance) :
  Permutation l1 l2 -> List.NoDup (map vid l1) ->
  sort_by_distance l1 = sort_by_distance l2.
Proof.
  unfold sort_by_distance.
  induction 1 as [|x l1 l2 Hp IH|x y l|l1 l2 l3 Hp1 IH1 Hp2 IH2];
    intros Hnd; simpl.
  - reflexivity.
  - inversion Hnd; subst. rewrite IH by assumption. reflexivity.
  - apply insert_sorted_comm. apply closer_total.
    inversion Hnd as [|? ? Hn _]; subst. simpl in Hn. intros Heq.
    apply Hn. left. symmetry. exact Heq.
  - rewrite IH1 by exact Hnd. apply IH2.
    eapply Permutation_NoDup; [|exact Hnd].
    apply Permutation_map. exact Hp1.
Qed.

(** *** The bounded queue *)

Lemma drained_cons (r : DistanceResult) (H : list DistanceResult) :
  drained (r :: H) = drained H ++ [dr_vector_with_distance r].
Proof. reflexivity. Qed.

Lemma drained_length (H : list DistanceResult) :
  length (drained H) = length H.
Proof. unfold drained. rewrite length_rev, length_map. reflexivity. Qed.

Lemma settled_comparable (y c : VectorWithDistance) :
  settled y c -> comparable c y.
Proof.
  unfold comparable. intros [H|H]; [right; exact H|left].
  closer_props. lia.
Qed.

Lemma pq_emplace_emplaced (x : VectorWithDistance) :
  forall H, emplaced H -> emplaced (pq_emplace (wrap x) H).
Proof.
  unfold emplaced. induction 1 as [|r H Hr He IH]; simpl.
  - constructor; [reflexivity|constructor].
  - destruct (DistanceResult_lt (wrap x) r).
    + constructor; assumption.
    + constructor; [reflexivity|]. constructor; assumption.
Qed.

(** [emplace] on the queue is a sorted insertion in the drained order. *)
Lemma pq_emplace_drained (x : VectorWithDistance) :
  forall H, emplaced H -> ascending (drained H) ->
            Forall (comparable x) (drained H) ->
            drained (pq_emplace (wrap x) H) = insert_sorted x (drained H).
Proof.
  induction H as [|r H IH]; intros He Ha Hc; [reflexivity|].
  inversion He as [|? ? Hr He']; subst.
  rewrite drained_cons in Ha, Hc |- *.
  apply ascending_app_last in Ha as [Ha Hy].
  apply Forall_app in Hc as [Hc Hcy].
  inversion Hcy as [|? ? Hxy _]; subst.
  simpl. rewrite Hr, DistanceResult_lt_wrap.
  set (y := dr_vector_with_distance r) in *.
  destruct (closer x y) eqn:E.
  - rewrite drained_cons, IH by assumption.
    rewrite insert_sorted_before_last by exact E.
    rewrite <- Hr. reflexivity.
  - rewrite drained_cons. simpl. rewrite drained_cons. rewrite <- Hr.
    fold y. symmetry. apply insert_sorted_last.
    apply Forall_app. split.
    + eapply Forall_impl; [exact Hy|]. intros z Hz.
      destruct Hxy as [Hxy|Hxy]; [congruence|].
      apply closer_asym. exact (closer_trans z y x Hz Hxy).
    + constructor; [exact E|constructor].
Qed.

(** One turn of the merge loop keeps the first [topk] of the sorted
    insertion. *)
Lemma merge_candidate_step (topk : Z) (H : list DistanceResult)
    (c : VectorWithDistance) :
  0 <= topk -> emplaced H -> ascending (drained H) ->
  (length H <= Z.to_nat topk)%nat ->
  Forall (fun y => settled y c) (drained H) ->
  emplaced (merge_candidate topk H c)
  /\ drained (merge_candidate topk H c)
     = firstn (Z.to_nat topk) (insert_sorted c (drained H)).
Proof.
  intros Hk He Ha Hlen Hs. unfold merge_candidate.
  change (mkDistanceResult (distance c) c) with (wrap c).
  assert (Forall (comparable c) (drained H)) as Hc.
  { eapply Forall_impl; [exact Hs|]. intros; apply settled_comparable; auto. }
  destruct (Z.of_nat (length H) <? topk) eqn:E.
  - apply Z.ltb_lt in E. split; [apply pq_emplace_emplaced, He|].
    rewrite pq_emplace_drained by assumption.
    rewrite firstn_all2; [reflexivity|].
    rewrite insert_sorted_length, drained_length. lia.
  - apply Z.ltb_ge in E.
    destruct H as [|top rest].
    + split; [exact He|]. simpl in E.
      assert (Z.to_nat topk = 0%nat) as -> by lia. reflexivity.
    + inversion He as [|? ? Hr He']; subst.
      rewrite drained_cons in Ha, Hs, Hc |- *.
      apply ascending_app_last in Ha as [Ha Hy].
      apply Forall_app in Hs as [Hs Hsy].
      apply Forall_app in Hc as [Hc _].
      inversion Hsy as [|? ? Hty _]; subst.
      set (y := dr_vector_with_distance top) in *.
      assert (dr_distance top = distance y) as -> by (rewrite Hr; reflexivity).
      simpl in Hlen, E.
      assert (length (drained rest) = length rest) as Hdl
        by apply drained_length.
      destruct (distance y >? distance c) eqn:Egt.
      * rewrite Z.gtb_ltb, Z.ltb_lt in Egt.
        split; [apply pq_emplace_emplaced, He'|].
        rewrite pq_emplace_drained by assumption.
        assert (closer c y = true) as Hcy by (closer_props; lia).
        rewrite insert_sorted_before_last by exact Hcy.
        rewrite firstn_app, firstn_all2
          by (rewrite insert_sorted_length; lia).
        rewrite insert_sorted_length.
        assert (Z.to_nat topk - Datatypes.S (length (drained rest)) = 0)%nat
          as -> by lia.
        simpl. rewrite app_nil_r. reflexivity.
      * rewrite Z.gtb_ltb, Z.ltb_ge in Egt.
        split; [exact He|].
        assert (closer y c = true) as Hyc.
        { destruct Hty as [Hty|Hty]; [exact Hty|lia]. }
        rewrite insert_sorted_last.
        -- rewrite drained_cons. fold y.
           rewrite firstn_app, firstn_all2
             by (rewrite length_app; simpl; lia).
           rewrite length_app. simpl.
           assert (Z.to_nat topk - (length (drained rest) + 1) = 0)%nat
             as -> by lia.
           simpl. rewrite app_nil_r. reflexivity.
        -- apply Forall_app. split.
           ++ eapply Forall_impl; [exact Hy|]. intros z Hz.
              apply closer_asym. exact (closer_trans z y c Hz Hyc).
           ++ constructor; [apply closer_asym, Hyc|constructor].
Qed.

Lemma merge_candidate_fold (topk : Z) :
  0 <= topk ->
  forall (R : list VectorWithDistance) (H : list DistanceResult),
    emplaced H -> ascending (drained H) ->
    (length H <= Z.to_nat topk)%nat -> ascending R ->
    Forall (fun c => Forall (fun y => settled y c) (drained H)) R ->
    emplaced (fold_left (merge_candidate topk) R H)
    /\ drained (fold_left (merge_candidate topk) R H)
       = firstn (Z.to_nat topk)
           (fold_left (fun L c => insert_sorted c L) R (drained H)).
Proof.
  intros Hk. induction R as [|c R IH]; intros H He Ha Hlen HR Hs; simpl.
  - split; [exact He|]. rewrite firstn_all2; [reflexivity|].
    rewrite drained_length. exact Hlen.
  - inversion HR as [|? ? HR' Hc]; subst.
    inversion Hs as [|? ? Hsc Hs']; subst.
    destruct (merge_candidate_step topk H c Hk He Ha Hlen Hsc) as [He1 Hd1].
    assert (Forall (comparable c) (drained H)) as Hcmp.
    { eapply Forall_impl; [exact Hsc|].
      intros; apply settled_comparable; auto. }
    destruct (IH (merge_candidate topk H c)) as [He2 Hd2].
    + exact He1.
    + rewrite Hd1. apply ascending_firstn, insert_sorted_ascending; assumption.
    + rewrite <- drained_length, Hd1, length_firstn. lia.
    + exact HR'.
    + rewrite Hd1. rewrite Forall_forall in Hc, Hs' |- *.
      intros c' Hc'. apply Forall_forall. intros y Hy.
      apply list_elem_of_In, In_firstn_inv, insert_sorted_In in Hy as [->|Hy].
      * left. apply Hc, Hc'.
      * specialize (Hs' c' Hc'). rewrite Forall_forall in Hs'.
        apply Hs', list_elem_of_In, Hy.
    + split; [exact He2|]. rewrite Hd2, Hd1.
      apply firstn_fold_left_insert.
Qed.

(** *** The candidates of a query *)

Lemma insert_sorted_Permutation (x : VectorWithDistance) :
  forall l, Permutation (insert_sorted x l) (x :: l).
Proof.
  induction l as [|z l IH]; simpl; [reflexivity|].
  destruct (closer x z); [reflexivity|].
  rewrite IH. apply perm_swap.
Qed.

Lemma sort_by_distance_Permutation_self (l : list VectorWithDistance) :
  Permutation (sort_by_distance l) l.
Proof.
  unfold sort_by_distance. induction l as [|x l IH]; simpl; [reflexivity|].
  rewrite insert_sorted_Permutation, IH. reflexivity.
Qed.

Section Candidates.

Variable metric : VectorWithId -> VectorWithId -> Z.
Variable filters : list FilterFunctor.
Variable reconstruct : bool.
Variable topk : Z.
Variable query : VectorWithId.

Local Abbreviation candidates :=
  (candidates_of metric filters reconstruct query).
Local Abbreviation top := (top_of metric filters reconstruct topk query).

Lemma candidates_of_app (a b : list VectorWithId) :
  candidates (a ++ b) = candidates a ++ candidates b.
Proof.
  unfold candidates_of. rewrite List.filter_app, map_app. reflexivity.
Qed.

Lemma candidates_of_In (c : VectorWithDistance) (vs : list VectorWithId) :
  In c (candidates vs) -> In (vid c) (map id vs).
Proof.
  unfold candidates_of. intros H.
  apply in_map_iff in H as (v & <- & Hv).
  apply List.filter_In in Hv as [Hv _].
  apply in_map_iff. exists v. split; [reflexivity|exact Hv].
Qed.

Lemma candidates_of_NoDup (vs : list VectorWithId) :
  StronglySorted Z.lt (map id vs) -> List.NoDup (map vid (candidates vs)).
Proof.
  induction vs as [|v vs IH]; simpl; intros Hs; [constructor|].
  inversion Hs as [|? ? Hs' Hall]; subst.
  unfold candidates_of. simpl.
  destruct (accepted filters v); [|apply IH, Hs'].
  simpl. constructor; [|apply IH, Hs'].
  intros Hin. apply in_map_iff in Hin as (c & Hc & Hin).
  apply candidates_of_In in Hin. rewrite Hc in Hin.
  rewrite Forall_forall in Hall.
  apply list_elem_of_In, Hall in Hin. unfold vid in Hin. simpl in Hin. lia.
Qed.

Lemma sorted_app_lt (a b : list Z) :
  StronglySorted Z.lt (a ++ b) ->
  forall x y, In x a -> In y b -> x < y.
Proof.
  induction a as [|z a IH]; simpl; intros Hs x y Hx Hy; [contradiction|].
  inversion Hs as [|? ? Hs' Hall]; subst.
  destruct Hx as [->|Hx]; [|eapply IH; eauto].
  rewrite Forall_forall in Hall.
  apply Hall, list_elem_of_In, in_or_app. right. exact Hy.
Qed.

Lemma top_of_In (c : VectorWithDistance) (vs : list VectorWithId) :
  In c (top vs) -> In c (candidates vs).
Proof.
  unfold top_of. intros H. apply In_firstn_inv in H.
  exact (proj1 (sort_by_distance_In c _) H).
Qed.

Lemma top_of_ascending (vs : list VectorWithId) :
  StronglySorted Z.lt (map id vs) -> ascending (top vs).
Proof.
  intros Hs. unfold top_of.
  apply ascending_firstn, sort_by_distance_ascending, candidates_of_NoDup, Hs.
Qed.

Lemma lt_settled (y c : VectorWithDistance) : vid y < vid c -> settled y c.
Proof.
  intros H. unfold settled.
  destruct (Z_lt_le_dec (distance c) (distance y)) as [Hd|Hd];
    [right; exact Hd|left].
  closer_props. lia.
Qed.

Lemma sorted_app_inv (a b : list Z) :
  StronglySorted Z.lt (a ++ b) ->
  StronglySorted Z.lt a /\ StronglySorted Z.lt b.
Proof.
  induction a as [|z a IH]; simpl; intros Hs; [split; [constructor|exact Hs]|].
  inversion Hs as [|? ? Hs' Hall]; subst.
  destruct (IH Hs') as [Ha Hb]. split; [|exact Hb].
  constructor; [exact Ha|]. apply Forall_app in Hall as [Hall _]. exact Hall.
Qed.

(** The first [topk] of a batch, merged into the first [topk] of the
    vectors before it, are the first [topk] of all of them. *)
Lemma top_of_merge (done batch : list VectorWithId) :
  StronglySorted Z.lt (map id (done ++ batch)) ->
  firstn (Z.to_nat topk)
    (fold_left (fun L c => insert_sorted c L) (top batch) (top done))
  = top (done ++ batch).
Proof.
  intros Hs.
  pose proof (candidates_of_NoDup _ Hs) as Hnd.
  rewrite map_app in Hs. apply sorted_app_inv in Hs as [_ Hb].
  unfold top_of at 2. rewrite firstn_fold_left_insert, fold_left_insert_rev.
  set (R := top batch).
  set (CP := candidates done) in *.
  set (CB := candidates batch) in *.
  assert (fold_right insert_sorted (sort_by_distance CP) (rev R)
          = sort_by_distance (rev R ++ CP)) as ->.
  { unfold sort_by_distance. rewrite fold_right_app. reflexivity. }
  rewrite (sort_by_distance_Permutation (rev R ++ CP) (CP ++ R)).
  - unfold sort_by_distance at 1. rewrite fold_right_app.
    change (fold_right insert_sorted [] R) with (sort_by_distance R).
    rewrite (sort_by_distance_ascending_id R)
      by (apply top_of_ascending, Hb).
    unfold R, top_of. fold CB. rewrite firstn_fold_right_insert.
    rewrite candidates_of_app. fold CP CB.
    unfold sort_by_distance. rewrite fold_right_app. reflexivity.
  - rewrite Permutation_app_comm. apply Permutation_app_head.
    symmetry. apply Permutation_rev.
  - rewrite candidates_of_app in Hnd. fold CP CB in Hnd.
    assert (Permutation (CP ++ CB)
              ((rev R ++ CP) ++ skipn (Z.to_nat topk) (sort_by_distance CB)))
      as Hp.
    { rewrite <- (sort_by_distance_Permutation_self CB) at 1.
      rewrite <- (firstn_skipn (Z.to_nat topk) (sort_by_distance CB)) at 1.
      rewrite app_assoc. apply Permutation_app_tail.
      rewrite Permutation_app_comm. apply Permutation_app_tail.
      apply Permutation_rev. }
    apply (Permutation_map vid) in Hp.
    apply (Permutation_NoDup Hp) in Hnd.
    rewrite map_app in Hnd. apply NoDup_app_remove_r in Hnd. exact Hnd.
Qed.

(** Merging the result of a batch keeps the queue exact. *)
Lemma merge_result_holds_top (done batch : list VectorWithId)
    (H : list DistanceResult) :
  0 <= topk ->
  StronglySorted Z.lt (map id (done ++ batch)) ->
  holds_top metric filters reconstruct topk done query H ->
  holds_top metric filters reconstruct topk (done ++ batch) query
    (fold_left (merge_candidate topk) (top batch) H).
Proof.
  intros Hk Hs [He Hd].
  pose proof Hs as Hs2. rewrite map_app in Hs2.
  pose proof (sorted_app_lt _ _ Hs2) as Hlt.
  apply sorted_app_inv in Hs2 as [Ha Hb].
  destruct (merge_candidate_fold topk Hk (top batch) H) as [He' Hd'].
  - exact He.
  - rewrite Hd. apply top_of_ascending, Ha.
  - rewrite <- drained_length, Hd. unfold top_of. rewrite length_firstn. lia.
  - apply top_of_ascending, Hb.
  - rewrite Hd. apply Forall_forall. intros c Hc.
    apply Forall_forall. intros y Hy. apply lt_settled.
    apply list_elem_of_In, top_of_In, candidates_of_In in Hc, Hy.
    apply Hlt; assumption.
  - split; [exact He'|]. rewrite Hd', Hd. apply top_of_merge, Hs.
Qed.

End Candidates.

End TopKFacts.

(** *** The scan of [BruteForceSearch] *)

Module BruteForceFacts.

Import Pb VectorReader VectorReaderInv SearchSpec.

Section Exact.

Variable env : Env.
Variable flags : Flags.
Variable metric : VectorWithId -> VectorWithId -> Z.
Variable filters : list FilterFunctor.
Variable reconstruct : bool.
Variable topk : Z.
Variable parameter : VectorSearchParameter.
Variable queries : list VectorWithId.

Hypothesis topk_nonneg : 0 <= topk.
Hypothesis add_ok : forall batch, flat_Add env batch = StatusOK.
Hypothesis flat_exact :
  forall batch,
    flat_Search env batch queries topk filters reconstruct parameter
    = (StatusOK,
       exact_search metric batch queries topk filters reconstruct).

Local Abbreviation holds := (holds_top metric filters reconstruct topk).
Local Abbreviation search :=
  (fun batch =>
     flat_Search env batch queries topk filters reconstruct parameter).
Local Abbreviation step :=
  (fun (top_result : list DistanceResult) (result : VectorWithDistanceResult) =>
     fold_left (merge_candidate topk) result top_result).

Lemma holds_top_start (query : VectorWithId) : holds [] query [].
Proof.
  split; [constructor|]. unfold top_of, candidates_of. simpl.
  rewrite firstn_nil. reflexivity.
Qed.

Lemma merge_batch_holds_top (done batch : list VectorWithId) :
  StronglySorted Z.lt (map id (done ++ batch)) ->
  forall (qs : list VectorWithId) (tops : list (list DistanceResult)),
    Forall2 (holds done) qs tops ->
    Forall2 (holds (done ++ batch)) qs
      (merge_batch step
         (exact_search metric batch qs topk filters reconstruct) tops).
Proof.
  intros Hs. induction 1 as [|q H qs tops Hq _ IH]; simpl; constructor.
  - apply TopKFacts.merge_result_holds_top; assumption.
  - exact IH.
Qed.

Lemma search_batch_exact (done batch : list VectorWithId)
    (tops : list (list DistanceResult)) :
  StronglySorted Z.lt (map id (done ++ batch)) ->
  Forall2 (holds done) queries tops ->
  exists tops',
    search_batch env search step queries batch tops = Return StatusOK tops'
    /\ Forall2 (holds (done ++ batch)) queries tops'.
Proof.
  intros Hs Hq. unfold search_batch. rewrite add_ok, flat_exact. simpl.
  unfold exact_search at 1. rewrite length_map, Nat.eqb_refl. simpl.
  eexists. split; [reflexivity|].
  apply merge_batch_holds_top; assumption.
Qed.

Lemma scan_loop_exact (entries : list Iterator.KeyValue)
    (vs : list VectorWithId) :
  Forall2 (stored_as env) entries vs ->
  forall (done batch : list VectorWithId) (tops : list (list DistanceResult)),
    StronglySorted Z.lt (map id (done ++ batch ++ vs)) ->
    Forall2 (holds done) queries tops ->
    exists batch' tops' done',
      scan_loop env flags search step queries entries batch tops
      = Return StatusOK (batch', tops')
      /\ Forall2 (holds done') queries tops'
      /\ done' ++ batch' = done ++ batch ++ vs.
Proof.
  induction 1 as [|kv v entries vs (Hid & Hpos & vec & Hvec & Hv) _ IH];
    intros done batch tops Hs Hq; simpl.
  - exists batch, tops, done. rewrite app_nil_r. auto.
  - rewrite Hid, Hvec.
    assert ((id v >? 0) = true) as -> by (apply Z.gtb_lt; lia).
    simpl. rewrite <- Hv.
    assert (done ++ batch ++ v :: vs = done ++ (batch ++ [v]) ++ vs) as Heq
      by (rewrite <- (app_assoc batch); reflexivity).
    rewrite Heq in Hs |- *.
    match goal with |- context [if ?c then _ else _] => destruct c end.
    + assert (StronglySorted Z.lt (map id (done ++ batch ++ [v]))) as Hs1.
      { rewrite !app_assoc, map_app in Hs.
        apply TopKFacts.sorted_app_inv in Hs as [Hs _].
        rewrite <- app_assoc in Hs. exact Hs. }
      destruct (search_batch_exact done (batch ++ [v]) tops Hs1 Hq)
        as (tops1 & -> & Hq1).
      simpl.
      destruct (IH (done ++ batch ++ [v]) [] tops1) as (b' & t' & d' & H').
      * simpl. rewrite <- !app_assoc. rewrite <- !app_assoc in Hs. exact Hs.
      * exact Hq1.
      * exists b', t', d'. destruct H' as (-> & Hq' & Hd').
        split; [reflexivity|]. split; [exact Hq'|].
        rewrite Hd'. simpl. rewrite <- !app_assoc. reflexivity.
    + apply IH; assumption.
Qed.

Lemma holds_top_drained (done : list VectorWithId) :
  forall (qs : list VectorWithId) (tops : list (list DistanceResult)),
    Forall2 (holds done) qs tops ->
    map (fun top_result => rev (map dr_vector_with_distance top_result)) tops
    = exact_search metric done qs topk filters reconstruct.
Proof.
  induction 1 as [|q H qs tops [_ Hd] _ IH]; simpl; [reflexivity|].
  f_equal; [exact Hd|exact IH].
Qed.

(** The brute-force search over the stored vectors returns what an exact
    search over all of them returns; over an empty column family it leaves
    the output as it is. *)
Lemma BruteForceSearch_exact (region_range : string * string)
    (vectors : list VectorWithId) :
  Forall2 (stored_as env) (scanned env region_range) vectors ->
  StronglySorted Z.lt (map id vectors) ->
  BruteForceSearch env flags queries topk region_range filters reconstruct
    parameter []
  = Return StatusOK
      (match vectors with
       | [] => []
       | _ :: _ => exact_search metric vectors queries topk filters reconstruct
       end).
Proof.
  intros Hst Hs. unfold BruteForceSearch, brute_force_scan.
  unfold scanned in Hst.
  set (encode_range := EncodeRange env region_range) in *.
  unfold Iterator.Valid.
  cbn [Iterator.Seek Iterator.NewIterator Iterator.pos Iterator.upper_bound
       Iterator.snapshot].
  destruct (Iterator.seek_from (fst encode_range)
              (reader_entries env kVectorDataCF 0)) as [|kv rest].
  - simpl in Hst. inversion Hst; subst. reflexivity.
  - cbn [served] in Hst |- *.
    destruct (KeyOrder.key_lt (Iterator.kv_key kv) (snd encode_range));
      cbn [negb].
    + assert (Forall2 (holds []) queries (repeat [] (length queries))) as Hq0.
      { clear. induction queries as [|q qs IH]; simpl; constructor;
          [apply holds_top_start|exact IH]. }
      destruct (scan_loop_exact _ _ Hst [] [] _ Hs Hq0)
        as (b & t & d & -> & Hq & Hd).
      simpl in Hd. cbn [ok StatusOK error_code negb].
      destruct vectors as [|v0 vectors']; [inversion Hst|].
      destruct b as [|v b].
      * rewrite app_nil_r in Hd. subst d.
        rewrite VectorReaderFacts.copy_results_fresh.
        rewrite (holds_top_drained _ _ _ Hq). reflexivity.
      * rewrite <- Hd in Hs.
        destruct (search_batch_exact d (v :: b) t Hs Hq) as (t1 & -> & Hq1).
        cbn [ok StatusOK error_code negb].
        rewrite VectorReaderFacts.copy_results_fresh.
        rewrite (holds_top_drained _ _ _ Hq1), Hd. reflexivity.
    + inversion Hst; subst. reflexivity.
Qed.

End Exact.

Lemma exact_search_nothing_stored
    (metric : VectorWithId -> VectorWithId -> Z) (queries : list VectorWithId)
    (topk : Z) (filters : list FilterFunctor) (reconstruct : bool) :
  forall i : nat,
    nth i (exact_search metric [] queries topk filters reconstruct) [] = [].
Proof.
  induction queries as [|q qs IH]; intros i; simpl.
  - destruct i; reflexivity.
  - destruct i as [|i]; [apply firstn_nil|apply IH].
Qed.



End BruteForceFacts.

(** ** The raw RocksDB reader *)

Module RocksReaderFacts.

Import KeyOrder KeyOrderFacts MergedIteratorInv RocksReader.

Lemma key_le_false_lt (a b : string) : key_le a b = false -> key_lt b a = true.
Proof.
  unfold key_le. fold (key_lt b a). destruct (key_lt b a); simpl; congruence.
Qed.

Lemma filter_none {A : Type} (f : A -> bool) :
  forall l : list A, (forall x, In x l -> f x = false) -> List.filter f l = [].
Proof.
  induction l as [|x l IH]; intros H; simpl; [reflexivity|].
  rewrite (H x) by (left; reflexivity). apply IH.
  intros y Hy. apply H. right. exact Hy.
Qed.

Lemma scan_until_filter (start_key end_key : string) :
  forall l : list Iterator.KeyValue,
    sorted_cf l ->
    Forall (fun kv => key_le start_key (Iterator.kv_key kv) = true) l ->
    scan_until end_key l = List.filter (in_scan_range start_key end_key) l.
Proof.
  unfold sorted_cf.
  induction 1 as [|kv l Hs IH Hall]; intros Hge; simpl; [reflexivity|].
  inversion Hge as [|? ? Hkv Hge']; subst.
  unfold in_scan_range at 1. rewrite Hkv. simpl.
  destruct (key_lt (Iterator.kv_key kv) end_key) eqn:E.
  - rewrite IH by exact Hge'. reflexivity.
  - symmetry. apply filter_none. intros x Hx.
    rewrite Forall_forall in Hall. apply list_elem_of_In, Hall in Hx.
    unfold in_scan_range. apply andb_false_iff. right.
    destruct (key_lt (Iterator.kv_key x) end_key) eqn:Ex; [|reflexivity].
    rewrite (key_le_lt_trans _ _ _ Hx Ex) in E. discriminate.
Qed.

Lemma scan_seek_filter (start_key end_key : string) :
  forall l : list Iterator.KeyValue,
    sorted_cf l ->
    scan_until end_key (Iterator.seek_from start_key l)
    = List.filter (in_scan_range start_key end_key) l.
Proof.
  intros l Hs. pose proof Hs as Hs0. unfold sorted_cf in Hs.
  induction Hs as [|kv l Hs IH Hall]; simpl; [reflexivity|].
  destruct (key_lt (Iterator.kv_key kv) start_key) eqn:E.
  - unfold in_scan_range at 1. unfold key_le.
    fold (key_lt (Iterator.kv_key kv) start_key). rewrite E. simpl.
    apply IH. exact Hs.
  - rewrite (scan_until_filter start_key end_key (kv :: l) Hs0).
    + reflexivity.
    + pose proof (not_key_lt_le _ _ E) as Hle.
      constructor; [exact Hle|].
      eapply Forall_impl; [exact Hall|].
      intros x Hx. exact (key_le_trans _ _ _ Hle Hx).
Qed.

Lemma count_up_length {A : Type} (l : list A) :
  forall count : Z,
    fold_left (fun count _ => count + 1) l count = count + Z.of_nat (length l).
Proof.
  induction l as [|x l IH]; intros count; simpl fold_left.
  - simpl. lia.
  - rewrite IH. simpl length. lia.
Qed.

(** X1.  Over a column family in key order, [KvScan] with non-empty bounds
    returns the OK status and appends to [kvs], in key order, exactly the
    entries whose key lies in the half-open range from [start_key] to
    [end_key]; [KvCount] returns the number of these entries, whatever
    [count] held.  With an empty bound both return [EKEY_EMPTY] and leave
    their output as it was. *)
Theorem KvScan_KvCount_half_open_range :
  forall (snapshot : Iterator.ColumnFamily) (start_key end_key : string)
         (kvs : list RawRocksEngine.KeyValue) (count : Z),
    sorted_cf snapshot ->
    let in_range := List.filter (in_scan_range start_key end_key) snapshot in
    if empty start_key || empty end_key then
      KvScan snapshot start_key end_key kvs = (mkStatus EKEY_EMPTY, kvs)
      /\ KvCount snapshot start_key end_key count
         = (mkStatus EKEY_EMPTY, count)
    else
      KvScan snapshot start_key end_key kvs
      = (StatusOK,
         kvs
         ++ map (fun it =>
                   RawRocksEngine.mkKeyValue (Iterator.kv_key it)
                     (Iterator.kv_value it))
                in_range)
      /\ KvCount snapshot start_key end_key count
         = (StatusOK, Z.of_nat (length in_range)).
Proof.
  intros snapshot start_key end_key kvs count Hs in_range.
  unfold KvScan, KvCount.
  destruct (empty start_key); simpl; [split; reflexivity|].
  destruct (empty end_key); simpl; [split; reflexivity|].
  rewrite count_up_length, scan_seek_filter by exact Hs.
  split; reflexivity.
Qed.

Lemma KvScan_KvCount_half_open_range_witness :
  KvScan (SplitExamples.example_engine "default") "a" "b" []
  = (StatusOK, [RawRocksEngine.mkKeyValue "a" "12"])
  /\ KvCount (SplitExamples.example_engine "default") "a" "b" 7
     = (StatusOK, 1).
Proof.
  exact (KvScan_KvCount_half_open_range
           (SplitExamples.example_engine "default") "a" "b" [] 7
           ltac:(unfold sorted_cf; repeat constructor)).
Defined.

End RocksReaderFacts.

(** ** The raw RocksDB writer: single keys *)

Module RocksWriterFacts.

Import RawRocksEngine RocksWriter.

Lemma empty_false_ne (s : string) : empty s = false -> s <> EmptyString.
Proof.
  intros H Heq. apply RawRocksEngineFacts.empty_iff in Heq. congruence.
Qed.

(** X2.  What [KvPut] writes, [KvGet] reads: after a [KvPut] that returns
    the OK status, [KvGet] of the key returns the OK status and the value
    put, and [KvGet] of every other key returns what it returned before.
    A [KvPut] that does not return OK leaves the store as it was. *)
Theorem KvPut_then_KvGet :
  forall (faults : Faults) (store : DB) (kv : KeyValue) (old : string),
    let '(status, store') := KvPut faults store kv in
    if ok status then
      RocksReader.KvGet false store' (key kv) old = (StatusOK, value kv)
      /\ forall k : string,
           k <> key kv ->
           RocksReader.KvGet false store' k old
           = RocksReader.KvGet false store k old
    else store' = store.
Proof.
  intros faults store kv old. unfold KvPut.
  destruct (empty (key kv)) eqn:Ek; [reflexivity|].
  destruct (Put_fails faults); [reflexivity|].
  simpl. unfold RocksReader.KvGet. rewrite Ek, lookup_insert_eq.
  split; [reflexivity|].
  intros k Hk. rewrite lookup_insert_ne by congruence. reflexivity.
Qed.

(** X3.  After a [KvDelete] that returns the OK status, [KvGet] of the key
    returns [EKEY_NOTFOUND] and leaves [value] as it was, and every other
    key reads as before; deleting a key that is not there returns OK as
    well.  [KvDelete] of the empty key returns [EKEY_EMPTY], and a
    [KvDelete] that does not return OK leaves the store as it was. *)
Theorem KvDelete_then_KvGet :
  forall (faults : BatchFaults) (store : DB) (k old : string),
    let '(status, store') := KvDelete faults store k in
    (if ok status then
       RocksReader.KvGet false store' k old = (mkStatus EKEY_NOTFOUND, old)
       /\ forall k' : string,
            k' <> k ->
            RocksReader.KvGet false store' k' old
            = RocksReader.KvGet false store k' old
     else store' = store)
    /\ (ok status = true <-> k <> EmptyString /\ Delete_fails faults = false)
    /\ (k = EmptyString -> status = mkStatus EKEY_EMPTY).
Proof.
  intros faults store k old. unfold KvDelete.
  destruct (empty k) eqn:Ek.
  - apply RawRocksEngineFacts.empty_iff in Ek. simpl.
    split; [reflexivity|]. split; [|reflexivity].
    split; [discriminate|]. intros [H _]. contradiction.
  - apply empty_false_ne in Ek.
    destruct (Delete_fails faults); simpl.
    + split; [reflexivity|]. split; [|contradiction].
      split; [discriminate|]. intros [_ H]. discriminate.
    + split; [|split; [tauto|contradiction]].
      unfold RocksReader.KvGet.
      assert (empty k = false) as ->.
      { destruct (empty k) eqn:E; [|reflexivity].
        apply RawRocksEngineFacts.empty_iff in E. contradiction. }
      rewrite lookup_delete_eq. split; [reflexivity|].
      intros k' Hk'. rewrite lookup_delete_ne by congruence. reflexivity.
Qed.

Lemma neq_string_false (a b : string) : neq_string a b = false <-> a = b.
Proof.
  unfold neq_string. rewrite negb_false_iff. apply String.eqb_eq.
Qed.



(** X5.  [KvDeleteIfEqual] deletes the key only when it is there with the
    value of the request: a call that returns the OK status found
    [kv.value()] under the key and removed the key, and a call that does
    not return OK leaves the store as it was.  Without a failing read a
    missing key gives [EKEY_NOTFOUND] and a stored value that differs gives
    [EINTERNAL]; the empty key gives [EKEY_EMPTY]. *)
Theorem KvDeleteIfEqual_deletes_only_on_match :
  forall (faults : Faults) (txn_Delete_fails : bool) (store : DB)
         (kv : KeyValue),
    let '(status, store') := KvDeleteIfEqual faults txn_Delete_fails store kv in
    (if ok status then
       store !! key kv = Some (value kv) /\ store' = delete (key kv) store
     else store' = store)
    /\ (key kv = EmptyString -> status = mkStatus EKEY_EMPTY)
    /\ (key kv <> EmptyString ->
        BeginTransaction_null faults = false ->
        GetForUpdate_fails faults = false ->
        match store !! key kv with
        | None => status = mkStatus EKEY_NOTFOUND
        | Some old =>
            if String.eqb (value kv) old then
              ok status = true
              <-> txn_Delete_fails = false /\ Commit_fails faults = false
            else status = mkStatus EINTERNAL
        end).
Proof.
  intros faults dfails store kv.
  unfold KvDeleteIfEqual, GetForUpdate.
  destruct (empty (key kv)) eqn:Ek.
  { apply RawRocksEngineFacts.empty_iff in Ek. simpl.
    split; [reflexivity|]. split; [reflexivity|]. intros H. contradiction. }
  apply empty_false_ne in Ek.
  destruct (BeginTransaction_null faults); simpl.
  { split; [reflexivity|]. split; [contradiction|]. discriminate. }
  destruct (GetForUpdate_fails faults); simpl.
  { split; [reflexivity|]. split; [contradiction|]. discriminate. }
  destruct (store !! key kv) as [old|] eqn:El; simpl.
  - unfold neq_string. destruct (String.eqb (value kv) old) eqn:Ev; simpl.
    + apply String.eqb_eq in Ev. subst old.
      destruct dfails; simpl.
      * split; [reflexivity|]. split; [contradiction|]. intros _ _ _.
        split; [discriminate|]. intros [H _]. discriminate.
      * destruct (Commit_fails faults); simpl.
        -- split; [reflexivity|]. split; [contradiction|]. intros _ _ _.
           split; [discriminate|]. intros [_ H]. discriminate.
        -- split; [auto|]. split; [contradiction|]. intros _ _ _. tauto.
    + split; [reflexivity|]. split; [contradiction|]. reflexivity.
  - split; [reflexivity|]. split; [contradiction|]. reflexivity.
Qed.

(** *** Write batches *)

Lemma first_value_app (k : string) (a b : list KeyValue) :
  first_value k (a ++ b)
  = match first_value k a with
    | Some v => Some v
    | None => first_value k b
    end.
Proof.
  induction a as [|kv a IH]; simpl; [reflexivity|].
  destruct (String.eqb (key kv) k); [reflexivity|exact IH].
Qed.

Lemma last_value_cons (k : string) (kv : KeyValue) (kvs : list KeyValue) :
  last_value k (kv :: kvs)
  = match last_value k kvs with
    | Some v => Some v
    | None => if String.eqb (key kv) k then Some (value kv) else None
    end.
Proof. unfold last_value. simpl. rewrite first_value_app. reflexivity. Qed.

Lemma batch_puts_spec (faults : BatchFaults) :
  forall (kv_puts : list KeyValue) (batch batch' : list BatchOp),
    batch_puts faults kv_puts batch = inr batch' ->
    batch' = batch ++ map (fun kv => BatchPut (key kv) (value kv)) kv_puts
    /\ Forall (fun kv => key kv <> EmptyString) kv_puts.
Proof.
  induction kv_puts as [|kv rest IH]; intros batch batch' H; simpl in H.
  - injection H as <-. rewrite app_nil_r. split; [reflexivity|constructor].
  - destruct (empty (key kv)) eqn:Ek; [discriminate|].
    destruct (batch_Put_fails faults (key kv)); [discriminate|].
    apply IH in H as [-> Hall]. rewrite <- app_assoc. split; [reflexivity|].
    constructor; [apply empty_false_ne, Ek|exact Hall].
Qed.

Lemma batch_deletes_spec (faults : BatchFaults) :
  forall (kv_deletes : list KeyValue) (batch batch' : list BatchOp),
    batch_deletes faults kv_deletes batch = inr batch' ->
    batch' = batch ++ map (fun kv => BatchDelete (key kv)) kv_deletes
    /\ Forall (fun kv => key kv <> EmptyString) kv_deletes.
Proof.
  induction kv_deletes as [|kv rest IH]; intros batch batch' H; simpl in H.
  - injection H as <-. rewrite app_nil_r. split; [reflexivity|constructor].
  - destruct (empty (key kv)) eqn:Ek; [discriminate|].
    destruct (batch_Delete_fails faults (key kv)); [discriminate|].
    apply IH in H as [-> Hall]. rewrite <- app_assoc. split; [reflexivity|].
    constructor; [apply empty_false_ne, Ek|exact Hall].
Qed.

Lemma batch_puts_fails (faults : BatchFaults) :
  forall (kv_puts : list KeyValue) (batch : list BatchOp) (st : Status),
    batch_puts faults kv_puts batch = inl st -> ok st = false.
Proof.
  induction kv_puts as [|kv rest IH]; intros batch st H; simpl in H;
    [discriminate|].
  destruct (empty (key kv)); [injection H as <-; reflexivity|].
  destruct (batch_Put_fails faults (key kv));
    [injection H as <-; reflexivity|].
  eapply IH; eauto.
Qed.

Lemma batch_deletes_fails (faults : BatchFaults) :
  forall (kv_deletes : list KeyValue) (batch : list BatchOp) (st : Status),
    batch_deletes faults kv_deletes batch = inl st -> ok st = false.
Proof.
  induction kv_deletes as [|kv rest IH]; intros batch st H; simpl in H;
    [discriminate|].
  destruct (empty (key kv)); [injection H as <-; reflexivity|].
  destruct (batch_Delete_fails faults (key kv));
    [injection H as <-; reflexivity|].
  eapply IH; eauto.
Qed.

Lemma batch_puts_returns (faults : BatchFaults) :
  (forall k, batch_Put_fails faults k = false) ->
  forall (kv_puts : list KeyValue) (batch : list BatchOp),
    Forall (fun kv => key kv <> EmptyString) kv_puts ->
    exists batch', batch_puts faults kv_puts batch = inr batch'.
Proof.
  intros Hf. induction kv_puts as [|kv rest IH]; intros batch Hall; simpl.
  - eauto.
  - inversion Hall as [|? ? Hk Hall']; subst.
    destruct (empty (key kv)) eqn:Ek.
    + apply RawRocksEngineFacts.empty_iff in Ek. contradiction.
    + rewrite Hf. apply IH. exact Hall'.
Qed.

Lemma batch_deletes_returns (faults : BatchFaults) :
  (forall k, batch_Delete_fails faults k = false) ->
  forall (kv_deletes : list KeyValue) (batch : list BatchOp),
    Forall (fun kv => key kv <> EmptyString) kv_deletes ->
    exists batch', batch_deletes faults kv_deletes batch = inr batch'.
Proof.
  intros Hf. induction kv_deletes as [|kv rest IH]; intros batch Hall; simpl.
  - eauto.
  - inversion Hall as [|? ? Hk Hall']; subst.
    destruct (empty (key kv)) eqn:Ek.
    + apply RawRocksEngineFacts.empty_iff in Ek. contradiction.
    + rewrite Hf. apply IH. exact Hall'.
Qed.

Lemma Write_puts_lookup (k : string) :
  forall (kv_puts : list KeyValue) (store : DB),
    Write (map (fun kv => BatchPut (key kv) (value kv)) kv_puts) store !! k
    = match last_value k kv_puts with
      | Some v => Some v
      | None => store !! k
      end.
Proof.
  unfold Write.
  induction kv_puts as [|kv rest IH]; intros store; simpl; [reflexivity|].
  rewrite IH, last_value_cons.
  destruct (last_value k rest); [reflexivity|].
  destruct (String.eqb (key kv) k) eqn:E.
  - apply String.eqb_eq in E. subst k. apply lookup_insert_eq.
  - apply String.eqb_neq in E. apply lookup_insert_ne. exact E.
Qed.

Lemma Write_deletes_lookup (k : string) :
  forall (kv_deletes : list KeyValue) (store : DB),
    Write (map (fun kv => BatchDelete (key kv)) kv_deletes) store !! k
    = if has_key k kv_deletes then None else store !! k.
Proof.
  unfold Write, has_key.
  induction kv_deletes as [|kv rest IH]; intros store; simpl; [reflexivity|].
  rewrite IH.
  destruct (String.eqb (key kv) k) eqn:E; simpl.
  - apply String.eqb_eq in E. subst k. rewrite lookup_delete_eq.
    destruct (existsb _ rest); reflexivity.
  - apply String.eqb_neq in E. rewrite lookup_delete_ne by exact E.
    reflexivity.
Qed.

Lemma Write_app (a b : list BatchOp) (store : DB) :
  Write (a ++ b) store = Write b (Write a store).
Proof. unfold Write. apply fold_left_app. Qed.

(** The function with its first test taken out. *)
Lemma KvBatchPutAndDelete_cases (faults : BatchFaults) (store : DB)
    (kv_puts kv_deletes : list KeyValue) :
  (kv_puts = [] /\ kv_deletes = []
   /\ KvBatchPutAndDelete faults store kv_puts kv_deletes
      = (mkStatus EKEY_EMPTY, store))
  \/ ((kv_puts <> [] \/ kv_deletes <> [])
      /\ KvBatchPutAndDelete faults store kv_puts kv_deletes
         = match batch_puts faults kv_puts [] with
           | inl status => (status, store)
           | inr batch =>
               match batch_deletes faults kv_deletes batch with
               | inl status => (status, store)
               | inr batch =>
                   if Write_fails faults then (mkStatus EINTERNAL, store)
                   else (StatusOK, Write batch store)
               end
           end).
Proof.
  unfold KvBatchPutAndDelete.
  destruct kv_puts as [|p ps]; destruct kv_deletes as [|d ds].
  - left. auto.
  - right. split; [right; discriminate|reflexivity].
  - right. split; [left; discriminate|reflexivity].
  - right. split; [left; discriminate|reflexivity].
Qed.

(** X6.  [KvBatchPutAndDelete] is all or nothing, and its deletes win: a
    call that returns the OK status was given at least one entry and no
    empty key, and afterwards a key of [kv_deletes] is gone, any other key
    of [kv_puts] holds the last value the batch has for it, and every other
    key reads as before; a call that does not return OK leaves the store
    as it was.  A call without any entry returns [EKEY_EMPTY], as do
    [KvBatchPut] and [KvBatchDelete] of an empty list.  When RocksDB
    reports no failure, a call with an entry and without an empty key
    returns OK. *)
Theorem KvBatchPutAndDelete_all_or_nothing :
  forall (faults : BatchFaults) (store : DB)
         (kv_puts kv_deletes : list KeyValue),
    let '(status, store') :=
      KvBatchPutAndDelete faults store kv_puts kv_deletes in
    (if ok status then
       (kv_puts <> [] \/ kv_deletes <> [])
       /\ Forall (fun kv => key kv <> EmptyString) (kv_puts ++ kv_deletes)
       /\ forall k : string,
            store' !! k
            = if has_key k kv_deletes then None
              else match last_value k kv_puts with
                   | Some v => Some v
                   | None => store !! k
                   end
     else store' = store)
    /\ (kv_puts = [] -> kv_deletes = [] -> status = mkStatus EKEY_EMPTY)
    /\ KvBatchPut faults store [] = (mkStatus EKEY_EMPTY, store)
    /\ KvBatchDelete faults store [] = (mkStatus EKEY_EMPTY, store)
    /\ ((forall k, batch_Put_fails faults k = false) ->
        (forall k, batch_Delete_fails faults k = false) ->
        Write_fails faults = false ->
        kv_puts <> [] \/ kv_deletes <> [] ->
        Forall (fun kv => key kv <> EmptyString) (kv_puts ++ kv_deletes) ->
        status = StatusOK).
Proof.
  intros faults store kv_puts kv_deletes.
  destruct (KvBatchPutAndDelete_cases faults store kv_puts kv_deletes)
    as [(-> & -> & ->)|[Hne ->]].
  { simpl. split; [reflexivity|]. split; [reflexivity|].
    split; [reflexivity|]. split; [reflexivity|].
    intros _ _ _ [H|H]; contradiction. }
  assert (forall st : Status,
             kv_puts = [] -> kv_deletes = [] -> st = mkStatus EKEY_EMPTY)
    as Hempty.
  { intros st -> ->. destruct Hne as [H|H]; contradiction. }
  destruct (batch_puts faults kv_puts []) as [st|batch] eqn:Ep.
  { rewrite (batch_puts_fails _ _ _ _ Ep).
    split; [reflexivity|]. split; [apply Hempty|].
    split; [reflexivity|]. split; [reflexivity|].
    intros Hf _ _ _ Hall. apply Forall_app in Hall as [Hall _].
    destruct (batch_puts_returns faults Hf kv_puts [] Hall) as [b Hb].
    congruence. }
  destruct (batch_puts_spec _ _ _ _ Ep) as [-> Hputs]. simpl app.
  destruct (batch_deletes faults kv_deletes _) as [st|batch] eqn:Ed.
  { rewrite (batch_deletes_fails _ _ _ _ Ed).
    split; [reflexivity|]. split; [apply Hempty|].
    split; [reflexivity|]. split; [reflexivity|].
    intros _ Hf _ _ Hall. apply Forall_app in Hall as [_ Hall].
    destruct (batch_deletes_returns faults Hf kv_deletes
                (map (fun kv => BatchPut (key kv) (value kv)) kv_puts) Hall)
      as [b Hb].
    congruence. }
  destruct (batch_deletes_spec _ _ _ _ Ed) as [-> Hdels].
  destruct (Write_fails faults) eqn:Ew.
  { split; [reflexivity|]. split; [apply Hempty|].
    split; [reflexivity|]. split; [reflexivity|]. discriminate. }
  split; [|split; [apply Hempty|]].
  - simpl. split; [exact Hne|]. split; [apply Forall_app; auto|].
    intros k.
    rewrite Write_app, Write_deletes_lookup, Write_puts_lookup. reflexivity.
  - split; [reflexivity|]. split; [reflexivity|]. reflexivity.
Qed.

End RocksWriterFacts.

(** ** The raw RocksDB writer: [KvBatchPutIfAbsent] *)

Module RocksBatchFacts.

Import RawRocksEngine RocksWriter.

Lemma resize_length {A : Type} (n : nat) (d : A) (l : list A) :
  length (VectorReader.resize n d l) = n.
Proof.
  unfold VectorReader.resize.
  rewrite length_app, length_firstn, repeat_length. lia.
Qed.

Lemma repeat_lookup {A : Type} (d : A) :
  forall (n j : nat), (j < n)%nat -> repeat d n !! j = Some d.
Proof.
  induction n as [|n IH]; intros j Hj; [lia|].
  destruct j as [|j]; [reflexivity|]. simpl. apply IH. lia.
Qed.

Lemma resize_lookup {A : Type} (n : nat) (d : A) (l : list A) (j : nat) :
  (j < n)%nat ->
  VectorReader.resize n d l !! j = Some (default d (l !! j)).
Proof.
  intros Hj. unfold VectorReader.resize.
  destruct (le_lt_dec (length l) j) as [Hle|Hlt].
  - rewrite lookup_app_r by (rewrite length_firstn; lia).
    rewrite length_firstn.
    rewrite (lookup_ge_None_2 l j) by exact Hle. simpl.
    apply repeat_lookup. lia.
  - rewrite lookup_app_l by (rewrite length_firstn; lia).
    rewrite lookup_take_lt by exact Hj.
    destruct (lookup_lt_is_Some_2 l j Hlt) as [x ->]. reflexivity.
Qed.

(** *** What any call keeps *)

Lemma put_if_absent_loop_keeps (faults : Faults) (is_atomic : bool) (n : nat)
    (store : DB) :
  forall (kvs : list KeyValue) (s s' : PutIfAbsentLoop),
    put_if_absent_loop faults is_atomic n kvs s = inr s' ->
    (forall k v, store !! k = Some v -> txn s !! k = Some v) ->
    (forall k v, store !! k = Some v -> txn s' !! k = Some v)
    /\ (forall k v, txn s' !! k = Some v ->
                    txn s !! k = Some v \/ In (mkKeyValue k v) kvs).
Proof.
  induction kvs as [|kv rest IH]; intros s s' H Hin; simpl in H.
  - injection H as <-. split; [exact Hin|auto].
  - unfold GetForUpdate in H.
    assert (forall s1 : PutIfAbsentLoop,
               put_if_absent_loop faults is_atomic n rest s1 = inr s' ->
               (txn s1 = txn s
                \/ (txn s !! key kv = None
                    /\ txn s1 = <[key kv := value kv]> (txn s))) ->
               (forall k v, store !! k = Some v -> txn s' !! k = Some v)
               /\ (forall k v, txn s' !! k = Some v ->
                               txn s !! k = Some v
                               \/ In (mkKeyValue k v) (kv :: rest))) as Hstep.
    { intros s1 H1 Hs1.
      destruct (IH s1 s' H1) as [Ha Hb].
      - intros k v Hkv. destruct Hs1 as [->|[Hnone ->]]; [auto|].
        destruct (String.eqb (key kv) k) eqn:E.
        + apply String.eqb_eq in E. subst k.
          specialize (Hin _ _ Hkv). congruence.
        + apply String.eqb_neq in E. rewrite lookup_insert_ne by exact E.
          auto.
      - split; [exact Ha|]. intros k v Hkv.
        destruct (Hb k v Hkv) as [Hs|Hr]; [|right; right; exact Hr].
        destruct Hs1 as [Hs1|[Hnone Hs1]]; rewrite Hs1 in Hs;
          [left; exact Hs|].
        destruct (String.eqb (key kv) k) eqn:E.
        + apply String.eqb_eq in E. subst k.
          rewrite lookup_insert_eq in Hs. injection Hs as <-.
          right. left. destruct kv; reflexivity.
        + apply String.eqb_neq in E.
          rewrite lookup_insert_ne in Hs by exact E. left. exact Hs. }
    destruct (GetForUpdate_fails faults).
    + destruct is_atomic; simpl in H; [discriminate|].
      eapply Hstep; [exact H|left; reflexivity].
    + destruct (txn s !! key kv) eqn:El.
      * destruct is_atomic; simpl in H; [discriminate|].
        eapply Hstep; [exact H|left; reflexivity].
      * destruct is_atomic; simpl in H.
        -- destruct (Put_fails faults); [discriminate|].
           eapply Hstep; [exact H|right; split; reflexivity].
        -- destruct (Put_fails faults); [discriminate|].
           eapply Hstep; [exact H|right; split; reflexivity].
Qed.

(** X7.  [KvBatchPutIfAbsent] never overwrites: in both modes and whatever
    RocksDB reports, every key that was in the store keeps its value, every
    key that is in the store afterwards either was there with that value or
    is an entry of the batch, and a call that does not return the OK status
    leaves the store as it was.  An empty batch and a batch with an empty
    key return [EKEY_EMPTY] and leave [key_states] as it was. *)
Theorem KvBatchPutIfAbsent_never_overwrites :
  forall (faults : Faults) (store : DB) (kvs : list KeyValue)
         (key_states : list bool) (is_atomic : bool),
    let '(status, key_states', store') :=
      KvBatchPutIfAbsent faults store kvs key_states is_atomic in
    (forall k v, store !! k = Some v -> store' !! k = Some v)
    /\ (forall k v, store' !! k = Some v ->
                    store !! k = Some v \/ In (mkKeyValue k v) kvs)
    /\ (ok status = false -> store' = store)
    /\ (kvs = [] \/ Exists (fun kv => key kv = EmptyString) kvs ->
        status = mkStatus EKEY_EMPTY /\ key_states' = key_states).
Proof.
  intros faults store kvs key_states is_atomic.
  unfold KvBatchPutIfAbsent.
  destruct kvs as [|kv0 rest0] eqn:Ekvs.
  { repeat split; auto. }
  rewrite <- Ekvs.
  assert (kvs <> []) as Hne by (rewrite Ekvs; discriminate).
  clear Ekvs.
  destruct (existsb (fun kv => empty (key kv)) kvs) eqn:Ex.
  { repeat split; auto. }
  assert (~ Exists (fun kv => key kv = EmptyString) kvs) as Hnoempty.
  { intros HE. apply Exists_exists in HE as (kv & Hkv & Hk).
    apply not_true_iff_false in Ex. apply Ex.
    apply existsb_exists. exists kv. split; [apply list_elem_of_In, Hkv|].
    apply RawRocksEngineFacts.empty_iff. exact Hk. }
  assert (~ (kvs = [] \/ Exists (fun kv => key kv = EmptyString) kvs))
    as Hnot by (intros [H|H]; contradiction).
  destruct (BeginTransaction_null faults).
  { split; [auto|]. split; [auto|]. split; [auto|]. intros H. contradiction. }
  destruct (put_if_absent_loop faults is_atomic (length kvs) kvs _)
    as [[st ks]|s'] eqn:El.
  { split; [auto|]. split; [auto|]. split; [auto|]. intros H. contradiction. }
  destruct (Commit_fails faults).
  { split; [auto|]. split; [auto|]. split; [auto|]. intros H. contradiction. }
  destruct (put_if_absent_loop_keeps faults is_atomic (length kvs) store
              kvs _ s' El) as [Ha Hb].
  - simpl. auto.
  - simpl in Hb. split; [exact Ha|]. split; [exact Hb|].
    split; [discriminate|]. intros H. contradiction.
Qed.

(** *** Without failures *)

Lemma has_key_cons (k : string) (kv : KeyValue) (kvs : list KeyValue) :
  has_key k (kv :: kvs) = String.eqb (key kv) k || has_key k kvs.
Proof. reflexivity. Qed.

Lemma written_skip (store : DB) (kv kv' : KeyValue) (rest : list KeyValue)
    (j : nat) :
  store !! key kv <> None ->
  written store (kv :: rest) (Datatypes.S j) kv' = written store rest j kv'.
Proof.
  intros Hkv. unfold written. simpl take. rewrite has_key_cons.
  destruct (store !! key kv') eqn:E; [reflexivity|].
  destruct (String.eqb (key kv) (key kv')) eqn:Ek; [|reflexivity].
  apply String.eqb_eq in Ek. congruence.
Qed.

Lemma written_put (store : DB) (kv kv' : KeyValue) (rest : list KeyValue)
    (j : nat) :
  store !! key kv = None ->
  written store (kv :: rest) (Datatypes.S j) kv'
  = written (<[key kv := value kv]> store) rest j kv'.
Proof.
  intros Hkv. unfold written. simpl take. rewrite has_key_cons.
  destruct (String.eqb (key kv) (key kv')) eqn:Ek.
  - apply String.eqb_eq in Ek. rewrite <- Ek, Hkv, lookup_insert_eq.
    reflexivity.
  - apply String.eqb_neq in Ek. rewrite lookup_insert_ne by exact Ek.
    reflexivity.
Qed.

Lemma put_if_absent_loop_non_atomic (n : nat) :
  forall (kvs : list KeyValue) (s : PutIfAbsentLoop),
    (index s + length kvs <= length (states s))%nat ->
    exists s' : PutIfAbsentLoop,
      put_if_absent_loop no_faults false n kvs s = inr s'
      /\ length (states s') = length (states s)
      /\ (forall k,
             txn s' !! k
             = match txn s !! k with
               | Some v => Some v
               | None => first_value k kvs
               end)
      /\ (forall j, (j < index s)%nat -> states s' !! j = states s !! j)
      /\ (forall j kv,
             kvs !! j = Some kv ->
             states s' !! (index s + j)%nat
             = if written (txn s) kvs j kv then Some true
               else states s !! (index s + j)%nat).
Proof.
  induction kvs as [|kv rest IH]; intros s Hlen.
  - exists s. split; [reflexivity|]. split; [reflexivity|].
    split; [intros k; destruct (txn s !! k); reflexivity|].
    split; [reflexivity|]. intros j kv H. discriminate.
  - simpl in Hlen. cbn [put_if_absent_loop]. unfold GetForUpdate.
    cbn [GetForUpdate_fails Put_fails no_faults].
    destruct (txn s !! key kv) as [old|] eqn:El; cbn [negb].
    + destruct (IH (mkPutIfAbsentLoop (Datatypes.S (index s)) (states s)
                      (txn s))) as (s' & -> & Hl & Ht & Hb & Hw).
      { simpl. lia. }
      simpl in Hl, Ht, Hb, Hw. exists s'. split; [reflexivity|].
      split; [exact Hl|]. split; [|split].
      * intros k. rewrite Ht. destruct (txn s !! k) eqn:Ek; [reflexivity|].
        simpl. destruct (String.eqb (key kv) k) eqn:E; [|reflexivity].
        apply String.eqb_eq in E. congruence.
      * intros j Hj. apply Hb. lia.
      * intros j kv' Hj. destruct j as [|j]; simpl in Hj.
        -- injection Hj as <-. rewrite Nat.add_0_r.
           rewrite Hb by lia. unfold written. rewrite El. reflexivity.
        -- rewrite Nat.add_succ_r, written_skip by congruence.
           apply (Hw j kv' Hj).
    + destruct (IH (mkPutIfAbsentLoop (Datatypes.S (index s))
                      (<[index s := true]> (states s))
                      (<[key kv := value kv]> (txn s))))
        as (s' & -> & Hl & Ht & Hb & Hw).
      { simpl. rewrite length_insert. lia. }
      simpl in Hl, Ht, Hb, Hw. rewrite length_insert in Hl.
      exists s'. split; [reflexivity|].
      split; [exact Hl|]. split; [|split].
      * intros k. rewrite Ht.
        destruct (String.eqb (key kv) k) eqn:E.
        -- apply String.eqb_eq in E. subst k.
           rewrite lookup_insert_eq, El. simpl.
           rewrite String.eqb_refl. reflexivity.
        -- pose proof E as E'. apply String.eqb_neq in E'.
           rewrite lookup_insert_ne by exact E'. simpl. rewrite E.
           reflexivity.
      * intros j Hj. rewrite Hb by lia.
        apply list_lookup_insert_ne. lia.
      * intros j kv' Hj. destruct j as [|j]; simpl in Hj.
        -- injection Hj as <-. rewrite Nat.add_0_r.
           rewrite Hb by lia. unfold written. rewrite El. simpl.
           apply list_lookup_insert_eq. lia.
        -- rewrite Nat.add_succ_r, written_put by exact El.
           rewrite (Hw j kv' Hj).
           rewrite list_lookup_insert_ne by lia. reflexivity.
Qed.

Lemma existsb_empty_key (kvs : list KeyValue) :
  Forall (fun kv => key kv <> EmptyString) kvs ->
  existsb (fun kv => empty (key kv)) kvs = false.
Proof.
  induction 1 as [|kv rest Hk _ IH]; simpl; [reflexivity|].
  rewrite IH, orb_false_r.
  destruct (empty (key kv)) eqn:E; [|reflexivity].
  apply RawRocksEngineFacts.empty_iff in E. contradiction.
Qed.

(** X8.  Without a failure of RocksDB, the non-atomic [KvBatchPutIfAbsent]
    of a batch that is not empty and has no empty key returns the OK
    status; afterwards a key that was in the store has its old value and a
    key that was not has the first value the batch holds for it, if any.
    [key_states] has one entry per entry of the batch: it is set where the
    entry created its key, and elsewhere it holds what [key_states] held
    on entry, or [false] beyond its former size. *)
Theorem KvBatchPutIfAbsent_non_atomic :
  forall (store : DB) (kvs : list KeyValue) (key_states : list bool),
    kvs <> [] ->
    Forall (fun kv => key kv <> EmptyString) kvs ->
    exists (key_states' : list bool) (store' : DB),
      KvBatchPutIfAbsent no_faults store kvs key_states false
      = (StatusOK, key_states', store')
      /\ (forall k,
             store' !! k
             = match store !! k with
               | Some v => Some v
               | None => first_value k kvs
               end)
      /\ length key_states' = length kvs
      /\ (forall i kv,
             kvs !! i = Some kv ->
             key_states' !! i
             = Some (written store kvs i kv
                     || default false (key_states !! i))).
Proof.
  intros store kvs key_states Hne Hkeys. unfold KvBatchPutIfAbsent.
  destruct kvs as [|kv0 rest0] eqn:Ekvs; [contradiction|].
  rewrite <- Ekvs in *. clear Ekvs kv0 rest0.
  rewrite existsb_empty_key by exact Hkeys.
  cbn [BeginTransaction_null Commit_fails no_faults].
  destruct (put_if_absent_loop_non_atomic (length kvs) kvs
              (mkPutIfAbsentLoop 0
                 (VectorReader.resize (length kvs) false key_states) store))
    as (s' & -> & Hl & Ht & _ & Hw).
  { simpl. rewrite resize_length. lia. }
  simpl in Hl, Ht, Hw. rewrite resize_length in Hl.
  exists (states s'), (txn s'). split; [reflexivity|].
  split; [exact Ht|]. split; [exact Hl|].
  intros i kv Hi. rewrite (Hw i kv Hi).
  destruct (written store kvs i kv); [reflexivity|]. simpl.
  apply resize_lookup. apply lookup_lt_Some in Hi. exact Hi.
Qed.

Lemma KvBatchPutIfAbsent_non_atomic_witness :
  exists (key_states' : list bool) (store' : DB),
    KvBatchPutIfAbsent no_faults example_store
      [mkKeyValue "k" "new"; mkKeyValue "j" "1"] [] false
    = (StatusOK, key_states', store')
    /\ (forall k,
           store' !! k
           = match example_store !! k with
             | Some v => Some v
             | None =>
                 first_value k [mkKeyValue "k" "new"; mkKeyValue "j" "1"]
             end)
    /\ length key_states'
       = length [mkKeyValue "k" "new"; mkKeyValue "j" "1"]
    /\ (forall i kv,
           [mkKeyValue "k" "new"; mkKeyValue "j" "1"] !! i = Some kv ->
           key_states' !! i
           = Some (written example_store
                     [mkKeyValue "k" "new"; mkKeyValue "j" "1"] i kv
                   || default false (([] : list bool) !! i))).
Proof.
  apply (KvBatchPutIfAbsent_non_atomic example_store
           [mkKeyValue "k" "new"; mkKeyValue "j" "1"] []).
  - discriminate.
  - repeat constructor; discriminate.
Defined.

Lemma fresh_keys_cons (store : DB) (kv : KeyValue) (rest : list KeyValue) :
  fresh_keys store (kv :: rest)
  <-> store !! key kv = None
      /\ fresh_keys (<[key kv := value kv]> store) rest.
Proof.
  unfold fresh_keys. simpl. split.
  - intros [Hnd Hall]. inversion Hnd as [|? ? Hnin Hnd']; subst.
    inversion Hall as [|? ? Hkv Hall']; subst.
    split; [exact Hkv|]. split; [exact Hnd'|].
    apply Forall_forall. intros kv' Hin.
    rewrite Forall_forall in Hall'.
    rewrite lookup_insert_ne; [apply Hall', Hin|].
    intros Heq. apply Hnin. rewrite Heq.
    apply in_map, list_elem_of_In, Hin.
  - intros (Hkv & Hnd & Hall). split.
    + constructor; [|exact Hnd]. intros Hin.
      apply in_map_iff in Hin as (kv' & Heq & Hin).
      rewrite Forall_forall in Hall.
      apply list_elem_of_In, Hall in Hin.
      rewrite Heq, lookup_insert_eq in Hin. discriminate.
    + constructor; [exact Hkv|].
      eapply Forall_impl; [exact Hall|]. intros kv' H'. simpl in H'.
      destruct (String.eqb (key kv) (key kv')) eqn:E.
      * apply String.eqb_eq in E. rewrite <- E, lookup_insert_eq in H'.
        discriminate.
      * apply String.eqb_neq in E.
        rewrite lookup_insert_ne in H' by exact E. exact H'.
Qed.

Lemma put_if_absent_loop_atomic (n : nat) :
  forall (kvs : list KeyValue) (s : PutIfAbsentLoop),
    (index s + length kvs <= length (states s))%nat ->
    match put_if_absent_loop no_faults true n kvs s with
    | inr s' =>
        fresh_keys (txn s) kvs
        /\ length (states s') = length (states s)
        /\ (forall k,
               txn s' !! k
               = match first_value k kvs with
                 | Some v => Some v
                 | None => txn s !! k
                 end)
        /\ (forall j, (j < index s)%nat -> states s' !! j = states s !! j)
        /\ (forall j, (j < length kvs)%nat ->
                      states s' !! (index s + j)%nat = Some true)
    | inl (st, ks) =>
        st = mkStatus EINTERNAL /\ ~ fresh_keys (txn s) kvs /\ length ks = n
    end.
Proof.
  induction kvs as [|kv rest IH]; intros s Hlen.
  - simpl. split; [split; constructor|]. split; [reflexivity|].
    split; [reflexivity|]. split; [reflexivity|]. intros j Hj. simpl in Hj. lia.
  - simpl in Hlen. cbn [put_if_absent_loop]. unfold GetForUpdate.
    cbn [GetForUpdate_fails Put_fails no_faults].
    destruct (txn s !! key kv) as [old|] eqn:El; cbn [negb].
    + split; [reflexivity|]. split; [|apply resize_length].
      rewrite fresh_keys_cons. intros [H _]. congruence.
    + specialize (IH (mkPutIfAbsentLoop (Datatypes.S (index s))
                        (<[index s := true]> (states s))
                        (<[key kv := value kv]> (txn s)))).
      simpl in IH. rewrite length_insert in IH.
      specialize (IH ltac:(lia)).
      destruct (put_if_absent_loop no_faults true n rest _) as [[st ks]|s'].
      * destruct IH as (-> & Hnf & Hks). split; [reflexivity|].
        split; [|exact Hks]. rewrite fresh_keys_cons. tauto.
      * destruct IH as (Hf & Hl & Ht & Hb & Hw).
        split; [apply fresh_keys_cons; auto|]. split; [exact Hl|].
        split; [|split].
        -- intros k. rewrite Ht. simpl.
           destruct (String.eqb (key kv) k) eqn:E.
           ++ apply String.eqb_eq in E. subst k.
              destruct Hf as [_ Hall].
              assert (first_value (key kv) rest = None) as ->.
              { clear -Hall. induction Hall as [|kv' rest Hk _ IH];
                  simpl; [reflexivity|].
                destruct (String.eqb (key kv') (key kv)) eqn:E; [|exact IH].
                apply String.eqb_eq in E.
                rewrite E, lookup_insert_eq in Hk. discriminate. }
              apply lookup_insert_eq.
           ++ apply String.eqb_neq in E.
              rewrite lookup_insert_ne by exact E. reflexivity.
        -- intros j Hj. rewrite Hb by lia. apply list_lookup_insert_ne. lia.
        -- intros j Hj. destruct j as [|j].
           ++ rewrite Nat.add_0_r, Hb by lia.
              apply list_lookup_insert_eq. lia.
           ++ rewrite Nat.add_succ_r. apply Hw. simpl in Hj. lia.
Qed.

(** X9.  Without a failure of RocksDB, the atomic [KvBatchPutIfAbsent] of
    a batch that is not empty and has no empty key writes all of the batch
    or nothing: when no key of the batch is in the store and no two entries
    share a key, it returns the OK status, every key of the batch holds the
    value of its entry, every other key reads as before and every entry of
    [key_states] is set; otherwise it returns [EINTERNAL] and leaves the
    store as it was.  In both cases [key_states] has one entry per entry of
    the batch. *)
Theorem KvBatchPutIfAbsent_atomic :
  forall (store : DB) (kvs : list KeyValue) (key_states : list bool),
    kvs <> [] ->
    Forall (fun kv => key kv <> EmptyString) kvs ->
    let '(status, key_states', store') :=
      KvBatchPutIfAbsent no_faults store kvs key_states true in
    length key_states' = length kvs
    /\ (fresh_keys store kvs ->
        status = StatusOK
        /\ Forall (fun key_state => key_state = true) key_states'
        /\ forall k,
             store' !! k
             = match first_value k kvs with
               | Some v => Some v
               | None => store !! k
               end)
    /\ (~ fresh_keys store kvs ->
        status = mkStatus EINTERNAL /\ store' = store).
Proof.
  intros store kvs key_states Hne Hkeys. unfold KvBatchPutIfAbsent.
  destruct kvs as [|kv0 rest0] eqn:Ekvs; [contradiction|].
  rewrite <- Ekvs in *. clear Ekvs kv0 rest0.
  rewrite existsb_empty_key by exact Hkeys.
  cbn [BeginTransaction_null Commit_fails no_faults].
  pose proof (put_if_absent_loop_atomic (length kvs) kvs
                (mkPutIfAbsentLoop 0
                   (VectorReader.resize (length kvs) false key_states) store))
    as Hloop.
  simpl in Hloop. rewrite resize_length in Hloop.
  specialize (Hloop ltac:(lia)).
  destruct (put_if_absent_loop no_faults true (length kvs) kvs _)
    as [[st ks]|s'].
  - destruct Hloop as (-> & Hnf & Hks). split; [exact Hks|].
    split; [intros H; contradiction|]. intros _. split; reflexivity.
  - destruct Hloop as (Hf & Hl & Ht & _ & Hw). split; [exact Hl|].
    split; [|intros H; contradiction]. intros _. split; [reflexivity|].
    split; [|exact Ht].
    apply Forall_forall. intros b Hb.
    apply list_elem_of_lookup in Hb as [j Hj].
    pose proof (lookup_lt_Some _ _ _ Hj) as Hlt. rewrite Hl in Hlt.
    rewrite (Hw j Hlt) in Hj. congruence.
Qed.

Lemma KvBatchPutIfAbsent_atomic_witness :
  let '(status, key_states', store') :=
    KvBatchPutIfAbsent no_faults example_store
      [mkKeyValue "j" "1"; mkKeyValue "k" "new"] [] true in
  length key_states' = length [mkKeyValue "j" "1"; mkKeyValue "k" "new"]
  /\ (fresh_keys example_store [mkKeyValue "j" "1"; mkKeyValue "k" "new"] ->
      status = StatusOK
      /\ Forall (fun key_state => key_state = true) key_states'
      /\ forall k,
           store' !! k
           = match first_value k [mkKeyValue "j" "1"; mkKeyValue "k" "new"]
             with
             | Some v => Some v
             | None => example_store !! k
             end)
  /\ (~ fresh_keys example_store [mkKeyValue "j" "1"; mkKeyValue "k" "new"] ->
      status = mkStatus EINTERNAL /\ store' = example_store).
Proof.
  apply (KvBatchPutIfAbsent_atomic example_store
           [mkKeyValue "j" "1"; mkKeyValue "k" "new"] []).
  - discriminate.
  - repeat constructor; discriminate.
Defined.

End RocksBatchFacts.

(** ** The counters of the timestamp provider *)

Module TsProviderCountsFacts.

Import TsProvider TsProviderCounts.

Lemma keeps_refl (w : World) : keeps w w.
Proof. split; [auto|split; reflexivity]. Qed.

(** A step that leaves the batch list and the two counters alone. *)
Ltac same_list := split; [unfold counts_ok; simpl; auto|split; reflexivity].

Lemma keeps_trans (w w' w'' : World) :
  keeps w w' -> keeps w' w'' -> keeps w w''.
Proof.
  intros (H1 & H2 & H3) (H1' & H2' & H3').
  split; [auto|]. split; congruence.
Qed.

Lemma count_nodes {A : Type} (l : list A) :
  fold_left (fun count _ => to_uint32 (count + 1)) l 0
  = to_uint32 (Z.of_nat (length l)).
Proof.
  assert (forall (k : list A) (c : Z),
             fold_left (fun count _ => to_uint32 (count + 1)) k (to_uint32 c)
             = to_uint32 (c + Z.of_nat (length k))) as H.
  { induction k as [|x k IH]; intros c; simpl fold_left.
    - simpl. rewrite Z.add_0_r. reflexivity.
    - assert (to_uint32 (to_uint32 c + 1) = to_uint32 (c + 1)) as ->.
      { unfold to_uint32. apply Zplus_mod_idemp_l. }
      rewrite IH. f_equal. simpl length. lia. }
  change 0 with (to_uint32 0) at 1. rewrite H. reflexivity.
Qed.

Section Provider.

Variable flags : Flags.
Variable clock : nat -> Z.
Variable worker_executes : nat -> bool.
Variable IsValid : Z -> bool.

Lemma Push_keeps (b : BatchTs) (w : World) : keeps w (snd (Push b w)).
Proof.
  unfold keeps, counts_ok, Push, bind, get_list, put_list. simpl.
  split; [|split; destruct (push_loop _ _ _ _); reflexivity].
  intros (Ht & Hd & Ha & Hdc).
  rewrite TsProviderFacts.push_loop_appends by lia. simpl.
  rewrite length_app. simpl. repeat split; lia.
Qed.

Lemma PushDead_keeps (b : BatchTs) (w : World) :
  keeps w (snd (PushDead clock b w)).
Proof.
  unfold keeps, counts_ok, PushDead, bind, TimestampMs, get_list, put_list.
  simpl.
  split; [|split; destruct (push_loop _ _ _ _); reflexivity].
  intros (Ht & Hd & Ha & Hdc).
  rewrite TsProviderFacts.push_loop_appends by lia. simpl.
  rewrite length_app. simpl. repeat split; lia.
Qed.

Lemma CleanDead_turn_keeps (w : World) :
  keeps w (snd (CleanDead_turn flags clock w)).
Proof.
  unfold keeps, counts_ok, CleanDead_turn, bind, TimestampMs, get_list,
    put_list, ret.
  simpl.
  destruct (dead_nodes (batch_ts_list_ w)) as [|head rest] eqn:En; simpl;
    [rewrite En; auto|].
  destruct (dead_time_ head >=? _); simpl; [rewrite En; auto|].
  destruct rest as [|next rest']; simpl; [rewrite En; auto|].
  destruct (dead_tail_pos (batch_ts_list_ w)) as [|tail'] eqn:Et; simpl.
  - rewrite En. simpl. split; [|auto]. intros (H1 & H2 & H3 & H4).
    repeat split; auto; lia.
  - split; [|auto]. intros (H1 & H2 & H3 & H4). simpl in *.
    repeat split; auto; lia.
Qed.

Lemma CleanDead_loop_keeps (fuel : nat) :
  forall w, keeps w (snd (CleanDead_loop flags clock fuel w)).
Proof.
  induction fuel as [|fuel IH]; intros w; simpl; [apply keeps_refl|].
  unfold bind.
  pose proof (CleanDead_turn_keeps w) as H.
  destruct (CleanDead_turn flags clock w) as [[|] w1]; simpl in *;
    [exact H|].
  eapply keeps_trans; [exact H|apply IH].
Qed.

Lemma CleanDead_keeps (w : World) : keeps w (snd (CleanDead flags clock w)).
Proof. unfold CleanDead, bind, get_list. apply CleanDead_loop_keeps. Qed.

Lemma RenewBatchTs_loop_keeps (retries : nat) :
  forall w, keeps w (snd (RenewBatchTs_loop flags clock retries w)).
Proof.
  induction retries as [|retries IH]; intros w; simpl; [apply keeps_refl|].
  unfold bind, SendTsoRequest.
  destruct (tso_responses w) as [|[r|] later] eqn:Et.
  - apply IH.
  - unfold BatchTs_New, bind, TimestampMs, ret. simpl.
    match goal with
    | |- context [Push ?b ?w0] =>
        pose proof (Push_keeps b w0) as Hp; destruct (Push b w0) as [u w1]
    end.
    unfold add_renew_epoch. simpl.
    match goal with
    | |- context [CleanDead flags clock ?w0] =>
        pose proof (CleanDead_keeps w0) as Hc;
        destruct (CleanDead flags clock w0) as [u' w2]
    end.
    simpl in *. eapply keeps_trans; [|exact Hc].
    eapply keeps_trans; [|eapply keeps_trans; [exact Hp|same_list]].
    same_list.
  - eapply keeps_trans; [|apply IH]. same_list.
Qed.

Lemma LaunchRenewBatchTs_keeps (is_sync : bool) (w : World) :
  keeps w (snd (LaunchRenewBatchTs flags clock worker_executes is_sync w)).
Proof.
  unfold LaunchRenewBatchTs.
  destruct (worker_executes (launches w)); [|same_list].
  eapply keeps_trans; [|apply RenewBatchTs_loop_keeps].
  same_list.
Qed.

Lemma GetTs_turn_keeps (after_ts : Z) (w : World) :
  keeps w (snd (GetTs_turn flags clock IsValid after_ts w)).
Proof.
  unfold GetTs_turn, bind, get_list. cbv beta iota zeta.
  destruct (nodes (batch_ts_list_ w)) as [|head rest] eqn:En.
  { apply keeps_refl. }
  destruct (IsStale flags clock head w) as [stale w1] eqn:Es.
  apply TsProviderFacts.IsStale_world in Es. subst w1.
  assert (forall (head1 : BatchTs) (w0 : World),
             batch_ts_list_ w0
             = mkBatchTsList (head1 :: rest) (tail_pos (batch_ts_list_ w))
                 (dead_nodes (batch_ts_list_ w))
                 (dead_tail_pos (batch_ts_list_ w))
                 (last_physical_ (batch_ts_list_ w))
                 (active_count_ (batch_ts_list_ w))
                 (dead_count_ (batch_ts_list_ w)) ->
             get_ts_count_ w0 = get_ts_count_ w ->
             get_ts_fail_count_ w0 = get_ts_fail_count_ w ->
             keeps w w0) as Hsame.
  { intros head1 w0 Hl Hc Hf. split; [|auto].
    unfold counts_ok. rewrite Hl, En. simpl. auto. }
  destruct stale.
  - unfold put_list, ret. simpl.
    destruct rest as [|head_next rest']; simpl.
    + eapply Hsame; simpl; eauto.
    + destruct (tail_pos (batch_ts_list_ w)) as [|tail'] eqn:Et; simpl.
      * cbn [snd]. split; [|auto]. unfold counts_ok. rewrite En, Et.
        simpl. intros (H1 & H2 & H3 & H4). repeat split; auto; lia.
      * match goal with
        | |- context [PushDead clock ?b ?w0] =>
            pose proof (PushDead_keeps b w0) as Hp;
            destruct (PushDead clock b w0) as [u w2]
        end.
        simpl in *. eapply keeps_trans; [|exact Hp].
        split; [|auto]. unfold counts_ok. rewrite En, Et. simpl.
        intros (H1 & H2 & H3 & H4). repeat split; auto; lia.
  - unfold BatchTs_GetTs at 1. cbv beta iota zeta.
    set (ts := if start_ts_ head <? end_ts_ head then start_ts_ head else 0).
    unfold put_list, ret. simpl.
    destruct ((ts >? after_ts) && (ts >? 0) && IsValid ts).
    + eapply Hsame; simpl; eauto.
    + destruct rest as [|head_next rest']; simpl.
      * eapply Hsame; simpl; eauto.
      * destruct (tail_pos (batch_ts_list_ w)) as [|tail'] eqn:Et; simpl.
        -- split; [|auto]. unfold counts_ok. rewrite En, Et.
           simpl. intros (H1 & H2 & H3 & H4). repeat split; auto; lia.
        -- match goal with
           | |- context [PushDead clock ?b ?w0] =>
               pose proof (PushDead_keeps b w0) as Hp;
               destruct (PushDead clock b w0) as [u w2]
           end.
           simpl in *. eapply keeps_trans; [|exact Hp].
           split; [|auto]. unfold counts_ok. rewrite En, Et. simpl.
           intros (H1 & H2 & H3 & H4). repeat split; auto; lia.
Qed.

Lemma GetTs_loop_keeps (after_ts : Z) (fuel : nat) :
  forall w, keeps w (snd (GetTs_loop flags clock IsValid fuel after_ts w)).
Proof.
  induction fuel as [|fuel IH]; intros w; simpl; [apply keeps_refl|].
  unfold bind.
  pose proof (GetTs_turn_keeps after_ts w) as H.
  destruct (GetTs_turn flags clock IsValid after_ts w) as [[ts|] w1];
    simpl in *; [exact H|].
  eapply keeps_trans; [exact H|apply IH].
Qed.

Lemma BatchTsList_GetTs_keeps (after_ts : Z) (w : World) :
  keeps w (snd (BatchTsList_GetTs flags clock IsValid after_ts w)).
Proof. unfold BatchTsList_GetTs, bind, get_list. apply GetTs_loop_keeps. Qed.

Lemma GetTs_retry_counts (after_ts : Z) (retries : nat) :
  forall w,
    let '(ts, w') :=
      GetTs_retry flags clock worker_executes IsValid retries after_ts w in
    (counts_ok w -> counts_ok w')
    /\ ((ts > 0
         /\ get_ts_count_ w' = get_ts_count_ w + 1
         /\ get_ts_fail_count_ w' = get_ts_fail_count_ w)
        \/ (ts = 0
            /\ get_ts_count_ w' = get_ts_count_ w
            /\ get_ts_fail_count_ w' = get_ts_fail_count_ w + 1)).
Proof.
  induction retries as [|retries IH]; intros w; simpl.
  - split; [auto|]. right. auto.
  - unfold bind.
    pose proof (BatchTsList_GetTs_keeps after_ts w) as (H1 & H2 & H3).
    destruct (BatchTsList_GetTs flags clock IsValid after_ts w) as [ts w1].
    simpl in H1, H2, H3.
    destruct (ts >? 0) eqn:E.
    + apply Z.gtb_lt in E. simpl. split; [exact H1|]. left.
      split; [lia|]. split; congruence.
    + pose proof (LaunchRenewBatchTs_keeps true w1) as (L1 & L2 & L3).
      destruct (LaunchRenewBatchTs flags clock worker_executes true w1)
        as [u w2].
      simpl in L1, L2, L3. specialize (IH w2).
      destruct (GetTs_retry flags clock worker_executes IsValid retries
                  after_ts w2) as [ts' w'].
      destruct IH as [I1 I2]. split; [auto|].
      rewrite <- H2, <- H3, <- L2, <- L3. exact I2.
Qed.

End Provider.

(** X10.  The counters of the batch list stay in step with its queues:
    when [active_count_] and [dead_count_] count the nodes behind the first
    node of their queue and each tail pointer is on a node of its queue, as
    the constructor leaves them, this is so again after [TsProvider::GetTs]
    and after [TsProvider::RenewBatchTs], with every [Push], [PushDead]
    and [CleanDead] they run; [ActualCount] and [ActualDeadCount] then
    return the counters plus one (as [uint32_t]). *)
Theorem TsProvider_counters_in_step :
  forall (flags : Flags) (clock : nat -> Z) (worker_executes : nat -> bool)
         (IsValid : Z -> bool) (after_ts : Z) (w : World),
    counts_ok w ->
    let w1 := snd (GetTs flags clock worker_executes IsValid after_ts w) in
    let w2 := snd (RenewBatchTs flags clock w) in
    (counts_ok w1
     /\ ActualCount (batch_ts_list_ w1)
        = to_uint32 (active_count_ (batch_ts_list_ w1) + 1)
     /\ ActualDeadCount (batch_ts_list_ w1)
        = to_uint32 (dead_count_ (batch_ts_list_ w1) + 1))
    /\ (counts_ok w2
        /\ ActualCount (batch_ts_list_ w2)
           = to_uint32 (active_count_ (batch_ts_list_ w2) + 1)
        /\ ActualDeadCount (batch_ts_list_ w2)
           = to_uint32 (dead_count_ (batch_ts_list_ w2) + 1)).
Proof.
  intros flags clock worker_executes IsValid after_ts w Hok w1 w2.
  assert (forall w', counts_ok w' ->
                     counts_ok w'
                     /\ ActualCount (batch_ts_list_ w')
                        = to_uint32 (active_count_ (batch_ts_list_ w') + 1)
                     /\ ActualDeadCount (batch_ts_list_ w')
                        = to_uint32 (dead_count_ (batch_ts_list_ w') + 1))
    as Hactual.
  { intros w' Hw. split; [exact Hw|]. destruct Hw as (_ & _ & Ha & Hd).
    unfold ActualCount, ActualDeadCount. rewrite !count_nodes, Ha, Hd.
    split; reflexivity. }
  split; apply Hactual.
  - subst w1. unfold GetTs.
    pose proof (GetTs_retry_counts flags clock worker_executes IsValid
                  after_ts (max_retry flags) w) as H.
    destruct (GetTs_retry flags clock worker_executes IsValid
                (max_retry flags) after_ts w) as [ts w'].
    simpl. apply H, Hok.
  - subst w2. unfold RenewBatchTs.
    apply (RenewBatchTs_loop_keeps flags clock), Hok.
Qed.

Lemma TsProvider_counters_in_step_witness :
  let w1 :=
    snd (GetTs default_flags (fun n => Z.of_nat n) (fun _ => true)
           (fun _ => true) 0 example_counts_world) in
  counts_ok w1
  /\ ActualCount (batch_ts_list_ w1)
     = to_uint32 (active_count_ (batch_ts_list_ w1) + 1)
  /\ ActualDeadCount (batch_ts_list_ w1)
     = to_uint32 (dead_count_ (batch_ts_list_ w1) + 1).
Proof.
  exact (proj1 (TsProvider_counters_in_step default_flags
                  (fun n => Z.of_nat n) (fun _ => true) (fun _ => true) 0
                  example_counts_world
                  ltac:(unfold counts_ok; simpl; lia))).
Defined.

(** X11.  Every call of [TsProvider::GetTs] counts once: it returns a
    positive timestamp and adds one to [get_ts_count_] only, or it returns
    0 and adds one to [get_ts_fail_count_] only; it never returns a
    negative value. *)
Theorem TsProvider_GetTs_counts_once :
  forall (flags : Flags) (clock : nat -> Z) (worker_executes : nat -> bool)
         (IsValid : Z -> bool) (after_ts : Z) (w : World),
    let '(ts, w') := GetTs flags clock worker_executes IsValid after_ts w in
    (ts > 0
     /\ get_ts_count_ w' = get_ts_count_ w + 1
     /\ get_ts_fail_count_ w' = get_ts_fail_count_ w)
    \/ (ts = 0
        /\ get_ts_count_ w' = get_ts_count_ w
        /\ get_ts_fail_count_ w' = get_ts_fail_count_ w + 1).
Proof.
  intros flags clock worker_executes IsValid after_ts w. unfold GetTs.
  pose proof (GetTs_retry_counts flags clock worker_executes IsValid
                after_ts (max_retry flags) w) as H.
  destruct (GetTs_retry flags clock worker_executes IsValid
              (max_retry flags) after_ts w) as [ts w'].
  apply H.
Qed.

End TsProviderCountsFacts.

(** ** Cleaning the dead queue *)

Module CleanDeadFacts.

Import TsProvider TsProviderCounts.

Section Provider.

Variable flags : Flags.
Variable clock : nat -> Z.

Lemma frees_refl (w : World) : frees flags clock w w.
Proof.
  split; [lia|]. split; [auto|]. exists []. split; [reflexivity|constructor].
Qed.

Lemma expired_between_wider (t0 t1 t0' t1' : nat) (b : BatchTs) :
  (t0' <= t0)%nat -> (t1 <= t1')%nat ->
  expired_between flags clock t0 t1 b -> expired_between flags clock t0' t1' b.
Proof.
  intros H0 H1 (t & Ht & Hd). exists t. split; [lia|exact Hd].
Qed.

Lemma frees_trans (w w' w'' : World) :
  frees flags clock w w' -> frees flags clock w' w'' ->
  frees flags clock w w''.
Proof.
  intros (Ht & Hne & f1 & Hf1 & He1) (Ht' & Hne' & f2 & Hf2 & He2).
  split; [lia|]. split; [auto|].
  exists (f1 ++ f2). split.
  - rewrite Hf1, Hf2, app_assoc. reflexivity.
  - apply Forall_app. split.
    + eapply Forall_impl; [exact He1|].
      intros b. apply expired_between_wider; lia.
    + eapply Forall_impl; [exact He2|].
      intros b. apply expired_between_wider; lia.
Qed.

Lemma CleanDead_turn_frees (w : World) :
  frees flags clock w (snd (CleanDead_turn flags clock w)).
Proof.
  unfold CleanDead_turn, bind, TimestampMs, get_list, put_list, ret.
  simpl.
  assert (forall w0 : World,
             dead_nodes (batch_ts_list_ w0) = dead_nodes (batch_ts_list_ w) ->
             (ticks w <= ticks w0)%nat ->
             frees flags clock w w0) as Hsame.
  { intros w0 Hd Ht. split; [exact Ht|]. split; [rewrite Hd; auto|].
    exists []. split; [rewrite Hd; reflexivity|constructor]. }
  destruct (dead_nodes (batch_ts_list_ w)) as [|head rest] eqn:En; simpl.
  { apply Hsame; [exact En|simpl; lia]. }
  destruct (dead_time_ head >=? _) eqn:Eg; simpl.
  { apply Hsame; [exact En|simpl; lia]. }
  destruct rest as [|next rest']; simpl.
  { apply Hsame; [exact En|simpl; lia]. }
  destruct (dead_tail_pos (batch_ts_list_ w)) as [|tail'] eqn:Et; simpl.
  - apply Hsame; [exact En|simpl; lia].
  - split; [simpl; lia|]. split; [simpl; discriminate|].
    exists [head]. simpl. rewrite En. split; [reflexivity|].
    constructor; [|constructor].
    exists (ticks w). split; [lia|].
    rewrite Z.geb_leb in Eg. apply Z.leb_gt in Eg. exact Eg.
Qed.

Lemma CleanDead_loop_frees (fuel : nat) :
  forall w, frees flags clock w (snd (CleanDead_loop flags clock fuel w)).
Proof.
  induction fuel as [|fuel IH]; intros w; simpl; [apply frees_refl|].
  unfold bind.
  pose proof (CleanDead_turn_frees w) as H.
  destruct (CleanDead_turn flags clock w) as [[|] w1]; simpl in *;
    [exact H|].
  eapply frees_trans; [exact H|apply IH].
Qed.

End Provider.

(** X13.  [BatchTsList::CleanDead] frees only what has expired: the nodes
    it removes are at the front of the dead queue, each had been dead for
    more than [FLAGS_ts_provider_clean_dead_interval_ms] at a clock reading
    the call took, and the last node of the dead queue is never removed;
    the queue of live batches, the answers of the coordinator still to
    come and the number of renewals are not touched. *)
Theorem CleanDead_frees_only_expired :
  forall (flags : Flags) (clock : nat -> Z) (w : World),
    let w' := snd (CleanDead flags clock w) in
    frees flags clock w w' /\ untouched w w'.
Proof.
  intros flags clock w w'. subst w'. split.
  - unfold CleanDead, bind, get_list. apply CleanDead_loop_frees.
  - apply TsProviderFacts.CleanDead_untouched.
Qed.

End CleanDeadFacts.

(** ** The timestamps of a batch *)

Module BatchTsFacts.

Import TsProvider.

Lemma ComposeTs_mul (physical logical : Z) :
  ComposeTs physical logical = physical * 2 ^ 18 + logical.
Proof. unfold ComposeTs. rewrite Z.shiftl_mul_pow2 by lia. reflexivity. Qed.



End BatchTsFacts.

(** ** The merged iterator serves every entry once *)

Module MergedIteratorContentsFacts.

Import KeyOrder MergedIteratorContents.

Lemma heap_push_Permutation (e : MergedIterator.Entry)
    (h : list MergedIterator.Entry) :
  Permutation (MergedIterator.heap_push e h) (e :: h).
Proof.
  induction h as [|x h IH]; simpl; [reflexivity|].
  destruct (key_lt _ _); [reflexivity|].
  rewrite IH. apply perm_swap.
Qed.

Lemma heap_push_Exists (P : MergedIterator.Entry -> Prop)
    (e : MergedIterator.Entry) (h : list MergedIterator.Entry) :
  Exists P (MergedIterator.heap_push e h) <-> P e \/ Exists P h.
Proof.
  induction h as [|x h IH]; simpl.
  - rewrite Exists_cons. reflexivity.
  - destruct (key_lt _ _).
    + rewrite Exists_cons. reflexivity.
    + rewrite !Exists_cons, IH. tauto.
Qed.

(** Moving one iterator on takes the entry under it out of what the
    iterators serve. *)
Lemma concat_insert_head {A B : Type} (f : A -> list B) (its : list A)
    (i : nat) (it it' : A) (x : B) :
  its !! i = Some it -> f it = x :: f it' ->
  Permutation (concat (map f its)) (x :: concat (map f (<[i := it']> its))).
Proof.
  revert i. induction its as [|y its IH]; intros [|i] H Hf; simpl in *;
    try discriminate.
  - injection H as ->. rewrite Hf. reflexivity.
  - rewrite (IH i H Hf). rewrite Permutation_middle. reflexivity.
Qed.

Lemma concat_insert_same {A B : Type} (f : A -> list B) (its : list A)
    (i : nat) (it it' : A) :
  its !! i = Some it -> f it' = f it ->
  concat (map f (<[i := it']> its)) = concat (map f its).
Proof.
  revert i. induction its as [|y its IH]; intros [|i] H Hf; simpl in *;
    try discriminate.
  - injection H as ->. rewrite Hf. reflexivity.
  - rewrite (IH i H Hf). reflexivity.
Qed.

(** The step of an iterator: either it serves nothing, or its entry goes
    to the heap and it moves on. *)
Lemma still_serves_step (it : Iterator.t) :
  if Iterator.Valid it then
    still_serves it
    = (Iterator.Key it,
       to_uint32 (size_of (Iterator.Key it) + size_of (Iterator.Value it)))
      :: still_serves (Iterator.Next it)
  else still_serves it = [].
Proof.
  unfold Iterator.Valid, still_serves, Iterator.Key, Iterator.Value,
    Iterator.Next.
  destruct it as [upper snap pos]. simpl.
  destruct pos as [|kv rest]; simpl; [reflexivity|].
  destruct (key_lt (Iterator.kv_key kv) upper); reflexivity.
Qed.

Lemma NextIter_pending (i : nat) (m : MergedIterator.t) :
  Permutation (pending (MergedIterator.NextIter i m)) (pending m).
Proof.
  unfold MergedIterator.NextIter, pending.
  destruct (MergedIterator.iters_ m !! i) as [it|] eqn:E; [|reflexivity].
  pose proof (still_serves_step it) as Hs.
  destruct (Iterator.Valid it); [|reflexivity].
  simpl.
  rewrite (concat_insert_head still_serves _ i it (Iterator.Next it) _ E Hs).
  rewrite (Permutation_map heap_entry (heap_push_Permutation _ _)). simpl.
  unfold heap_entry at 1. simpl.
  rewrite <- Permutation_middle. reflexivity.
Qed.

Lemma not_Valid_serves_nothing (it : Iterator.t) :
  Iterator.Valid it = false -> still_serves it = [].
Proof.
  intros H. pose proof (still_serves_step it) as Hs. rewrite H in Hs.
  exact Hs.
Qed.

Lemma NextIter_fed (i : nat) (m : MergedIterator.t) :
  (forall j it,
      j <> i -> MergedIterator.iters_ m !! j = Some it ->
      still_serves it <> [] ->
      Exists (fun e => MergedIterator.iter_pos e = j)
             (MergedIterator.min_heap_ m)) ->
  fed (MergedIterator.NextIter i m).
Proof.
  intros Hothers. unfold fed, MergedIterator.NextIter.
  destruct (MergedIterator.iters_ m !! i) as [it|] eqn:E.
  - destruct (Iterator.Valid it) eqn:Ev; simpl.
    + intros j it' Hj Hne. apply heap_push_Exists.
      destruct (Nat.eq_dec j i) as [->|Hji]; [left; reflexivity|].
      right. rewrite list_lookup_insert_ne in Hj by congruence.
      eapply Hothers; eauto.
    + intros j it' Hj Hne.
      destruct (Nat.eq_dec j i) as [->|Hji]; [|eapply Hothers; eauto].
      rewrite E in Hj. injection Hj as <-.
      rewrite (not_Valid_serves_nothing it Ev) in Hne. contradiction.
  - intros j it' Hj Hne.
    destruct (Nat.eq_dec j i) as [->|Hji]; [congruence|].
    eapply Hothers; eauto.
Qed.

Lemma Next_pending (m : MergedIterator.t) :
  MergedIterator.Valid m = true ->
  Permutation (pending m)
    ((MergedIterator.Key m, MergedIterator.KeyValueSize m)
     :: pending (MergedIterator.Next m)).
Proof.
  unfold MergedIterator.Valid, MergedIterator.Next, MergedIterator.Key,
    MergedIterator.KeyValueSize.
  destruct m as [its heap]. simpl.
  destruct heap as [|e rest]; [discriminate|]. intros _.
  rewrite NextIter_pending. reflexivity.
Qed.

Lemma Next_fed (m : MergedIterator.t) :
  fed m -> fed (MergedIterator.Next m).
Proof.
  unfold MergedIterator.Next. destruct m as [its heap]. simpl.
  destruct heap as [|e rest]; [auto|]. intros Hfed.
  apply NextIter_fed; simpl.
  intros j it Hne Hj Hs.
  specialize (Hfed j it Hj Hs). simpl in Hfed.
  inversion Hfed as [? ? He|? ? He]; subst; [congruence|exact He].
Qed.

Lemma empty_heap_pending (m : MergedIterator.t) :
  MergedIterator.min_heap_ m = [] -> fed m -> pending m = [].
Proof.
  unfold fed, pending. intros Hh Hfed. rewrite Hh in *. simpl.
  assert (forall i it, MergedIterator.iters_ m !! i = Some it ->
                       still_serves it = []) as Hnone.
  { intros i it Hi. destruct (still_serves it) eqn:Es; [reflexivity|].
    assert (still_serves it <> []) as Hne by congruence.
    specialize (Hfed i it Hi Hne). inversion Hfed. }
  clear Hfed Hh. revert Hnone.
  generalize (MergedIterator.iters_ m). intros its.
  induction its as [|it its IH]; intros H; simpl; [reflexivity|].
  rewrite (H 0%nat it eq_refl). simpl. apply IH.
  intros i it' Hi. apply (H (Datatypes.S i) it' Hi).
Qed.

Lemma walk_pending :
  forall (fuel : nat) (m : MergedIterator.t),
    (MergedIterator.remaining m <= fuel)%nat -> fed m ->
    Permutation (MergedIterator.walk fuel m) (pending m).
Proof.
  induction fuel as [|fuel IH]; intros m Hr Hfed; simpl.
  - rewrite empty_heap_pending; [reflexivity| |exact Hfed].
    unfold MergedIterator.remaining in Hr.
    destruct (MergedIterator.min_heap_ m); [reflexivity|simpl in Hr; lia].
  - destruct (MergedIterator.Valid m) eqn:Ev.
    + rewrite (Next_pending m Ev). constructor. apply IH.
      * pose proof (MergedIteratorFacts.Next_remaining m Ev). lia.
      * apply Next_fed, Hfed.
    + rewrite empty_heap_pending; [reflexivity| |exact Hfed].
      unfold MergedIterator.Valid in Ev.
      destruct (MergedIterator.min_heap_ m); [reflexivity|discriminate].
Qed.

(** Positioning one iterator that served nothing adds the entries from the
    target to its upper bound. *)
Lemma concat_insert_fresh {A B : Type} (f : A -> list B) (its : list A)
    (i : nat) (it it' : A) :
  its !! i = Some it -> f it = [] ->
  Permutation (concat (map f (<[i := it']> its)))
    (f it' ++ concat (map f its)).
Proof.
  revert i. induction its as [|y its IH]; intros [|i] H Hf; simpl in *;
    try discriminate.
  - injection H as ->. rewrite Hf. reflexivity.
  - rewrite (IH i H Hf). rewrite !app_assoc.
    apply Permutation_app_tail, Permutation_app_comm.
Qed.

Lemma seek_one_pending (target : string) (m : MergedIterator.t) (i : nat)
    (it : Iterator.t) :
  MergedIterator.iters_ m !! i = Some it -> Iterator.pos it = [] ->
  Permutation (pending (MergedIterator.seek_one target m i))
    (seeks target it ++ pending m).
Proof.
  intros Hi Hpos. unfold MergedIterator.seek_one. rewrite Hi.
  rewrite NextIter_pending. unfold pending. simpl.
  rewrite (concat_insert_fresh still_serves _ i it (Iterator.Seek target it) Hi).
  - change (still_serves (Iterator.Seek target it)) with (seeks target it).
    rewrite !app_assoc.
    apply Permutation_app_tail, Permutation_app_comm.
  - unfold still_serves. rewrite Hpos. reflexivity.
Qed.

Lemma seek_one_others (target : string) (m : MergedIterator.t) (i j : nat) :
  j <> i ->
  MergedIterator.iters_ (MergedIterator.seek_one target m i) !! j
  = MergedIterator.iters_ m !! j.
Proof.
  intros Hji. unfold MergedIterator.seek_one, MergedIterator.NextIter.
  destruct (MergedIterator.iters_ m !! i) as [it|] eqn:Hi; [|reflexivity].
  simpl.
  destruct (<[i := Iterator.Seek target it]> (MergedIterator.iters_ m) !! i)
    as [it'|]; [|simpl; apply list_lookup_insert_ne; congruence].
  destruct (Iterator.Valid it'); simpl.
  - rewrite !list_lookup_insert_ne by congruence. reflexivity.
  - apply list_lookup_insert_ne. congruence.
Qed.

Lemma seek_one_fed (target : string) (m : MergedIterator.t) (i : nat) :
  fed m -> fed (MergedIterator.seek_one target m i).
Proof.
  intros Hfed. unfold MergedIterator.seek_one.
  destruct (MergedIterator.iters_ m !! i) as [it|] eqn:Hi; [|exact Hfed].
  apply NextIter_fed. simpl. intros j it' Hji Hj Hs.
  rewrite list_lookup_insert_ne in Hj by congruence.
  exact (Hfed j it' Hj Hs).
Qed.

Lemma seek_all_pending (target : string) :
  forall (idx : list nat) (m : MergedIterator.t),
    List.NoDup idx ->
    (forall i it, In i idx -> MergedIterator.iters_ m !! i = Some it ->
                  Iterator.pos it = []) ->
    Permutation (pending (fold_left (MergedIterator.seek_one target) idx m))
      (sought target (MergedIterator.iters_ m) idx ++ pending m).
Proof.
  induction idx as [|i idx IH]; intros m Hnd Hpos; simpl; [reflexivity|].
  inversion Hnd as [|? ? Hni Hnd']; subst.
  rewrite IH; [|exact Hnd'|].
  - assert (sought target
              (MergedIterator.iters_ (MergedIterator.seek_one target m i)) idx
            = sought target (MergedIterator.iters_ m) idx) as ->.
    { unfold sought. f_equal. apply map_ext_in. intros j Hj.
      rewrite seek_one_others; [reflexivity|]. intros ->. contradiction. }
    unfold sought at 2. simpl. fold (sought target (MergedIterator.iters_ m) idx).
    destruct (MergedIterator.iters_ m !! i) as [it|] eqn:Hi.
    + rewrite (seek_one_pending target m i it Hi (Hpos i it (or_introl eq_refl) Hi)).
      rewrite !app_assoc.
      apply Permutation_app_tail, Permutation_app_comm.
    + unfold MergedIterator.seek_one. rewrite Hi. reflexivity.
  - intros j it Hj Hl. rewrite seek_one_others in Hl.
    + apply (Hpos j it (or_intror Hj) Hl).
    + intros ->. contradiction.
Qed.

Lemma seek_all_fed (target : string) :
  forall (idx : list nat) (m : MergedIterator.t),
    fed m -> fed (fold_left (MergedIterator.seek_one target) idx m).
Proof.
  induction idx as [|i idx IH]; intros m Hfed; simpl; [exact Hfed|].
  apply IH, seek_one_fed, Hfed.
Qed.

Lemma map_lookup_seq {A B : Type} (g : option A -> B) (l : list A) :
  map (fun i => g (l !! i)) (seq 0 (length l)) = map (fun x => g (Some x)) l.
Proof.
  induction l as [|x l IH]; simpl; [reflexivity|].
  f_equal. rewrite <- seq_shift, map_map. exact IH.
Qed.

Lemma New_pending (raw_engine : string -> Iterator.ColumnFamily)
    (cf_names : list string) (end_key : string) :
  pending (MergedIterator.New raw_engine cf_names end_key) = [].
Proof.
  unfold pending, MergedIterator.New. simpl. rewrite map_map.
  induction cf_names as [|cf cf_names IH]; simpl; [reflexivity|exact IH].
Qed.

Lemma New_fed (raw_engine : string -> Iterator.ColumnFamily)
    (cf_names : list string) (end_key : string) :
  fed (MergedIterator.New raw_engine cf_names end_key).
Proof.
  intros i it Hi Hs. exfalso. apply Hs.
  unfold MergedIterator.New in Hi. simpl in Hi.
  apply list_elem_of_lookup_2, list_elem_of_In, in_map_iff in Hi.
  destruct Hi as [cf [<- _]]. reflexivity.
Qed.

Lemma Seek_New_pending (raw_engine : string -> Iterator.ColumnFamily)
    (cf_names : list string) (start_key end_key : string) :
  Permutation
    (pending (MergedIterator.Seek start_key
                (MergedIterator.New raw_engine cf_names end_key)))
    (region_entries raw_engine cf_names start_key end_key).
Proof.
  unfold MergedIterator.Seek.
  rewrite seek_all_pending.
  - rewrite New_pending, app_nil_r. unfold sought.
    rewrite (map_lookup_seq
               (fun o => match o with
                         | Some it => seeks start_key it
                         | None => []
                         end)).
    unfold MergedIterator.New. simpl. rewrite map_map. reflexivity.
  - apply seq_NoDup.
  - intros i it _ Hi. unfold MergedIterator.New in Hi. simpl in Hi.
    apply list_elem_of_lookup_2, list_elem_of_In, in_map_iff in Hi.
    destruct Hi as [cf [<- _]]. reflexivity.
Qed.

(** X14.  The merged iterator loses nothing and serves nothing twice:
    the entries a split checker visits in a range are, up to their order,
    the entries of the column families of the region from the start key
    to the end key of the range, each with its key and value size. *)
Theorem MergedIterator_serves_every_entry_once
    (raw_engine : string -> Iterator.ColumnFamily) (cf_names : list string)
    (start_key end_key : string) :
  Permutation
    (MergedIterator.stream raw_engine cf_names start_key end_key)
    (region_entries raw_engine cf_names start_key end_key).
Proof.
  unfold MergedIterator.stream.
  rewrite walk_pending.
  - apply Seek_New_pending.
  - reflexivity.
  - apply seek_all_fed, New_fed.
Qed.

End MergedIteratorContentsFacts.

(** ** What the split policies return *)

Module SplitAsCodedFacts.

Import KeyOrder MergedIteratorContents SplitAsCoded.

(** The stream of a range, as the loops of the checkers walk it. *)
Lemma walk_Seek_New (raw_engine : string -> Iterator.ColumnFamily)
    (cf_names : list string) (start_key end_key : string) :
  let iter :=
    MergedIterator.Seek start_key
      (MergedIterator.New raw_engine cf_names end_key) in
  Permutation (MergedIterator.walk (MergedIterator.remaining iter) iter)
    (region_entries raw_engine cf_names start_key end_key).
Proof.
  simpl. rewrite MergedIteratorContentsFacts.walk_pending.
  - apply MergedIteratorContentsFacts.Seek_New_pending.
  - reflexivity.
  - apply MergedIteratorContentsFacts.seek_all_fed,
      MergedIteratorContentsFacts.New_fed.
Qed.

Lemma total_Permutation (l l' : list (string * Z)) :
  Permutation l l' -> SplitPolicy.total l = SplitPolicy.total l'.
Proof.
  induction 1 as [|x l l' _ IH|x y l|l l' l'' _ IH1 _ IH2]; simpl; lia.
Qed.

Lemma Size_fold_size (c : SizeSplitChecker.t) (entries : list (string * Z)) :
  forall st,
    SizeSplitChecker.size (fold_left (SizeSplitChecker.body c) entries st)
    = SizeSplitChecker.size st + SplitPolicy.total entries.
Proof.
  induction entries as [|[k sz] rest IH]; intros st; simpl; [lia|].
  rewrite IH. unfold SizeSplitChecker.body.
  destruct (empty (SizeSplitChecker.split_key st)
            && (SizeSplitChecker.size st + sz >=? SizeSplitChecker.split_pos c));
    [|destruct (SizeSplitChecker.size st + sz
                >=? SizeSplitChecker.split_size_ c)];
    destruct (neq_string (SizeSplitChecker.prev_key st) k); simpl; lia.
Qed.

Lemma Keys_fold_size (c : KeysSplitChecker.t) (entries : list (string * Z)) :
  forall st,
    KeysSplitChecker.size (fold_left (KeysSplitChecker.body c) entries st)
    = KeysSplitChecker.size st + SplitPolicy.total entries.
Proof.
  induction entries as [|[k sz] rest IH]; intros st; simpl; [lia|].
  rewrite IH. unfold KeysSplitChecker.body.
  destruct (neq_string (KeysSplitChecker.prev_key st) k); simpl;
    match goal with
    | |- context [empty ?a && ?b] => destruct (empty a && b)
    end; simpl; try lia;
    match goal with
    | |- context [?a =? ?b] => destruct (a =? b)
    end; simpl; lia.
Qed.

(** X15.  Whatever the policy, [SplitKey] adds to [size] the key and value
    sizes of all entries of the column families between the start key and
    the end key of the range. *)
Theorem SplitKey_size_is_region_total
    (raw_engine : string -> Iterator.ColumnFamily) (cf_names : list string)
    (start_key end_key : string) (count size : Z) :
  let region_size :=
    size
    + SplitPolicy.total
        (region_entries raw_engine cf_names start_key end_key) in
  (forall c : HalfSplitChecker.t,
      size_of_region
        (HalfSplitChecker.SplitKey c raw_engine start_key end_key cf_names
           count size)
      = region_size)
  /\ (forall c : SizeSplitChecker.t,
         size_of_region
           (SizeSplitChecker.SplitKey c raw_engine start_key end_key cf_names
              count size)
         = region_size)
  /\ (forall c : KeysSplitChecker.t,
         size_of_region
           (KeysSplitChecker.SplitKey c raw_engine start_key end_key cf_names
              count size)
         = region_size).
Proof.
  simpl.
  pose proof (total_Permutation _ _
                (walk_Seek_New raw_engine cf_names start_key end_key)) as Ht.
  simpl in Ht. rewrite <- Ht.
  split; [|split]; intros c.
  - unfold HalfSplitChecker.SplitKey, HalfSplitChecker.loop,
      HalfSplitChecker.finish. simpl.
    rewrite MergedIteratorFacts.for_each_walk.
    apply HalfSplitCheckerFacts.Half_fold_size.
  - unfold SizeSplitChecker.SplitKey, SizeSplitChecker.loop,
      SizeSplitChecker.finish. simpl.
    rewrite MergedIteratorFacts.for_each_walk.
    apply Size_fold_size.
  - unfold KeysSplitChecker.SplitKey, KeysSplitChecker.loop,
      KeysSplitChecker.finish. simpl.
    rewrite MergedIteratorFacts.for_each_walk.
    apply Keys_fold_size.
Qed.

(** *** The SIZE policy *)

Lemma geb_true (a b : Z) : b <= a -> (a >=? b) = true.
Proof. intros H. rewrite Z.geb_leb. apply Z.leb_le. exact H. Qed.

Lemma geb_false (a b : Z) : a < b -> (a >=? b) = false.
Proof. intros H. rewrite Z.geb_leb. apply Z.leb_gt. exact H. Qed.

Lemma Size_body_set (c : SizeSplitChecker.t) (st : SizeSplitChecker.Loop)
    (k : string) (sz : Z) :
  SizeSplitChecker.split_key st <> EmptyString ->
  let st' := SizeSplitChecker.body c st (k, sz) in
  SizeSplitChecker.split_key st' = SizeSplitChecker.split_key st
  /\ SizeSplitChecker.size st' = SizeSplitChecker.size st + sz
  /\ SizeSplitChecker.is_split st'
     = (SizeSplitChecker.size st + sz >=? SizeSplitChecker.split_size_ c)
       || SizeSplitChecker.is_split st.
Proof.
  intros Hset. unfold SizeSplitChecker.body.
  assert (empty (SizeSplitChecker.split_key st) = false) as ->.
  { destruct (empty _) eqn:E; [|reflexivity].
    apply RawRocksEngineFacts.empty_iff in E. contradiction. }
  simpl.
  destruct (SizeSplitChecker.size st + sz >=? SizeSplitChecker.split_size_ c);
    destruct (neq_string (SizeSplitChecker.prev_key st) k); simpl; auto.
Qed.

Lemma total_nonneg' (entries : list (string * Z)) :
  Forall (fun e => 0 <= snd e) entries -> 0 <= SplitPolicy.total entries.
Proof.
  induction 1 as [|e rest He _ IH]; simpl; lia.
Qed.

(** Once the split key is set, it stays, and any later entry at which the
    size has reached the split size decides to split. *)
Lemma Size_fold_set (c : SizeSplitChecker.t) (entries : list (string * Z)) :
  Forall (fun e => 0 <= snd e) entries ->
  forall st,
    SizeSplitChecker.split_key st <> EmptyString ->
    let st' := fold_left (SizeSplitChecker.body c) entries st in
    SizeSplitChecker.split_key st' = SizeSplitChecker.split_key st
    /\ SizeSplitChecker.is_split st'
       = SizeSplitChecker.is_split st
         || (match entries with [] => false | _ :: _ => true end
             && (SizeSplitChecker.size st + SplitPolicy.total entries
                 >=? SizeSplitChecker.split_size_ c)).
Proof.
  induction 1 as [|[k sz] rest He Hrest IH]; intros st Hset.
  - simpl. rewrite orb_false_r. auto.
  - change (fold_left (SizeSplitChecker.body c) ((k, sz) :: rest) st)
      with (fold_left (SizeSplitChecker.body c) rest
              (SizeSplitChecker.body c st (k, sz))).
    change (SplitPolicy.total ((k, sz) :: rest))
      with (sz + SplitPolicy.total rest).
    destruct (Size_body_set c st k sz Hset) as [Hk [Hsz His]].
    pose proof (total_nonneg' rest Hrest) as Hnn. simpl in He.
    cbv zeta in Hk, Hsz, His.
    assert (SizeSplitChecker.split_key (SizeSplitChecker.body c st (k, sz))
            <> EmptyString) as Hset' by (rewrite Hk; exact Hset).
    pose proof (IH (SizeSplitChecker.body c st (k, sz)) Hset') as IH'.
    cbv zeta in IH'. destruct IH' as [IHk IHs].
    rewrite Hk in IHk. rewrite Hsz, His in IHs.
    cbv zeta. split; [exact IHk|]. rewrite IHs.
    destruct (SizeSplitChecker.is_split st); [rewrite orb_true_r; reflexivity|].
    rewrite !orb_false_r, orb_false_l.
    destruct (Z.geb_spec (SizeSplitChecker.size st + sz)
                (SizeSplitChecker.split_size_ c)) as [Hge|Hlt]; simpl.
    + symmetry. apply geb_true. lia.
    + destruct rest as [|e rest']; simpl.
      * symmetry. apply geb_false. lia.
      * f_equal. lia.
Qed.

Lemma Size_body_unset (c : SizeSplitChecker.t) (st : SizeSplitChecker.Loop)
    (k : string) (sz : Z) :
  SizeSplitChecker.split_key st = EmptyString ->
  let st' := SizeSplitChecker.body c st (k, sz) in
  SizeSplitChecker.size st' = SizeSplitChecker.size st + sz
  /\ SizeSplitChecker.split_key st'
     = (if SizeSplitChecker.size st + sz >=? SizeSplitChecker.split_pos c
        then k else EmptyString)
  /\ SizeSplitChecker.is_split st'
     = (if SizeSplitChecker.size st + sz >=? SizeSplitChecker.split_pos c
        then SizeSplitChecker.is_split st
        else (SizeSplitChecker.size st + sz
              >=? SizeSplitChecker.split_size_ c)
             || SizeSplitChecker.is_split st).
Proof.
  intros Hunset. unfold SizeSplitChecker.body. rewrite Hunset.
  change (empty EmptyString) with true. rewrite andb_true_l.
  destruct (SizeSplitChecker.size st + sz >=? SizeSplitChecker.split_pos c);
    [|destruct (SizeSplitChecker.size st + sz
                >=? SizeSplitChecker.split_size_ c)];
    destruct (neq_string (SizeSplitChecker.prev_key st) k); simpl; auto.
Qed.

Lemma removelast_nonneg (l : list (string * Z)) :
  Forall (fun e => 0 <= snd e) l -> Forall (fun e => 0 <= snd e) (removelast l).
Proof.
  induction l as [|x l IHl]; intros Hl; [constructor|].
  inversion Hl; subst. destruct l as [|y l]; [constructor|].
  change (removelast (x :: y :: l)) with (x :: removelast (y :: l)).
  constructor; auto.
Qed.

Lemma size_split_key_cons (c : SizeSplitChecker.t) (size : Z) (k : string)
    (sz : Z) (e : string * Z) (rest : list (string * Z)) :
  coded_size_split_key c size ((k, sz) :: e :: rest)
  = if (size + sz + SplitPolicy.total (e :: rest)
        >=? SizeSplitChecker.split_size_ c)
       && (size + sz + SplitPolicy.total (removelast (e :: rest))
           >=? SizeSplitChecker.split_pos c)
    then if size + sz >=? SizeSplitChecker.split_pos c then k
         else SplitPolicy.first_reaching (SizeSplitChecker.split_pos c)
                (size + sz) (e :: rest)
    else EmptyString.
Proof.
  unfold coded_size_split_key.
  change (removelast ((k, sz) :: e :: rest))
    with ((k, sz) :: removelast (e :: rest)).
  change (SplitPolicy.total ((k, sz) :: e :: rest))
    with (sz + SplitPolicy.total (e :: rest)).
  change (SplitPolicy.total ((k, sz) :: removelast (e :: rest)))
    with (sz + SplitPolicy.total (removelast (e :: rest))).
  rewrite !Z.add_assoc. reflexivity.
Qed.

(** Until an entry reaches the split position the loop decides nothing;
    the entry that reaches it sets the split key. *)
Lemma Size_fold_unset (c : SizeSplitChecker.t) (entries : list (string * Z)) :
  SizeSplitChecker.split_pos c <= SizeSplitChecker.split_size_ c ->
  Forall (fun e => fst e <> EmptyString /\ 0 <= snd e) entries ->
  forall st,
    SizeSplitChecker.split_key st = EmptyString ->
    SizeSplitChecker.is_split st = false ->
    SizeSplitChecker.size st < SizeSplitChecker.split_pos c ->
    split_key_of
      (SizeSplitChecker.finish
         (fold_left (SizeSplitChecker.body c) entries st))
    = coded_size_split_key c (SizeSplitChecker.size st) entries.
Proof.
  intros Hpos. induction 1 as [|[k sz] rest [Hk Hsz] Hrest IH];
    intros st Hunset Hno Hlt.
  - unfold coded_size_split_key, SizeSplitChecker.finish. simpl. rewrite Hno.
    destruct (_ && _); reflexivity.
  - simpl in Hk, Hsz.
    assert (Forall (fun e => 0 <= snd e) rest) as Hnn.
    { eapply Forall_impl; [exact Hrest|]. intros e [_ H]. exact H. }
    pose proof (total_nonneg' rest Hnn) as Htot.
    pose proof (total_nonneg' _ (removelast_nonneg rest Hnn)) as Htot'.
    change (fold_left (SizeSplitChecker.body c) ((k, sz) :: rest) st)
      with (fold_left (SizeSplitChecker.body c) rest
              (SizeSplitChecker.body c st (k, sz))).
    destruct (Size_body_unset c st k sz Hunset) as [Bsz [Bkey Bis]].
    cbv zeta in Bsz, Bkey, Bis.
    set (st1 := SizeSplitChecker.body c st (k, sz)) in *. clearbody st1.
    rewrite Hno in Bis.
    destruct (Z.geb_spec (SizeSplitChecker.size st + sz)
                (SizeSplitChecker.split_pos c)) as [Hge|Hbelow].
    + (* this entry sets the split key *)
      assert (SizeSplitChecker.split_key st1 <> EmptyString) as Hset
          by (rewrite Bkey; exact Hk).
      destruct (Size_fold_set c rest Hnn st1 Hset) as [Hkey His].
      unfold SizeSplitChecker.finish.
      cbn [split_key_of]. rewrite Hkey, His, Bkey, Bis, Bsz.
      rewrite orb_false_l.
      destruct rest as [|e rest'].
      * unfold coded_size_split_key. simpl.
        rewrite (geb_false (SizeSplitChecker.size st + 0)) by lia.
        rewrite andb_false_r. reflexivity.
      * rewrite size_split_key_cons. rewrite andb_true_l.
        rewrite (geb_true (SizeSplitChecker.size st + sz
                           + SplitPolicy.total (removelast (e :: rest'))))
          by lia.
        rewrite (geb_true (SizeSplitChecker.size st + sz)) by lia.
        rewrite andb_true_r. reflexivity.
    + (* the size is still below the split position *)
      rewrite (geb_false (SizeSplitChecker.size st + sz)
                 (SizeSplitChecker.split_size_ c)) in Bis by lia.
      rewrite (IH st1 Bkey Bis) by lia. rewrite Bsz.
      destruct rest as [|e rest'].
      * unfold coded_size_split_key. simpl.
        rewrite (geb_false (SizeSplitChecker.size st + sz + 0)) by lia.
        rewrite (geb_false (SizeSplitChecker.size st + 0)) by lia.
        rewrite !andb_false_r. reflexivity.
      * rewrite size_split_key_cons.
        rewrite (geb_false (SizeSplitChecker.size st + sz)
                   (SizeSplitChecker.split_pos c)) by lia.
        reflexivity.
Qed.

(** *** The keys of the stream *)

Lemma In_serves (upper : string) (kv : Iterator.KeyValue)
    (pos : list Iterator.KeyValue) :
  In kv (serves upper pos) -> In kv pos.
Proof.
  induction pos as [|x pos IH]; simpl; [auto|].
  destruct (key_lt (Iterator.kv_key x) upper); simpl; [|contradiction].
  intros [H|H]; auto.
Qed.

Lemma In_seek_from (target : string) (kv : Iterator.KeyValue)
    (l : list Iterator.KeyValue) :
  In kv (Iterator.seek_from target l) -> In kv l.
Proof.
  induction l as [|x l IH]; simpl; [auto|].
  destruct (key_lt (Iterator.kv_key x) target); simpl; auto.
Qed.

Lemma region_entries_keys (raw_engine : string -> Iterator.ColumnFamily)
    (cf_names : list string) (start_key end_key : string) :
  no_empty_keys raw_engine ->
  Forall (fun e => fst e <> EmptyString /\ 0 <= snd e)
         (region_entries raw_engine cf_names start_key end_key).
Proof.
  intros Hne. apply List.Forall_forall. intros e He.
  unfold region_entries in He. apply in_concat in He.
  destruct He as [l [Hl He]]. apply in_map_iff in Hl.
  destruct Hl as [cf [<- _]]. apply in_map_iff in He.
  destruct He as [kv [<- Hkv]].
  apply In_serves, In_seek_from in Hkv.
  pose proof (proj1 (List.Forall_forall _ _) (Hne cf) kv Hkv) as Hk.
  split; [exact Hk|]. unfold entry_of, to_uint32. simpl.
  apply Z.mod_pos_bound. unfold uint32_max. lia.
Qed.

Lemma stream_keys (raw_engine : string -> Iterator.ColumnFamily)
    (cf_names : list string) (start_key end_key : string) :
  no_empty_keys raw_engine ->
  Forall (fun e => fst e <> EmptyString /\ 0 <= snd e)
         (MergedIterator.stream raw_engine cf_names start_key end_key).
Proof.
  intros Hne.
  eapply Permutation_Forall;
    [symmetry; apply (walk_Seek_New raw_engine cf_names start_key end_key)|].
  apply region_entries_keys, Hne.
Qed.


Lemma two_cfs_no_empty_keys : no_empty_keys two_cfs_engine.
Proof.
  intros cf_name. unfold two_cfs_engine.
  destruct (String.eqb cf_name "data"); repeat constructor; discriminate.
Qed.


(** *** The KEYS policy *)

Lemma Keys_body_eq (c : KeysSplitChecker.t) (st : KeysSplitChecker.Loop)
    (k : string) (sz : Z) :
  let changed := neq_string (KeysSplitChecker.prev_key st) k in
  let kcount :=
    if changed then KeysSplitChecker.split_key_count st + 1
    else KeysSplitChecker.split_key_count st in
  let sets :=
    empty (KeysSplitChecker.split_key st)
    && (kcount >=? KeysSplitChecker.split_key_number c) in
  KeysSplitChecker.body c st (k, sz)
  = KeysSplitChecker.mkLoop
      (KeysSplitChecker.size st + sz)
      (if changed then to_uint32 (KeysSplitChecker.count st + 1)
       else KeysSplitChecker.count st)
      kcount
      (if changed then k else KeysSplitChecker.prev_key st)
      (if sets then k else KeysSplitChecker.split_key st)
      (if sets then KeysSplitChecker.is_split st
       else (kcount =? KeysSplitChecker.split_keys_number_ c)
            || KeysSplitChecker.is_split st).
Proof.
  cbv zeta. unfold KeysSplitChecker.body.
  destruct (neq_string (KeysSplitChecker.prev_key st) k);
    match goal with
    | |- context [empty ?a && ?b] => destruct (empty a && b)
    end; try reflexivity;
    match goal with
    | |- context [?a =? ?b] => destruct (a =? b)
    end; reflexivity.
Qed.

Lemma not_empty (s : string) : s <> EmptyString -> empty s = false.
Proof.
  intros H. destruct (empty s) eqn:E; [|reflexivity].
  apply RawRocksEngineFacts.empty_iff in E. contradiction.
Qed.

(** Once the loop has decided to split, the decision and the key stay. *)
Lemma Keys_fold_decided (c : KeysSplitChecker.t)
    (entries : list (string * Z)) :
  forall st,
    KeysSplitChecker.split_key st <> EmptyString ->
    KeysSplitChecker.is_split st = true ->
    let st' := fold_left (KeysSplitChecker.body c) entries st in
    KeysSplitChecker.split_key st' = KeysSplitChecker.split_key st
    /\ KeysSplitChecker.is_split st' = true.
Proof.
  induction entries as [|[k sz] rest IH]; intros st Hset His; [auto|].
  cbv zeta.
  change (fold_left (KeysSplitChecker.body c) ((k, sz) :: rest) st)
    with (fold_left (KeysSplitChecker.body c) rest
            (KeysSplitChecker.body c st (k, sz))).
  pose proof (Keys_body_eq c st k sz) as Hb. cbv zeta in Hb.
  rewrite (not_empty _ Hset), His in Hb.
  rewrite andb_false_l, orb_true_r in Hb.
  destruct (IH (KeysSplitChecker.body c st (k, sz))) as [Hk Hi];
    [rewrite Hb; exact Hset|rewrite Hb; reflexivity|].
  split; [|exact Hi]. rewrite Hk, Hb. reflexivity.
Qed.

(** Once the split key is set, it stays, and the loop decides to split at
    the entry that is counted as number [split_keys_number_]. *)
Lemma Keys_fold_set (c : KeysSplitChecker.t) (entries : list (string * Z)) :
  forall st,
    KeysSplitChecker.split_key st <> EmptyString ->
    KeysSplitChecker.is_split st = false ->
    KeysSplitChecker.split_key_count st
    < KeysSplitChecker.split_keys_number_ c ->
    let st' := fold_left (KeysSplitChecker.body c) entries st in
    KeysSplitChecker.split_key st' = KeysSplitChecker.split_key st
    /\ KeysSplitChecker.is_split st'
       = (KeysSplitChecker.split_key_count st
          + Z.of_nat (length (changes (KeysSplitChecker.prev_key st) entries))
          >=? KeysSplitChecker.split_keys_number_ c).
Proof.
  induction entries as [|[k sz] rest IH]; intros st Hset His Hlt.
  - simpl. split; [reflexivity|]. rewrite His. symmetry.
    apply geb_false. lia.
  - cbv zeta.
    change (fold_left (KeysSplitChecker.body c) ((k, sz) :: rest) st)
      with (fold_left (KeysSplitChecker.body c) rest
              (KeysSplitChecker.body c st (k, sz))).
    pose proof (Keys_body_eq c st k sz) as Hb. cbv zeta in Hb.
    rewrite (not_empty _ Hset), His in Hb.
    rewrite andb_false_l, orb_false_r in Hb.
    set (st1 := KeysSplitChecker.body c st (k, sz)) in *.
    cbn [changes].
    destruct (neq_string (KeysSplitChecker.prev_key st) k).
    + destruct (Z.eqb_spec (KeysSplitChecker.split_key_count st + 1)
                  (KeysSplitChecker.split_keys_number_ c)) as [Heq|Hne].
      * destruct (Keys_fold_decided c rest st1) as [Hk Hi];
          [rewrite Hb; exact Hset|rewrite Hb; reflexivity|].
        split; [rewrite Hk, Hb; reflexivity|]. rewrite Hi. symmetry.
        apply geb_true. cbn [length]. lia.
      * destruct (IH st1) as [Hk Hi];
          [rewrite Hb; exact Hset|rewrite Hb; reflexivity
          |rewrite Hb; simpl; lia|].
        split; [rewrite Hk, Hb; reflexivity|]. rewrite Hi, Hb.
        cbn [KeysSplitChecker.split_key_count KeysSplitChecker.prev_key length].
        f_equal. lia.
    + destruct (Z.eqb_spec (KeysSplitChecker.split_key_count st)
                  (KeysSplitChecker.split_keys_number_ c)) as [Heq|Hne];
        [lia|].
      destruct (IH st1) as [Hk Hi];
        [rewrite Hb; exact Hset|rewrite Hb; reflexivity
        |rewrite Hb; simpl; lia|].
      split; [rewrite Hk, Hb; reflexivity|]. rewrite Hi, Hb. reflexivity.
Qed.

(** Until the count reaches [split_key_number] the loop decides nothing;
    the entry that reaches it sets the split key. *)
Lemma Keys_fold_unset (c : KeysSplitChecker.t) (entries : list (string * Z)) :
  KeysSplitChecker.split_key_number c
  < KeysSplitChecker.split_keys_number_ c ->
  Forall (fun e => fst e <> EmptyString /\ 0 <= snd e) entries ->
  forall st,
    KeysSplitChecker.split_key st = EmptyString ->
    KeysSplitChecker.is_split st = false ->
    0 <= KeysSplitChecker.split_key_count st
    < KeysSplitChecker.split_key_number c ->
    split_key_of
      (KeysSplitChecker.finish
         (fold_left (KeysSplitChecker.body c) entries st))
    = let counted := changes (KeysSplitChecker.prev_key st) entries in
      if KeysSplitChecker.split_key_count st + Z.of_nat (length counted)
         >=? KeysSplitChecker.split_keys_number_ c
      then nth (Z.to_nat (KeysSplitChecker.split_key_number c
                          - KeysSplitChecker.split_key_count st) - 1)
             counted EmptyString
      else EmptyString.
Proof.
  intros Hnum. induction 1 as [|[k sz] rest [Hk _] Hrest IH];
    intros st Hunset His Hcount.
  - unfold KeysSplitChecker.finish. simpl. rewrite His.
    rewrite geb_false by lia. reflexivity.
  - simpl in Hk.
    change (fold_left (KeysSplitChecker.body c) ((k, sz) :: rest) st)
      with (fold_left (KeysSplitChecker.body c) rest
              (KeysSplitChecker.body c st (k, sz))).
    pose proof (Keys_body_eq c st k sz) as Hb. cbv zeta in Hb.
    rewrite Hunset, His in Hb. change (empty EmptyString) with true in Hb.
    rewrite andb_true_l, orb_false_r in Hb.
    set (st1 := KeysSplitChecker.body c st (k, sz)) in *.
    cbv zeta. cbn [changes].
    destruct (neq_string (KeysSplitChecker.prev_key st) k).
    + destruct (Z.geb_spec (KeysSplitChecker.split_key_count st + 1)
                  (KeysSplitChecker.split_key_number c)) as [Hge|Hbelow].
      * (* this entry sets the split key *)
        destruct (Keys_fold_set c rest st1) as [Hkey Hi];
          [rewrite Hb; exact Hk|rewrite Hb; reflexivity
          |rewrite Hb; simpl; lia|].
        unfold KeysSplitChecker.finish. cbn [split_key_of].
        rewrite Hkey, Hi, Hb.
        cbn [KeysSplitChecker.split_key_count KeysSplitChecker.prev_key
             KeysSplitChecker.split_key length].
        replace (Z.to_nat (KeysSplitChecker.split_key_number c
                           - KeysSplitChecker.split_key_count st) - 1)%nat
          with 0%nat by lia.
        cbn [nth].
        replace (KeysSplitChecker.split_key_count st
                 + Z.of_nat (Datatypes.S (length (changes k rest))))
          with (KeysSplitChecker.split_key_count st + 1
                + Z.of_nat (length (changes k rest))) by lia.
        reflexivity.
      * (* the count is still below the split key number *)
        rewrite (proj2 (Z.eqb_neq _ _)) in Hb by lia.
        rewrite IH;
          [|rewrite Hb; reflexivity|rewrite Hb; reflexivity
           |rewrite Hb; simpl; lia].
        rewrite Hb.
        cbn [KeysSplitChecker.split_key_count KeysSplitChecker.prev_key length].
        replace (KeysSplitChecker.split_key_count st
                 + Z.of_nat (Datatypes.S (length (changes k rest))))
          with (KeysSplitChecker.split_key_count st + 1
                + Z.of_nat (length (changes k rest))) by lia.
        replace (Z.to_nat (KeysSplitChecker.split_key_number c
                           - KeysSplitChecker.split_key_count st) - 1)%nat
          with (Datatypes.S
                  (Z.to_nat (KeysSplitChecker.split_key_number c
                             - (KeysSplitChecker.split_key_count st + 1)) - 1))
          by lia.
        reflexivity.
    + rewrite (geb_false (KeysSplitChecker.split_key_count st)) in Hb by lia.
      rewrite (proj2 (Z.eqb_neq _ _)) in Hb by lia.
      rewrite IH;
        [|rewrite Hb; reflexivity|rewrite Hb; reflexivity
         |rewrite Hb; simpl; lia].
      rewrite Hb. reflexivity.
Qed.



End SplitAsCodedFacts.

(** ** The merged iterator serves its entries in key order *)

Module MergedIteratorOrderFacts.

Import KeyOrder KeyOrderFacts MergedIteratorInv MergedIteratorContents.
Import MergedIteratorContentsFacts.

Lemma heap_push_sorted (e : MergedIterator.Entry)
    (h : list MergedIterator.Entry) :
  StronglySorted
    (fun a b => key_le (MergedIterator.key a) (MergedIterator.key b) = true)
    h ->
  StronglySorted
    (fun a b => key_le (MergedIterator.key a) (MergedIterator.key b) = true)
    (MergedIterator.heap_push e h).
Proof.
  induction 1 as [|x h Hs IH Hall]; simpl.
  - repeat constructor.
  - destruct (key_lt (MergedIterator.key e) (MergedIterator.key x)) eqn:E.
    + pose proof (key_lt_le _ _ E) as Hle.
      constructor; [constructor; assumption|].
      constructor; [exact Hle|].
      eapply Forall_impl; [exact Hall|].
      simpl. intros y Hy. eapply key_le_trans; eauto.
    + constructor; [exact IH|].
      apply MergedIteratorFacts.heap_push_Forall; [|exact Hall].
      apply not_key_lt_le, E.
Qed.

Lemma In_heap_push (e x : MergedIterator.Entry)
    (h : list MergedIterator.Entry) :
  In x (MergedIterator.heap_push e h) -> x = e \/ In x h.
Proof.
  intros H.
  apply (Permutation_in _ (heap_push_Permutation e h)) in H.
  destruct H as [H|H]; auto.
Qed.

Lemma sorted_tl (l : list Iterator.KeyValue) : sorted_cf l -> sorted_cf (tl l).
Proof.
  unfold sorted_cf. intros H. destruct l; simpl; [constructor|].
  inversion H; assumption.
Qed.

Lemma sorted_seek_from (target : string) (l : list Iterator.KeyValue) :
  sorted_cf l -> sorted_cf (Iterator.seek_from target l).
Proof.
  unfold sorted_cf. induction 1 as [|kv l Hs IH Hall]; simpl; [constructor|].
  destruct (key_lt (Iterator.kv_key kv) target); [exact IH|].
  constructor; assumption.
Qed.

Lemma Forall_tl {A : Type} (P : A -> Prop) (l : list A) :
  Forall P l -> Forall P (tl l).
Proof. intros H. destruct l; simpl; [constructor|]. inversion H; assumption. Qed.

Lemma NextIter_ordered (i : nat) (m : MergedIterator.t) :
  ordered m -> ordered (MergedIterator.NextIter i m).
Proof.
  intros (Hheap & Hits & Hle). unfold MergedIterator.NextIter.
  destruct (MergedIterator.iters_ m !! i) as [it|] eqn:Hi;
    [|repeat split; assumption].
  destruct (Iterator.Valid it) eqn:Ev; [|repeat split; assumption].
  assert (sorted_cf (Iterator.snapshot it) /\ sorted_cf (Iterator.pos it))
    as [Hsnap Hpos].
  { apply (proj1 (List.Forall_forall _ _) Hits).
    apply list_elem_of_In. eapply list_elem_of_lookup_2. exact Hi. }
  assert (i < length (MergedIterator.iters_ m))%nat as Hlen
      by (eapply lookup_lt_Some; exact Hi).
  split; [|split]; simpl.
  - apply heap_push_sorted, Hheap.
  - apply Forall_insert; [exact Hits|]. simpl.
    split; [exact Hsnap|apply sorted_tl, Hpos].
  - intros e it' He Hlook. apply In_heap_push in He.
    destruct He as [->|He]; simpl in *.
    + rewrite list_lookup_insert_eq in Hlook by exact Hlen.
      injection Hlook as <-. simpl.
      unfold Iterator.Key. unfold sorted_cf in Hpos.
      destruct (Iterator.pos it) as [|kv rest]; simpl; [constructor|].
      inversion Hpos; assumption.
    + destruct (Nat.eq_dec (MergedIterator.iter_pos e) i) as [Heq|Hne].
      * rewrite Heq in Hlook.
        rewrite list_lookup_insert_eq in Hlook by exact Hlen.
        injection Hlook as <-. simpl. apply Forall_tl.
        apply (Hle e it He). rewrite Heq. exact Hi.
      * rewrite list_lookup_insert_ne in Hlook by congruence.
        exact (Hle e it' He Hlook).
Qed.

Lemma Next_ordered (m : MergedIterator.t) :
  ordered m -> ordered (MergedIterator.Next m).
Proof.
  intros Hm. unfold MergedIterator.Next.
  destruct m as [its heap]. simpl. destruct heap as [|e rest]; [exact Hm|].
  apply NextIter_ordered. destruct Hm as (Hheap & Hits & Hle). simpl in *.
  split; [inversion Hheap; assumption|]. split; [exact Hits|].
  intros e' it He'. apply Hle. right. exact He'.
Qed.

Lemma seek_one_heap (target : string) (m : MergedIterator.t) (i : nat)
    (e : MergedIterator.Entry) :
  In e (MergedIterator.min_heap_ (MergedIterator.seek_one target m i)) ->
  In e (MergedIterator.min_heap_ m) \/ MergedIterator.iter_pos e = i.
Proof.
  unfold MergedIterator.seek_one, MergedIterator.NextIter.
  destruct (MergedIterator.iters_ m !! i) as [it|]; [|auto]. simpl.
  destruct (<[i := Iterator.Seek target it]> (MergedIterator.iters_ m) !! i)
    as [it'|]; [|auto].
  destruct (Iterator.Valid it'); simpl; [|auto].
  intros H. apply In_heap_push in H. destruct H as [->|H]; auto.
Qed.

Lemma seek_one_ordered (target : string) (m : MergedIterator.t) (i : nat) :
  ordered m ->
  (forall e, In e (MergedIterator.min_heap_ m) ->
             MergedIterator.iter_pos e <> i) ->
  ordered (MergedIterator.seek_one target m i).
Proof.
  intros (Hheap & Hits & Hle) Hfresh. unfold MergedIterator.seek_one.
  destruct (MergedIterator.iters_ m !! i) as [it|] eqn:Hi;
    [|repeat split; assumption].
  assert (sorted_cf (Iterator.snapshot it) /\ sorted_cf (Iterator.pos it))
    as [Hsnap Hpos].
  { apply (proj1 (List.Forall_forall _ _) Hits).
    apply list_elem_of_In. eapply list_elem_of_lookup_2. exact Hi. }
  apply NextIter_ordered. split; [|split]; simpl.
  - exact Hheap.
  - apply Forall_insert; [exact Hits|]. simpl.
    split; [exact Hsnap|apply sorted_seek_from, Hsnap].
  - intros e it' He Hlook.
    rewrite list_lookup_insert_ne in Hlook
      by (intros Heq; apply (Hfresh e He); congruence).
    exact (Hle e it' He Hlook).
Qed.

Lemma seek_all_ordered (target : string) :
  forall (idx : list nat) (m : MergedIterator.t),
    List.NoDup idx -> ordered m ->
    (forall e, In e (MergedIterator.min_heap_ m) ->
               ~ In (MergedIterator.iter_pos e) idx) ->
    ordered (fold_left (MergedIterator.seek_one target) idx m).
Proof.
  induction idx as [|i idx IH]; intros m Hnd Hm Hfresh; simpl; [exact Hm|].
  inversion Hnd as [|? ? Hni Hnd']; subst.
  apply IH; [exact Hnd'| |].
  - apply seek_one_ordered; [exact Hm|].
    intros e He Heq. apply (Hfresh e He). left. congruence.
  - intros e He Hin. apply seek_one_heap in He.
    destruct He as [He|Heq]; [|rewrite Heq in Hin; contradiction].
    apply (Hfresh e He). right. exact Hin.
Qed.

Lemma New_ordered (raw_engine : string -> Iterator.ColumnFamily)
    (cf_names : list string) (end_key : string) :
  (forall cf_name, sorted_cf (raw_engine cf_name)) ->
  ordered (MergedIterator.New raw_engine cf_names end_key).
Proof.
  intros Hs. unfold MergedIterator.New. split; [|split]; simpl.
  - constructor.
  - induction cf_names as [|cf cfs IH]; simpl; constructor; [|exact IH].
    simpl. split; [apply Hs|constructor].
  - intros e it [].
Qed.

(** The entry at the top of the heap is not above any entry that is still
    to be served. *)
Lemma top_is_least (m : MergedIterator.t) (e : MergedIterator.Entry)
    (rest : list MergedIterator.Entry) :
  ordered m -> fed m -> MergedIterator.min_heap_ m = e :: rest ->
  Forall (fun x => key_le (MergedIterator.key e) (fst x) = true) (pending m).
Proof.
  intros (Hheap & Hits & Hle) Hfed Hh.
  assert (forall x, In x (MergedIterator.min_heap_ m) ->
                    key_le (MergedIterator.key e) (MergedIterator.key x) = true)
    as Htop.
  { rewrite Hh in *. inversion Hheap as [|? ? _ Hall]; subst.
    intros x [<-|Hx]; [apply key_le_refl|].
    exact (proj1 (List.Forall_forall _ _) Hall x Hx). }
  unfold pending. apply Forall_app. split.
  - apply List.Forall_forall. intros x Hx. apply in_map_iff in Hx.
    destruct Hx as [y [<- Hy]]. simpl. apply Htop, Hy.
  - apply List.Forall_forall. intros x Hx. apply in_concat in Hx.
    destruct Hx as [l [Hl Hx]]. apply in_map_iff in Hl.
    destruct Hl as [it [<- Hit]].
    apply list_elem_of_In, list_elem_of_lookup in Hit.
    destruct Hit as [i Hi].
    assert (still_serves it <> []) as Hne
        by (intros Hnil; rewrite Hnil in Hx; contradiction).
    pose proof (Hfed i it Hi Hne) as Hex.
    apply List.Exists_exists in Hex. destruct Hex as [ei [Hei Hpos]].
    subst i. pose proof (Hle ei it Hei Hi) as Hall.
    unfold still_serves in Hx. apply in_map_iff in Hx.
    destruct Hx as [kv [<- Hkv]]. apply SplitAsCodedFacts.In_serves in Hkv.
    simpl. eapply key_le_trans; [apply Htop, Hei|].
    exact (proj1 (List.Forall_forall _ _) Hall kv Hkv).
Qed.

Lemma walk_ascending :
  forall (fuel : nat) (m : MergedIterator.t),
    (MergedIterator.remaining m <= fuel)%nat -> fed m -> ordered m ->
    ascending_keys (MergedIterator.walk fuel m).
Proof.
  unfold ascending_keys.
  induction fuel as [|fuel IH]; intros m Hr Hfed Hord; simpl; [constructor|].
  destruct (MergedIterator.Valid m) eqn:Ev; [|constructor].
  pose proof (MergedIteratorFacts.Next_remaining m Ev) as Hrem.
  constructor.
  - apply IH; [lia|apply Next_fed, Hfed|apply Next_ordered, Hord].
  - assert (exists e rest, MergedIterator.min_heap_ m = e :: rest)
      as (e & rest & Hh).
    { unfold MergedIterator.Valid in Ev.
      destruct (MergedIterator.min_heap_ m) as [|e rest]; [discriminate|].
      eauto. }
    pose proof (top_is_least m e rest Hord Hfed Hh) as Hmin.
    apply (Permutation_Forall (Next_pending m Ev)) in Hmin.
    inversion Hmin as [|? ? _ Hall]; subst.
    assert (MergedIterator.Key m = MergedIterator.key e) as ->
        by (unfold MergedIterator.Key; rewrite Hh; reflexivity).
    simpl. eapply Permutation_Forall; [|exact Hall].
    symmetry. apply walk_pending; [lia|apply Next_fed, Hfed].
Qed.

(** X18.  When the column families are in key order, the merged iterator
    serves the entries of a range in ascending key order, with equal keys
    of different column families next to each other.  The heap of the
    iterator is taken to serve the entry with the least key first. *)
Theorem MergedIterator_serves_keys_in_order
    (raw_engine : string -> Iterator.ColumnFamily) (cf_names : list string)
    (start_key end_key : string) :
  (forall cf_name, sorted_cf (raw_engine cf_name)) ->
  ascending_keys
    (MergedIterator.stream raw_engine cf_names start_key end_key).
Proof.
  intros Hs. unfold MergedIterator.stream. apply walk_ascending.
  - reflexivity.
  - apply seek_all_fed, New_fed.
  - apply seek_all_ordered.
    + apply seq_NoDup.
    + apply New_ordered, Hs.
    + intros e [].
Qed.

Lemma two_cfs_sorted :
  forall cf_name, sorted_cf (SplitAsCoded.two_cfs_engine cf_name).
Proof.
  intros cf_name. unfold SplitAsCoded.two_cfs_engine, sorted_cf.
  destruct (String.eqb cf_name "data"); repeat constructor.
Qed.

Lemma MergedIterator_serves_keys_in_order_witness :
  ascending_keys
    (MergedIterator.stream SplitAsCoded.two_cfs_engine
       ["data"%string; "default"%string] "a" "z").
Proof.
  apply (MergedIterator_serves_keys_in_order SplitAsCoded.two_cfs_engine
           ["data"%string; "default"%string] "a" "z").
  exact two_cfs_sorted.
Defined.

End MergedIteratorOrderFacts.

(** ** The key count of the split policies *)

Module SplitCountFacts.

Import KeyOrder KeyOrderFacts MergedIteratorInv MergedIteratorContents.
Import SplitAsCoded.

Lemma key_le_antisym (a b : string) :
  key_le a b = true -> key_le b a = true -> a = b.
Proof.
  intros Hab Hba. unfold key_le in Hab, Hba.
  fold (key_lt b a) in Hab. fold (key_lt a b) in Hba.
  destruct (key_total a b) as [H|[H|H]]; [|exact H|];
    rewrite H in *; discriminate.
Qed.

Lemma key_le_empty (k : string) : key_le EmptyString k = true.
Proof. unfold key_le, String.ltb. destruct k; reflexivity. Qed.

Lemma neq_string_true (a b : string) : neq_string a b = true <-> a <> b.
Proof.
  unfold neq_string. rewrite negb_true_iff. apply String.eqb_neq.
Qed.

(** In a stream in key order the loops count every key once. *)
Lemma changes_ascending (entries : list (string * Z)) :
  ascending_keys entries ->
  forall prev_key,
    Forall (fun e => key_le prev_key (fst e) = true) entries ->
    List.NoDup (changes prev_key entries)
    /\ forall k, In k (changes prev_key entries)
                 <-> In k (map fst entries) /\ k <> prev_key.
Proof.
  unfold ascending_keys.
  induction 1 as [|[k0 sz] rest Hs IH Hall]; intros prev_key Hprev.
  - simpl. split; [constructor|]. intros k. tauto.
  - inversion Hprev as [|? ? Hle Hprev']; subst. simpl in Hle, Hall.
    cbn [changes map fst].
    destruct (neq_string prev_key k0) eqn:En.
    + apply neq_string_true in En.
      destruct (IH k0 Hall) as [Hnd Hin]. split.
      * constructor; [|exact Hnd]. intros H. apply Hin in H. tauto.
      * intros k. simpl. rewrite Hin. split.
        -- intros [<-|[Hk Hne]]; [split; [auto|congruence]|].
           split; [auto|]. intros ->.
           apply in_map_iff in Hk. destruct Hk as [e [He Hk]].
           pose proof (proj1 (List.Forall_forall _ _) Hall e Hk) as Hk0.
           simpl in Hk0. rewrite He in Hk0.
           apply En. symmetry. apply key_le_antisym; assumption.
        -- intros [[<-|Hk] Hne]; [auto|].
           destruct (string_dec k0 k) as [->|Hd]; [auto|].
           right. split; [exact Hk|congruence].
    + apply RocksWriterFacts.neq_string_false in En. subst k0.
      destruct (IH prev_key Hprev') as [Hnd Hin]. split; [exact Hnd|].
      intros k. simpl. rewrite Hin. split.
      * intros [Hk Hne]. auto.
      * intros [[<-|Hk] Hne]; [congruence|auto].
Qed.

(** The count of a loop that counts the entries at which the key
    changes. *)
Lemma fold_count {S : Type} (body : S -> string * Z -> S) (count : S -> Z)
    (prev_key : S -> string) :
  (forall st k sz,
      count (body st (k, sz))
      = if neq_string (prev_key st) k then to_uint32 (count st + 1)
        else count st) ->
  (forall st k sz,
      prev_key (body st (k, sz))
      = if neq_string (prev_key st) k then k else prev_key st) ->
  forall entries st,
    0 <= count st < uint32_max ->
    count (fold_left body entries st)
    = to_uint32
        (count st + Z.of_nat (length (changes (prev_key st) entries))).
Proof.
  intros Hcount Hprev.
  induction entries as [|[k sz] rest IH]; intros st Hrange.
  - simpl. rewrite Z.add_0_r. unfold to_uint32.
    symmetry. apply Z.mod_small. exact Hrange.
  - cbn [fold_left changes]. rewrite IH.
    + rewrite Hcount, Hprev.
      destruct (neq_string (prev_key st) k); [|reflexivity].
      cbn [length]. unfold to_uint32. rewrite Zplus_mod_idemp_l.
      f_equal. lia.
    + rewrite Hcount. destruct (neq_string (prev_key st) k); [|exact Hrange].
      unfold to_uint32. apply Z.mod_pos_bound. unfold uint32_max. lia.
Qed.

Lemma Half_body_count (c : HalfSplitChecker.t) (st : HalfSplitChecker.Loop)
    (k : string) (sz : Z) :
  HalfSplitChecker.count (HalfSplitChecker.body c st (k, sz))
  = (if neq_string (HalfSplitChecker.prev_key st) k
     then to_uint32 (HalfSplitChecker.count st + 1)
     else HalfSplitChecker.count st)
  /\ HalfSplitChecker.prev_key (HalfSplitChecker.body c st (k, sz))
     = (if neq_string (HalfSplitChecker.prev_key st) k then k
        else HalfSplitChecker.prev_key st).
Proof.
  unfold HalfSplitChecker.body.
  destruct (HalfSplitChecker.chunk_size st + sz
            >=? HalfSplitChecker.split_chunk_size_ c);
    destruct (neq_string (HalfSplitChecker.prev_key st) k); auto.
Qed.

Lemma Size_body_count (c : SizeSplitChecker.t) (st : SizeSplitChecker.Loop)
    (k : string) (sz : Z) :
  SizeSplitChecker.count (SizeSplitChecker.body c st (k, sz))
  = (if neq_string (SizeSplitChecker.prev_key st) k
     then to_uint32 (SizeSplitChecker.count st + 1)
     else SizeSplitChecker.count st)
  /\ SizeSplitChecker.prev_key (SizeSplitChecker.body c st (k, sz))
     = (if neq_string (SizeSplitChecker.prev_key st) k then k
        else SizeSplitChecker.prev_key st).
Proof.
  unfold SizeSplitChecker.body.
  destruct (empty (SizeSplitChecker.split_key st)
            && (SizeSplitChecker.size st + sz >=? SizeSplitChecker.split_pos c));
    [|destruct (SizeSplitChecker.size st + sz
                >=? SizeSplitChecker.split_size_ c)];
    destruct (neq_string (SizeSplitChecker.prev_key st) k); auto.
Qed.

Lemma Keys_body_count (c : KeysSplitChecker.t) (st : KeysSplitChecker.Loop)
    (k : string) (sz : Z) :
  KeysSplitChecker.count (KeysSplitChecker.body c st (k, sz))
  = (if neq_string (KeysSplitChecker.prev_key st) k
     then to_uint32 (KeysSplitChecker.count st + 1)
     else KeysSplitChecker.count st)
  /\ KeysSplitChecker.prev_key (KeysSplitChecker.body c st (k, sz))
     = (if neq_string (KeysSplitChecker.prev_key st) k then k
        else KeysSplitChecker.prev_key st).
Proof.
  rewrite SplitAsCodedFacts.Keys_body_eq. simpl. auto.
Qed.

(** In a region in key order without the empty key the loops count every
    key of the range once. *)
Lemma stream_changes (raw_engine : string -> Iterator.ColumnFamily)
    (cf_names : list string) (start_key end_key : string) :
  (forall cf_name, sorted_cf (raw_engine cf_name)) ->
  no_empty_keys raw_engine ->
  length (changes EmptyString
            (MergedIterator.stream raw_engine cf_names start_key end_key))
  = length
      (distinct_keys (region_entries raw_engine cf_names start_key end_key)).
Proof.
  intros Hs Hne.
  pose proof (SplitAsCodedFacts.walk_Seek_New raw_engine cf_names start_key
                end_key) as Hperm.
  cbv zeta in Hperm.
  change (MergedIterator.walk _ _)
    with (MergedIterator.stream raw_engine cf_names start_key end_key)
    in Hperm.
  pose proof (SplitAsCodedFacts.stream_keys raw_engine cf_names start_key
                end_key Hne) as Hkeys.
  assert (ascending_keys
            (MergedIterator.stream raw_engine cf_names start_key end_key))
    as Hasc.
  { unfold MergedIterator.stream.
    apply MergedIteratorOrderFacts.walk_ascending.
    - reflexivity.
    - apply MergedIteratorContentsFacts.seek_all_fed,
        MergedIteratorContentsFacts.New_fed.
    - apply MergedIteratorOrderFacts.seek_all_ordered.
      + apply seq_NoDup.
      + apply MergedIteratorOrderFacts.New_ordered, Hs.
      + intros e []. }
  destruct (changes_ascending _ Hasc EmptyString) as [Hnd Hin].
  { apply List.Forall_forall. intros e _. apply key_le_empty. }
  apply Permutation_length. apply Permutation.NoDup_Permutation.
  - exact Hnd.
  - apply List.NoDup_nodup.
  - intros k. unfold distinct_keys. rewrite nodup_In, Hin. split.
    + intros [Hk _].
      eapply Permutation_in; [apply Permutation_map; exact Hperm|exact Hk].
    + intros Hk.
      assert (In k (map fst
                      (MergedIterator.stream raw_engine cf_names start_key
                         end_key))) as Hk'.
      { eapply Permutation_in;
          [apply Permutation_map; symmetry; exact Hperm|exact Hk]. }
      split; [exact Hk'|].
      apply in_map_iff in Hk'. destruct Hk' as [e [<- He]].
      exact (proj1 (proj1 (List.Forall_forall _ _) Hkeys e He)).
Qed.

(** X19.  Whatever the policy, in a region whose column families are in
    key order and hold no empty key [SplitKey] adds to [count] the number
    of different keys between the start key and the end key of the range:
    a key that several column families hold is counted once.  The count
    wraps at 32 bits. *)
Theorem SplitKey_count_is_distinct_keys
    (raw_engine : string -> Iterator.ColumnFamily) (cf_names : list string)
    (start_key end_key : string) (count size : Z) :
  (forall cf_name, sorted_cf (raw_engine cf_name)) ->
  no_empty_keys raw_engine ->
  0 <= count < uint32_max ->
  let region_count :=
    to_uint32
      (count
       + Z.of_nat
           (length
              (distinct_keys
                 (region_entries raw_engine cf_names start_key end_key)))) in
  (forall c : HalfSplitChecker.t,
      count_of
        (HalfSplitChecker.SplitKey c raw_engine start_key end_key cf_names
           count size)
      = region_count)
  /\ (forall c : SizeSplitChecker.t,
         count_of
           (SizeSplitChecker.SplitKey c raw_engine start_key end_key cf_names
              count size)
         = region_count)
  /\ (forall c : KeysSplitChecker.t,
         count_of
           (KeysSplitChecker.SplitKey c raw_engine start_key end_key cf_names
              count size)
         = region_count).
Proof.
  intros Hs Hne Hcount. cbv zeta.
  rewrite <- (stream_changes raw_engine cf_names start_key end_key Hs Hne).
  split; [|split]; intros c.
  - unfold HalfSplitChecker.SplitKey, HalfSplitChecker.loop,
      HalfSplitChecker.finish. cbn [count_of].
    rewrite MergedIteratorFacts.for_each_walk.
    apply (fold_count (HalfSplitChecker.body c) HalfSplitChecker.count
             HalfSplitChecker.prev_key
             (fun st k sz => proj1 (Half_body_count c st k sz))
             (fun st k sz => proj2 (Half_body_count c st k sz))
             _ (HalfSplitChecker.init count size) Hcount).
  - unfold SizeSplitChecker.SplitKey, SizeSplitChecker.loop,
      SizeSplitChecker.finish. cbn [count_of].
    rewrite MergedIteratorFacts.for_each_walk.
    apply (fold_count (SizeSplitChecker.body c) SizeSplitChecker.count
             SizeSplitChecker.prev_key
             (fun st k sz => proj1 (Size_body_count c st k sz))
             (fun st k sz => proj2 (Size_body_count c st k sz))
             _ (SizeSplitChecker.init count size) Hcount).
  - unfold KeysSplitChecker.SplitKey, KeysSplitChecker.loop,
      KeysSplitChecker.finish. cbn [count_of].
    rewrite MergedIteratorFacts.for_each_walk.
    apply (fold_count (KeysSplitChecker.body c) KeysSplitChecker.count
             KeysSplitChecker.prev_key
             (fun st k sz => proj1 (Keys_body_count c st k sz))
             (fun st k sz => proj2 (Keys_body_count c st k sz))
             _ (KeysSplitChecker.init count size) Hcount).
Qed.

Lemma SplitKey_count_is_distinct_keys_witness :
  count_of
    (KeysSplitChecker.SplitKey example_keys_checker two_cfs_engine "a" "z"
       ["data"%string; "default"%string] 0 0)
  = to_uint32
      (0 + Z.of_nat
             (length
                (distinct_keys
                   (region_entries two_cfs_engine
                      ["data"%string; "default"%string] "a" "z")))).
Proof.
  apply (SplitKey_count_is_distinct_keys two_cfs_engine
           ["data"%string; "default"%string] "a" "z" 0 0
           MergedIteratorOrderFacts.two_cfs_sorted
           SplitAsCodedFacts.two_cfs_no_empty_keys
           ltac:(unfold uint32_max; lia)).
Defined.

End SplitCountFacts.

(** ** The brute-force search returns at most [topk] results per query *)

Module BruteForceBoundsFacts.

Import Pb VectorReader VectorReaderInv BruteForceBounds.

Lemma DistanceResult_lt_le (x y : DistanceResult) :
  DistanceResult_lt x y = true -> dr_distance x <= dr_distance y.
Proof.
  unfold DistanceResult_lt.
  destruct (Z.eqb_spec (dr_distance x) (dr_distance y)) as [Heq|Hne]; simpl.
  - lia.
  - rewrite Z.ltb_lt. lia.
Qed.

Lemma DistanceResult_not_lt_ge (x y : DistanceResult) :
  DistanceResult_lt x y = false -> dr_distance y <= dr_distance x.
Proof.
  unfold DistanceResult_lt.
  destruct (Z.eqb_spec (dr_distance x) (dr_distance y)) as [Heq|Hne]; simpl.
  - lia.
  - rewrite Z.ltb_ge. lia.
Qed.

Lemma pq_emplace_Forall (P : DistanceResult -> Prop) (x : DistanceResult) :
  forall q, P x -> Forall P q -> Forall P (pq_emplace x q).
Proof.
  intros q Hx Hq. induction Hq as [|y q Hy Hq IH]; simpl.
  - constructor; [exact Hx|constructor].
  - destruct (DistanceResult_lt x y); repeat constructor; auto.
Qed.

Lemma pq_emplace_length (x : DistanceResult) :
  forall q, length (pq_emplace x q) = Datatypes.S (length q).
Proof.
  induction q as [|y q IH]; simpl; [reflexivity|].
  destruct (DistanceResult_lt x y); simpl; congruence.
Qed.

Lemma pq_emplace_descending (x : DistanceResult) :
  forall q, descending q -> descending (pq_emplace x q).
Proof.
  unfold descending. induction 1 as [|y q Hs IH Hall]; simpl.
  - repeat constructor.
  - destruct (DistanceResult_lt x y) eqn:E.
    + constructor; [exact IH|].
      apply pq_emplace_Forall; [|exact Hall].
      apply DistanceResult_lt_le, E.
    + pose proof (DistanceResult_not_lt_ge x y E) as Hge.
      constructor; [constructor; assumption|].
      constructor; [exact Hge|].
      eapply Forall_impl; [exact Hall|]. simpl. intros b Hb. lia.
Qed.

(** One turn of the merge loop keeps the queue within [topk]. *)
Lemma merge_candidate_bounded (topk : Z) (top_result : list DistanceResult)
    (vector_with_distance : VectorWithDistance) :
  bounded_queue topk top_result ->
  bounded_queue topk (merge_candidate topk top_result vector_with_distance).
Proof.
  intros (Hlen & Hem & Hdesc). unfold merge_candidate.
  change (mkDistanceResult (distance vector_with_distance)
            vector_with_distance)
    with (wrap vector_with_distance).
  destruct (Z.ltb_spec (Z.of_nat (length top_result)) topk) as [Hlt|Hge].
  - split; [rewrite pq_emplace_length; lia|]. split.
    + apply TopKFacts.pq_emplace_emplaced, Hem.
    + apply pq_emplace_descending, Hdesc.
  - destruct top_result as [|top rest]; [repeat split; assumption|].
    destruct (dr_distance top >? distance vector_with_distance);
      [|repeat split; assumption].
    inversion Hem; subst. inversion Hdesc; subst.
    split; [rewrite pq_emplace_length; simpl in Hlen; simpl; lia|]. split.
    + apply TopKFacts.pq_emplace_emplaced. assumption.
    + apply pq_emplace_descending. assumption.
Qed.

Lemma merge_result_bounded (topk : Z) (result : VectorWithDistanceResult) :
  forall top_result,
    bounded_queue topk top_result ->
    bounded_queue topk (fold_left (merge_candidate topk) result top_result).
Proof.
  induction result as [|c rest IH]; intros top_result Hq; simpl; [exact Hq|].
  apply IH, merge_candidate_bounded, Hq.
Qed.

Lemma ascending_snoc (l : VectorWithDistanceResult) (x : VectorWithDistance) :
  ascending_distance l -> Forall (fun a => distance a <= distance x) l ->
  ascending_distance (l ++ [x]).
Proof.
  unfold ascending_distance. intros Hs Hall.
  induction Hs as [|a l Hs IH Ha]; simpl.
  - repeat constructor.
  - inversion Hall as [|? ? Hax Hall']; subst.
    constructor; [apply IH, Hall'|].
    apply Forall_app. split; [exact Ha|]. constructor; [exact Hax|constructor].
Qed.

(** Emptying a bounded queue into the result gives at most [topk]
    entries, the nearest first. *)
Lemma drained_within_topk (topk : Z) (top_result : list DistanceResult) :
  bounded_queue topk top_result -> within_topk topk (drained top_result).
Proof.
  intros (Hlen & Hem & Hdesc). split.
  - rewrite TopKFacts.drained_length. exact Hlen.
  - clear Hlen. unfold descending in Hdesc.
    induction Hdesc as [|r q Hs IH Hall].
    + constructor.
    + inversion Hem as [|? ? Hr Hem']; subst.
      rewrite TopKFacts.drained_cons. apply ascending_snoc; [exact (IH Hem')|].
      unfold drained. apply List.Forall_forall. intros a Ha.
      apply in_rev, in_map_iff in Ha. destruct Ha as [b [<- Hb]].
      pose proof (proj1 (List.Forall_forall _ _) Hall b Hb) as Hle.
      pose proof (proj1 (List.Forall_forall _ _) Hem' b Hb) as Hb'.
      simpl in Hle, Hb'. rewrite Hr, Hb' in Hle. exact Hle.
Qed.

(** *** The scan keeps what every merge keeps *)

Section Scan.

Variable env : Env.
Variable flags : Flags.
Variable A : Type.
Variable Q : A -> Prop.
Variable search :
  list VectorWithId -> Status * list VectorWithDistanceResult.
Variable step : A -> VectorWithDistanceResult -> A.
Variable vector_with_ids : list VectorWithId.

Hypothesis step_Q : forall top result, Q top -> Q (step top result).

Lemma search_batch_keeps (batch : list VectorWithId) (tops tops' : list A)
    (ret : Status) :
  Forall Q tops ->
  search_batch env search step vector_with_ids batch tops = Return ret tops' ->
  Forall Q tops' /\ length tops' = length tops.
Proof.
  intros Hq. unfold search_batch.
  destruct (negb (ok (flat_Add env batch)));
    [intros H; injection H as _ <-; auto|].
  destruct (search batch) as [ret' results_batch].
  destruct (negb (ok ret')); [intros H; injection H as _ <-; auto|].
  destruct (negb (length results_batch =? length vector_with_ids)%nat);
    [discriminate|].
  intros H. injection H as _ <-. split.
  - apply VectorReaderFacts.merge_batch_Forall; assumption.
  - apply VectorReaderFacts.merge_batch_length.
Qed.

Lemma scan_loop_keeps (entries : list Iterator.KeyValue) :
  forall (batch batch' : list VectorWithId) (tops tops' : list A)
         (ret : Status),
    Forall Q tops ->
    scan_loop env flags search step vector_with_ids entries batch tops
    = Return ret (batch', tops') ->
    Forall Q tops' /\ length tops' = length tops.
Proof.
  induction entries as [|kv rest IH]; intros batch batch' tops tops' ret Hq;
    simpl.
  - intros H. injection H as _ _ <-. auto.
  - destruct (negb (DecodeVectorIdFromEncodeKeyWithTs env
                      (Iterator.kv_key kv) >? 0)); [discriminate|].
    destruct (ParseVector env _) as [vec|]; [|discriminate].
    match goal with |- context [if ?c then _ else _] => destruct c end.
    + destruct (search_batch env search step vector_with_ids _ tops)
        as [ret1 tops1|] eqn:Es; [|discriminate].
      destruct (negb (ok ret1)).
      * intros H. injection H as _ _ <-. auto.
      * intros H. destruct (search_batch_keeps _ _ _ _ Hq Es) as [Hq1 Hl1].
        destruct (IH _ _ _ _ _ Hq1 H) as [Hq' Hl']. split; [exact Hq'|lia].
    + apply IH, Hq.
Qed.

Lemma brute_force_scan_keeps (empty_top : A) (region_range : string * string)
    (ret : Status) (tops : list A) :
  Q empty_top ->
  brute_force_scan env flags search step empty_top vector_with_ids
    region_range
  = Return ret (Some tops) ->
  ret = StatusOK /\ Forall Q tops /\ length tops = length vector_with_ids.
Proof.
  intros Hq0. unfold brute_force_scan.
  match goal with |- context [negb ?v] => destruct (negb v) end;
    [discriminate|].
  assert (Forall Q (repeat empty_top (length vector_with_ids))) as Hq.
  { apply List.Forall_forall. intros x Hx. apply repeat_spec in Hx.
    subst. exact Hq0. }
  match goal with
  | |- context [scan_loop ?e ?f ?s ?st ?v ?en ?b ?t] =>
      destruct (scan_loop e f s st v en b t) as [ret1 [batch tops1]|] eqn:Es
  end; [|discriminate].
  destruct (scan_loop_keeps _ _ _ _ _ _ Hq Es) as [Hq1 Hl1].
  rewrite repeat_length in Hl1.
  destruct (negb (ok ret1)); [discriminate|].
  destruct batch as [|v batch].
  - intros H. injection H as <- <-. auto.
  - destruct (search_batch env search step vector_with_ids (v :: batch) tops1)
      as [ret2 tops2|] eqn:Eb; [|discriminate].
    destruct (search_batch_keeps _ _ _ _ Hq1 Eb) as [Hq2 Hl2].
    destruct (negb (ok ret2)); [discriminate|].
    intros H. injection H as <- <-. split; [reflexivity|].
    split; [exact Hq2|lia].
Qed.

End Scan.

(** X20.  Whatever the region holds and whatever the transient Flat index
    answers, a [BruteForceSearch] that returns hands back for every query
    at most [topk] results, the nearest first: the lists come out in
    ascending order of distance.  It hands back one list per query, or no
    list at all when the region holds no vector or a batch fails. *)
Theorem BruteForceSearch_at_most_topk :
  forall (env : Env) (flags : Flags) (vector_with_ids : list VectorWithId)
         (topk : Z) (region_range : string * string)
         (filters : list FilterFunctor) (reconstruct : bool)
         (parameter : VectorSearchParameter) (ret : Status)
         (results : list VectorWithDistanceResult),
    0 <= topk ->
    BruteForceSearch env flags vector_with_ids topk region_range filters
      reconstruct parameter []
    = Return ret results ->
    (results = []
     \/ (ret = StatusOK /\ length results = length vector_with_ids))
    /\ Forall (within_topk topk) results.
Proof.
  intros env flags queries topk range filters reconstruct parameter ret
         results Htopk.
  unfold BruteForceSearch.
  match goal with
  | |- context [brute_force_scan ?e ?f ?s ?st ?em ?v ?r] =>
      destruct (brute_force_scan e f s st em v r) as [ret1 [tops|]|] eqn:Es
  end; [| |discriminate].
  - intros H. injection H as <- <-.
    assert (bounded_queue topk []) as Hq0
        by (repeat split; [simpl; lia|constructor|constructor]).
    destruct (brute_force_scan_keeps env flags (list DistanceResult)
                (bounded_queue topk)
                (fun batch =>
                   flat_Search env batch queries topk filters reconstruct
                     parameter)
                (fun top_result result =>
                   fold_left (merge_candidate topk) result top_result)
                queries
                (fun top result Hq => merge_result_bounded topk result top Hq)
                [] range ret1 tops Hq0 Es) as (_ & Hq & Hlen).
    rewrite VectorReaderFacts.copy_results_fresh. split.
    + right. split; [reflexivity|]. rewrite length_map. exact Hlen.
    + apply List.Forall_forall. intros l Hl. apply in_map_iff in Hl.
      destruct Hl as [top [<- Htop]].
      apply (drained_within_topk topk top).
      exact (proj1 (List.Forall_forall _ _) Hq top Htop).
  - intros H. injection H as _ <-. split; [left; reflexivity|constructor].
Qed.

Lemma BruteForceSearch_at_most_topk_witness :
  Forall (within_topk 2)
    [[mkVectorWithDistance (mkVectorWithId 1 None None None) 2;
      mkVectorWithDistance (mkVectorWithId 2 None None None) 8]].
Proof.
  exact (proj2
           (BruteForceSearch_at_most_topk VectorExamples.example_env
              (mkFlags 2 2) [VectorExamples.example_query] 2
              VectorExamples.example_range [] false
              VectorExamples.plain_parameter StatusOK
              [[mkVectorWithDistance (mkVectorWithId 1 None None None) 2;
                mkVectorWithDistance (mkVectorWithId 2 None None None) 8]]
              ltac:(lia) ltac:(vm_compute; reflexivity))).
Defined.

End BruteForceBoundsFacts.

(** ** What follows a search keeps its hits *)

Module SearchHitsFacts.

Import Pb VectorReader SearchHits.

Lemma same_hit_refl (a : VectorWithDistance) : same_hit a a.
Proof. split; reflexivity. Qed.

Lemma same_hit_trans (a b c : VectorWithDistance) :
  same_hit a b -> same_hit b c -> same_hit a c.
Proof. intros [H1 H2] [H3 H4]. split; congruence. Qed.

Lemma same_result_refl (r : VectorWithDistanceResult) :
  Forall2 same_hit r r.
Proof. induction r; constructor; auto using same_hit_refl. Qed.

Lemma same_result_trans (a b c : VectorWithDistanceResult) :
  Forall2 same_hit a b -> Forall2 same_hit b c -> Forall2 same_hit a c.
Proof.
  intros H. revert c. induction H as [|x y a b Hxy _ IH]; intros c Hc;
    inversion Hc; subst; constructor.
  - eapply same_hit_trans; eassumption.
  - apply IH. assumption.
Qed.

Lemma same_hits_refl (r : list VectorWithDistanceResult) : same_hits r r.
Proof. induction r; constructor; auto using same_result_refl. Qed.

Lemma same_hits_trans (a b c : list VectorWithDistanceResult) :
  same_hits a b -> same_hits b c -> same_hits a c.
Proof.
  intros H. revert c. induction H as [|x y a b Hxy _ IH]; intros c Hc;
    inversion Hc; subst; constructor.
  - eapply same_result_trans; eassumption.
  - apply IH. assumption.
Qed.

Section Reader.

Variable env : Env.
Variable flags : Flags.
Variable pre : PreFilterSearch.

(** The three queries hand back the entry of the id they were asked
    for. *)
Lemma QueryVectorWithId_id (ts : Z) (region_range : string * string)
    (partition_id vector_id : Z) (with_vector_data : bool)
    (v v' : VectorWithId) (status : Status) :
  QueryVectorWithId env ts region_range partition_id vector_id
    with_vector_data v
  = Return status v' ->
  ok status = true -> id v' = vector_id.
Proof.
  unfold QueryVectorWithId.
  destruct (KvGet env kVectorDataCF ts _) as [s value].
  destruct (negb (ok s)) eqn:Es.
  - intros H Hok. injection H as <- <-.
    rewrite Hok in Es. discriminate.
  - destruct with_vector_data.
    + destruct (ParseVector env value); [|discriminate].
      intros H _. injection H as _ <-. reflexivity.
    + intros H _. injection H as _ <-. reflexivity.
Qed.

Lemma QueryVectorScalarData_keeps_id (ts : Z)
    (region_range : string * string) (partition_id : Z)
    (selected_scalar_keys : list string) (v v' : VectorWithId)
    (status : Status) :
  QueryVectorScalarData env ts region_range partition_id selected_scalar_keys
    v
  = Return status v' ->
  id v' = id v.
Proof.
  unfold QueryVectorScalarData.
  destruct (KvGet env kVectorScalarCF ts _) as [s value].
  destruct (negb (ok s)); [intros H; injection H as _ <-; reflexivity|].
  destruct (ParseScalar env value); [|discriminate].
  intros H. injection H as _ <-. reflexivity.
Qed.

Lemma QueryVectorTableData_keeps_id (ts : Z)
    (region_range : string * string) (partition_id : Z)
    (v v' : VectorWithId) (status : Status) :
  QueryVectorTableData env ts region_range partition_id v = Return status v' ->
  id v' = id v.
Proof.
  unfold QueryVectorTableData.
  destruct (KvGet env kVectorTableCF ts _) as [s value].
  destruct (negb (ok s)); [intros H; injection H as _ <-; reflexivity|].
  destruct (ParseTable env value); [|discriminate].
  intros H. injection H as _ <-. reflexivity.
Qed.

Lemma reconstruct_one_keeps (ts : Z) (region_range : string * string)
    (partition_id : Z) :
  forall (result result' : VectorWithDistanceResult) (status : Status),
    reconstruct_one env ts region_range partition_id result
    = Return status result' ->
    Forall2 same_hit result result'.
Proof.
  induction result as [|c rest IH]; intros result' status; simpl.
  - intros H. injection H as _ <-. constructor.
  - assert (forall v,
               same_hit c v ->
               match reconstruct_one env ts region_range partition_id rest with
               | Abort => Abort
               | Return s rest' => Return s (v :: rest')
               end = Return status result' ->
               Forall2 same_hit (c :: rest) result') as Hcont.
    { intros v Hv.
      destruct (reconstruct_one env ts region_range partition_id rest)
        as [s rest'|] eqn:Er; [|discriminate].
      intros H. injection H as _ <-. constructor; [exact Hv|].
      eapply IH. reflexivity. }
    destruct (has_values (vector_with_id c)).
    + apply Hcont, same_hit_refl.
    + destruct (QueryVectorWithId env ts region_range partition_id
                  (id (vector_with_id c)) true VectorWithId_default)
        as [s v|] eqn:Eq; [|discriminate].
      destruct (ok s) eqn:Eok; simpl.
      * apply Hcont. split; [|reflexivity]. simpl. symmetry.
        eapply QueryVectorWithId_id; eauto.
      * destruct (is_key_not_found s).
        -- apply Hcont, same_hit_refl.
        -- intros H. injection H as _ <-. apply same_result_refl.
Qed.

Lemma reconstruct_all_keeps (ts : Z) (region_range : string * string)
    (partition_id : Z) :
  forall (results results' : list VectorWithDistanceResult) (status : Status),
    reconstruct_all env ts region_range partition_id results
    = Return status results' ->
    same_hits results results'.
Proof.
  induction results as [|r rest IH]; intros results' status; simpl.
  - intros H. injection H as _ <-. constructor.
  - destruct (reconstruct_one env ts region_range partition_id r)
      as [s r'|] eqn:Er; [|discriminate].
    pose proof (reconstruct_one_keeps _ _ _ _ _ _ Er) as Hr.
    destruct (negb (ok s)).
    + intros H. injection H as _ <-. constructor; [exact Hr|].
      apply same_hits_refl.
    + destruct (reconstruct_all env ts region_range partition_id rest)
        as [s' rest'|] eqn:Ea; [|discriminate].
      intros H. injection H as _ <-. constructor; [exact Hr|].
      eapply IH. reflexivity.
Qed.

Lemma attach_result_keeps (query : VectorWithId -> Ret VectorWithId) :
  (forall v v' status, query v = Return status v' -> id v' = id v) ->
  forall (result result' : VectorWithDistanceResult) (status : Status),
    attach_result query result = Return status result' ->
    Forall2 same_hit result result'.
Proof.
  intros Hq. induction result as [|c rest IH]; intros result' status; simpl.
  - intros H. injection H as _ <-. constructor.
  - destruct (query (vector_with_id c)) as [s v|] eqn:Eq; [|discriminate].
    destruct (attach_result query rest) as [s' rest'|] eqn:Ea; [|discriminate].
    intros H. injection H as _ <-. constructor.
    + split; [|reflexivity]. simpl. symmetry. eapply Hq. exact Eq.
    + eapply IH. reflexivity.
Qed.

Lemma attach_results_keeps (query : VectorWithId -> Ret VectorWithId) :
  (forall v v' status, query v = Return status v' -> id v' = id v) ->
  forall (results results' : list VectorWithDistanceResult) (status : Status),
    attach_results query results = Return status results' ->
    same_hits results results'.
Proof.
  intros Hq. induction results as [|r rest IH]; intros results' status; simpl.
  - intros H. injection H as _ <-. constructor.
  - destruct (attach_result query r) as [s r'|] eqn:Er; [|discriminate].
    destruct (attach_results query rest) as [s' rest'|] eqn:Ea;
      [|discriminate].
    intros H. injection H as _ <-. constructor.
    + eapply attach_result_keeps; eauto.
    + eapply IH. reflexivity.
Qed.

(** What [SearchVector] hands back holds the hits of its search branch. *)
Lemma SearchVector_keeps (ts partition_id : Z)
    (region_range : string * string) (vector_with_ids : list VectorWithId)
    (parameter : VectorSearchParameter)
    (results out : list VectorWithDistanceResult) (status : Status) :
  SearchVector env flags pre ts partition_id region_range vector_with_ids
    parameter results
  = Return status out ->
  exists found : list VectorWithDistanceResult,
    same_hits found out
    /\ match vector_with_ids with
       | [] => found = results
       | first :: _ =>
           exists status' : Status,
             search_branches env flags pre ts partition_id region_range first
               vector_with_ids parameter results
             = Return status' found
       end.
Proof.
  unfold SearchVector. destruct vector_with_ids as [|first rest].
  - intros H. injection H as _ <-. exists results.
    split; [apply same_hits_refl|reflexivity].
  - destruct (search_branches env flags pre ts partition_id region_range
                first (first :: rest) parameter results)
      as [s found|] eqn:Es; [|discriminate].
    intros H. exists found. split; [|exists s; reflexivity].
    destruct (negb (ok s)).
    + injection H as _ <-. apply same_hits_refl.
    + destruct (negb (without_vector_data parameter)).
      * eapply reconstruct_all_keeps. exact H.
      * injection H as _ <-. apply same_hits_refl.
Qed.

End Reader.

(** X21.  What follows the search keeps its hits: the results that
    [VectorBatchSearch] hands back are, list by list and in the same
    order, the vectors that the search branch of [SearchVector] found, at
    the distances it found them.  Reading the vectors back from the
    store and attaching scalar and table data neither drops nor adds nor
    reorders a hit, also when a vector is no longer stored or a step
    fails. *)
Theorem VectorBatchSearch_keeps_hits :
  forall (env : Env) (flags : Flags) (pre : PreFilterSearch)
         (ctx : SearchContext)
         (results out : list VectorWithDistanceResult) (status : Status),
    VectorBatchSearch env flags pre ctx results = Return status out ->
    exists found : list VectorWithDistanceResult,
      same_hits found out
      /\ match vector_with_ids ctx with
         | [] => found = results
         | first :: _ =>
             exists status' : Status,
               search_branches env flags pre (search_ts ctx)
                 (search_partition_id ctx) (search_region_range ctx) first
                 (vector_with_ids ctx) (parameter ctx) results
               = Return status' found
         end.
Proof.
  intros env flags pre ctx results out status. unfold VectorBatchSearch.
  destruct (SearchVector env flags pre (search_ts ctx)
              (search_partition_id ctx) (search_region_range ctx)
              (vector_with_ids ctx) (parameter ctx) results)
    as [s1 results1|] eqn:Es; [|discriminate].
  destruct (SearchVector_keeps env flags pre _ _ _ _ _ _ _ _ Es)
    as (found & Hfound & Hbranch).
  intros H. exists found. split; [|exact Hbranch].
  apply (same_hits_trans _ _ _ Hfound). clear Hfound Hbranch Es.
  destruct (negb (ok s1)); [injection H as _ <-; apply same_hits_refl|].
  assert (exists s2 results2,
             (if negb (without_scalar_data (parameter ctx)) then
                attach_results
                  (QueryVectorScalarData env (search_ts ctx)
                     (search_region_range ctx) (search_partition_id ctx)
                     (selected_keys (parameter ctx)))
                  results1
              else Return StatusOK results1) = Return s2 results2
             /\ same_hits results1 results2) as (s2 & results2 & E2 & H2).
  { destruct (negb (without_scalar_data (parameter ctx))).
    - destruct (attach_results _ results1) as [s2 results2|] eqn:Ea;
        [|discriminate].
      exists s2, results2. split; [reflexivity|].
      eapply attach_results_keeps; [|exact Ea].
      intros v v' st. apply QueryVectorScalarData_keeps_id.
    - exists StatusOK, results1. split; [reflexivity|apply same_hits_refl]. }
  rewrite E2 in H. apply (same_hits_trans _ _ _ H2). clear H2 E2.
  destruct (negb (ok s2)); [injection H as _ <-; apply same_hits_refl|].
  destruct (negb (without_table_data (parameter ctx))).
  - destruct (attach_results _ results2) as [s3 results3|] eqn:Ea;
      [|discriminate].
    assert (out = results3) as ->
        by (destruct (negb (ok s3)); injection H as _ <-; reflexivity).
    eapply attach_results_keeps; [|exact Ea].
    intros v v' st. apply QueryVectorTableData_keeps_id.
  - simpl in H. injection H as _ <-. apply same_hits_refl.
Qed.

Lemma VectorBatchSearch_keeps_hits_witness :
  exists found : list VectorWithDistanceResult,
    same_hits found [[example_hit 1 2; example_hit 2 8]]
    /\ exists status' : Status,
         search_branches VectorExamples.example_env default_flags
           VectorExamples.no_pre_filter 0 0 VectorExamples.example_range
           VectorExamples.example_query [VectorExamples.example_query]
           data_parameter []
         = Return status' found.
Proof.
  exact (VectorBatchSearch_keeps_hits VectorExamples.example_env
           default_flags VectorExamples.no_pre_filter example_search []
           [[example_hit 1 2; example_hit 2 8]] StatusOK
           ltac:(vm_compute; reflexivity)).
Defined.

End SearchHitsFacts.

(** ** The engine iterator of the raw RocksDB engine *)

Module RocksIteratorFacts.

Import KeyOrder KeyOrderFacts MergedIteratorInv RocksIterator.

(** *** The two filters *)

Lemma ascii_compare_eq (c d : ascii) : Ascii.compare c d = Eq -> c = d.
Proof. apply Ascii.compare_eq_iff. Qed.

Lemma ascii_compare_flip (c d : ascii) (r : comparison) :
  Ascii.compare d c = r -> Ascii.compare c d = CompOpp r.
Proof. intros <-. apply Ascii.compare_antisym. Qed.

Lemma prefix_same_head (c : ascii) (s k : string) :
  String.prefix (String c s) (String c k) = String.prefix s k.
Proof. simpl. destruct (ascii_dec c c); [reflexivity|congruence]. Qed.

Lemma prefix_other_head (c d : ascii) (s k : string) :
  c <> d -> String.prefix (String c s) (String d k) = false.
Proof. intros H. simpl. destruct (ascii_dec c d); [congruence|reflexivity]. Qed.

Lemma key_lt_same_head (c : ascii) (a b : string) :
  key_lt (String c a) (String c b) = key_lt a b.
Proof.
  unfold key_lt, String.ltb. simpl. rewrite ascii_compare_refl. reflexivity.
Qed.

Lemma key_lt_head (c d : ascii) (a b : string) (r : comparison) :
  Ascii.compare c d = r -> r <> Eq ->
  key_lt (String c a) (String d b)
  = match r with Lt => true | _ => false end.
Proof.
  intros Hr Hne. unfold key_lt, String.ltb. simpl. rewrite Hr.
  destruct r; [congruence|reflexivity|reflexivity].
Qed.

Lemma filter_start_raw (with_start : bool) :
  forall key start_key : string,
    match memcmp key start_key
            (Nat.min (String.length key) (String.length start_key)) with
    | Gt => true
    | Lt => false
    | Eq =>
        if (String.length start_key <? String.length key)%nat then with_start
        else if (String.length key <? String.length start_key)%nat then false
        else with_start
    end
    = if begins_with start_key key then with_start
      else key_lt start_key key.
Proof.
  unfold begins_with.
  induction key as [|d k IH]; intros [|c s]; try reflexivity.
  change (Nat.min (String.length (String d k)) (String.length (String c s)))
    with (Datatypes.S (Nat.min (String.length k) (String.length s))).
  change ((String.length (String c s) <? String.length (String d k))%nat)
    with ((String.length s <? String.length k)%nat).
  change ((String.length (String d k) <? String.length (String c s))%nat)
    with ((String.length k <? String.length s)%nat).
  cbn [memcmp].
  destruct (Ascii.compare d c) eqn:E.
  - apply ascii_compare_eq in E. subst d.
    rewrite prefix_same_head, key_lt_same_head. apply IH.
  - assert (c <> d) as Hne
        by (intros ->; rewrite ascii_compare_refl in E; discriminate).
    rewrite (prefix_other_head c d s k Hne).
    rewrite (key_lt_head c d s k Gt (ascii_compare_flip c d Lt E));
      [reflexivity|discriminate].
  - assert (c <> d) as Hne
        by (intros ->; rewrite ascii_compare_refl in E; discriminate).
    rewrite (prefix_other_head c d s k Hne).
    rewrite (key_lt_head c d s k Lt (ascii_compare_flip c d Gt E));
      [reflexivity|discriminate].
Qed.

Lemma filter_end_raw (with_end : bool) :
  forall key end_key : string,
    match memcmp key end_key
            (Nat.min (String.length key) (String.length end_key)) with
    | Gt => false
    | Lt => true
    | Eq =>
        if (String.length end_key <? String.length key)%nat then with_end
        else if (String.length key <? String.length end_key)%nat then true
        else with_end
    end
    = if begins_with end_key key then with_end else key_lt key end_key.
Proof.
  unfold begins_with.
  induction key as [|d k IH]; intros [|c s]; try reflexivity.
  change (Nat.min (String.length (String d k)) (String.length (String c s)))
    with (Datatypes.S (Nat.min (String.length k) (String.length s))).
  change ((String.length (String c s) <? String.length (String d k))%nat)
    with ((String.length s <? String.length k)%nat).
  change ((String.length (String d k) <? String.length (String c s))%nat)
    with ((String.length k <? String.length s)%nat).
  cbn [memcmp].
  destruct (Ascii.compare d c) eqn:E.
  - apply ascii_compare_eq in E. subst d.
    rewrite prefix_same_head, key_lt_same_head. apply IH.
  - assert (c <> d) as Hne
        by (intros ->; rewrite ascii_compare_refl in E; discriminate).
    rewrite (prefix_other_head c d s k Hne).
    rewrite (key_lt_head d c k s Lt E); [reflexivity|discriminate].
  - assert (c <> d) as Hne
        by (intros ->; rewrite ascii_compare_refl in E; discriminate).
    rewrite (prefix_other_head c d s k Hne).
    rewrite (key_lt_head d c k s Gt E); [reflexivity|discriminate].
Qed.

Lemma FilterKey_in_prefix_range (it : t) (key : string) :
  FilterKey it key
  = in_prefix_range (start_key_ it) (end_key_ it) (with_start_ it)
      (with_end_ it) key.
Proof.
  unfold FilterKey, in_prefix_range, FilterStartKey, FilterEndKey.
  cbv zeta. rewrite filter_start_raw, filter_end_raw. reflexivity.
Qed.

Lemma FilterStartKey_eq (it : t) (key : string) :
  FilterStartKey it key
  = if begins_with (start_key_ it) key then with_start_ it
    else key_lt (start_key_ it) key.
Proof. unfold FilterStartKey. cbv zeta. apply filter_start_raw. Qed.

Lemma FilterEndKey_eq (it : t) (key : string) :
  FilterEndKey it key
  = if begins_with (end_key_ it) key then with_end_ it
    else key_lt key (end_key_ it).
Proof. unfold FilterEndKey. cbv zeta. apply filter_end_raw. Qed.

(** X22.  The bounds of the engine iterator go by prefix.
    [FilterStartKey] takes a key that begins with the start key (the start
    key itself, or a longer key that extends it) exactly when the start is
    included, and any other key when it is above the start key;
    [FilterEndKey] takes a key that begins with the end key exactly when
    the end is included, and any other key when it is below the end key.
    So an excluded start leaves out every key that extends the start key,
    and an included end takes every key that extends the end key. *)
Theorem RocksIterator_bounds_go_by_prefix (it : t) (key : string) :
  FilterStartKey it key
  = (if begins_with (start_key_ it) key then with_start_ it
     else key_lt (start_key_ it) key)
  /\ FilterEndKey it key
     = (if begins_with (end_key_ it) key then with_end_ it
        else key_lt key (end_key_ it)).
Proof. split; [apply FilterStartKey_eq|apply FilterEndKey_eq]. Qed.

(** *** Keys that begin with a bound lie together *)

Lemma key_le_cons_inv (c d : ascii) (a b : string) :
  key_le (String c a) (String d b) = true ->
  Ascii.compare c d = Lt \/ (c = d /\ key_le a b = true).
Proof.
  unfold key_le, String.ltb. simpl.
  destruct (Ascii.compare d c) eqn:E.
  - apply ascii_compare_eq in E. subst d. intros H. right.
    split; [reflexivity|exact H].
  - discriminate.
  - intros _. left. exact (ascii_compare_flip c d Gt E).
Qed.

Lemma key_le_same_head (c : ascii) (a b : string) :
  key_le (String c a) (String c b) = key_le a b.
Proof.
  unfold key_le, String.ltb. simpl. rewrite ascii_compare_refl. reflexivity.
Qed.

Lemma begins_with_le (bound key : string) :
  begins_with bound key = true -> key_le bound key = true.
Proof.
  unfold begins_with. revert key.
  induction bound as [|c s IH]; intros key H.
  - apply SplitCountFacts.key_le_empty.
  - destruct key as [|d k]; [discriminate|]. simpl in H.
    destruct (ascii_dec c d) as [<-|]; [|discriminate].
    rewrite key_le_same_head. apply IH, H.
Qed.

Lemma begins_with_refl (key : string) : begins_with key key = true.
Proof.
  unfold begins_with. induction key as [|c k IH]; [reflexivity|].
  rewrite prefix_same_head. exact IH.
Qed.

(** A key between a bound and a key that begins with the bound begins
    with the bound. *)
Lemma begins_with_between (bound : string) :
  forall key key' : string,
    key_le bound key = true -> key_le key key' = true ->
    begins_with bound key' = true -> begins_with bound key = true.
Proof.
  unfold begins_with.
  induction bound as [|c s IH]; intros key key' H1 H2 Hp; [destruct key; reflexivity|].
  destruct key' as [|c' k']; [discriminate|]. simpl in Hp.
  destruct (ascii_dec c c') as [<-|]; [|discriminate].
  destruct key as [|d k]; [discriminate|].
  apply key_le_cons_inv in H1. apply key_le_cons_inv in H2.
  assert (c = d /\ key_le s k = true /\ key_le k k' = true) as (<- & Hs & Hk).
  { destruct H1 as [H1|[-> H1]]; destruct H2 as [H2|[Heq H2]].
    - rewrite (ascii_compare_flip c d Lt H2) in H1. discriminate.
    - subst d. rewrite ascii_compare_refl in H1. discriminate.
    - rewrite ascii_compare_refl in H2. discriminate.
    - auto. }
  rewrite prefix_same_head. exact (IH k k' Hs Hk Hp).
Qed.

Lemma key_lt_neq_le (a b : string) :
  key_le a b = true -> a <> b -> key_lt a b = true.
Proof.
  intros Hle Hne. destruct (key_total a b) as [H|[H|H]];
    [exact H|contradiction|].
  unfold key_le in Hle. fold (key_lt b a) in Hle. rewrite H in Hle.
  discriminate.
Qed.

Lemma key_lt_le_trans (a b c : string) :
  key_lt a b = true -> key_le b c = true -> key_lt a c = true.
Proof.
  intros Hab Hbc. apply key_lt_neq_le.
  - eapply key_le_trans; [apply key_lt_le; exact Hab|exact Hbc].
  - intros ->. pose proof (key_le_lt_trans _ _ _ Hbc Hab) as H.
    rewrite key_lt_irrefl in H. discriminate.
Qed.

(** A key that passes the start filter is not below the start key. *)
Lemma FilterStartKey_ge (it : t) (key : string) :
  FilterStartKey it key = true -> key_le (start_key_ it) key = true.
Proof.
  intros H.
  rewrite FilterStartKey_eq in H.
  destruct (begins_with (start_key_ it) key) eqn:E.
  - apply begins_with_le, E.
  - apply key_lt_le, H.
Qed.

(** The start filter takes every key above a key it takes. *)
Lemma FilterStartKey_upward (it : t) (key key' : string) :
  FilterStartKey it key = true -> key_le key key' = true ->
  FilterStartKey it key' = true.
Proof.
  intros H Hle. pose proof (FilterStartKey_ge it key H) as Hge.
  rewrite FilterStartKey_eq in H |- *.
  destruct (begins_with (start_key_ it) key') eqn:E'.
  - rewrite (begins_with_between _ _ _ Hge Hle E') in H. exact H.
  - apply key_lt_neq_le; [eapply key_le_trans; eauto|].
    intros Heq. rewrite Heq, begins_with_refl in E'. discriminate.
Qed.

(** The end filter takes every key below a key it takes. *)
Lemma FilterEndKey_downward (it : t) (key key' : string) :
  FilterEndKey it key' = true -> key_le key key' = true ->
  FilterEndKey it key = true.
Proof.
  intros H Hle. rewrite FilterEndKey_eq in H |- *.
  destruct (begins_with (end_key_ it) key) eqn:E.
  - pose proof (begins_with_le _ _ E) as Hge.
    destruct (begins_with (end_key_ it) key') eqn:E'; [exact H|].
    pose proof (key_le_lt_trans _ _ _ Hle H) as Hlt.
    pose proof (key_le_lt_trans _ _ _ Hge Hlt) as Hirr.
    rewrite key_lt_irrefl in Hirr. discriminate.
  - destruct (begins_with (end_key_ it) key') eqn:E'.
    + destruct (key_total key (end_key_ it)) as [Hlt|[Heq|Hgt]];
        [exact Hlt| |].
      * rewrite <- Heq, begins_with_refl in E. discriminate.
      * rewrite (begins_with_between _ _ _ (key_lt_le _ _ Hgt) Hle E') in E.
        discriminate.
    + exact (key_le_lt_trans _ _ _ Hle H).
Qed.

(** *** The loop over the iterator *)

Lemma filter_all {A : Type} (f : A -> bool) :
  forall l : list A, (forall x, In x l -> f x = true) -> List.filter f l = l.
Proof.
  induction l as [|x l IH]; intros H; simpl; [reflexivity|].
  rewrite (H x) by (left; reflexivity). f_equal. apply IH.
  intros y Hy. apply H. right. exact Hy.
Qed.

Lemma filter_twice {A : Type} (f g : A -> bool) :
  forall l : list A,
    List.filter g (List.filter f l) = List.filter (fun x => f x && g x) l.
Proof.
  induction l as [|x l IH]; simpl; [reflexivity|].
  destruct (f x); simpl; [|exact IH].
  destruct (g x); simpl; congruence.
Qed.

Lemma sorted_filter (f : Iterator.KeyValue -> bool) :
  forall l : list Iterator.KeyValue,
    sorted_cf l -> sorted_cf (List.filter f l).
Proof.
  unfold sorted_cf. induction 1 as [|kv l Hs IH Hall]; simpl; [constructor|].
  destruct (f kv); [|exact IH]. constructor; [exact IH|].
  apply List.Forall_forall. intros x Hx. apply filter_In in Hx.
  exact (proj1 (List.Forall_forall _ _) Hall x (proj1 Hx)).
Qed.

Lemma start_loop_same (it : t) (l : list Iterator.KeyValue) :
  start_key_ (start_loop it l) = start_key_ it
  /\ end_key_ (start_loop it l) = end_key_ it
  /\ with_start_ (start_loop it l) = with_start_ it
  /\ with_end_ (start_loop it l) = with_end_ it.
Proof.
  induction l as [|kv l IH]; simpl; [auto|].
  destruct (FilterStartKey it (Iterator.kv_key kv)); simpl; auto.
Qed.

(** [Start] leaves the iterator on the first entry that passes the start
    filter: over a column family in key order, on the entries that pass
    it. *)
Lemma start_loop_filter (it : t) :
  forall l : list Iterator.KeyValue,
    sorted_cf l ->
    iter_ (start_loop it l)
    = List.filter (fun kv => FilterStartKey it (Iterator.kv_key kv)) l.
Proof.
  unfold sorted_cf. induction 1 as [|kv l Hs IH Hall]; simpl; [reflexivity|].
  destruct (FilterStartKey it (Iterator.kv_key kv)) eqn:E; [|exact IH].
  simpl. f_equal. symmetry. apply filter_all. intros x Hx.
  apply (FilterStartKey_upward it _ _ E).
  exact (proj1 (List.Forall_forall _ _) Hall x Hx).
Qed.

Lemma seek_from_filter (it : t) :
  forall l : list Iterator.KeyValue,
    List.filter (fun kv => FilterStartKey it (Iterator.kv_key kv))
      (Iterator.seek_from (start_key_ it) l)
    = List.filter (fun kv => FilterStartKey it (Iterator.kv_key kv)) l.
Proof.
  induction l as [|kv l IH]; simpl; [reflexivity|].
  destruct (key_lt (Iterator.kv_key kv) (start_key_ it)) eqn:E;
    [|reflexivity].
  rewrite IH.
  destruct (FilterStartKey it (Iterator.kv_key kv)) eqn:F; [|reflexivity].
  apply FilterStartKey_ge in F. unfold key_le in F.
  fold (key_lt (Iterator.kv_key kv) (start_key_ it)) in F.
  rewrite E in F. discriminate.
Qed.

Lemma Start_filter (it : t) :
  sorted_cf (column_family_ it) ->
  iter_ (Start it)
  = List.filter (fun kv => FilterStartKey it (Iterator.kv_key kv))
      (column_family_ it).
Proof.
  intros Hs. unfold Start.
  rewrite start_loop_filter
    by (apply MergedIteratorOrderFacts.sorted_seek_from, Hs).
  apply seek_from_filter.
Qed.

Lemma FilterEndKey_ext (it it' : t) (key : string) :
  end_key_ it' = end_key_ it -> with_end_ it' = with_end_ it ->
  FilterEndKey it' key = FilterEndKey it key.
Proof. intros H1 H2. unfold FilterEndKey. rewrite H1, H2. reflexivity. Qed.

(** The loop runs its body once for every entry from the position of the
    iterator on that passes the end filter, and needs no more turns than
    there are entries. *)
Lemma for_each_fold {S : Type} (body : S -> t -> S)
    (h : S -> Iterator.KeyValue -> S) (it0 : t) :
  (forall s it kv rest,
      iter_ it = kv :: rest -> has_valid_kv_ it = true -> body s it = h s kv) ->
  forall l : list Iterator.KeyValue,
    sorted_cf l ->
    forall (fuel : nat) (it : t) (s : S),
      iter_ it = l -> (length l <= fuel)%nat ->
      end_key_ it = end_key_ it0 -> with_end_ it = with_end_ it0 ->
      for_each fuel body it s
      = fold_left h
          (List.filter (fun kv => FilterEndKey it0 (Iterator.kv_key kv)) l) s.
Proof.
  intros Hbody. unfold sorted_cf.
  induction 1 as [|kv l Hs IH Hall]; intros fuel it s Hit Hfuel He Hw.
  - destruct fuel; simpl; [reflexivity|].
    unfold HasNext. rewrite Hit. reflexivity.
  - destruct fuel as [|fuel]; [simpl in Hfuel; lia|].
    cbn [for_each]. unfold HasNext. rewrite Hit.
    rewrite (FilterEndKey_ext it0 it _ He Hw). cbn [List.filter].
    destruct (FilterEndKey it0 (Iterator.kv_key kv)) eqn:E.
    + rewrite (Hbody s (set_has_valid_kv_ it true) kv l)
        by (simpl; auto).
      cbn [fold_left]. apply IH; simpl; try assumption.
      * rewrite Hit. reflexivity.
      * simpl in Hfuel. lia.
    + rewrite RocksReaderFacts.filter_none; [reflexivity|].
      intros x Hx. destruct (FilterEndKey it0 (Iterator.kv_key x)) eqn:Ex;
        [|reflexivity].
      rewrite (FilterEndKey_downward it0 _ _ Ex) in E; [discriminate|].
      exact (proj1 (List.Forall_forall _ _) Hall x Hx).
Qed.

Lemma collect_body (kvs : list Iterator.KeyValue) (it : t)
    (kv : Iterator.KeyValue) (rest : list Iterator.KeyValue) :
  iter_ it = kv :: rest -> has_valid_kv_ it = true ->
  collect kvs it = kvs ++ [kv].
Proof.
  intros Hit Hv. unfold collect, GetKV. rewrite Hv, Hit.
  destruct kv; reflexivity.
Qed.

Lemma fold_left_snoc {A : Type} (l acc : list A) :
  fold_left (fun kvs kv => kvs ++ [kv]) l acc = acc ++ l.
Proof.
  revert acc. induction l as [|x l IH]; intros acc; simpl.
  - rewrite app_nil_r. reflexivity.
  - rewrite IH, <- app_assoc. reflexivity.
Qed.

(** What the loop does over a column family in key order. *)
Lemma loop_over_range {S : Type} (body : S -> t -> S)
    (h : S -> Iterator.KeyValue -> S) (column_family : Iterator.ColumnFamily)
    (start_key end_key : string) (with_start with_end : bool) (extra : nat)
    (s : S) :
  (forall s it kv rest,
      iter_ it = kv :: rest -> has_valid_kv_ it = true -> body s it = h s kv) ->
  sorted_cf column_family ->
  let it :=
    Start (New column_family start_key end_key with_start with_end) in
  for_each (length (iter_ it) + extra) body it s
  = fold_left h
      (List.filter
         (fun kv =>
            in_prefix_range start_key end_key with_start with_end
              (Iterator.kv_key kv))
         column_family)
      s.
Proof.
  intros Hbody Hs. cbv zeta.
  set (it0 := New column_family start_key end_key with_start with_end).
  pose proof (Start_filter it0 Hs) as Hstart.
  destruct (start_loop_same it0
              (Iterator.seek_from (start_key_ it0) (column_family_ it0)))
    as (_ & He & _ & Hw).
  fold (Start it0) in He, Hw.
  rewrite (for_each_fold body h it0 Hbody (iter_ (Start it0))).
  - rewrite Hstart, filter_twice. f_equal.
    apply filter_ext. intros kv.
    rewrite <- (FilterKey_in_prefix_range it0). reflexivity.
  - rewrite Hstart. apply sorted_filter, Hs.
  - reflexivity.
  - lia.
  - exact He.
  - exact Hw.
Qed.

(** X23.  Over a column family in key order the loop
    [for (iter->Start(); iter->HasNext(); iter->Next())] hands out through
    [GetKV], in key order, exactly the entries whose key lies between the
    bounds, where an included bound takes every key that begins with it
    and an excluded bound leaves out every key that begins with it.  The
    loop ends after as many turns as the iterator has entries left. *)
Theorem RocksIterator_visits_prefix_range
    (column_family : Iterator.ColumnFamily) (start_key end_key : string)
    (with_start with_end : bool) (extra : nat) :
  sorted_cf column_family ->
  let it := New column_family start_key end_key with_start with_end in
  visited it
  = List.filter
      (fun kv =>
         in_prefix_range start_key end_key with_start with_end
           (Iterator.kv_key kv))
      column_family
  /\ for_each (length (iter_ (Start it)) + extra) collect (Start it) []
     = visited it.
Proof.
  intros Hs it.
  pose proof (loop_over_range collect (fun kvs kv => kvs ++ [kv])
                column_family start_key end_key with_start with_end) as H.
  cbv zeta in H. fold it in H.
  assert (visited it
          = List.filter
              (fun kv =>
                 in_prefix_range start_key end_key with_start with_end
                   (Iterator.kv_key kv))
              column_family) as Hv.
  { unfold visited. cbv zeta.
    rewrite <- (Nat.add_0_r (length (iter_ (Start it)))).
    rewrite (H 0%nat [] collect_body Hs). apply fold_left_snoc. }
  split; [exact Hv|].
  rewrite Hv, (H extra [] collect_body Hs). apply fold_left_snoc.
Qed.

Lemma example_cf_sorted : sorted_cf example_cf.
Proof. unfold sorted_cf, example_cf. repeat constructor. Qed.

Lemma RocksIterator_visits_prefix_range_witness :
  visited (New example_cf "b" "c" false true)
  = [Iterator.mkKeyValue "c" "4"; Iterator.mkKeyValue "ca" "5"].
Proof.
  exact (proj1 (RocksIterator_visits_prefix_range example_cf "b" "c" false
                  true 0 example_cf_sorted)).
Defined.

(** *** Counting a range *)

Lemma count_up_wraps (l : list Iterator.KeyValue) :
  forall count : Z,
    0 <= count < uint64_max ->
    fold_left (fun (count : Z) (_ : Iterator.KeyValue) =>
                 to_uint64 (count + 1)) l count
    = to_uint64 (count + Z.of_nat (length l)).
Proof.
  induction l as [|kv l IH]; intros count Hc; simpl fold_left.
  - simpl. rewrite Z.add_0_r. unfold to_uint64. symmetry.
    apply Z.mod_small. exact Hc.
  - rewrite IH.
    + unfold to_uint64. rewrite Zplus_mod_idemp_l. f_equal.
      cbn [length]. lia.
    + unfold to_uint64. apply Z.mod_pos_bound. unfold uint64_max. lia.
Qed.

(** X24.  [Reader::KvCount] with a [RangeWithOptions] over a column family
    in key order.  It returns [EILLEGAL_PARAMTETERS] and leaves [count] as
    it is when a bound is empty, when the start key is above the end key,
    when the two keys are equal and one of them is excluded, or when a
    bound is the end of all tables.  Otherwise it returns OK and sets
    [count], unless that is a null pointer, to the number of entries whose
    key lies between the bounds, where an included bound takes every key
    that begins with it and an excluded bound leaves out every key that
    begins with it. *)
Theorem KvCount_counts_prefix_range (EILLEGAL_PARAMTETERS : Z)
    (KeyIsEndOfAllTable : string -> bool)
    (snapshot : Iterator.ColumnFamily) (range : RangeWithOptions)
    (count : option Z) :
  sorted_cf snapshot ->
  let refused :=
    empty (start_key range) || empty (end_key range)
    || key_lt (end_key range) (start_key range)
    || (String.eqb (start_key range) (end_key range)
        && (negb (with_start range) || negb (with_end range)))
    || KeyIsEndOfAllTable (start_key range)
    || KeyIsEndOfAllTable (end_key range) in
  KvCount EILLEGAL_PARAMTETERS KeyIsEndOfAllTable snapshot range count
  = if refused then (mkStatus (EOTHER EILLEGAL_PARAMTETERS), count)
    else
      (StatusOK,
       match count with
       | None => None
       | Some _ =>
           Some
             (to_uint64
                (Z.of_nat
                   (length
                      (List.filter
                         (fun kv =>
                            in_prefix_range (start_key range) (end_key range)
                              (with_start range) (with_end range)
                              (Iterator.kv_key kv))
                         snapshot))))
       end).
Proof.
  intros Hs. cbv zeta. unfold KvCount.
  destruct (empty (start_key range) || empty (end_key range));
    [reflexivity|].
  destruct (key_lt (end_key range) (start_key range)); [reflexivity|].
  destruct (String.eqb (start_key range) (end_key range)
            && (negb (with_start range) || negb (with_end range)));
    [reflexivity|].
  cbn [orb].
  destruct (KeyIsEndOfAllTable (start_key range)
            || KeyIsEndOfAllTable (end_key range)); [reflexivity|].
  destruct count as [c|]; [|reflexivity].
  pose proof (loop_over_range
                (fun (count : Z) (_ : t) => to_uint64 (count + 1))
                (fun (count : Z) (_ : Iterator.KeyValue) =>
                   to_uint64 (count + 1))
                snapshot (start_key range) (end_key range) (with_start range)
                (with_end range) 0 0 (fun _ _ _ _ _ _ => eq_refl) Hs) as H.
  cbv zeta in H. rewrite Nat.add_0_r in H. rewrite H.
  rewrite count_up_wraps by (unfold uint64_max; lia).
  reflexivity.
Qed.

Lemma KvCount_counts_prefix_range_witness :
  KvCount 0 (fun _ => false) example_cf
    (mkRangeWithOptions "b" "c" false true) (Some 7)
  = (StatusOK, Some 2).
Proof.
  exact (KvCount_counts_prefix_range 0 (fun _ => false) example_cf
           (mkRangeWithOptions "b" "c" false true) (Some 7)
           example_cf_sorted).
Defined.

End RocksIteratorFacts.

(** ** The raw RocksDB writer: deleting a range *)

Module RocksRangeWriterFacts.

Import KeyOrder KeyOrderFacts RawRocksEngine RocksRangeWriter.

Lemma DeleteRange_lookup (store : DB) (begin_key end_key key : string) :
  DeleteRange store (begin_key, end_key) !! key
  = if in_delete_range begin_key end_key key then None else store !! key.
Proof.
  unfold DeleteRange. simpl.
  destruct (in_delete_range begin_key end_key key) eqn:E.
  - apply map_lookup_filter_None. right. intros x _. simpl.
    rewrite E. discriminate.
  - destruct (store !! key) as [x|] eqn:Ex.
    + apply map_lookup_filter_Some. split; [exact Ex|exact E].
    + apply map_lookup_filter_None. left. exact Ex.
Qed.

(** X25.  After a [KvDeleteRange] that returns the OK status, [KvGet] of
    a key from the start key up to, not including, the end key returns
    [EKEY_NOTFOUND] and leaves [value] as it was, and every other key
    reads as before.  It returns OK exactly when both keys are non-empty,
    the start key is below the end key and RocksDB reports no failure; an
    empty key or a start key at or above the end key gives
    [EILLEGAL_PARAMTETERS], and a call that does not return OK leaves the
    store as it was. *)
Theorem KvDeleteRange_then_KvGet :
  forall (EILLEGAL_PARAMTETERS : Z) (faults : RangeFaults) (store : DB)
         (start_key end_key old : string),
    let '(status, store') :=
      KvDeleteRange EILLEGAL_PARAMTETERS faults store (start_key, end_key) in
    (if ok status then
       forall key : string,
         RocksReader.KvGet false store' key old
         = if in_delete_range start_key end_key key then
             (mkStatus EKEY_NOTFOUND, old)
           else RocksReader.KvGet false store key old
     else store' = store)
    /\ (ok status = true
        <-> start_key <> EmptyString /\ end_key <> EmptyString
            /\ key_lt start_key end_key = true
            /\ batch_DeleteRange_fails faults start_key end_key = false
            /\ Write_fails faults = false)
    /\ (empty start_key || empty end_key || key_le end_key start_key = true ->
        status = mkStatus (EOTHER EILLEGAL_PARAMTETERS)).
Proof.
  intros E faults store start_key end_key old. unfold KvDeleteRange.
  cbn [fst snd].
  destruct (empty start_key) eqn:Es.
  { apply RawRocksEngineFacts.empty_iff in Es. simpl.
    split; [reflexivity|]. split; [|reflexivity].
    split; [discriminate|]. intros (H & _). contradiction. }
  destruct (empty end_key) eqn:Ee.
  { apply RawRocksEngineFacts.empty_iff in Ee. simpl.
    split; [reflexivity|]. split; [|reflexivity].
    split; [discriminate|]. intros (_ & H & _). contradiction. }
  apply RocksWriterFacts.empty_false_ne in Es, Ee. cbn [orb].
  destruct (key_le end_key start_key) eqn:Ele.
  { simpl. split; [reflexivity|]. split; [|reflexivity].
    split; [discriminate|]. intros (_ & _ & H & _).
    unfold key_le in Ele. fold (key_lt start_key end_key) in Ele.
    rewrite H in Ele. discriminate. }
  assert (key_lt start_key end_key = true) as Hlt
      by (apply RocksReaderFacts.key_le_false_lt, Ele).
  unfold KvBatchDeleteRangeCore. cbn [batch_ranges].
  destruct (batch_DeleteRange_fails faults start_key end_key).
  { simpl. split; [reflexivity|]. split; [|discriminate].
    split; [discriminate|]. intros (_ & _ & _ & H & _). discriminate. }
  destruct (Write_fails faults).
  { simpl. split; [reflexivity|]. split; [|discriminate].
    split; [discriminate|]. intros (_ & _ & _ & _ & H). discriminate. }
  simpl. split; [|split; [tauto|discriminate]].
  intros key. unfold RocksReader.KvGet. rewrite DeleteRange_lookup.
  destruct (empty key) eqn:Ek;
    [|destruct (in_delete_range start_key end_key key); reflexivity].
  apply RawRocksEngineFacts.empty_iff in Ek. subst key.
  assert (in_delete_range start_key end_key EmptyString = false) as ->;
    [|reflexivity].
  unfold in_delete_range, key_le, String.ltb.
  destruct start_key; [contradiction|reflexivity].
Qed.

End RocksRangeWriterFacts.

(** ** What a split check reports *)

Module SplitMetricsFacts.

Import KeyOrder MergedIteratorInv MergedIteratorContents SplitAsCoded.
Import SplitCheckTask SplitMetrics.

(** The size and the count of the virtual call [SplitKey], whatever the
    policy behind it. *)
Lemma SplitKey_size (checker : SplitChecker)
    (raw_engine : string -> Iterator.ColumnFamily) (cf_names : list string)
    (start_key end_key : string) (count size : Z) :
  size_of_region
    (SplitKey checker raw_engine start_key end_key cf_names count size)
  = size
    + SplitPolicy.total
        (region_entries raw_engine cf_names start_key end_key).
Proof.
  pose proof (SplitAsCodedFacts.total_Permutation _ _
                (SplitAsCodedFacts.walk_Seek_New raw_engine cf_names start_key
                   end_key)) as Ht.
  simpl in Ht. rewrite <- Ht.
  destruct checker as [c|c|c]; simpl.
  - unfold HalfSplitChecker.SplitKey, HalfSplitChecker.loop,
      HalfSplitChecker.finish. simpl.
    rewrite MergedIteratorFacts.for_each_walk.
    apply HalfSplitCheckerFacts.Half_fold_size.
  - unfold SizeSplitChecker.SplitKey, SizeSplitChecker.loop,
      SizeSplitChecker.finish. simpl.
    rewrite MergedIteratorFacts.for_each_walk.
    apply SplitAsCodedFacts.Size_fold_size.
  - unfold KeysSplitChecker.SplitKey, KeysSplitChecker.loop,
      KeysSplitChecker.finish. simpl.
    rewrite MergedIteratorFacts.for_each_walk.
    apply SplitAsCodedFacts.Keys_fold_size.
Qed.

Lemma SplitKey_count (checker : SplitChecker)
    (raw_engine : string -> Iterator.ColumnFamily) (cf_names : list string)
    (start_key end_key : string) (count size : Z) :
  (forall cf_name, sorted_cf (raw_engine cf_name)) ->
  no_empty_keys raw_engine ->
  0 <= count < uint32_max ->
  count_of
    (SplitKey checker raw_engine start_key end_key cf_names count size)
  = to_uint32
      (count
       + Z.of_nat
           (length
              (distinct_keys
                 (region_entries raw_engine cf_names start_key end_key)))).
Proof.
  intros Hs Hne Hcount.
  rewrite <- (SplitCountFacts.stream_changes raw_engine cf_names start_key
                end_key Hs Hne).
  destruct checker as [c|c|c]; simpl.
  - unfold HalfSplitChecker.SplitKey, HalfSplitChecker.loop,
      HalfSplitChecker.finish. cbn [count_of].
    rewrite MergedIteratorFacts.for_each_walk.
    apply (SplitCountFacts.fold_count (HalfSplitChecker.body c)
             HalfSplitChecker.count HalfSplitChecker.prev_key
             (fun st k sz => proj1 (SplitCountFacts.Half_body_count c st k sz))
             (fun st k sz => proj2 (SplitCountFacts.Half_body_count c st k sz))
             _ (HalfSplitChecker.init count size) Hcount).
  - unfold SizeSplitChecker.SplitKey, SizeSplitChecker.loop,
      SizeSplitChecker.finish. cbn [count_of].
    rewrite MergedIteratorFacts.for_each_walk.
    apply (SplitCountFacts.fold_count (SizeSplitChecker.body c)
             SizeSplitChecker.count SizeSplitChecker.prev_key
             (fun st k sz => proj1 (SplitCountFacts.Size_body_count c st k sz))
             (fun st k sz => proj2 (SplitCountFacts.Size_body_count c st k sz))
             _ (SizeSplitChecker.init count size) Hcount).
  - unfold KeysSplitChecker.SplitKey, KeysSplitChecker.loop,
      KeysSplitChecker.finish. cbn [count_of].
    rewrite MergedIteratorFacts.for_each_walk.
    apply (SplitCountFacts.fold_count (KeysSplitChecker.body c)
             KeysSplitChecker.count KeysSplitChecker.prev_key
             (fun st k sz => proj1 (SplitCountFacts.Keys_body_count c st k sz))
             (fun st k sz => proj2 (SplitCountFacts.Keys_body_count c st k sz))
             _ (KeysSplitChecker.init count size) Hcount).
Qed.

(** X26.  A split check that runs to its end reports the region as it
    is: with column families in key order that hold no empty key, the
    key count it sets is the number of different keys in the encoded
    range of the region over the column families it walks (as a
    [uint32_t]) and the size it sets is the sum of their key and value
    sizes.  Each is set only when it is positive, whether or not the
    region is split, and nothing is set when the task has no metrics. *)
Theorem SplitCheck_reports_region_metrics :
  forall (EncodeRange : string * string -> string * string)
         (DecodeKey : string -> option (string * Z))
         (GetColumnFamilyNames : string -> list string * list string)
         (kVectorIndexTaskRunningNumExpectValue : Z)
         (region : Region) (checker : SplitChecker) (region_metrics_ : bool)
         (raw_engine : string -> Iterator.ColumnFamily),
    (forall cf_name, sorted_cf (raw_engine cf_name)) ->
    no_empty_keys raw_engine ->
    let encode_range :=
      EncodeRange (range_start_key region, range_end_key region) in
    let entries :=
      region_entries raw_engine
        (walked_cf_names (GetColumnFamilyNames (fst encode_range)))
        (fst encode_range) (snd encode_range) in
    let outcome :=
      SplitCheck EncodeRange DecodeKey GetColumnFamilyNames
        kVectorIndexTaskRunningNumExpectValue (Some region) (Some checker)
        region_metrics_ raw_engine in
    outcome = Abort
    \/ metrics_of outcome
       = Some
           (if region_metrics_ then
              mkMetrics
                (positive
                   (to_uint32 (Z.of_nat (length (distinct_keys entries)))))
                (positive (SplitPolicy.total entries))
            else mkMetrics None None).
Proof.
  intros EncodeRange DecodeKey GetCF kExpect region checker rm raw_engine Hs
         Hne. cbv zeta. unfold SplitCheck.
  destruct (GetCF (fst (EncodeRange (range_start_key region,
                                     range_end_key region))))
    as [raw_cf_names txn_cf_names] eqn:Ecf.
  set (cf_names :=
         match txn_cf_names with
         | [] => raw_cf_names
         | _ :: _ => txn_cf_names
         end).
  assert (walked_cf_names (raw_cf_names, txn_cf_names) = cf_names) as ->
      by (unfold walked_cf_names, cf_names; simpl;
          destruct txn_cf_names; reflexivity).
  rewrite SplitKey_size.
  rewrite (SplitKey_count checker raw_engine cf_names _ _ 0 0 Hs Hne)
    by (unfold uint32_max; lia).
  rewrite !Z.add_0_l.
  match goal with
  | |- context [match ?d with Some _ => _ | None => Abort end] =>
      destruct d as [plain_split_key|]
  end; [|left; reflexivity].
  right.
  destruct (validate kExpect region plain_split_key); reflexivity.
Qed.

Lemma SplitCheck_reports_region_metrics_witness :
  metrics_of
    (SplitCheck (fun r => r) (fun k => Some (k, 0))
       (fun _ => (["data"%string; "default"%string], [])) 5
       (Some SplitExamples.example_region)
       (Some (KEYS example_keys_checker)) true two_cfs_engine)
  = Some (mkMetrics (Some 4) (Some 17)).
Proof.
  destruct (SplitCheck_reports_region_metrics (fun r => r)
              (fun k => Some (k, 0))
              (fun _ => (["data"%string; "default"%string], [])) 5
              SplitExamples.example_region (KEYS example_keys_checker) true
              two_cfs_engine MergedIteratorOrderFacts.two_cfs_sorted
              SplitAsCodedFacts.two_cfs_no_empty_keys) as [H|H].
  - vm_compute in H. discriminate.
  - exact H.
Defined.

End SplitMetricsFacts.

(** ** The workers of the split check take turns *)

Module SplitCheckWorkersFacts.

Import SplitCheckWorkers.

Lemma concat_insert_snoc {A : Type} (queues : list (list A)) (i : nat)
    (queue : list A) (x : A) :
  queues !! i = Some queue ->
  Permutation (concat (<[i := queue ++ [x]]> queues)) (concat queues ++ [x]).
Proof.
  revert i. induction queues as [|q queues IH]; intros [|i] H; simpl in *;
    try discriminate.
  - injection H as ->. rewrite <- !app_assoc.
    apply Permutation_app_head, Permutation_app_comm.
  - rewrite (IH i H). rewrite app_assoc. reflexivity.
Qed.

Lemma concat_repeat_nil {A : Type} (n : nat) :
  concat (repeat ([] : list A) n) = [].
Proof. induction n as [|n IH]; simpl; [reflexivity|exact IH]. Qed.

(** One call keeps the workers in step and hands the task to one of
    them, if that worker takes it. *)
Lemma Execute_keeps (w : t) (task : Z) (worker_executes : bool) :
  (offset_ w < length (workers_ w))%nat -> balanced w ->
  exists w' : t,
    Execute w task worker_executes = Some (worker_executes, w')
    /\ length (workers_ w') = length (workers_ w)
    /\ (offset_ w' < length (workers_ w'))%nat
    /\ balanced w'
    /\ Permutation (concat (workers_ w'))
         (concat (workers_ w) ++ (if worker_executes then [task] else [])).
Proof.
  intros Hoff [n Hbal]. unfold Execute.
  destruct (lookup_lt_is_Some_2 _ _ Hoff) as [queue Hq]. rewrite Hq.
  destruct worker_executes; simpl.
  - eexists. split; [reflexivity|]. simpl. rewrite length_insert.
    split; [reflexivity|].
    split; [apply Nat.mod_upper_bound; lia|]. split.
    + pose proof (Hbal _ _ Hq) as Hlen. rewrite Nat.ltb_irrefl in Hlen.
      destruct (Nat.eq_dec (offset_ w + 1)%nat (length (workers_ w))) as [He|Hn].
      * exists (Datatypes.S n). intros i q Hi.
        cbn [workers_ offset_] in Hi |- *.
        rewrite He, Nat.Div0.mod_same. cbn [Nat.ltb Nat.leb].
        destruct (Nat.eq_dec i (offset_ w)) as [->|Hio].
        -- rewrite list_lookup_insert_eq in Hi by exact Hoff.
           injection Hi as <-. rewrite length_app. simpl. lia.
        -- rewrite list_lookup_insert_ne in Hi by congruence.
           pose proof (lookup_lt_Some _ _ _ Hi) as Hilt.
           rewrite (Hbal _ _ Hi).
           destruct (Nat.ltb_spec i (offset_ w)); [reflexivity|lia].
      * exists n. intros i q Hi.
        cbn [workers_ offset_] in Hi |- *.
        rewrite Nat.mod_small by lia.
        destruct (Nat.eq_dec i (offset_ w)) as [->|Hio].
        -- rewrite list_lookup_insert_eq in Hi by exact Hoff.
           injection Hi as <-. rewrite length_app. simpl.
           destruct (Nat.ltb_spec (offset_ w) (offset_ w + 1)%nat); lia.
        -- rewrite list_lookup_insert_ne in Hi by congruence.
           rewrite (Hbal _ _ Hi).
           destruct (Nat.ltb_spec i (offset_ w));
             destruct (Nat.ltb_spec i (offset_ w + 1)%nat); try reflexivity; lia.
    + apply concat_insert_snoc, Hq.
  - exists w. split; [reflexivity|]. split; [reflexivity|].
    split; [exact Hoff|]. split; [exists n; exact Hbal|].
    rewrite app_nil_r. reflexivity.
Qed.

Lemma Execute_all_keeps (tasks : list (Z * bool)) :
  forall w : t,
    (offset_ w < length (workers_ w))%nat -> balanced w ->
    exists w' : t,
      Execute_all w tasks = Some w'
      /\ length (workers_ w') = length (workers_ w)
      /\ (offset_ w' < length (workers_ w'))%nat
      /\ balanced w'
      /\ Permutation (concat (workers_ w'))
           (concat (workers_ w) ++ taken tasks).
Proof.
  induction tasks as [|[task e] rest IH]; intros w Hoff Hbal.
  - exists w. simpl. rewrite app_nil_r. auto.
  - destruct (Execute_keeps w task e Hoff Hbal)
      as (w1 & E1 & Hl1 & Ho1 & Hb1 & Hp1).
    destruct (IH w1 Ho1 Hb1) as (w2 & E2 & Hl2 & Ho2 & Hb2 & Hp2).
    exists w2. cbn [Execute_all]. rewrite E1.
    split; [exact E2|]. split; [congruence|]. split; [exact Ho2|].
    split; [exact Hb2|]. rewrite Hp2, Hp1. rewrite <- app_assoc.
    apply Permutation_app_head. unfold taken. simpl.
    destruct e; reflexivity.
Qed.

(** X27.  The workers of the split check take turns.  From [Init(num)]
    with at least one worker, any run of [Execute] calls stays within the
    workers ([offset_] is always the index of a worker), hands every task
    that a worker takes to exactly one worker, and keeps the load even:
    no worker holds more than one task more than another.  A task that
    its worker refuses is handed to nobody and the same worker is asked
    again next time. *)
Theorem SplitCheckWorkers_take_turns (num : nat) (tasks : list (Z * bool)) :
  (0 < num)%nat ->
  exists w : t,
    Execute_all (Init num) tasks = Some w
    /\ length (workers_ w) = num
    /\ (offset_ w < num)%nat
    /\ balanced w
    /\ Permutation (concat (workers_ w)) (taken tasks).
Proof.
  intros Hnum.
  destruct (Execute_all_keeps tasks (Init num)) as (w & E & Hl & Ho & Hb & Hp).
  - simpl. rewrite repeat_length. exact Hnum.
  - exists 0%nat. intros i q Hi. simpl in *.
    apply list_elem_of_lookup_2, list_elem_of_In, repeat_spec in Hi.
    subst q. reflexivity.
  - simpl in Hl. rewrite repeat_length in Hl.
    exists w. split; [exact E|]. split; [exact Hl|].
    split; [rewrite <- Hl; exact Ho|]. split; [exact Hb|].
    rewrite Hp. simpl.
    rewrite concat_repeat_nil. reflexivity.
Qed.

Lemma SplitCheckWorkers_take_turns_witness :
  exists w : t,
    Execute_all (Init 2) [(1, true); (2, false); (3, true); (4, true)]
    = Some w
    /\ length (workers_ w) = 2%nat
    /\ (offset_ w < 2)%nat
    /\ balanced w
    /\ Permutation (concat (workers_ w))
         (taken [(1, true); (2, false); (3, true); (4, true)]).
Proof.
  apply (SplitCheckWorkers_take_turns 2
           [(1, true); (2, false); (3, true); (4, true)]).
  lia.
Defined.

End SplitCheckWorkersFacts.

(** ** Scanning vector ids *)

Module VectorScanFacts.

Import KeyOrder Pb VectorReader VectorReaderInv VectorScan.

Lemma ok_StatusOK (status : Status) : ok status = true -> status = StatusOK.
Proof.
  destruct status as [code]. unfold ok. simpl.
  destruct code; try discriminate. reflexivity.
Qed.

Section Reader.

Variable env : Env.
Variable ctx : ScanContext.
Variable past_end : Z -> bool.

Hypothesis within_end :
  forall vector_id : Z,
    past_end vector_id = false ->
    if is_reverse ctx then end_id ctx <= vector_id
    else vector_id <= end_id ctx.

(** The loop lets through only what the scan asks for and stops at the
    limit, after the first id at the latest. *)
Lemma scan_ids_bounds (entries : list Iterator.KeyValue) :
  forall (vector_ids ids : list Z) (status : Status),
    Forall (scanned_id env ctx) vector_ids ->
    Z.of_nat (length vector_ids) < Z.max 1 (limit ctx) ->
    scan_ids env ctx past_end entries vector_ids = Return status ids ->
    Forall (scanned_id env ctx) ids
    /\ Z.of_nat (length ids) <= Z.max 1 (limit ctx).
Proof.
  induction entries as [|kv rest IH]; intros acc ids status Hacc Hlen;
    cbn [scan_ids].
  - intros H. injection H as _ <-. split; [exact Hacc|lia].
  - set (vector_id :=
           DecodeVectorIdFromEncodeKeyWithTs env (Iterator.kv_key kv)).
    destruct (Z.gtb_spec vector_id 0) as [Hpos|Hneg]; [|discriminate].
    cbn [negb].
    destruct (negb (end_id ctx =? 0) && past_end vector_id) eqn:Eend.
    { intros H. injection H as _ <-. split; [exact Hacc|lia]. }
    assert (end_id ctx <> 0 ->
            if is_reverse ctx then end_id ctx <= vector_id
            else vector_id <= end_id ctx) as Hend.
    { intros Hne. apply within_end.
      apply andb_false_iff in Eend. destruct Eend as [E|E]; [|exact E].
      apply negb_false_iff, Z.eqb_eq in E. contradiction. }
    assert (forall filtered : use_scalar_filter ctx = true ->
                              CompareVectorScalarData env (scan_ts ctx)
                                (scan_region_range ctx)
                                (scan_partition_id ctx) vector_id
                                (scalar_data_for_filter ctx)
                              = Return StatusOK true,
               (if Z.of_nat (length (acc ++ [vector_id])) >=? limit ctx then
                  Return StatusOK (acc ++ [vector_id])
                else scan_ids env ctx past_end rest (acc ++ [vector_id]))
               = Return status ids ->
               Forall (scanned_id env ctx) ids
               /\ Z.of_nat (length ids) <= Z.max 1 (limit ctx)) as Hpush.
    { intros Hfilter.
      assert (Forall (scanned_id env ctx) (acc ++ [vector_id])) as Hall.
      { apply Forall_app. split; [exact Hacc|].
        constructor; [|constructor]. repeat split; [lia|exact Hend|].
        exact Hfilter. }
      assert (Z.of_nat (length (acc ++ [vector_id]))
              = Z.of_nat (length acc) + 1) as Hl
          by (rewrite length_app; simpl; lia).
      destruct (Z.geb_spec (Z.of_nat (length (acc ++ [vector_id])))
                  (limit ctx)) as [Hge|Hlt].
      - intros H. injection H as _ <-. split; [exact Hall|lia].
      - apply IH; [exact Hall|lia]. }
    destruct (use_scalar_filter ctx) eqn:Ef.
    + destruct (CompareVectorScalarData env (scan_ts ctx)
                  (scan_region_range ctx) (scan_partition_id ctx) vector_id
                  (scalar_data_for_filter ctx))
        as [s compare_result|] eqn:Ec; [|discriminate].
      destruct (ok s) eqn:Eok; cbn [negb].
      * destruct compare_result; cbn [negb].
        -- apply Hpush. intros _. rewrite (ok_StatusOK s Eok). reflexivity.
        -- apply IH; assumption.
      * intros H. injection H as _ <-. split; [exact Hacc|lia].
    + apply Hpush. discriminate.
Qed.

End Reader.

(** X28.  [ScanVectorId] stays within what the scan asks for.  With a
    limit that is not negative, a scan into an empty vector hands back at
    most [limit] ids, and one id when the limit is zero, because the limit
    is looked at after an id has been added.  Every id it hands back is
    positive, lies on the side of [end_id] the direction allows when
    [end_id] is not zero, and has a scalar record that compares equal to
    the filter when the scan uses one. *)
Theorem ScanVectorId_within_bounds :
  forall (env : Env) (EncodeVectorKey : ascii -> Z -> Z -> string)
         (PrefixNext : string -> string) (NewIterator_null : bool)
         (ctx : ScanContext) (status : Status) (vector_ids : list Z),
    0 <= limit ctx ->
    ScanVectorId env EncodeVectorKey PrefixNext NewIterator_null ctx []
    = Return status vector_ids ->
    Z.of_nat (length vector_ids) <= Z.max 1 (limit ctx)
    /\ Forall (scanned_id env ctx) vector_ids.
Proof.
  intros env EncodeVectorKey PrefixNext null ctx status ids Hlimit.
  unfold ScanVectorId. cbv zeta.
  destruct (is_reverse ctx) eqn:Erev; cbn [negb].
  - match goal with
    | |- context [ReverseIterator.SeekForPrev ?k _] => set (seek_key := k)
    end.
    destruct (key_lt seek_key (fst (EncodeRange env (scan_region_range ctx))));
      [intros H; injection H as _ <-; split; [simpl; lia|constructor]|].
    destruct null;
      [intros H; injection H as _ <-; split; [simpl; lia|constructor]|].
    intros H.
    apply (scan_ids_bounds env ctx (fun vector_id => vector_id <? end_id ctx))
      in H; [tauto| |constructor|simpl; lia].
    intros id Hid. rewrite Erev. apply Z.ltb_ge in Hid. exact Hid.
  - match goal with
    | |- context [Iterator.Seek ?k _] => set (seek_key := k)
    end.
    destruct (key_le (snd (EncodeRange env (scan_region_range ctx))) seek_key);
      [intros H; injection H as _ <-; split; [simpl; lia|constructor]|].
    destruct null;
      [intros H; injection H as _ <-; split; [simpl; lia|constructor]|].
    intros H.
    apply (scan_ids_bounds env ctx (fun vector_id => vector_id >? end_id ctx))
      in H; [tauto| |constructor|simpl; lia].
    intros id Hid. rewrite Erev.
    destruct (Z.gtb_spec id (end_id ctx)); [discriminate|lia].
Qed.

Lemma ScanVectorId_within_bounds_witness :
  Z.of_nat (length [2; 3]) <= Z.max 1 (limit example_scan)
  /\ Forall (scanned_id VectorExamples.example_env example_scan) [2; 3].
Proof.
  exact (ScanVectorId_within_bounds VectorExamples.example_env
           (fun _ _ vector_id => VectorExamples.key_of_id vector_id)
           (fun key => key) false example_scan StatusOK [2; 3]
           ltac:(simpl; lia) ltac:(vm_compute; reflexivity)).
Defined.

(** X29.  [VectorScanQuery] hands back one entry per scanned id.  When
    the stored records parse and the scan returns the OK status, the query
    returns the OK status with one entry for every id [ScanVectorId] found,
    in the order of the scan: the entry carries the id when the id still
    has a record in the data column family and is an empty [VectorWithId]
    when it has none.  When the scan fails the query returns the status of
    the scan and adds nothing. *)
Theorem VectorScanQuery_one_entry_per_scanned_id :
  forall (env : Env) (EncodeVectorKey : ascii -> Z -> Z -> string)
         (PrefixNext : string -> string) (NewIterator_null : bool)
         (ctx : ScanContext) (status : Status) (vector_ids : list Z),
    let qctx := query_context ctx vector_ids in
    parses env qctx kVectorDataCF (ParseVector env) ->
    parses env qctx kVectorScalarCF (ParseScalar env) ->
    parses env qctx kVectorTableCF (ParseTable env) ->
    ScanVectorId env EncodeVectorKey PrefixNext NewIterator_null ctx []
    = Return status vector_ids ->
    if ok status then
      exists entries : list VectorWithId,
        VectorScanQuery env EncodeVectorKey PrefixNext NewIterator_null ctx []
        = Return StatusOK entries
        /\ Forall2 (entry_ok env qctx) vector_ids entries
    else
      VectorScanQuery env EncodeVectorKey PrefixNext NewIterator_null ctx []
      = Return status [].
Proof.
  intros env EncodeVectorKey PrefixNext null ctx status ids qctx Hd Hs Ht
         Hscan.
  unfold VectorScanQuery. rewrite Hscan.
  destruct (ok status); cbn [negb]; [|reflexivity].
  destruct ids as [|vector_id ids]; [exists []; split; [reflexivity|constructor]|].
  fold qctx.
  destruct (VectorReaderFacts.query_each_entries env qctx
              (vector_id :: ids) Hd [])
    as (s1 & e1 & E1 & H1).
  rewrite E1. cbn [app].
  assert (exists s2 e2,
             (if scan_with_scalar_data ctx then
                attach_each
                  (QueryVectorScalarData env (scan_ts ctx)
                     (scan_region_range ctx) (scan_partition_id ctx)
                     (scan_selected_scalar_keys ctx)) e1
              else Return StatusOK e1) = Return s2 e2
             /\ Forall2 (entry_ok env qctx) (vector_id :: ids) e2)
    as (s2 & e2 & -> & H2).
  { destruct (scan_with_scalar_data ctx).
    - destruct (VectorReaderFacts.attach_each_keeps _
                  (fun v => VectorReaderFacts.QueryVectorScalarData_id env
                              qctx v Hs) e1)
        as (s & e' & E' & Hk).
      exists s, e'. split; [exact E'|].
      eapply VectorReaderFacts.Forall2_entry_ok_keeps; eauto.
    - exists StatusOK, e1. split; [reflexivity|exact H1]. }
  assert (exists s3 e3,
             (if scan_with_table_data ctx then
                attach_each
                  (QueryVectorTableData env (scan_ts ctx)
                     (scan_region_range ctx) (scan_partition_id ctx)) e2
              else Return StatusOK e2) = Return s3 e3
             /\ Forall2 (entry_ok env qctx) (vector_id :: ids) e3)
    as (s3 & e3 & -> & H3).
  { destruct (scan_with_table_data ctx).
    - destruct (VectorReaderFacts.attach_each_keeps _
                  (fun v => VectorReaderFacts.QueryVectorTableData_id env
                              qctx v Ht) e2)
        as (s & e' & E' & Hk).
      exists s, e'. split; [exact E'|].
      eapply VectorReaderFacts.Forall2_entry_ok_keeps; eauto.
    - exists StatusOK, e2. split; [reflexivity|exact H2]. }
  exists e3. split; [reflexivity|exact H3].
Qed.

Lemma VectorScanQuery_one_entry_per_scanned_id_witness :
  exists entries : list VectorWithId,
    VectorScanQuery VectorExamples.example_env
      (fun _ _ vector_id => VectorExamples.key_of_id vector_id)
      (fun key => key) false example_scan []
    = Return StatusOK entries
    /\ Forall2 (entry_ok VectorExamples.example_env
                  (query_context example_scan [2; 3]))
         [2; 3] entries.
Proof.
  apply (VectorScanQuery_one_entry_per_scanned_id VectorExamples.example_env
           (fun _ _ vector_id => VectorExamples.key_of_id vector_id)
           (fun key => key) false example_scan StatusOK [2; 3]).
  - intros key status value _ _. discriminate.
  - intros key status value _ _. discriminate.
  - intros key status value _ _. discriminate.
  - vm_compute. reflexivity.
Defined.

End VectorScanFacts.
